(** * notion_edit: block-tree walk, mutating transforms and chunked writer

    A shallow embedding of the JavaScript sources of the repository
    (the block tree fetcher, the rich-text extractor and assembler, the
    checkbox and quote converters, the text-substitution transform and
    the chunked payload writer; then the page fetcher and the workspace
    run of the find-and-replace tool, the block search, the
    single-field writers, the field cleanup and the text and slugs of
    the speech workflow), followed by the properties proved about them.

    Conventions.
    - A JavaScript string is the list of its UTF-16 code units, each a
      number in [N]; identifiers, block type tags, field names and error
      messages, which the code only compares or searches, are kept as
      [string].
    - Array indices are in [Z], as the code uses [-1] as "not found".
    - The workspace provider is an explicit state (a forest of blocks,
      a schedule of transport faults and a log of the calls received);
      every script is a function in a state-and-exception monad over it.
    - Loops whose termination depends on the data carry a fuel argument;
      running out of fuel is the distinguished outcome [Diverge]
      (respectively [None] for pure loops). *)

From Stdlib Require Import ZArith NArith Lia Bool Ascii String DecimalString DecimalNat List.
Import ListNotations.
Open Scope Z_scope.

(* ================================================================== *)
(** * Part I. Definitions                                             *)
(* ================================================================== *)

(** ** JavaScript strings *)

Module JS.

Definition ustring := list N.

(** Code units of a literal. *)
Definition ustr (s : string) : ustring :=
  map N_of_ascii (list_ascii_of_string s).

Definition len (s : ustring) : Z := Z.of_nat (List.length s).

(** [s[i]]: [None] stands for [undefined]. *)
Definition charAt (s : ustring) (i : Z) : option N :=
  if i <? 0 then None else nth_error s (Z.to_nat i).

Definition is_char (c : N) (o : option N) : bool :=
  match o with Some d => N.eqb c d | None => false end.

Definition clamp (s : ustring) (i : Z) : Z := Z.max 0 (Z.min i (len s)).

(** [s.substring(a, b)]: both bounds clamped to the string, swapped when
    out of order. *)
Definition substring (s : ustring) (a b : Z) : ustring :=
  let a' := clamp s a in
  let b' := clamp s b in
  let lo := Z.min a' b' in
  let hi := Z.max a' b' in
  firstn (Z.to_nat (hi - lo)) (skipn (Z.to_nat lo) s).

(** The WhiteSpace and LineTerminator code points: what [trim()] strips
    and what [\s] matches. *)
Definition isWhiteSpace (c : N) : bool :=
  (existsb (N.eqb c)
     [9; 10; 11; 12; 13; 32; 160; 5760; 8232; 8233; 8239; 8287; 12288; 65279]
   || ((8192 <=? c) && (c <=? 8202)))%N.

Fixpoint dropWhile (f : N -> bool) (s : ustring) : ustring :=
  match s with
  | [] => []
  | c :: s' => if f c then dropWhile f s' else s
  end.

Definition trimStart (s : ustring) : ustring := dropWhile isWhiteSpace s.
Definition trimEnd (s : ustring) : ustring := rev (trimStart (rev s)).
Definition trim (s : ustring) : ustring := trimEnd (trimStart s).

(** Truthiness of a string: the empty string is falsy. *)
Definition truthy (s : ustring) : bool :=
  match s with [] => false | _ => true end.

Fixpoint startsWith (p s : ustring) : bool :=
  match p, s with
  | [], _ => true
  | _ :: _, [] => false
  | c :: p', d :: s' => N.eqb c d && startsWith p' s'
  end.

(** Candidates [k, k-1, ...], [n] of them. *)
Fixpoint lastIndexOfFrom (n : nat) (p s : ustring) (k : Z) : Z :=
  match n with
  | O => -1
  | S n' =>
      if startsWith p (skipn (Z.to_nat k) s) then k
      else lastIndexOfFrom n' p s (k - 1)
  end.

(** [s.lastIndexOf(p, pos)]. *)
Definition lastIndexOf (s p : ustring) (pos : Z) : Z :=
  let start := Z.min (Z.max pos 0) (len s - len p) in
  if start <? 0 then -1
  else lastIndexOfFrom (S (Z.to_nat start)) p s start.

(** [a.join('')]. *)
Definition join0 (l : list ustring) : ustring := concat l.

(** [a.join(sep)]. *)
Fixpoint join (sep : ustring) (l : list ustring) : ustring :=
  match l with
  | [] => []
  | [x] => x
  | x :: l' => x ++ sep ++ join sep l'
  end.

(** Whether some character satisfying [f] is immediately followed by one
    satisfying [g]. *)
Fixpoint adjacent (f g : N -> bool) (s : ustring) : bool :=
  match s with
  | [] => false
  | c :: s' =>
      (f c && match s' with d :: _ => g d | [] => false end) || adjacent f g s'
  end.

(** [s.includes(p)]. *)
Fixpoint includes (s p : ustring) : bool :=
  startsWith p s
  || match s with
     | [] => false
     | _ :: s' => includes s' p
     end.

Definition notWhiteSpace (c : N) : bool := negb (isWhiteSpace c).

(** What is left of a string when its whitespace is deleted. *)
Definition visible (s : ustring) : ustring := filter notWhiteSpace s.

End JS.

(** ** Splitting text for synthesis and payloads for storage *)

Module Chunking.
Import JS.

Definition isSentenceMark (o : option N) : bool :=
  is_char 46 o || is_char 33 o || is_char 63 o.

(** The backwards scan for a sentence ending,
    [for (let i = chunkEnd - 1; i > searchStart; i--)]: [n] positions
    from [i] downwards; [followers] are the characters accepted after
    the mark; [best] is returned unchanged when nothing is found. *)
Fixpoint findSentenceEnd (followers : list N) (n : nat) (text : ustring)
    (i best : Z) : Z :=
  match n with
  | O => best
  | S n' =>
      if isSentenceMark (charAt text i)
         && ((i =? len text - 1)
             || existsb (fun c => is_char c (charAt text (i + 1))) followers)
      then i + 1
      else findSentenceEnd followers n' text (i - 1) best
  end.

Definition scanCount (chunkEnd searchStart : Z) : nat :=
  Z.to_nat (chunkEnd - 1 - searchStart).

(** The skipping loop at the end of an iteration. *)
Fixpoint countLeading (f : N -> bool) (s : ustring) : Z :=
  match s with
  | [] => 0
  | c :: s' => if f c then 1 + countLeading f s' else 0
  end.

Definition skipSeparators (seps : list N) (text : ustring) (pos : Z) : Z :=
  pos + countLeading (fun c => existsb (N.eqb c) seps)
          (skipn (Z.to_nat pos) text).

(** *** The converter's splitter (space, newline and carriage return
        end a sentence; two sentence scans, then the last space) *)

Definition sentenceFollowers : list N := [32; 10; 13]%N.

Definition chooseChunkEnd (text : ustring) (maxLength currentPosition : Z) : Z :=
  let chunkEnd := Z.min (currentPosition + maxLength) (len text) in
  if chunkEnd <? len text then
    let searchStart := Z.max currentPosition (chunkEnd - 1000) in
    let bestSentenceEnd :=
      findSentenceEnd sentenceFollowers (scanCount chunkEnd searchStart)
        text (chunkEnd - 1) (-1) in
    if bestSentenceEnd >? currentPosition then bestSentenceEnd
    else
      let searchStart := Z.max currentPosition (chunkEnd - 2000) in
      let bestSentenceEnd :=
        findSentenceEnd sentenceFollowers (scanCount chunkEnd searchStart)
          text (chunkEnd - 1) bestSentenceEnd in
      if bestSentenceEnd >? currentPosition then bestSentenceEnd
      else
        let lastSpace := lastIndexOf text [32%N] chunkEnd in
        if lastSpace >? currentPosition then lastSpace else chunkEnd
  else chunkEnd.

Definition pushChunk (chunks : list ustring) (chunk : ustring) : list ustring :=
  if truthy chunk then chunks ++ [chunk] else chunks.

Fixpoint splitLoop (fuel : nat) (text : ustring) (maxLength currentPosition : Z)
    (chunks : list ustring) : option (list ustring) :=
  match fuel with
  | O => if currentPosition <? len text then None else Some chunks
  | S fuel' =>
      if currentPosition <? len text then
        let chunkEnd := chooseChunkEnd text maxLength currentPosition in
        let chunk := trim (substring text currentPosition chunkEnd) in
        splitLoop fuel' text maxLength
          (skipSeparators sentenceFollowers text chunkEnd)
          (pushChunk chunks chunk)
      else Some chunks
  end.

Definition splitTextIntoChunks (fuel : nat) (text : ustring) (maxLength : Z)
  : option (list ustring) :=
  if len text <=? maxLength then Some [text]
  else splitLoop fuel text maxLength 0 [].

(** *** The workflow's splitter (space and newline end a sentence; one
        sentence scan, then a paragraph break, then the last space) *)

Definition workflowFollowers : list N := [32; 10]%N.

Definition workflowChunkEnd (text : ustring) (maxLength currentPosition : Z) : Z :=
  let chunkEnd := Z.min (currentPosition + maxLength) (len text) in
  if chunkEnd <? len text then
    let searchStart := Z.max currentPosition (chunkEnd - 1000) in
    let bestBreak :=
      findSentenceEnd workflowFollowers (scanCount chunkEnd searchStart)
        text (chunkEnd - 1) (-1) in
    if bestBreak >? currentPosition then bestBreak
    else
      let paragraphBreak := lastIndexOf text [10%N; 10%N] chunkEnd in
      if paragraphBreak >? currentPosition then paragraphBreak
      else
        let lastSpace := lastIndexOf text [32%N] chunkEnd in
        if lastSpace >? currentPosition then lastSpace else chunkEnd
  else chunkEnd.

Fixpoint workflowLoop (fuel : nat) (text : ustring) (maxLength currentPosition : Z)
    (chunks : list ustring) : option (list ustring) :=
  match fuel with
  | O => if currentPosition <? len text then None else Some chunks
  | S fuel' =>
      if currentPosition <? len text then
        let chunkEnd := workflowChunkEnd text maxLength currentPosition in
        let chunk := trim (substring text currentPosition chunkEnd) in
        workflowLoop fuel' text maxLength
          (skipSeparators workflowFollowers text chunkEnd)
          (pushChunk chunks chunk)
      else Some chunks
  end.

Definition workflowSplitTextIntoChunks (fuel : nat) (text : ustring)
    (maxLength : Z) : option (list ustring) :=
  if len text <=? maxLength then Some [text]
  else workflowLoop fuel text maxLength 0 [].

(** *** Fixed-size slicing,
        [for (let i = 0; i < s.length; i += size) push(s.substring(i, min(i + size, s.length)))] *)

Fixpoint sliceLoop (fuel : nat) (s : ustring) (size i : Z)
    (acc : list ustring) : option (list ustring) :=
  match fuel with
  | O => if i <? len s then None else Some acc
  | S fuel' =>
      if i <? len s then
        sliceLoop fuel' s size (i + size)
          (acc ++ [substring s i (Z.min (i + size) (len s))])
      else Some acc
  end.

Definition MAX_FIELD_SIZE : Z := 100000.

(** The slicing of the base64 payload into fields at the end of
    [convertTextToSpeech]. *)
Definition sliceIntoFields (fuel : nat) (base64Audio : ustring)
  : option (list ustring) :=
  sliceLoop fuel base64Audio MAX_FIELD_SIZE 0 [].

(** *** What the chunks are compared with *)

(** The text made of the chunks in order with a gap before the first,
    between two consecutive ones and after the last. *)
Fixpoint weave (gaps chunks : list ustring) : ustring :=
  match gaps with
  | [] => []
  | gap :: gaps' =>
      gap ++ match chunks with
             | [] => []
             | chunk :: chunks' => chunk ++ weave gaps' chunks'
             end
  end.

(** A string of white space only. *)
Definition blank (s : ustring) : bool := forallb isWhiteSpace s.

End Chunking.

(** ** The workspace provider *)

Module Notion.
Import JS.

(** *** Rich text *)

Record Link := { url : ustring }.

Record TextObject := { content : ustring; link : option Link }.

(** A rich-text span. [rt_type] is the discriminator (["text"],
    ["mention"], ["equation"]); [text] is present on spans of type
    ["text"]; [plain_text] is empty where the provider sends none. *)
Record RichText := {
  rt_type : string;
  text : option TextObject;
  href : option ustring;
  plain_text : ustring
}.

(** *** Blocks *)

(** What the provider stores for a block: identifier, type tag and the
    payload found under the key named by the type
    ([block[block.type]]). An absent [rich_text] is the empty list. *)
Record BlockData := {
  id : nat;
  type : string;
  rich_text : list RichText;
  color : option string;
  checked : option bool;
  language : option string;
  cells : list (list RichText)
}.

(** A block as a listing call returns it. *)
Record Block := { data : BlockData; has_children : bool }.

(** The content of the workspace: a forest of blocks in first-child /
    next-sibling form. [Sib b kids rest] is the block [b] with its
    children [kids], followed by its later siblings [rest]. Pages are
    the roots. *)
Inductive Forest : Type :=
| Empty
| Sib (b : BlockData) (kids : Forest) (rest : Forest).

Definition nonEmpty (f : Forest) : bool :=
  match f with Empty => false | Sib _ _ _ => true end.

Fixpoint siblings (f : Forest) : list (BlockData * Forest) :=
  match f with
  | Empty => []
  | Sib b kids rest => (b, kids) :: siblings rest
  end.

Definition view (n : BlockData * Forest) : Block :=
  {| data := fst n; has_children := nonEmpty (snd n) |}.

Fixpoint ids (f : Forest) : list nat :=
  match f with
  | Empty => []
  | Sib b kids rest => id b :: ids kids ++ ids rest
  end.

(** Children of the block [i]. *)
Fixpoint findKids (i : nat) (f : Forest) : option Forest :=
  match f with
  | Empty => None
  | Sib b kids rest =>
      if Nat.eqb (id b) i then Some kids
      else match findKids i kids with
           | Some r => Some r
           | None => findKids i rest
           end
  end.

Fixpoint findBlock (i : nat) (f : Forest) : option BlockData :=
  match f with
  | Empty => None
  | Sib b kids rest =>
      if Nat.eqb (id b) i then Some b
      else match findBlock i kids with
           | Some r => Some r
           | None => findBlock i rest
           end
  end.

(** Removing a block removes its subtree with it. *)
Fixpoint remove (i : nat) (f : Forest) : Forest :=
  match f with
  | Empty => Empty
  | Sib b kids rest =>
      if Nat.eqb (id b) i then rest
      else Sib b (remove i kids) (remove i rest)
  end.

(** Insert the leaf [new] right after the sibling [after]. *)
Fixpoint insertAfter (after : nat) (new : BlockData) (f : Forest) : option Forest :=
  match f with
  | Empty => None
  | Sib b kids rest =>
      if Nat.eqb (id b) after then Some (Sib b kids (Sib new Empty rest))
      else option_map (Sib b kids) (insertAfter after new rest)
  end.

(** Rewrite the children of the block [i]. *)
Fixpoint updateKids (i : nat) (g : Forest -> option Forest) (f : Forest)
  : option Forest :=
  match f with
  | Empty => None
  | Sib b kids rest =>
      if Nat.eqb (id b) i then option_map (fun k => Sib b k rest) (g kids)
      else match updateKids i g kids with
           | Some k => Some (Sib b k rest)
           | None => option_map (Sib b kids) (updateKids i g rest)
           end
  end.

(** Rewrite the stored data of the block [i]. *)
Fixpoint updateBlock (i : nat) (g : BlockData -> BlockData) (f : Forest) : Forest :=
  match f with
  | Empty => Empty
  | Sib b kids rest =>
      if Nat.eqb (id b) i then Sib (g b) kids rest
      else Sib b (updateBlock i g kids) (updateBlock i g rest)
  end.

Fixpoint size (f : Forest) : nat :=
  match f with
  | Empty => O
  | Sib _ kids rest => S (size kids + size rest)
  end.

(** Siblings [f] followed by siblings [g]. *)
Fixpoint fapp (f g : Forest) : Forest :=
  match f with
  | Empty => g
  | Sib b kids rest => Sib b kids (fapp rest g)
  end.

(** The forest [f] with [new] as the children of the block [i]. *)
Fixpoint substKids (i : nat) (new : Forest) (f : Forest) : Forest :=
  match f with
  | Empty => Empty
  | Sib b kids rest =>
      if Nat.eqb (id b) i then Sib b new rest
      else Sib b (substKids i new kids) (substKids i new rest)
  end.

(** No block of type [t] at any depth. *)
Fixpoint noneOfType (t : string) (f : Forest) : bool :=
  match f with
  | Empty => true
  | Sib b kids rest =>
      negb (String.eqb (type b) t) && noneOfType t kids && noneOfType t rest
  end.

(** The blocks of type [t] among the siblings at the top of [f]. *)
Fixpoint countTop (t : string) (f : Forest) : nat :=
  match f with
  | Empty => O
  | Sib b _ rest =>
      if String.eqb (type b) t then S (countTop t rest) else countTop t rest
  end.

Definition rootIds (f : Forest) : list nat :=
  map (fun n => id (fst n)) (siblings f).

(** *** Requests, responses and the provider's state *)

Record Page := { page_id : nat; page_title : ustring }.

Record ListResponse := {
  results : list Block;
  has_more : bool;
  next_cursor : option nat
}.

Record SearchResponse := {
  s_results : list Page;
  s_has_more : bool;
  s_next_cursor : option nat
}.

(** The child of an append request: [{ <type>: { rich_text, color } }]. *)
Record NewBlock := {
  nb_type : string;
  nb_rich_text : list RichText;
  nb_color : string
}.

(** The body of a block update: [{ <type>: { rich_text, ... } }]. *)
Record BlockPatch := {
  bp_type : string;
  bp_rich_text : list RichText;
  bp_checked : option (option bool);
  bp_language : option (option string)
}.

Inductive Call : Type :=
| CSearch (start_cursor : option nat) (page_size : nat)
| CList (block_id : nat) (start_cursor : option nat) (page_size : nat)
| CAppend (block_id : nat) (child : NewBlock) (after : nat)
| CDelete (block_id : nat)
| CUpdate (block_id : nat) (patch : BlockPatch)
| CPageUpdate (page : nat) (field : string) (spans : list RichText)
| Pause (ms : Z).

(** What the scripts print with [console.error] and the skip notices of
    the writer. *)
Inductive Report : Type :=
| FailedToConvert (block_id : nat) (message : ustring)
| FailedToConvertNested (block_id : nat) (message : ustring)
| ErrorProcessingChildBlocks (message : ustring)
| ErrorFetchingBlocks (message : ustring)
| FieldDoesNotExist (field : string)
| FailedToUpdateField (field : string) (message : ustring)
| ErrorUpdatingPage (message : ustring).

(** The provider. [faults] schedules transport and server failures:
    each call consumes the head of the schedule and fails with the
    message it holds, if any; when the schedule is exhausted no further
    fault occurs. [schema] lists the fields a page can hold, [props]
    what has been written to them, most recent first. *)
Record World := {
  forest : Forest;
  searchable : list Page;
  next_id : nat;
  schema : list string;
  props : list (nat * string * list RichText);
  faults : list (option ustring);
  log : list Call;
  console : list Report
}.

Definition withForest (f : Forest) (w : World) : World :=
  {| forest := f; searchable := searchable w; next_id := next_id w;
     schema := schema w; props := props w; faults := faults w;
     log := log w; console := console w |}.

Definition withNextId (n : nat) (w : World) : World :=
  {| forest := forest w; searchable := searchable w; next_id := n;
     schema := schema w; props := props w; faults := faults w;
     log := log w; console := console w |}.

Definition withProps (p : list (nat * string * list RichText)) (w : World) : World :=
  {| forest := forest w; searchable := searchable w; next_id := next_id w;
     schema := schema w; props := p; faults := faults w;
     log := log w; console := console w |}.

Definition withFaults (fs : list (option ustring)) (w : World) : World :=
  {| forest := forest w; searchable := searchable w; next_id := next_id w;
     schema := schema w; props := props w; faults := fs;
     log := log w; console := console w |}.

Definition withLog (l : list Call) (w : World) : World :=
  {| forest := forest w; searchable := searchable w; next_id := next_id w;
     schema := schema w; props := props w; faults := faults w;
     log := l; console := console w |}.

Definition withConsole (c : list Report) (w : World) : World :=
  {| forest := forest w; searchable := searchable w; next_id := next_id w;
     schema := schema w; props := props w; faults := faults w;
     log := log w; console := c |}.

(** Identifiers are unique, and below the next one to be allocated. *)
Definition WellFormed (w : World) : Prop :=
  NoDup (ids (forest w)) /\ Forall (fun i => (i < next_id w)%nat) (ids (forest w)).

(** The calls of a log that write to the workspace. *)
Definition isMutation (c : Call) : bool :=
  match c with
  | CAppend _ _ _ | CDelete _ | CUpdate _ _ | CPageUpdate _ _ _ => true
  | _ => false
  end.

Definition mutations (l : list Call) : list Call := filter isMutation l.

(** The containers a log lists. *)
Fixpoint listed (l : list Call) : list nat :=
  match l with
  | [] => []
  | CList block_id _ _ :: l' => block_id :: listed l'
  | _ :: l' => listed l'
  end.

(** The worlds of a read-only run on a reliable provider: the forest
    [F], no fault scheduled. *)
Definition steady (F : Forest) (w : World) : Prop :=
  forest w = F /\ faults w = [].

(** The cursor that makes a listing start at the sibling number [k]. *)
Definition cursorAt (S : list (BlockData * Forest)) (k : nat)
    (cursor : option nat) : Prop :=
  (k = O /\ cursor = None)
  \/ (exists node, nth_error S k = Some node /\ cursor = Some (id (fst node))).

(** *** The monad of the scripts: state, exceptions and divergence *)

Inductive Outcome (A : Type) : Type :=
| Ok (a : A) (w : World)
| Throw (message : ustring) (w : World)
| Diverge.

Arguments Ok {A} a w.
Arguments Throw {A} message w.
Arguments Diverge {A}.

Definition M (A : Type) : Type := World -> Outcome A.

Definition ret {A : Type} (a : A) : M A := fun w => Ok a w.

Definition bind {A B : Type} (m : M A) (k : A -> M B) : M B :=
  fun w =>
    match m w with
    | Ok a w' => k a w'
    | Throw e w' => Throw e w'
    | Diverge => Diverge
    end.

Definition throw {A : Type} (e : ustring) : M A := fun w => Throw e w.

Definition diverge {A : Type} : M A := fun _ => Diverge.

(** [try { m } catch (e) { h e }]. *)
Definition tryCatch {A : Type} (m : M A) (h : ustring -> M A) : M A :=
  fun w =>
    match m w with
    | Ok a w' => Ok a w'
    | Throw e w' => h e w'
    | Diverge => Diverge
    end.

Definition neverThrows {A : Type} (m : M A) : Prop :=
  forall w e w', m w <> Throw e w'.

(** A call whose failure is inspected by the caller. *)
Definition attempt {A : Type} (m : M A) : M (A + ustring) :=
  tryCatch (bind m (fun a => ret (inl a))) (fun e => ret (inr e)).

Definition say (r : Report) : M unit :=
  fun w => Ok tt (withConsole (console w ++ [r]) w).

(** [await new Promise(resolve => setTimeout(resolve, ms))]: only the
    order of the pauses among the calls is kept. *)
Definition pause (ms : Z) : M unit :=
  fun w => Ok tt (withLog (log w ++ [Pause ms]) w).

(** A request to the provider: logged, then failed by the schedule or
    served. *)
Definition request {A : Type} (c : Call) (serve : M A) : M A :=
  fun w =>
    let w1 := withLog (log w ++ [c]) w in
    match faults w1 with
    | Some message :: later => Throw message (withFaults later w1)
    | None :: later => serve (withFaults later w1)
    | [] => serve w1
    end.

Fixpoint fromCursor (c : nat) (l : list (BlockData * Forest))
  : option (list (BlockData * Forest)) :=
  match l with
  | [] => None
  | n :: l' => if Nat.eqb (id (fst n)) c then Some l else fromCursor c l'
  end.

Definition pageOf (page_size : nat) (l : list (BlockData * Forest)) : ListResponse :=
  {| results := map view (firstn page_size l);
     has_more := Nat.ltb page_size (List.length l);
     next_cursor := option_map (fun n => id (fst n)) (nth_error l page_size) |}.

(** [notion.blocks.children.list({ block_id, start_cursor, page_size })].
    The cursor of a page is the identifier of the first block of the
    next one. *)
Definition blocks_children_list (block_id : nat) (start_cursor : option nat)
    (page_size : nat) : M ListResponse :=
  request (CList block_id start_cursor page_size)
    (fun w =>
       match findKids block_id (forest w) with
       | None => Throw (ustr "object_not_found") w
       | Some kids =>
           match start_cursor with
           | None => Ok (pageOf page_size (siblings kids)) w
           | Some c =>
               match fromCursor c (siblings kids) with
               | None => Throw (ustr "validation_error: start_cursor") w
               | Some l => Ok (pageOf page_size l) w
               end
           end
       end).

Definition createBlock (i : nat) (child : NewBlock) : BlockData :=
  {| id := i; type := nb_type child; rich_text := nb_rich_text child;
     color := Some (nb_color child); checked := None; language := None;
     cells := [] |}.

(** [notion.blocks.children.append({ block_id, children: [child], after })]. *)
Definition blocks_children_append (block_id : nat) (child : NewBlock)
    (after : nat) : M unit :=
  request (CAppend block_id child after)
    (fun w =>
       match updateKids block_id
               (insertAfter after (createBlock (next_id w) child)) (forest w) with
       | None => Throw (ustr "validation_error: append") w
       | Some f => Ok tt (withNextId (S (next_id w)) (withForest f w))
       end).

(** [notion.blocks.delete({ block_id })]. *)
Definition blocks_delete (block_id : nat) : M unit :=
  request (CDelete block_id)
    (fun w =>
       match findBlock block_id (forest w) with
       | None => Throw (ustr "object_not_found") w
       | Some _ => Ok tt (withForest (remove block_id (forest w)) w)
       end).

Definition applyPatch (p : BlockPatch) (b : BlockData) : BlockData :=
  {| id := id b; type := type b; rich_text := bp_rich_text p;
     color := color b;
     checked := match bp_checked p with Some c => c | None => checked b end;
     language := match bp_language p with Some l => l | None => language b end;
     cells := cells b |}.

(** [notion.blocks.update({ block_id, <type>: { ... } })]. *)
Definition blocks_update (block_id : nat) (patch : BlockPatch) : M unit :=
  request (CUpdate block_id patch)
    (fun w =>
       match findBlock block_id (forest w) with
       | None => Throw (ustr "object_not_found") w
       | Some b =>
           if String.eqb (type b) (bp_type patch)
           then Ok tt (withForest (updateBlock block_id (applyPatch patch) (forest w)) w)
           else Throw (ustr "validation_error: block type") w
       end).

(** [notion.search({ filter: pages, start_cursor, page_size })]; the
    cursor is the offset of the next page of results. *)
Definition search (start_cursor : option nat) (page_size : nat) : M SearchResponse :=
  request (CSearch start_cursor page_size)
    (fun w =>
       let from := match start_cursor with Some c => c | None => O end in
       let l := skipn from (searchable w) in
       Ok {| s_results := firstn page_size l;
             s_has_more := Nat.ltb page_size (List.length l);
             s_next_cursor :=
               if Nat.ltb page_size (List.length l)
               then Some (from + page_size)%nat else None |} w).

(** [notion.pages.update({ page_id, properties: { [field]: { rich_text } } })]. *)
Definition pages_update (page : nat) (field : string) (spans : list RichText)
  : M unit :=
  request (CPageUpdate page field spans)
    (fun w =>
       if existsb (String.eqb field) (schema w)
       then Ok tt (withProps ((page, field, spans) :: props w) w)
       else Throw (ustr "validation_error: property does not exist") w).

End Notion.

Declare Scope script_scope.
Delimit Scope script_scope with script.
Notation "x <- m ;; k" := (Notion.bind m (fun x => k))
  (at level 61, m at next level, right associativity) : script_scope.
Notation "m ;;; k" := (Notion.bind m (fun _ => k))
  (at level 61, right associativity) : script_scope.

(** ** Block tree fetcher *)

Module Fetcher.
Import JS Notion.
Open Scope script_scope.

Definition isType (t : string) (block : Block) : bool :=
  String.eqb (type (data block)) t.

(** [block.has_children && block.type !== 'child_page'
     && block.type !== 'child_database'] *)
Definition descends (block : Block) : bool :=
  has_children block
  && negb (isType "child_page" block)
  && negb (isType "child_database" block).

Section Loops.
(** The recursive call [getAllBlocksFromPage(block.id)]. *)
Variable recur : nat -> M (list Block).

(** [for (const block of response.results)] *)
Fixpoint eachResult (rs : list Block) (blocks : list Block) : M (list Block) :=
  match rs with
  | [] => ret blocks
  | block :: rs' =>
      let blocks := blocks ++ [block] in
      if descends block then
        childBlocks <- recur (id (data block)) ;;
        eachResult rs' (blocks ++ childBlocks)
      else eachResult rs' blocks
  end.

(** [while (hasMore)]: a failed listing ends the loop with what was
    collected. The listing is the only statement of the [try] block
    that can throw (see [getAllBlocksFromPage_never_throws]). *)
Fixpoint whileHasMore (n : nat) (pageId : nat) (cursor : option nat)
    (blocks : list Block) : M (list Block) :=
  match n with
  | O => diverge
  | S n' =>
      r <- attempt (blocks_children_list pageId cursor 100) ;;
      match r with
      | inr error => say (ErrorFetchingBlocks error) ;;; ret blocks
      | inl response =>
          blocks <- eachResult (results response) blocks ;;
          if has_more response
          then whileHasMore n' pageId (next_cursor response) blocks
          else ret blocks
      end
  end.
End Loops.

Fixpoint getAllBlocksFromPage (fuel : nat) (pageId : nat) : M (list Block) :=
  match fuel with
  | O => diverge
  | S fuel' =>
      whileHasMore (getAllBlocksFromPage fuel') fuel' pageId None []
  end.

(** What the contract asks for: the siblings in the provider's order,
    each immediately followed by its own expanded subtree, descending
    into every block that has children except sub-pages and linked
    databases. *)
Fixpoint preorder (f : Forest) : list Block :=
  match f with
  | Empty => []
  | Sib b kids rest =>
      view (b, kids)
      :: (if descends (view (b, kids)) then preorder kids else [])
      ++ preorder rest
  end.

(** A block followed by its expanded subtree. *)
Definition expand (n : BlockData * Forest) : list Block :=
  view n :: (if descends (view n) then preorder (snd n) else []).

(** Every block below the container, whatever its type. *)
Fixpoint allBlocks (f : Forest) : list Block :=
  match f with
  | Empty => []
  | Sib b kids rest => view (b, kids) :: allBlocks kids ++ allBlocks rest
  end.

End Fetcher.

(** ** Rich-text extractor and content assembler (content copier) *)

Module Extractor.
Import JS Notion Fetcher.
Open Scope script_scope.

Definition extractTextFromRichText (richTextArray : list RichText) : ustring :=
  join0 (map plain_text richTextArray).

Definition richTextTypes : list string :=
  ["paragraph"; "heading_1"; "heading_2"; "heading_3"; "bulleted_list_item";
   "numbered_list_item"; "to_do"; "quote"; "callout"]%string.

Definition extractTextFromBlock (block : Block) : ustring :=
  let t := type (data block) in
  if existsb (String.eqb t) richTextTypes
  then extractTextFromRichText (rich_text (data block))
  else if String.eqb t "code" then join0 (map plain_text (rich_text (data block)))
  else if String.eqb t "table" then []
  else if String.eqb t "divider" then [10%N]
  else [].

(** [content.replace(/\s+/g, ' ')]: [inRun] holds inside a run of
    whitespace already replaced. *)
Fixpoint collapseFrom (inRun : bool) (s : ustring) : ustring :=
  match s with
  | [] => []
  | c :: s' =>
      if isWhiteSpace c
      then (if inRun then collapseFrom true s' else 32%N :: collapseFrom true s')
      else c :: collapseFrom false s'
  end.

Definition collapseWhitespace (s : ustring) : ustring := collapseFrom false s.

Definition isSentencePunct (c : N) : bool := existsb (N.eqb c) [46; 33; 63]%N.
Definition isUpperAZ (c : N) : bool := ((65 <=? c) && (c <=? 90))%N.
Definition isPunct (c : N) : bool := existsb (N.eqb c) [46; 44; 59; 58; 33; 63]%N.

Fixpoint leading (f : N -> bool) (s : ustring) : nat :=
  match s with
  | [] => O
  | c :: s' => if f c then S (leading f s') else O
  end.

Definition headIs (f : N -> bool) (s : ustring) : bool :=
  match s with [] => false | c :: _ => f c end.

(** [content.replace(/([.!?])\s*([A-Z])/g, '$1 $2')]: [skip] counts the
    characters of the current match still to be passed over. *)
Fixpoint spaceAfterSentenceFrom (skip : nat) (s : ustring) : ustring :=
  match s with
  | [] => []
  | c :: s' =>
      match skip with
      | S k => spaceAfterSentenceFrom k s'
      | O =>
          if isSentencePunct c && headIs isUpperAZ (dropWhile isWhiteSpace s')
          then c :: 32%N :: nth (leading isWhiteSpace s') s' 0%N
                 :: spaceAfterSentenceFrom (S (leading isWhiteSpace s')) s'
          else c :: spaceAfterSentenceFrom O s'
      end
  end.

Definition spaceAfterSentence (s : ustring) : ustring := spaceAfterSentenceFrom O s.

(** [content.replace(/\s+([.,;:!?])/g, '$1')] *)
Fixpoint tightenPunctuation (s : ustring) : ustring :=
  match s with
  | [] => []
  | c :: s' =>
      if isWhiteSpace c && headIs isPunct (dropWhile isWhiteSpace s')
      then tightenPunctuation s'
      else c :: tightenPunctuation s'
  end.

(** [for (const block of blocks)]: the trimmed texts that are not blank. *)
Fixpoint contentPartsOf (blocks : list Block) : list ustring :=
  match blocks with
  | [] => []
  | block :: blocks' =>
      let text := extractTextFromBlock block in
      if truthy text && truthy (trim text)
      then trim text :: contentPartsOf blocks'
      else contentPartsOf blocks'
  end.

Definition assemble (blocks : list Block) : ustring :=
  let content := join [32%N] (contentPartsOf blocks) in
  let content := collapseWhitespace content in
  let content := spaceAfterSentence content in
  let content := tightenPunctuation content in
  trim content.

Definition extractPageContent (fuel : nat) (pageId : nat) : M ustring :=
  blocks <- getAllBlocksFromPage fuel pageId ;;
  ret (assemble blocks).

End Extractor.

(** ** Type converters (checkbox to bullet, quote to quoted paragraph) *)

Module Converter.
Import JS Notion.
Open Scope script_scope.

(** The two converter scripts are the same program up to the type they
    look for and the child they append. *)
Record Conversion := {
  source_type : string;
  replacement : BlockData -> NewBlock
}.

(** [color || 'default'] *)
Definition colorOrDefault (c : option string) : string :=
  match c with
  | Some s => if String.eqb s "" then "default"%string else s
  | None => "default"%string
  end.

(** [{ bulleted_list_item: { rich_text: block.to_do.rich_text,
       color: block.to_do.color || 'default' } }] *)
Definition checkboxToBullet : Conversion :=
  {| source_type := "to_do";
     replacement := fun b =>
       {| nb_type := "bulleted_list_item";
          nb_rich_text := rich_text b;
          nb_color := colorOrDefault (color b) |} |}.

Definition quoteMark : RichText :=
  {| rt_type := "text";
     text := Some {| content := [34%N]; link := None |};
     href := None;
     plain_text := [34%N] |}.

(** [{ paragraph: { rich_text: ['"', ...block.quote.rich_text, '"'],
       color: block.quote.color || 'default' } }] *)
Definition quoteToText : Conversion :=
  {| source_type := "quote";
     replacement := fun b =>
       {| nb_type := "paragraph";
          nb_rich_text := [quoteMark] ++ rich_text b ++ [quoteMark];
          nb_color := colorOrDefault (color b) |} |}.

Definition isSource (cv : Conversion) (block : Block) : bool :=
  String.eqb (type (data block)) (source_type cv).

(** The body of the inner [try]: append the replacement after the
    block, then delete the block. *)
Definition replaceBlock (cv : Conversion) (parentId : nat) (block : Block) : M unit :=
  blocks_children_append parentId (replacement cv (data block)) (id (data block)) ;;;
  blocks_delete (id (data block)).

(** [error.message?.includes('ai_block') || error.message?.includes('not supported')] *)
Definition unsupported (message : ustring) : bool :=
  includes message (ustr "ai_block") || includes message (ustr "not supported").

Section ChildLoops.
Variable cv : Conversion.
(** The recursive call [processChildBlocks(notion, block.id, blockId, dryRun)]. *)
Variable recur : nat -> M unit.
Variable blockId : nat.
Variable dryRun : bool.

Fixpoint eachChild (rs : list Block) : M unit :=
  match rs with
  | [] => ret tt
  | block :: rs' =>
      (if isSource cv block && negb dryRun
       then tryCatch (replaceBlock cv blockId block)
              (fun e => say (FailedToConvertNested (id (data block)) e))
       else ret tt) ;;;
      (if has_children block then recur (id (data block)) else ret tt) ;;;
      eachChild rs'
  end.

(** [while (hasMoreBlocks)] of [processChildBlocks]: a listing refused
    for an unsupported block type makes the function return. *)
Fixpoint childPages (n : nat) (cursor : option nat) : M unit :=
  match n with
  | O => diverge
  | S n' =>
      r <- attempt (blocks_children_list blockId cursor 100) ;;
      match r with
      | inr error => if unsupported error then ret tt else throw error
      | inl response =>
          eachChild (results response) ;;;
          if has_more response
          then childPages n' (next_cursor response)
          else ret tt
      end
  end.
End ChildLoops.

Fixpoint processChildBlocks (cv : Conversion) (fuel : nat)
    (blockId parentId : nat) (dryRun : bool) : M unit :=
  match fuel with
  | O => diverge
  | S fuel' =>
      tryCatch
        (childPages cv (fun b => processChildBlocks cv fuel' b blockId dryRun)
           blockId dryRun fuel' None)
        (fun error =>
           if unsupported error then ret tt
           else say (ErrorProcessingChildBlocks error))
  end.

Record ErrorEntry := {
  e_pageId : nat;
  e_pageTitle : ustring;
  e_blockId : option nat;
  e_error : ustring
}.

(** The counters of the run ([totalCheckboxes] and [convertedCheckboxes],
    [totalQuotes] and [convertedQuotes]) and of the page being walked. *)
Record Tally := {
  total : nat;
  converted : nat;
  pageCount : nat;
  errors : list ErrorEntry
}.

Definition found (t : Tally) : Tally :=
  {| total := S (total t); converted := converted t;
     pageCount := S (pageCount t); errors := errors t |}.

Definition success (t : Tally) : Tally :=
  {| total := total t; converted := S (converted t);
     pageCount := pageCount t; errors := errors t |}.

Definition failure (e : ErrorEntry) (t : Tally) : Tally :=
  {| total := total t; converted := converted t;
     pageCount := pageCount t; errors := errors t ++ [e] |}.

Definition newPage (t : Tally) : Tally :=
  {| total := total t; converted := converted t;
     pageCount := O; errors := errors t |}.

Section PageLoops.
Variable cv : Conversion.
Variable fuel : nat.
Variable page : Page.
Variable dryRun : bool.

(** [for (const block of response.results)] at the top of a page. *)
Fixpoint eachBlock (rs : list Block) (t : Tally) : M Tally :=
  match rs with
  | [] => ret t
  | block :: rs' =>
      if isSource cv block then
        let t := found t in
        if negb dryRun then
          r <- attempt (replaceBlock cv (page_id page) block) ;;
          match r with
          | inl _ => eachBlock rs' (success t)
          | inr updateError =>
              say (FailedToConvert (id (data block)) updateError) ;;;
              eachBlock rs'
                (failure {| e_pageId := page_id page;
                            e_pageTitle := page_title page;
                            e_blockId := Some (id (data block));
                            e_error := updateError |} t)
          end
        else eachBlock rs' (success t)
      else if has_children block then
        processChildBlocks cv fuel (id (data block)) (page_id page) dryRun ;;;
        eachBlock rs' t
      else eachBlock rs' t
  end.

(** [while (hasMoreBlocks)] at the top of a page; [Some error] when a
    listing threw, which is what reaches the page's [catch]. *)
Fixpoint pageBlocks (n : nat) (cursor : option nat) (t : Tally)
  : M (Tally * option ustring) :=
  match n with
  | O => diverge
  | S n' =>
      r <- attempt (blocks_children_list (page_id page) cursor 100) ;;
      match r with
      | inr error => ret (t, Some error)
      | inl response =>
          t <- eachBlock (results response) t ;;
          if has_more response
          then pageBlocks n' (next_cursor response) t
          else ret (t, None)
      end
  end.
End PageLoops.

(** [getAllPages(notion)] *)
Fixpoint getAllPagesFrom (n : nat) (cursor : option nat) (pages : list Page)
  : M (list Page) :=
  match n with
  | O => diverge
  | S n' =>
      response <- search cursor 100 ;;
      let pages := pages ++ s_results response in
      if s_has_more response
      then getAllPagesFrom n' (s_next_cursor response) pages
      else ret pages
  end.

Definition getAllPages (fuel : nat) : M (list Page) := getAllPagesFrom fuel None [].

Record Summary := {
  totalPages : nat;
  pagesWithMatches : nat;
  totalMatches : nat;
  convertedMatches : nat;
  runErrors : list ErrorEntry
}.

(** [for (const page of pages)] *)
Fixpoint eachPage (cv : Conversion) (fuel : nat) (dryRun : bool)
    (pages : list Page) (processedPages pagesWith : nat) (t : Tally) : M Summary :=
  match pages with
  | [] =>
      ret {| totalPages := processedPages; pagesWithMatches := pagesWith;
             totalMatches := total t; convertedMatches := converted t;
             runErrors := errors t |}
  | page :: pages' =>
      r <- pageBlocks cv fuel page dryRun fuel None (newPage t) ;;
      match r with
      | (t, None) =>
          eachPage cv fuel dryRun pages' (S processedPages)
            (if Nat.ltb 0 (pageCount t) then S pagesWith else pagesWith) t
      | (t, Some error) =>
          eachPage cv fuel dryRun pages' (S processedPages) pagesWith
            (failure {| e_pageId := page_id page;
                        e_pageTitle := page_title page;
                        e_blockId := None;
                        e_error := error |} t)
      end
  end.

(** The counters before the first page. *)
Definition noTally : Tally :=
  {| total := O; converted := O; pageCount := O; errors := [] |}.

Definition convertBlocks (cv : Conversion) (fuel : nat) (dryRun : bool) : M Summary :=
  pages <- getAllPages fuel ;;
  eachPage cv fuel dryRun pages O O noTally.

Definition convertCheckboxesToBullets : nat -> bool -> M Summary :=
  convertBlocks checkboxToBullet.

Definition convertQuotesToText : nat -> bool -> M Summary :=
  convertBlocks quoteToText.

End Converter.

(** ** Vocabulary for the walks of the converters *)

Module Walk.
Import JS Notion Converter.
Local Open Scope nat_scope.

(** The state in which a container is walked: a well-formed workspace on
    a reliable provider, where the children of [p] are [ks]. *)
Definition Focus (w : World) (p : nat) (ks : Forest) : Prop :=
  WellFormed w /\ faults w = [] /\ findKids p (forest w) = Some ks.

Definition clean (cv : Conversion) (f : Forest) : Prop :=
  noneOfType (source_type cv) f = true.

(** The replacement is never of the type looked for. *)
Definition Converts (cv : Conversion) : Prop :=
  forall b, String.eqb (nb_type (replacement cv b)) (source_type cv) = false.

Fixpoint ftake (n : nat) (f : Forest) : Forest :=
  match n, f with
  | S n', Sib b kids rest => Sib b kids (ftake n' rest)
  | _, _ => Empty
  end.

Fixpoint fdrop (n : nat) (f : Forest) : Forest :=
  match n, f with
  | S n', Sib _ _ rest => fdrop n' rest
  | _, _ => f
  end.

(** A listing of the children of [p] when they are [done] followed by
    [rest], from the start or from the first block of [rest]. *)
Definition cursorFor (done rest : Forest) (cursor : option nat) : Prop :=
  (done = Empty /\ cursor = None)
  \/ (exists b kb rest', rest = Sib b kb rest' /\ cursor = Some (id b)).

(** What the walk of the children [ks] of a block does to a focused
    state: the children become [ks'], free of the source type and no
    larger, and nothing else changes in the forest. *)
Definition walked (cv : Conversion) (m : M unit) (i : nat) (ks : Forest)
    (w : World) : Prop :=
  exists ks' w',
    m w = Ok tt w'
    /\ forest w' = substKids i ks' (forest w)
    /\ Focus w' i ks'
    /\ clean cv ks'
    /\ size ks' <= size ks.

Definition skipped (m : M unit) (w : World) : Prop :=
  exists w',
    m w = Ok tt w'
    /\ forest w' = forest w /\ next_id w' = next_id w /\ faults w' = [].

Definition counted (k : nat) (t : Tally) : Tally :=
  {| total := total t + k; converted := converted t + k;
     pageCount := pageCount t + k; errors := errors t |}.

(** A read-only step: the same world with a longer log, and no writing
    call in it. *)
Definition reads {A : Type} (m : M A) (a : A) (w : World) : Prop :=
  exists lg, m w = Ok a (withLog (log w ++ lg) w) /\ mutations lg = [].

Definition countNodes (s : string) (l : list (BlockData * Forest)) : nat :=
  List.length (filter (fun n => String.eqb (type (fst n)) s) l).

(** Nothing is converted under these blocks: the run is dry, or none is
    of the source type at any depth. *)
Definition inert (cv : Conversion) (dryRun : bool) (ks : Forest) : Prop :=
  dryRun = true \/ clean cv ks.

(** The matches at the top of the pages, in the forest [F]. *)
Definition kidsOf (F : Forest) (i : nat) : Forest :=
  match findKids i F with Some ks => ks | None => Empty end.

Fixpoint topMatches (cv : Conversion) (F : Forest) (pages : list Page) : nat :=
  match pages with
  | [] => 0
  | page :: pages' =>
      countTop (source_type cv) (kidsOf F (page_id page)) + topMatches cv F pages'
  end.

(** The summary of a run that converts every match at the top of every
    page found, computed from the forest. *)
Fixpoint summaryOf (cv : Conversion) (F : Forest) (pages : list Page)
    (processedPages pagesWith : nat) (t : Tally) : Summary :=
  match pages with
  | [] =>
      {| totalPages := processedPages; pagesWithMatches := pagesWith;
         totalMatches := total t; convertedMatches := converted t;
         runErrors := errors t |}
  | page :: pages' =>
      match findKids (page_id page) F with
      | Some ks =>
          let t' := counted (countTop (source_type cv) ks) (newPage t) in
          summaryOf cv F pages' (S processedPages)
            (if Nat.ltb 0 (pageCount t') then S pagesWith else pagesWith) t'
      | None =>
          summaryOf cv F pages' (S processedPages) pagesWith
            (failure {| e_pageId := page_id page;
                        e_pageTitle := page_title page;
                        e_blockId := None;
                        e_error := ustr "object_not_found" |} (newPage t))
      end
  end.

(** The pages are distinct roots of the forest. *)
Definition distinctRoots (F : Forest) (pages : list Page) : Prop :=
  NoDup (map page_id pages) /\ forall pg, In pg pages -> In (page_id pg) (rootIds F).

(** Whatever the outcome, the final state is related to the initial one. *)
Definition respects (R : World -> World -> Prop) {A : Type} (m : M A) : Prop :=
  forall w,
    match m w with
    | Ok _ w' => R w w'
    | Throw _ w' => R w w'
    | Diverge => True
    end.

(** The state after differs from the state before by calls that write
    nothing. *)
Definition onlyReads (w w' : World) : Prop :=
  forest w' = forest w /\ next_id w' = next_id w /\ props w' = props w
  /\ exists lg, log w' = log w ++ lg /\ mutations lg = [].

(** Every run leaves the search results alone. *)
Definition sameSearch (w w' : World) : Prop := searchable w' = searchable w.

(** From a state whose forest is [F] and whose search results are [P],
    whatever the provider answers, the step writes nothing, and its
    result satisfies [Q] when it returns. *)
Definition idle (F : Forest) (P : list Page) {A : Type} (m : M A)
    (Q : A -> Prop) : Prop :=
  forall w, forest w = F -> searchable w = P ->
    match m w with
    | Ok a w' => onlyReads w w' /\ searchable w' = P /\ Q a
    | Throw _ w' => onlyReads w w' /\ searchable w' = P
    | Diverge => True
    end.

(** Blocks returned by a listing of the container [i]. *)
Definition plain (F : Forest) (i : nat) (rs : list Block) : Prop :=
  forall b, In b rs -> exists x, In x (siblings (kidsOf F i)) /\ b = view x.

(** The calls added to the log list no container. *)
Definition listsNothing (w w' : World) : Prop :=
  exists calls, log w' = log w ++ calls /\ listed calls = [].

End Walk.

(** ** Text substitution *)

Module TextProcessor.
Import JS Notion.
Open Scope script_scope.

Fixpoint ueqb (s t : ustring) : bool :=
  match s, t with
  | [], [] => true
  | c :: s', d :: t' => N.eqb c d && ueqb s' t'
  | _, _ => false
  end.

(** [string.replace(/[.*+?^${}()|[\]\\]/g, '\\$&')]: a backslash before
    every character that is special in a pattern. *)
Definition isSpecial (c : N) : bool :=
  existsb (N.eqb c) [46; 42; 43; 63; 94; 36; 123; 125; 40; 41; 124; 91; 93; 92]%N.

Fixpoint escapeRegExp (s : ustring) : ustring :=
  match s with
  | [] => []
  | c :: s' => if isSpecial c then 92%N :: c :: escapeRegExp s'
               else c :: escapeRegExp s'
  end.

(** A pattern made of plain characters and of escaped characters, which
    is what [escapeRegExp] produces, matched at the head of [s]; the
    result is the rest of [s] after the match. *)
Fixpoint matchPattern (pattern s : ustring) : option ustring :=
  match pattern with
  | [] => Some s
  | c :: pattern' =>
      if N.eqb c 92 then
        match pattern', s with
        | e :: pattern'', d :: s' =>
            if N.eqb e d then matchPattern pattern'' s' else None
        | _, _ => None
        end
      else
        match s with
        | d :: s' => if N.eqb c d then matchPattern pattern' s' else None
        | [] => None
        end
  end.

(** The expansion of a replacement string for a pattern without capture
    groups: [$$] is a dollar sign, [$&] the matched text, [$`] the text
    before the match and [$'] the text after it. *)
Fixpoint getSubstitution (matched before after replacement : ustring) : ustring :=
  match replacement with
  | [] => []
  | c :: r =>
      if N.eqb c 36 then
        match r with
        | d :: r' =>
            if N.eqb d 36 then 36%N :: getSubstitution matched before after r'
            else if N.eqb d 38 then matched ++ getSubstitution matched before after r'
            else if N.eqb d 96 then before ++ getSubstitution matched before after r'
            else if N.eqb d 39 then after ++ getSubstitution matched before after r'
            else c :: getSubstitution matched before after r
        | [] => [c]
        end
      else c :: getSubstitution matched before after r
  end.

(** [s.replace(new RegExp(pattern, 'g'), replacement)], scanning [s]
    from [done] (the text already passed, in order); [skip] counts the
    characters of the current match still to be passed over. *)
Fixpoint replaceFrom (pattern replacement : ustring) (done : ustring)
    (skip : nat) (s : ustring) : ustring :=
  match s with
  | [] =>
      match skip, matchPattern pattern [] with
      | O, Some _ => getSubstitution [] done [] replacement
      | _, _ => []
      end
  | c :: s' =>
      match skip with
      | S k => replaceFrom pattern replacement (done ++ [c]) k s'
      | O =>
          match matchPattern pattern s with
          | Some rest =>
              let n := (List.length s - List.length rest)%nat in
              getSubstitution (firstn n s) done rest replacement
              ++ match n with
                 | O => c :: replaceFrom pattern replacement (done ++ [c]) O s'
                 | S k => replaceFrom pattern replacement (done ++ [c]) k s'
                 end
          | None => c :: replaceFrom pattern replacement (done ++ [c]) O s'
          end
      end
  end.

(** [s.replace(new RegExp(escapeRegExp(searchText), 'g'), replaceText)] *)
Definition replaceAll (s searchText replaceText : ustring) : ustring :=
  replaceFrom (escapeRegExp searchText) replaceText [] O s.

(** [extractTextFromBlock] of the text processor: the spans of a block. *)
Definition spanTypes : list string :=
  ["paragraph"; "heading_1"; "heading_2"; "heading_3"; "bulleted_list_item";
   "numbered_list_item"; "toggle"; "quote"; "callout"]%string.

Definition extractTextFromBlock (block : Block) : list RichText :=
  let t := type (data block) in
  if existsb (String.eqb t) spanTypes then rich_text (data block)
  else if String.eqb t "to_do" then rich_text (data block)
  else if String.eqb t "code" then rich_text (data block)
  else if String.eqb t "table_row" then concat (cells (data block))
  else [].

Definition isText (item : RichText) : bool := String.eqb (rt_type item) "text".

Definition withContent (c : ustring) (item : RichText) : RichText :=
  {| rt_type := rt_type item;
     text := match text item with
             | Some t => Some {| content := c; link := link t |}
             | None => None
             end;
     href := href item; plain_text := plain_text item |}.

Definition withUrl (original : RichText) (u : ustring) (item : RichText) : RichText :=
  {| rt_type := rt_type item;
     text := match text item, text original with
             | Some t, Some _ => Some {| content := content t; link := Some {| url := u |} |}
             | other, _ => other
             end;
     href := href item; plain_text := plain_text item |}.

Definition withHref (h : ustring) (item : RichText) : RichText :=
  {| rt_type := rt_type item; text := text item;
     href := Some h; plain_text := plain_text item |}.

(** [item.text?.content], [item.text?.link?.url] and [item.href], with
    the empty string for what is absent (all are used under a truthiness
    test). *)
Definition contentOf (item : RichText) : ustring :=
  match text item with Some t => content t | None => [] end.

Definition urlOf (item : RichText) : ustring :=
  match text item with
  | Some t => match link t with Some l => url l | None => [] end
  | None => []
  end.

Definition hrefOf (item : RichText) : ustring :=
  match href item with Some h => h | None => [] end.

(** The callback of [richTextArray.map]: whether the item was modified,
    and the updated item. *)
Definition replaceInItem (searchText replaceText : ustring) (item : RichText)
  : bool * RichText :=
  let step1 :=
    if isText item && truthy (contentOf item) then
      let newContent := replaceAll (contentOf item) searchText replaceText in
      if negb (ueqb (contentOf item) newContent)
      then (true, withContent newContent item) else (false, item)
    else (false, item) in
  let step2 :=
    if isText item && truthy (urlOf item) then
      let newUrl := replaceAll (urlOf item) searchText replaceText in
      if negb (ueqb (urlOf item) newUrl)
      then (true, withUrl item newUrl (snd step1)) else step1
    else step1 in
  if truthy (hrefOf item) then
    let newHref := replaceAll (hrefOf item) searchText replaceText in
    if negb (ueqb (hrefOf item) newHref)
    then (true, withHref newHref (snd step2)) else step2
  else step2.

Record Replaced := { modified : bool; updatedRichText : list RichText }.

Definition searchAndReplaceInRichText (richTextArray : list RichText)
    (searchText replaceText : ustring) : Replaced :=
  let items := map (replaceInItem searchText replaceText) richTextArray in
  {| modified := existsb fst items; updatedRichText := map snd items |}.

(** The [switch] of [processBlock] that builds the update. *)
Definition updateDataFor (block : Block) (updatedRichText : list RichText)
  : option BlockPatch :=
  let t := type (data block) in
  if existsb (String.eqb t) spanTypes then
    Some {| bp_type := t; bp_rich_text := updatedRichText;
            bp_checked := None; bp_language := None |}
  else if String.eqb t "to_do" then
    Some {| bp_type := t; bp_rich_text := updatedRichText;
            bp_checked := Some (checked (data block)); bp_language := None |}
  else if String.eqb t "code" then
    Some {| bp_type := t; bp_rich_text := updatedRichText;
            bp_checked := None; bp_language := Some (language (data block)) |}
  else None.

Record Processed := { p_modified : bool; p_blockId : option nat }.

Definition processBlock (block : Block) (searchText replaceText : ustring)
  : M Processed :=
  let textArray := extractTextFromBlock block in
  match textArray with
  | [] => ret {| p_modified := false; p_blockId := None |}
  | _ =>
      let r := searchAndReplaceInRichText textArray searchText replaceText in
      if negb (modified r) then ret {| p_modified := false; p_blockId := None |}
      else
        match updateDataFor block (updatedRichText r) with
        | Some updateData =>
            blocks_update (id (data block)) updateData ;;;
            ret {| p_modified := true; p_blockId := Some (id (data block)) |}
        | None => ret {| p_modified := false; p_blockId := None |}
        end
  end.

(** What the specification asks of the substitution: every occurrence of
    the search string, found from left to right without overlap, is
    replaced by the replacement string. *)
Fixpoint substituteFrom (searchText replaceText : ustring) (skip : nat)
    (s : ustring) : ustring :=
  match s with
  | [] => []
  | c :: s' =>
      match skip with
      | S k => substituteFrom searchText replaceText k s'
      | O =>
          if startsWith searchText s
          then replaceText
               ++ substituteFrom searchText replaceText
                    (Nat.pred (List.length searchText)) s'
          else c :: substituteFrom searchText replaceText O s'
      end
  end.

Definition substituteAll (s searchText replaceText : ustring) : ustring :=
  substituteFrom searchText replaceText O s.

(** The same on a span: the content and the link target of a text span,
    and the [href] of any span. *)
Definition substituteItem (searchText replaceText : ustring) (item : RichText)
  : RichText :=
  {| rt_type := rt_type item;
     text :=
       match text item with
       | Some t =>
           if isText item then
             Some {| content := substituteAll (content t) searchText replaceText;
                     link :=
                       match link t with
                       | Some l =>
                           Some {| url := substituteAll (url l) searchText replaceText |}
                       | None => None
                       end |}
           else Some t
       | None => None
       end;
     href :=
       match href item with
       | Some h => Some (substituteAll h searchText replaceText)
       | None => None
       end;
     plain_text := plain_text item |}.

End TextProcessor.

(** ** Chunked payload writer *)

Module Writer.
Import JS Notion Chunking.
Open Scope script_scope.

Definition decimal (n : nat) : string :=
  DecimalString.NilZero.string_of_uint (Nat.to_uint n).

(** [fieldIndex === 0 ? 'Content64' : `Content64_${fieldIndex + 1}`] *)
Definition fieldName (fieldIndex : nat) : string :=
  if Nat.eqb fieldIndex 0 then "Content64"%string
  else ("Content64_" ++ decimal (fieldIndex + 1))%string.

Definition textSpan (c : ustring) : RichText :=
  {| rt_type := "text"; text := Some {| content := c; link := None |};
     href := None; plain_text := [] |}.

(** The fixed-size slices of a string; the length of the string is
    enough fuel for any positive size ([sliceLoop_total]). *)
Definition slices (s : ustring) (size : Z) : list ustring :=
  match sliceLoop (List.length s) s size 0 [] with
  | Some l => l
  | None => []
  end.

Definition maxChunkSizeOf (fieldIndex : nat) : Z :=
  if Nat.leb 12 fieldIndex then 1000 else 2000.

(** [fieldIndex >= 12 ? audioBase64.substring(0, Math.min(audioBase64.length, 50000)) : audioBase64] *)
Definition dataToStoreOf (fieldIndex : nat) (audioBase64 : ustring) : ustring :=
  if Nat.leb 12 fieldIndex
  then substring audioBase64 0 (Z.min (len audioBase64) 50000)
  else audioBase64.

Definition textChunksOf (fieldIndex : nat) (audioBase64 : ustring) : list RichText :=
  map textSpan (slices (dataToStoreOf fieldIndex audioBase64) (maxChunkSizeOf fieldIndex)).

(** The reduced payload of the special handling of field 13. *)
Definition smallerChunksOf (audioBase64 : ustring) : list RichText :=
  map textSpan (slices (substring audioBase64 0 (Z.min (len audioBase64) 50000)) 1000).

Definition MAX_RETRIES : nat := 3.

(** How the retry loop of a field ends. *)
Inductive FieldExit : Type :=
| Break (successfulFields : list string)
| Return (result : bool).

Definition internalError (message : ustring) : bool :=
  includes message (ustr "internal_server_error").

Definition permanentError (message : ustring) : bool :=
  includes message (ustr "validation_error")
  || includes message (ustr "path.not_found").

(** [while (retries <= MAX_RETRIES)]: [n] bounds the iterations left
    ([MAX_RETRIES + 1 - retries]). *)
Fixpoint retryLoop (n : nat) (pageId fieldIndex : nat) (audioBase64 : ustring)
    (successfulFields : list string) (retries : nat) : M FieldExit :=
  match n with
  | O => ret (Break successfulFields)
  | S n' =>
      let fieldName := fieldName fieldIndex in
      r <- attempt (pages_update pageId fieldName (textChunksOf fieldIndex audioBase64)) ;;
      match r with
      | inl _ => ret (Break (successfulFields ++ [fieldName]))
      | inr fieldError =>
          let retries := S retries in
          if internalError fieldError then
            stored <-
              (if Nat.eqb fieldIndex 12 && Nat.eqb retries 0 then
                 pause 10000 ;;;
                 r2 <- attempt (pages_update pageId fieldName (smallerChunksOf audioBase64)) ;;
                 match r2 with
                 | inl _ => ret true
                 | inr _ => ret false
                 end
               else ret false) ;;
            if (stored : bool) then ret (Break (successfulFields ++ [fieldName]))
            else if Nat.leb retries MAX_RETRIES then
              pause (3000 * Z.of_nat retries) ;;;
              retryLoop n' pageId fieldIndex audioBase64 successfulFields retries
            else throw fieldError
          else if permanentError fieldError then
            say (FieldDoesNotExist fieldName) ;;;
            ret (Return (Nat.ltb 0 (List.length successfulFields)))
          else
            say (FailedToUpdateField fieldName fieldError) ;;;
            if Nat.ltb MAX_RETRIES retries then throw fieldError
            else retryLoop n' pageId fieldIndex audioBase64 successfulFields retries
      end
  end.

(** The delay after a field. *)
Definition delayAfter (fieldIndex : nat) : Z :=
  if Nat.ltb fieldIndex 3 then 1000
  else if Nat.ltb fieldIndex 6 then 1500
  else if Nat.ltb fieldIndex 10 then 2000
  else if Nat.ltb fieldIndex 13 then 3000
  else 4000.

(** [for (let fieldIndex = 0; fieldIndex < audioChunks.length; fieldIndex++)]:
    [remaining] are the chunks from [fieldIndex] on, [count] is
    [audioChunks.length]. *)
Fixpoint eachField (pageId count : nat) (remaining : list ustring)
    (fieldIndex : nat) (successfulFields : list string) : M bool :=
  match remaining with
  | [] => ret (Nat.ltb 0 (List.length successfulFields))
  | audioBase64 :: remaining' =>
      (if Nat.eqb fieldIndex 12 then pause 8000 else ret tt) ;;;
      (if Nat.ltb 0 fieldIndex && Nat.eqb (fieldIndex mod 5) 0 then pause 5000
       else if Nat.ltb 0 fieldIndex && Nat.eqb (fieldIndex mod 3) 0 then pause 2000
       else ret tt) ;;;
      exit <- retryLoop (S MAX_RETRIES) pageId fieldIndex audioBase64 successfulFields O ;;
      match exit with
      | Return result => ret result
      | Break successfulFields =>
          (if Nat.ltb fieldIndex (count - 1) then pause (delayAfter fieldIndex)
           else ret tt) ;;;
          eachField pageId count remaining' (S fieldIndex) successfulFields
      end
  end.

Definition updatePageWithAudio (pageId : nat) (audioChunks : list ustring) : M bool :=
  tryCatch
    (pause 2000 ;;;
     eachField pageId (List.length audioChunks) audioChunks O [])
    (fun error => say (ErrorUpdatingPage error) ;;; ret false).







End Writer.

(** ** Page fetcher of the find-and-replace tool *)

Module PageFetcher.
Import JS Notion.
Open Scope script_scope.

(** [getAllPages(notion)] is [Converter.getAllPages]. *)

(** [getPageContent(notion, pageId)]: the blocks at the top of the page,
    batch after batch; a failed listing is not caught. *)
Fixpoint getPageContentFrom (n : nat) (pageId : nat) (cursor : option nat)
    (blocks : list Block) : M (list Block) :=
  match n with
  | O => diverge
  | S n' =>
      response <- blocks_children_list pageId cursor 100 ;;
      let blocks := blocks ++ results response in
      if has_more response
      then getPageContentFrom n' pageId (next_cursor response) blocks
      else ret blocks
  end.

Definition getPageContent (fuel : nat) (pageId : nat) : M (list Block) :=
  getPageContentFrom fuel pageId None [].

End PageFetcher.

(** ** Find and replace across the workspace *)

Module FindReplace.
Import JS Notion TextProcessor PageFetcher.
Open Scope script_scope.

Record ModifiedPage := {
  m_id : nat;
  m_title : ustring;
  replacements : nat
}.

Record PageError := {
  pageId : nat;
  pageTitle : ustring;
  error : ustring
}.

Record Results := {
  totalPages : nat;
  modifiedPages : list ModifiedPage;
  errors : list PageError;
  totalReplacements : nat
}.

(** [for (let j = 0; j < blocks.length; j++)]: a block that cannot be
    processed is skipped (the warning printed unless [options.silent] is
    output only). *)
Fixpoint eachBlock (searchText replaceText : ustring) (blocks : list Block)
    (pageModified : bool) (pageReplacements : nat) : M (bool * nat) :=
  match blocks with
  | [] => ret (pageModified, pageReplacements)
  | block :: blocks' =>
      r <- attempt (processBlock block searchText replaceText) ;;
      match r with
      | inl result =>
          if p_modified result
          then eachBlock searchText replaceText blocks' true (S pageReplacements)
          else eachBlock searchText replaceText blocks' pageModified pageReplacements
      | inr blockError =>
          eachBlock searchText replaceText blocks' pageModified pageReplacements
      end
  end.

(** [for (let i = 0; i < pages.length; i++)]; [page_title] stands for
    [getPageTitle(page)]. *)
Fixpoint eachPage (fuel : nat) (searchText replaceText : ustring)
    (pages : list Page) (results : Results) : M Results :=
  match pages with
  | [] => ret results
  | page :: pages' =>
      r <- attempt
             (blocks <- getPageContent fuel (page_id page) ;;
              eachBlock searchText replaceText blocks false O) ;;
      match r with
      | inl (pageModified, pageReplacements) =>
          eachPage fuel searchText replaceText pages'
            (if (pageModified : bool) then
               {| totalPages := totalPages results;
                  modifiedPages :=
                    modifiedPages results
                    ++ [{| m_id := page_id page; m_title := page_title page;
                           replacements := pageReplacements |}];
                  errors := errors results;
                  totalReplacements := totalReplacements results + pageReplacements |}
             else results)
      | inr pageError =>
          eachPage fuel searchText replaceText pages'
            {| totalPages := totalPages results;
               modifiedPages := modifiedPages results;
               errors :=
                 errors results
                 ++ [{| pageId := page_id page; pageTitle := page_title page;
                        error := pageError |}];
               totalReplacements := totalReplacements results |}
      end
  end.

(** [findAndReplaceInWorkspace(notion, searchText, replaceText, options)]:
    the outer [catch] logs and throws the error again. *)
Definition findAndReplaceInWorkspace (fuel : nat) (searchText replaceText : ustring)
  : M Results :=
  tryCatch
    (pages <- Converter.getAllPages fuel ;;
     eachPage fuel searchText replaceText pages
       {| totalPages := List.length pages; modifiedPages := []; errors := [];
          totalReplacements := O |})
    (fun error => throw error).

(** The [dry-run] command of the command line:
    [(s.match(new RegExp(escapeRegExp(searchText), 'g')) || []).length],
    the matches found from left to right without overlap; [skip] counts
    the characters of the current match still to be passed over. *)
Fixpoint countFrom (pattern : ustring) (skip : nat) (s : ustring) : nat :=
  match s with
  | [] =>
      match skip, matchPattern pattern [] with
      | O, Some _ => 1%nat
      | _, _ => O
      end
  | c :: s' =>
      match skip with
      | S k => countFrom pattern k s'
      | O =>
          match matchPattern pattern s with
          | Some rest =>
              S (match (List.length s - List.length rest)%nat with
                 | O => countFrom pattern O s'
                 | S k => countFrom pattern k s'
                 end)
          | None => countFrom pattern O s'
          end
      end
  end.

Definition countMatches (s searchText : ustring) : nat :=
  countFrom (escapeRegExp searchText) O s.

(** The occurrences the dry run counts in a span: in the content and the
    link target of a text span, and in the [href] of any span. *)
Definition occurrencesIn (searchText : ustring) (richText : RichText) : nat :=
  ((if isText richText && truthy (contentOf richText)
    then countMatches (contentOf richText) searchText else O)
   + (if isText richText && truthy (urlOf richText)
      then countMatches (urlOf richText) searchText else O)
   + (if truthy (hrefOf richText)
      then countMatches (hrefOf richText) searchText else O))%nat.

End FindReplace.

(** ** Block search of the block converter library *)

Module BlockSearch.
Import JS Notion Fetcher.
Open Scope script_scope.

Section Loops.
Variable blockType : string.
Variable recursive : bool.
(** The recursive call [searchBlocks(block.id)], which appends to the
    shared array [blocks]. *)
Variable recur : nat -> list Block -> M (list Block).

(** [for (const block of response.results)] *)
Fixpoint eachFound (rs : list Block) (blocks : list Block) : M (list Block) :=
  match rs with
  | [] => ret blocks
  | block :: rs' =>
      let blocks := if isType blockType block then blocks ++ [block] else blocks in
      if recursive && has_children block then
        blocks <- recur (id (data block)) blocks ;;
        eachFound rs' blocks
      else eachFound rs' blocks
  end.

(** [while (hasMore)] of [searchBlocks]; nothing is caught. *)
Fixpoint searchPages (n : nat) (parentId : nat) (cursor : option nat)
    (blocks : list Block) : M (list Block) :=
  match n with
  | O => diverge
  | S n' =>
      response <- blocks_children_list parentId cursor 100 ;;
      blocks <- eachFound (results response) blocks ;;
      if has_more response
      then searchPages n' parentId (next_cursor response) blocks
      else ret blocks
  end.
End Loops.

Fixpoint searchBlocks (fuel : nat) (blockType : string) (recursive : bool)
    (parentId : nat) (blocks : list Block) : M (list Block) :=
  match fuel with
  | O => diverge
  | S fuel' =>
      searchPages blockType recursive (searchBlocks fuel' blockType recursive)
        fuel' parentId None blocks
  end.

(** [findBlocksOfType(notion, pageId, blockType, recursive = true)] *)
Definition findBlocksOfType (fuel : nat) (pageId : nat) (blockType : string)
    (recursive : bool) : M (list Block) :=
  searchBlocks fuel blockType recursive pageId [].

End BlockSearch.

(** ** Single-field writers (content copier and first speech converter) *)

Module ContentWriter.
Import JS Notion Writer.
Open Scope script_scope.

(** [for (let i = 0; i < content.length; i += maxLength)
       chunks.push({ type: 'text', text: { content: content.substring(i, Math.min(i + maxLength, content.length)) } })] *)
Definition textChunks (content : ustring) (maxLength : Z) : list RichText :=
  map textSpan (slices content maxLength).

Definition updateField (field : string) (pageId : nat) (content : ustring) : M bool :=
  tryCatch
    (pages_update pageId field (textChunks content 2000) ;;; ret true)
    (fun error => say (ErrorUpdatingPage error) ;;; ret false).

(** [updateBlogWithContent(pageId, content)] of the content copier. *)
Definition updateBlogWithContent : nat -> ustring -> M bool := updateField "Content".

(** [updatePageWithAudio(pageId, audioBase64)] of the first speech
    converter, which stores the whole payload in one field. *)
Definition updatePageWithAudio : nat -> ustring -> M bool := updateField "Content64".

End ContentWriter.

(** ** Field cleanup *)

Module Cleanup.
Import Writer.

(** [const fieldsToCheck = ['Content64'];
     for (let i = 2; i <= 15; i++) fieldsToCheck.push(`Content64_${i}`)] *)
Definition fieldsToCheck : list string :=
  "Content64"%string
  :: map (fun i => ("Content64_" ++ decimal i)%string) (seq 2 14).

End Cleanup.

(** ** Content extraction of the speech workflow *)

Module Workflow.
Import JS Notion Fetcher.
Open Scope script_scope.

(** [richTextArray.map(rt => rt.plain_text || '').join('')] *)
Definition plainText (richTextArray : list RichText) : ustring :=
  join0 (map plain_text richTextArray).

Definition textTypes : list string :=
  ["paragraph"; "heading_1"; "heading_2"; "heading_3"; "bulleted_list_item";
   "numbered_list_item"; "to_do"; "quote"; "callout"; "code"]%string.

(** [extractTextFromBlock(block)] of the workflow: the text of the
    block, then the line breaks that fit its type. *)
Definition extractTextFromBlock (block : Block) : ustring :=
  let t := type (data block) in
  let text :=
    if existsb (String.eqb t) textTypes then plainText (rich_text (data block))
    else [] in
  if String.eqb t "heading_1" || String.eqb t "heading_2"
  then [10%N] ++ text ++ [10%N; 10%N]
  else if String.eqb t "heading_3" || String.eqb t "bulleted_list_item"
          || String.eqb t "numbered_list_item" || String.eqb t "quote"
  then text ++ [10%N]
  else if truthy text then text ++ [32%N] else [].

Fixpoint contentPartsOf (blocks : list Block) : list ustring :=
  match blocks with
  | [] => []
  | block :: blocks' =>
      let text := extractTextFromBlock block in
      if truthy text && truthy (trim text)
      then text :: contentPartsOf blocks'
      else contentPartsOf blocks'
  end.

(** [content.replace(/\n{3,}/g, '\n\n')]: [run] counts the line feeds
    of the current run already kept. *)
Fixpoint squeezeNewlinesFrom (run : nat) (s : ustring) : ustring :=
  match s with
  | [] => []
  | c :: s' =>
      if N.eqb c 10 then
        if Nat.ltb run 2 then c :: squeezeNewlinesFrom (S run) s'
        else squeezeNewlinesFrom run s'
      else c :: squeezeNewlinesFrom O s'
  end.

Definition squeezeNewlines (s : ustring) : ustring := squeezeNewlinesFrom O s.

(** [content.replace(/  +/g, ' ')]: [inRun] holds after a space. *)
Fixpoint squeezeSpacesFrom (inRun : bool) (s : ustring) : ustring :=
  match s with
  | [] => []
  | c :: s' =>
      if N.eqb c 32 then
        if inRun then squeezeSpacesFrom true s' else c :: squeezeSpacesFrom true s'
      else c :: squeezeSpacesFrom false s'
  end.

Definition squeezeSpaces (s : ustring) : ustring := squeezeSpacesFrom false s.

Definition assemble (blocks : list Block) : ustring :=
  let content := trim (join0 (contentPartsOf blocks)) in
  squeezeSpaces (squeezeNewlines content).

(** [extractPageContent(pageId)] of the workflow. *)
Definition extractPageContent (fuel : nat) (pageId : nat) : M ustring :=
  blocks <- getAllBlocksFromPage fuel pageId ;;
  ret (assemble blocks).

(** The slug computed from a title when the page has none,
    [title.toLowerCase().replace(/[^a-z0-9]+/g, '-').replace(/^-+|-+$/g, '')],
    given the title in lower case. *)
Definition isSlugChar (c : N) : bool :=
  ((97 <=? c) && (c <=? 122) || (48 <=? c) && (c <=? 57))%N.

(** [.replace(/[^a-z0-9]+/g, '-')]: [inRun] holds inside a run already
    replaced. *)
Fixpoint hyphenateFrom (inRun : bool) (s : ustring) : ustring :=
  match s with
  | [] => []
  | c :: s' =>
      if isSlugChar c then c :: hyphenateFrom false s'
      else if inRun then hyphenateFrom true s'
      else 45%N :: hyphenateFrom true s'
  end.

Definition isHyphen (c : N) : bool := N.eqb c 45.

(** [.replace(/^-+|-+$/g, '')] *)
Definition stripHyphens (s : ustring) : ustring :=
  rev (dropWhile isHyphen (rev (dropWhile isHyphen s))).

Definition slugOfLowered (lowered : ustring) : ustring :=
  stripHyphens (hyphenateFrom false lowered).

(** The file name slug of the export, [... .substring(0, 50)]. *)
Definition fileSlugOfLowered (lowered : ustring) : ustring :=
  substring (slugOfLowered lowered) 0 50.

End Workflow.

(** ** Vocabulary of the further properties *)

Module Triple.
Import JS Notion.

(** From a state satisfying [I], whatever the provider answers, the
    step ends in a state satisfying [I], with a result satisfying [Q]
    when it returns. *)
Definition hoare (I : World -> Prop) {A : Type} (m : M A) (Q : A -> Prop) : Prop :=
  forall w, I w ->
    match m w with
    | Ok a w' => I w' /\ Q a
    | Throw _ w' => I w'
    | Diverge => True
    end.

(** A state property that the log, the schedule of faults and the
    console do not bear on. *)
Definition durable (I : World -> Prop) : Prop :=
  forall w l fs c, I w -> I (withConsole c (withFaults fs (withLog l w))).

Definition anyState (w : World) : Prop := True.

End Triple.

Module Counters.
Import JS Notion Converter Walk.
Local Open Scope nat_scope.

(** The entries of a run's errors that record a failed conversion (they
    name the block), and those that record a page that could not be
    listed. *)
Definition isConversionError (e : ErrorEntry) : bool :=
  match e_blockId e with Some _ => true | None => false end.

Definition conversionErrors (l : list ErrorEntry) : nat :=
  List.length (filter isConversionError l).

Definition pageErrors (l : list ErrorEntry) : nat :=
  List.length (filter (fun e => negb (isConversionError e)) l).

(** The counters add up: every match found was converted or is among
    the errors. *)
Definition balanced (t : Tally) : Prop :=
  total t = converted t + conversionErrors (errors t).

(** What the loops of a converter keep of the counters: they add up,
    the errors of the pages are left alone, and a dry run records no
    failed conversion. *)
Definition kept (dryRun : bool) (t0 t : Tally) : Prop :=
  balanced t
  /\ pageErrors (errors t) = pageErrors (errors t0)
  /\ (dryRun = true -> conversionErrors (errors t) = conversionErrors (errors t0)).

(** The books of a find-and-replace run after [seen] pages: the total
    is the sum over the modified pages, each of which has a
    replacement, and no page is both modified and failed. *)
Definition booked (seen : nat) (r : FindReplace.Results) : Prop :=
  FindReplace.totalReplacements r
  = list_sum (map FindReplace.replacements (FindReplace.modifiedPages r))
  /\ Forall (fun m => 1 <= FindReplace.replacements m) (FindReplace.modifiedPages r)
  /\ List.length (FindReplace.modifiedPages r) + List.length (FindReplace.errors r)
     <= seen.

End Counters.

Module Shape.
Import JS Notion Fetcher.

(** A chunk as the splitters push them: not empty, trimmed, within the
    limit. *)
Definition fits (maxLength : Z) (chunk : ustring) : Prop :=
  chunk <> [] /\ trim chunk = chunk /\ len chunk <= maxLength.

(** The number a decimal numeral denotes. *)
Definition numberOf (s : string) : nat :=
  match NilZero.uint_of_string s with
  | Some d => Nat.of_uint d
  | None => O
  end.

(** What the block search collects below a block list: the blocks of
    the type, each followed by those found among its descendants when
    the search is recursive. *)
Definition below (blockType : string) (recursive : bool) (f : Forest) : list Block :=
  filter (isType blockType) (if recursive then allBlocks f else map view (siblings f)).

Definition foundAt (blockType : string) (recursive : bool) (n : BlockData * Forest)
  : list Block :=
  filter (isType blockType) [view n]
  ++ (if recursive then below blockType recursive (snd n) else []).

Definition isNewline (c : N) : bool := N.eqb c 10.
Definition isSpace (c : N) : bool := N.eqb c 32.

(** No three line feeds in a row, after [run] of them. *)
Fixpoint shortRuns (run : nat) (s : ustring) : bool :=
  match s with
  | [] => true
  | c :: s' =>
      if N.eqb c 10 then Nat.ltb run 2 && shortRuns (S run) s'
      else shortRuns O s'
  end.

(** The characters of a slug. *)
Definition slugSafe (c : N) : bool := Workflow.isSlugChar c || Workflow.isHyphen c.

End Shape.

(** ** Sample data for the scenarios *)

Module Sample.
Import JS Notion.

(** A plain text span. *)
Definition span (s : string) : RichText :=
  {| rt_type := "text";
     text := Some {| content := ustr s; link := None |};
     href := None;
     plain_text := ustr s |}.

(** A block of type [t] whose spans hold the given texts. *)
Definition block (i : nat) (t : string) (spans : list string) : BlockData :=
  {| id := i; type := t; rich_text := map span spans;
     color := Some "default"%string; checked := None; language := None;
     cells := [] |}.

Definition todo (i : nat) (done : bool) (spans : list string) : BlockData :=
  {| id := i; type := "to_do"; rich_text := map span spans;
     color := Some "blue"%string; checked := Some done; language := None;
     cells := [] |}.

Definition tableRow (i : nat) (row : list string) : BlockData :=
  {| id := i; type := "table_row"; rich_text := [];
     color := None; checked := None; language := None;
     cells := map (fun c => [span c]) row |}.

Definition page (i : nat) : Page := {| page_id := i; page_title := ustr "Page" |}.

(** A reliable provider holding the forest [f], whose search returns
    [pages]; new blocks are numbered from 1000. *)
Definition workspace (f : Forest) (pages : list nat) : World :=
  {| forest := f; searchable := map page pages; next_id := 1000%nat;
     schema := []; props := []; faults := []; log := []; console := [] |}.

Definition leaf (b : BlockData) (rest : Forest) : Forest := Sib b Empty rest.

(** The page 1 with a paragraph 2 holding a paragraph 5, a toggle 3
    holding a paragraph 4 that holds a paragraph 6, and a sub-page 7
    holding a paragraph 8. *)
Definition nestedForest : Forest :=
  Sib (block 1 "child_page" [])
    (Sib (block 2 "paragraph" ["a"%string]) (leaf (block 5 "paragraph" ["b"%string]) Empty)
       (Sib (block 3 "toggle" ["c"%string])
          (Sib (block 4 "paragraph" ["d"%string])
             (leaf (block 6 "paragraph" ["e"%string]) Empty) Empty)
          (Sib (block 7 "child_page" [])
             (leaf (block 8 "paragraph" ["f"%string]) Empty) Empty)))
    Empty.

Definition nestedPage : World := workspace nestedForest [1%nat].

(** The same page on a provider whose second call fails. *)
Definition flakyPage : World :=
  withFaults [None; Some (ustr "socket hang up")] nestedPage.

(** The page 1 made of a paragraph 2, the to-do 3 "Buy milk" (checked,
    blue, holding a paragraph 5) and a paragraph 4. *)
Definition milkForest : Forest :=
  Sib (block 1 "child_page" [])
    (leaf (block 2 "paragraph" ["Shopping"%string])
       (Sib (todo 3 true ["Buy milk"%string])
          (leaf (block 5 "paragraph" ["semi-skimmed"%string]) Empty)
          (leaf (block 4 "paragraph" ["Done"%string]) Empty)))
    Empty.

Definition milkPage : World := workspace milkForest [1%nat].

(** The page 1 holding a toggle 2, which holds the to-do 3, which holds
    a paragraph 4. *)
Definition nestedTodoPage : World :=
  workspace
    (Sib (block 1 "child_page" [])
       (Sib (block 2 "toggle" ["more"%string])
          (Sib (todo 3 false ["call back"%string])
             (leaf (block 4 "paragraph" ["before noon"%string]) Empty) Empty)
          Empty)
       Empty)
    [1%nat].

(** The page 1 holding the sub-page 2, which holds the to-do 3, which
    holds a paragraph 4 holding a paragraph 5; the search returns both
    pages, the parent first. *)
Definition subPageWorld : World :=
  workspace
    (Sib (block 1 "child_page" [])
       (Sib (block 2 "child_page" [])
          (Sib (todo 3 false ["renew passport"%string])
             (Sib (block 4 "paragraph" ["form"%string])
                (leaf (block 5 "paragraph" ["photo"%string]) Empty) Empty)
             Empty)
          Empty)
       Empty)
    [1%nat; 2%nat].

(** Two top-level pages: page 1 with a to-do, a quote and a toggle
    holding a to-do; page 6 with a to-do. *)
Definition twoPages : World :=
  workspace
    (Sib (block 1 "child_page" [])
       (leaf (todo 2 false ["one"%string])
          (leaf (block 3 "quote" ["two"%string])
             (Sib (block 4 "toggle" ["three"%string])
                (leaf (todo 5 true ["four"%string]) Empty) Empty)))
       (Sib (block 6 "child_page" [])
          (leaf (todo 7 false ["five"%string]) Empty) Empty))
    [1%nat; 6%nat].


(** The page 1 made of a first-level heading "Intro" and of a paragraph
    "Hello world.". *)
Definition introPage : World :=
  workspace
    (Sib (block 1 "child_page" [])
       (leaf (block 2 "heading_1" ["Intro"%string])
          (leaf (block 3 "paragraph" ["Hello world."%string]) Empty))
       Empty)
    [1%nat].

(** The page 1 made of the heading "Intro" and of a paragraph with a
    run of spaces, a space before a full stop and before a comma, no
    space after two sentence marks, and a space at the end. *)
Definition spacedPage : World :=
  workspace
    (Sib (block 1 "child_page" [])
       (leaf (block 2 "heading_1" ["Intro"%string])
          (leaf (block 3 "paragraph" ["Hello   world .Next!Last , end "%string]) Empty))
       Empty)
    [1%nat].

End Sample.

(* ================================================================== *)
(** * Part II. Properties                                             *)
(* ================================================================== *)

Import JS.

Import Chunking.

(** ** Strings: substring, trimming and whitespace *)

Lemma len_nonneg (s : ustring) : 0 <= len s.
Proof. unfold len. lia. Qed.

Lemma len_cons (c : N) (s : ustring) : len (c :: s) = 1 + len s.
Proof. unfold len. cbn [List.length]. lia. Qed.

Lemma len_app (s t : ustring) : len (s ++ t) = len s + len t.
Proof. unfold len. rewrite length_app. lia. Qed.

Lemma substring_ordered (s : ustring) (a b : Z) :
  0 <= a <= b -> b <= len s ->
  substring s a b = firstn (Z.to_nat (b - a)) (skipn (Z.to_nat a) s).
Proof.
  intros Ha Hb. unfold substring, clamp.
  replace (Z.max 0 (Z.min a (len s))) with a by lia.
  replace (Z.max 0 (Z.min b (len s))) with b by lia.
  replace (Z.min a b) with a by lia.
  replace (Z.max a b) with b by lia.
  reflexivity.
Qed.

Lemma skipn_split_at (s : ustring) (a b : Z) :
  0 <= a <= b -> b <= len s ->
  skipn (Z.to_nat a) s = substring s a b ++ skipn (Z.to_nat b) s.
Proof.
  intros Ha Hb. rewrite substring_ordered by assumption.
  replace (Z.to_nat b) with (Z.to_nat (b - a) + Z.to_nat a)%nat by lia.
  rewrite <- skipn_skipn. symmetry. apply firstn_skipn.
Qed.

Lemma substring_whole (s : ustring) : substring s 0 (len s) = s.
Proof.
  rewrite substring_ordered by (pose proof (len_nonneg s); lia).
  simpl. rewrite Z.sub_0_r. unfold len. rewrite Nat2Z.id. apply firstn_all.
Qed.

Lemma visible_app (s t : ustring) : visible (s ++ t) = visible s ++ visible t.
Proof. apply filter_app. Qed.

Lemma visible_dropWhile (s : ustring) :
  visible (dropWhile isWhiteSpace s) = visible s.
Proof.
  induction s as [|c s IH]; simpl; [reflexivity|].
  destruct (isWhiteSpace c) eqn:E.
  - rewrite IH. unfold visible at 2. simpl. unfold notWhiteSpace at 1.
    rewrite E. reflexivity.
  - reflexivity.
Qed.

Lemma visible_rev (s : ustring) : visible (rev s) = rev (visible s).
Proof.
  induction s as [|c s IH]; simpl; [reflexivity|].
  rewrite visible_app, IH. unfold visible at 2 3. simpl.
  destruct (notWhiteSpace c); simpl; [reflexivity | now rewrite app_nil_r].
Qed.

Lemma visible_trim (s : ustring) : visible (trim s) = visible s.
Proof.
  unfold trim, trimEnd, trimStart.
  rewrite visible_rev, visible_dropWhile, visible_rev, rev_involutive.
  apply visible_dropWhile.
Qed.

Lemma concat_pushChunk (chunks : list ustring) (chunk : ustring) :
  concat (pushChunk chunks chunk) = concat chunks ++ chunk.
Proof.
  unfold pushChunk. destruct chunk as [|c chunk]; simpl.
  - now rewrite app_nil_r.
  - rewrite concat_app. simpl. now rewrite app_nil_r.
Qed.

(** ** The scans of the splitter stay inside the window *)

Lemma findSentenceEnd_range (fs : list N) (n : nat) (text : ustring) (i best : Z) :
  let r := findSentenceEnd fs n text i best in
  r = best \/ (i - Z.of_nat n + 2 <= r <= i + 1).
Proof.
  revert i. induction n as [|n IH]; intros i; simpl.
  - now left.
  - destruct (_ && _).
    + right. lia.
    + destruct (IH (i - 1)) as [H|H]; [now left | right; lia].
Qed.

Lemma lastIndexOfFrom_le (n : nat) (p s : ustring) (k : Z) :
  lastIndexOfFrom n p s k <= Z.max k (-1).
Proof.
  revert k. induction n as [|n IH]; intros k; simpl; [lia|].
  destruct (startsWith _ _); [lia|]. specialize (IH (k - 1)). lia.
Qed.

Lemma lastIndexOf_le (s p : ustring) (pos : Z) :
  0 <= pos -> lastIndexOf s p pos <= pos.
Proof.
  intros Hpos. unfold lastIndexOf.
  destruct (_ <? 0) eqn:E; [lia|].
  apply Z.ltb_ge in E.
  pose proof (lastIndexOfFrom_le (S (Z.to_nat (Z.min (Z.max pos 0) (len s - len p))))
                p s (Z.min (Z.max pos 0) (len s - len p))).
  lia.
Qed.

Lemma countLeading_bounds (f : N -> bool) (s : ustring) :
  0 <= countLeading f s <= len s.
Proof.
  induction s as [|c s IH]; [simpl; unfold len; simpl; lia|].
  rewrite len_cons. cbn [countLeading]. destruct (f c); lia.
Qed.

Lemma countLeading_visible (f : N -> bool) (s : ustring) :
  (forall c, f c = true -> isWhiteSpace c = true) ->
  visible (skipn (Z.to_nat (countLeading f s)) s) = visible s.
Proof.
  intros Hf. induction s as [|c s IH]; [reflexivity|].
  cbn [countLeading]. destruct (f c) eqn:E.
  - pose proof (countLeading_bounds f s).
    replace (Z.to_nat (1 + countLeading f s))
      with (S (Z.to_nat (countLeading f s))) by lia.
    rewrite skipn_cons, IH. unfold visible at 2. cbn [filter].
    unfold notWhiteSpace at 1. now rewrite (Hf c E).
  - reflexivity.
Qed.

Lemma separators_are_whitespace (seps : list N) :
  forallb isWhiteSpace seps = true ->
  forall c, existsb (N.eqb c) seps = true -> isWhiteSpace c = true.
Proof.
  intros Hs c Hc. apply existsb_exists in Hc as [d [Hin Hd]].
  apply N.eqb_eq in Hd. subst d.
  rewrite forallb_forall in Hs. now apply Hs.
Qed.

Lemma len_skipn (s : ustring) (k : Z) :
  0 <= k <= len s -> len (skipn (Z.to_nat k) s) = len s - k.
Proof. intros H. unfold len in *. rewrite length_skipn. lia. Qed.

Lemma skipSeparators_spec (seps : list N) (text : ustring) (e : Z) :
  forallb isWhiteSpace seps = true ->
  0 <= e <= len text ->
  let r := skipSeparators seps text e in
  e <= r <= len text /\
  visible (skipn (Z.to_nat r) text) = visible (skipn (Z.to_nat e) text).
Proof.
  intros Hs He. unfold skipSeparators.
  set (f := fun c => existsb (N.eqb c) seps).
  pose proof (countLeading_bounds f (skipn (Z.to_nat e) text)) as Hb.
  rewrite len_skipn in Hb by assumption.
  split; [lia|].
  replace (Z.to_nat (e + countLeading f (skipn (Z.to_nat e) text)))
    with (Z.to_nat (countLeading f (skipn (Z.to_nat e) text)) + Z.to_nat e)%nat
    by lia.
  rewrite <- skipn_skipn.
  apply countLeading_visible. apply separators_are_whitespace, Hs.
Qed.

(** ** Every chunk ends strictly after its start and inside the text *)

Lemma chooseChunkEnd_range (text : ustring) (maxLength pos : Z) :
  1 <= maxLength -> 0 <= pos < len text ->
  pos < chooseChunkEnd text maxLength pos <= len text.
Proof.
  intros Hm Hp. unfold chooseChunkEnd.
  set (e0 := Z.min (pos + maxLength) (len text)).
  assert (He0 : pos < e0 <= len text) by (unfold e0; lia).
  destruct (e0 <? len text); [|lia].
  set (s1 := Z.max pos (e0 - 1000)).
  pose proof (findSentenceEnd_range sentenceFollowers (scanCount e0 s1)
                text (e0 - 1) (-1)) as R1.
  cbv zeta in R1.
  set (b1 := findSentenceEnd sentenceFollowers (scanCount e0 s1) text (e0 - 1) (-1)) in *.
  destruct (Z.gtb_spec b1 pos) as [G1|G1]; [lia|].
  set (s2 := Z.max pos (e0 - 2000)).
  pose proof (findSentenceEnd_range sentenceFollowers (scanCount e0 s2)
                text (e0 - 1) b1) as R2.
  cbv zeta in R2.
  set (b2 := findSentenceEnd sentenceFollowers (scanCount e0 s2) text (e0 - 1) b1) in *.
  destruct (Z.gtb_spec b2 pos) as [G2|G2]; [lia|].
  pose proof (lastIndexOf_le text [32%N] e0 ltac:(lia)).
  destruct (Z.gtb_spec (lastIndexOf text [32%N] e0) pos); lia.
Qed.

Lemma workflowChunkEnd_range (text : ustring) (maxLength pos : Z) :
  1 <= maxLength -> 0 <= pos < len text ->
  pos < workflowChunkEnd text maxLength pos <= len text.
Proof.
  intros Hm Hp. unfold workflowChunkEnd.
  set (e0 := Z.min (pos + maxLength) (len text)).
  assert (He0 : pos < e0 <= len text) by (unfold e0; lia).
  destruct (e0 <? len text); [|lia].
  set (s1 := Z.max pos (e0 - 1000)).
  pose proof (findSentenceEnd_range workflowFollowers (scanCount e0 s1)
                text (e0 - 1) (-1)) as R1.
  cbv zeta in R1.
  set (b1 := findSentenceEnd workflowFollowers (scanCount e0 s1) text (e0 - 1) (-1)) in *.
  destruct (Z.gtb_spec b1 pos) as [G1|G1]; [lia|].
  pose proof (lastIndexOf_le text [10%N; 10%N] e0 ltac:(lia)).
  destruct (Z.gtb_spec (lastIndexOf text [10%N; 10%N] e0) pos); [lia|].
  pose proof (lastIndexOf_le text [32%N] e0 ltac:(lia)).
  destruct (Z.gtb_spec (lastIndexOf text [32%N] e0) pos); lia.
Qed.

(** One iteration of either loop: the chunk pushed and the separators
    skipped lose nothing but whitespace. *)
Lemma iteration_visible (seps : list N) (text : ustring) (pos e : Z)
    (chunks : list ustring) :
  forallb isWhiteSpace seps = true ->
  0 <= pos -> pos < e <= len text ->
  let r := skipSeparators seps text e in
  e <= r <= len text /\
  visible (concat (pushChunk chunks (trim (substring text pos e))))
    ++ visible (skipn (Z.to_nat r) text)
  = visible (concat chunks) ++ visible (skipn (Z.to_nat pos) text).
Proof.
  intros Hs Hp He r.
  destruct (skipSeparators_spec seps text e Hs ltac:(lia)) as [Hr Hv].
  split; [exact Hr|]. fold r in Hv.
  rewrite concat_pushChunk, visible_app, visible_trim, Hv, <- app_assoc.
  f_equal. rewrite <- visible_app. f_equal. symmetry.
  apply skipn_split_at; lia.
Qed.

Lemma skipn_len (text : ustring) : skipn (Z.to_nat (len text)) text = [].
Proof. unfold len. rewrite Nat2Z.id. apply skipn_all. Qed.

Lemma splitLoop_visible (text : ustring) (maxLength : Z) :
  1 <= maxLength ->
  forall (fuel : nat) (pos : Z) (chunks : list ustring),
    0 <= pos <= len text -> (Z.to_nat (len text - pos) <= fuel)%nat ->
    exists out,
      splitLoop fuel text maxLength pos chunks = Some out /\
      visible (concat out)
      = visible (concat chunks) ++ visible (skipn (Z.to_nat pos) text).
Proof.
  intros Hm. induction fuel as [|fuel IH]; intros pos chunks Hp Hf; simpl.
  - replace pos with (len text) by lia. rewrite Z.ltb_irrefl.
    exists chunks. rewrite skipn_len. simpl. now rewrite app_nil_r.
  - destruct (Z.ltb_spec pos (len text)) as [L|L].
    + pose proof (chooseChunkEnd_range text maxLength pos Hm ltac:(lia)) as He.
      destruct (iteration_visible sentenceFollowers text pos _ chunks
                  eq_refl ltac:(lia) He) as [Hr Hv].
      destruct (IH (skipSeparators sentenceFollowers text
                      (chooseChunkEnd text maxLength pos))
                  (pushChunk chunks
                     (trim (substring text pos (chooseChunkEnd text maxLength pos))))
                  ltac:(lia) ltac:(lia)) as [out [E V]].
      exists out. split; [exact E|]. now rewrite V, Hv.
    + replace pos with (len text) by lia.
      exists chunks. rewrite skipn_len. simpl. now rewrite app_nil_r.
Qed.

Lemma workflowLoop_visible (text : ustring) (maxLength : Z) :
  1 <= maxLength ->
  forall (fuel : nat) (pos : Z) (chunks : list ustring),
    0 <= pos <= len text -> (Z.to_nat (len text - pos) <= fuel)%nat ->
    exists out,
      workflowLoop fuel text maxLength pos chunks = Some out /\
      visible (concat out)
      = visible (concat chunks) ++ visible (skipn (Z.to_nat pos) text).
Proof.
  intros Hm. induction fuel as [|fuel IH]; intros pos chunks Hp Hf; simpl.
  - replace pos with (len text) by lia. rewrite Z.ltb_irrefl.
    exists chunks. rewrite skipn_len. simpl. now rewrite app_nil_r.
  - destruct (Z.ltb_spec pos (len text)) as [L|L].
    + pose proof (workflowChunkEnd_range text maxLength pos Hm ltac:(lia)) as He.
      destruct (iteration_visible workflowFollowers text pos _ chunks
                  eq_refl ltac:(lia) He) as [Hr Hv].
      destruct (IH (skipSeparators workflowFollowers text
                      (workflowChunkEnd text maxLength pos))
                  (pushChunk chunks
                     (trim (substring text pos (workflowChunkEnd text maxLength pos))))
                  ltac:(lia) ltac:(lia)) as [out [E V]].
      exists out. split; [exact E|]. now rewrite V, Hv.
    + replace pos with (len text) by lia.
      exists chunks. rewrite skipn_len. simpl. now rewrite app_nil_r.
Qed.

(** ** Fixed-size slicing loses nothing *)

Lemma sliceLoop_concat (s : ustring) (size : Z) :
  1 <= size ->
  forall (fuel : nat) (i : Z) (acc : list ustring),
    0 <= i -> (Z.to_nat (len s - i) <= fuel)%nat ->
    exists out,
      sliceLoop fuel s size i acc = Some out /\
      concat out = concat acc ++ skipn (Z.to_nat i) s.
Proof.
  intros Hs. induction fuel as [|fuel IH]; intros i acc Hi Hf; simpl.
  - destruct (Z.ltb_spec i (len s)) as [L|L]; [lia|].
    exists acc. split; [reflexivity|].
    rewrite skipn_all2 by (unfold len in L; lia). now rewrite app_nil_r.
  - destruct (Z.ltb_spec i (len s)) as [L|L].
    + destruct (IH (i + size) (acc ++ [substring s i (Z.min (i + size) (len s))])
                  ltac:(lia) ltac:(lia)) as [out [E C]].
      exists out. split; [exact E|].
      rewrite C, concat_app. simpl. rewrite app_nil_r, <- app_assoc. f_equal.
      destruct (Z.le_gt_cases (i + size) (len s)) as [Q|Q].
      * replace (Z.min (i + size) (len s)) with (i + size) by lia.
        symmetry. apply skipn_split_at; lia.
      * replace (Z.min (i + size) (len s)) with (len s) by lia.
        rewrite (skipn_all2 (n := Z.to_nat (i + size))) by (unfold len in Q; lia).
        rewrite app_nil_r.
        rewrite (skipn_split_at s i (len s)) by lia.
        rewrite skipn_len. now rewrite app_nil_r.
    + exists acc. split; [reflexivity|].
      rewrite skipn_all2 by (unfold len in L; lia). now rewrite app_nil_r.
Qed.

Lemma sliceLoop_total (s : ustring) (size : Z) :
  1 <= size -> concat (Writer.slices s size) = s.
Proof.
  intros Hs. unfold Writer.slices.
  destruct (sliceLoop_concat s size Hs (List.length s) 0 [] ltac:(lia)
              ltac:(unfold len; lia)) as [out [E C]].
  now rewrite E, C.
Qed.

Lemma contentOf_textSpan (l : list ustring) :
  map TextProcessor.contentOf (map Writer.textSpan l) = l.
Proof. induction l as [|c l IH]; simpl; [reflexivity | now rewrite IH]. Qed.

(** ** What trimming takes off *)

Lemma dropWhile_suffix (f : N -> bool) (s : ustring) :
  exists w, s = w ++ dropWhile f s /\ forallb f w = true.
Proof.
  induction s as [|c s [w [E F]]]; [exists []; split; reflexivity|].
  cbn [dropWhile]. destruct (f c) eqn:Hc.
  - exists (c :: w). split; [cbn; now f_equal | cbn; now rewrite Hc].
  - exists []. split; reflexivity.
Qed.

Lemma dropWhile_head (f : N -> bool) (s : ustring) :
  Extractor.headIs f (dropWhile f s) = false.
Proof.
  induction s as [|c s IH]; [reflexivity|].
  cbn [dropWhile]. destruct (f c) eqn:Hc; [exact IH | cbn; exact Hc].
Qed.

(** ** What the splitters leave out *)

Lemma weave_prefix (a gap : ustring) (gaps chunks : list ustring) :
  weave ((a ++ gap) :: gaps) chunks = a ++ weave (gap :: gaps) chunks.
Proof. cbn [weave]. now rewrite app_assoc. Qed.

Lemma blank_app (s t : ustring) : blank (s ++ t) = blank s && blank t.
Proof. apply forallb_app. Qed.

Lemma blank_rev (s : ustring) : blank (rev s) = blank s.
Proof.
  unfold blank. induction s as [|c s IH]; [reflexivity|].
  cbn [rev forallb]. rewrite forallb_app, IH. cbn. now rewrite andb_true_r, andb_comm.
Qed.

(** Trimming takes white space off both ends, and nothing else. *)
Lemma trim_blank_ends (s : ustring) :
  exists a b, s = a ++ trim s ++ b /\ blank a = true /\ blank b = true.
Proof.
  unfold trim, trimEnd, trimStart.
  destruct (dropWhile_suffix isWhiteSpace s) as [a [Ea Ba]].
  set (u := dropWhile isWhiteSpace s) in *.
  destruct (dropWhile_suffix isWhiteSpace (rev u)) as [b [Eb Bb]].
  set (v := dropWhile isWhiteSpace (rev u)) in *.
  exists a, (rev b). split; [|split; [exact Ba | now rewrite blank_rev]].
  rewrite <- rev_app_distr, <- Eb, rev_involutive. exact Ea.
Qed.

(** The separators skipped after a chunk are white space. *)
Lemma countLeading_blank (f : N -> bool) (s : ustring) :
  (forall c, f c = true -> isWhiteSpace c = true) ->
  exists gap, s = gap ++ skipn (Z.to_nat (countLeading f s)) s /\ blank gap = true.
Proof.
  intros Hf. induction s as [|c s [gap [E B]]]; [exists []; split; reflexivity|].
  cbn [countLeading]. destruct (f c) eqn:Fc.
  - pose proof (countLeading_bounds f s).
    replace (Z.to_nat (1 + countLeading f s))
      with (S (Z.to_nat (countLeading f s))) by lia.
    exists (c :: gap). cbn [skipn]. split; [cbn; now f_equal|].
    cbn. now rewrite (Hf c Fc).
  - exists []. split; reflexivity.
Qed.

Lemma iteration_weave (seps : list N) (text : ustring) (pos e : Z) :
  forallb isWhiteSpace seps = true ->
  0 <= pos -> pos < e <= len text ->
  exists a b,
    blank a = true /\ blank b = true
    /\ skipn (Z.to_nat pos) text
       = a ++ trim (substring text pos e)
           ++ b ++ skipn (Z.to_nat (skipSeparators seps text e)) text.
Proof.
  intros Hs Hp He.
  destruct (trim_blank_ends (substring text pos e)) as [a [b1 [E [Ba Bb]]]].
  destruct (countLeading_blank (fun c => existsb (N.eqb c) seps)
              (skipn (Z.to_nat e) text) (separators_are_whitespace seps Hs))
    as [gap [Eg Bg]].
  exists a, (b1 ++ gap). split; [exact Ba|].
  split; [now rewrite blank_app, Bb, Bg|].
  rewrite (skipn_split_at text pos e) by lia.
  unfold skipSeparators.
  set (f := fun c => existsb (N.eqb c) seps) in *.
  pose proof (countLeading_bounds f (skipn (Z.to_nat e) text)) as Hb.
  replace (Z.to_nat (e + countLeading f (skipn (Z.to_nat e) text)))
    with (Z.to_nat (countLeading f (skipn (Z.to_nat e) text)) + Z.to_nat e)%nat
    by lia.
  rewrite <- skipn_skipn, <- !app_assoc, <- Eg.
  rewrite E at 1. now rewrite <- !app_assoc.
Qed.

(** What an iteration adds to the chunks, woven with its gaps, is the
    text it passes over. *)
Lemma pushChunk_weave (chunks new : list ustring) (chunk a b rest : ustring)
    (gaps : list ustring) :
  blank a = true -> blank b = true ->
  List.length gaps = S (List.length new) ->
  Forall (fun gap => blank gap = true) gaps ->
  weave gaps new = rest ->
  exists new' gaps',
    pushChunk chunks chunk ++ new = chunks ++ new'
    /\ List.length gaps' = S (List.length new')
    /\ Forall (fun gap => blank gap = true) gaps'
    /\ weave gaps' new' = a ++ chunk ++ b ++ rest.
Proof.
  intros Ba Bb Hl Hg Hw.
  destruct gaps as [|gap gaps]; [discriminate|].
  inversion Hg as [|? ? Bg Hgs]; subst.
  unfold pushChunk. destruct chunk as [|c chunk]; cbn [truthy].
  - exists new, ((a ++ b ++ gap) :: gaps). split; [reflexivity|].
    split; [exact Hl|]. split.
    + constructor; [now rewrite !blank_app, Ba, Bb, Bg | exact Hgs].
    + rewrite weave_prefix. cbn [app]. rewrite weave_prefix. reflexivity.
  - exists ((c :: chunk) :: new), (a :: (b ++ gap) :: gaps).
    split; [now rewrite <- app_assoc|].
    split; [cbn [List.length] in *; lia|]. split.
    + constructor; [exact Ba|]. constructor; [now rewrite blank_app, Bb, Bg | exact Hgs].
    + change (weave (a :: (b ++ gap) :: gaps) ((c :: chunk) :: new))
        with (a ++ (c :: chunk) ++ weave ((b ++ gap) :: gaps) new).
      now rewrite weave_prefix.
Qed.

Lemma splitLoop_weave (text : ustring) (maxLength : Z) :
  1 <= maxLength ->
  forall (fuel : nat) (pos : Z) (chunks : list ustring),
    0 <= pos <= len text -> (Z.to_nat (len text - pos) <= fuel)%nat ->
    exists new gaps,
      splitLoop fuel text maxLength pos chunks = Some (chunks ++ new)
      /\ List.length gaps = S (List.length new)
      /\ Forall (fun gap => blank gap = true) gaps
      /\ weave gaps new = skipn (Z.to_nat pos) text.
Proof.
  intros Hm. induction fuel as [|fuel IH]; intros pos chunks Hp Hf; simpl.
  - replace pos with (len text) by lia. rewrite Z.ltb_irrefl.
    exists [], [[]]. rewrite skipn_len, app_nil_r. repeat split. now constructor.
  - destruct (Z.ltb_spec pos (len text)) as [L|L].
    + pose proof (chooseChunkEnd_range text maxLength pos Hm ltac:(lia)) as He.
      destruct (skipSeparators_spec sentenceFollowers text
                  (chooseChunkEnd text maxLength pos) eq_refl ltac:(lia)) as [Hr _].
      destruct (iteration_weave sentenceFollowers text pos _ eq_refl ltac:(lia) He)
        as [a [b [Ba [Bb E]]]].
      destruct (IH (skipSeparators sentenceFollowers text
                      (chooseChunkEnd text maxLength pos))
                  (pushChunk chunks
                     (trim (substring text pos (chooseChunkEnd text maxLength pos))))
                  ltac:(lia) ltac:(lia)) as [new [gaps [R [Hl [Hg Hw]]]]].
      destruct (pushChunk_weave chunks new
                  (trim (substring text pos (chooseChunkEnd text maxLength pos)))
                  a b _ gaps Ba Bb Hl Hg Hw)
        as [new' [gaps' [P [Hl' [Hg' Hw']]]]].
      exists new', gaps'. rewrite R, P, E. auto.
    + replace pos with (len text) by lia.
      exists [], [[]]. rewrite skipn_len, app_nil_r. repeat split. now constructor.
Qed.

Lemma workflowLoop_weave (text : ustring) (maxLength : Z) :
  1 <= maxLength ->
  forall (fuel : nat) (pos : Z) (chunks : list ustring),
    0 <= pos <= len text -> (Z.to_nat (len text - pos) <= fuel)%nat ->
    exists new gaps,
      workflowLoop fuel text maxLength pos chunks = Some (chunks ++ new)
      /\ List.length gaps = S (List.length new)
      /\ Forall (fun gap => blank gap = true) gaps
      /\ weave gaps new = skipn (Z.to_nat pos) text.
Proof.
  intros Hm. induction fuel as [|fuel IH]; intros pos chunks Hp Hf; simpl.
  - replace pos with (len text) by lia. rewrite Z.ltb_irrefl.
    exists [], [[]]. rewrite skipn_len, app_nil_r. repeat split. now constructor.
  - destruct (Z.ltb_spec pos (len text)) as [L|L].
    + pose proof (workflowChunkEnd_range text maxLength pos Hm ltac:(lia)) as He.
      destruct (skipSeparators_spec workflowFollowers text
                  (workflowChunkEnd text maxLength pos) eq_refl ltac:(lia)) as [Hr _].
      destruct (iteration_weave workflowFollowers text pos _ eq_refl ltac:(lia) He)
        as [a [b [Ba [Bb E]]]].
      destruct (IH (skipSeparators workflowFollowers text
                      (workflowChunkEnd text maxLength pos))
                  (pushChunk chunks
                     (trim (substring text pos (workflowChunkEnd text maxLength pos))))
                  ltac:(lia) ltac:(lia)) as [new [gaps [R [Hl [Hg Hw]]]]].
      destruct (pushChunk_weave chunks new
                  (trim (substring text pos (workflowChunkEnd text maxLength pos)))
                  a b _ gaps Ba Bb Hl Hg Hw)
        as [new' [gaps' [P [Hl' [Hg' Hw']]]]].
      exists new', gaps'. rewrite R, P, E. auto.
    + replace pos with (len text) by lia.
      exists [], [[]]. rewrite skipn_len, app_nil_r. repeat split. now constructor.
Qed.

(** ** C2: what the chunks of a string add up to *)

(** C2, counterexample. With the default maximum of 4000 characters, the
    4001-character text made of 3999 letters [a], a space and a letter
    [b] is split into the two chunks [a...a] and [b]: the space at the
    boundary is in neither, so their concatenation is not the text. *)
Lemma splitTextIntoChunks_drops_boundary_space :
  splitTextIntoChunks 4001 (repeat 97%N 3999 ++ ustr " b") 4000
  = Some [repeat 97%N 3999; ustr "b"]
  /\ concat [repeat 97%N 3999; ustr "b"] <> repeat 97%N 3999 ++ ustr " b".
Proof.
  split.
  - vm_compute. reflexivity.
  - intros H. apply (f_equal (@List.length N)) in H. vm_compute in H.
    discriminate H.
Qed.

(** C2, amended. For every string and every positive maximum length:
    at or below the threshold both sentence splitters return the string
    as their only chunk; above it they return, with the length of the
    text as fuel, chunks that lose white space at their boundaries only:
    the text is the chunks in index order with a run of white space,
    possibly empty, before the first, between two consecutive ones and
    after the last (each chunk is trimmed and the separators after it
    are skipped; nothing inside a chunk is touched), so that the
    concatenation of the chunks is the text without those runs; the
    fixed-size slicing of a payload into fields, and of a field before
    the thirteenth into spans, concatenates back to the payload
    exactly. *)
Theorem chunks_reassemble (text : ustring) (maxLength : Z) :
  1 <= maxLength ->
  (len text <= maxLength ->
   forall fuel,
     splitTextIntoChunks fuel text maxLength = Some [text]
     /\ workflowSplitTextIntoChunks fuel text maxLength = Some [text]
     /\ concat [text] = text)
  /\ (forall fuel, (List.length text <= fuel)%nat ->
      exists chunks gaps,
        splitTextIntoChunks fuel text maxLength = Some chunks
        /\ List.length gaps = S (List.length chunks)
        /\ Forall (fun gap => blank gap = true) gaps
        /\ weave gaps chunks = text
        /\ visible (concat chunks) = visible text)
  /\ (forall fuel, (List.length text <= fuel)%nat ->
      exists chunks gaps,
        workflowSplitTextIntoChunks fuel text maxLength = Some chunks
        /\ List.length gaps = S (List.length chunks)
        /\ Forall (fun gap => blank gap = true) gaps
        /\ weave gaps chunks = text
        /\ visible (concat chunks) = visible text)
  /\ (forall fuel, (List.length text <= fuel)%nat ->
      exists fields,
        sliceIntoFields fuel text = Some fields /\ concat fields = text)
  /\ (forall fieldIndex, (fieldIndex < 12)%nat ->
      concat (map TextProcessor.contentOf (Writer.textChunksOf fieldIndex text))
      = text).
Proof.
  intros Hm. split; [|split; [|split; [|split]]].
  - intros H fuel. unfold splitTextIntoChunks, workflowSplitTextIntoChunks.
    apply Z.leb_le in H as ->. repeat split. simpl. apply app_nil_r.
  - intros fuel Hf. unfold splitTextIntoChunks.
    destruct (Z.leb_spec (len text) maxLength).
    + exists [text], [[]; []]. split; [reflexivity|]. split; [reflexivity|].
      split; [repeat constructor|]. split; simpl; now rewrite app_nil_r.
    + destruct (splitLoop_weave text maxLength Hm fuel 0 []
                  ltac:(lia) ltac:(unfold len; lia)) as [new [gaps [E [Hl [Hg Hw]]]]].
      destruct (splitLoop_visible text maxLength Hm fuel 0 []
                  ltac:(lia) ltac:(unfold len; lia)) as [out [E' V]].
      rewrite E in E'. injection E' as <-.
      exists new, gaps. repeat split; auto.
  - intros fuel Hf. unfold workflowSplitTextIntoChunks.
    destruct (Z.leb_spec (len text) maxLength).
    + exists [text], [[]; []]. split; [reflexivity|]. split; [reflexivity|].
      split; [repeat constructor|]. split; simpl; now rewrite app_nil_r.
    + destruct (workflowLoop_weave text maxLength Hm fuel 0 []
                  ltac:(lia) ltac:(unfold len; lia)) as [new [gaps [E [Hl [Hg Hw]]]]].
      destruct (workflowLoop_visible text maxLength Hm fuel 0 []
                  ltac:(lia) ltac:(unfold len; lia)) as [out [E' V]].
      rewrite E in E'. injection E' as <-.
      exists new, gaps. repeat split; auto.
  - intros fuel Hf. unfold sliceIntoFields.
    destruct (sliceLoop_concat text MAX_FIELD_SIZE ltac:(unfold MAX_FIELD_SIZE; lia)
                fuel 0 [] ltac:(lia) ltac:(unfold len; lia)) as [out [E C]].
    exists out. split; [exact E | exact C].
  - intros fieldIndex Hi. unfold Writer.textChunksOf.
    rewrite contentOf_textSpan.
    unfold Writer.dataToStoreOf, Writer.maxChunkSizeOf.
    destruct (Nat.leb_spec 12 fieldIndex); [lia|].
    apply sliceLoop_total. lia.
Qed.

(** C2, witness: the text ["aaa bbb"] with a maximum of 4. *)
Lemma chunks_reassemble_witness :
  1 <= 4 /\
  exists chunks gaps,
    splitTextIntoChunks 7 (ustr "aaa bbb") 4 = Some chunks
    /\ List.length gaps = S (List.length chunks)
    /\ Forall (fun gap => blank gap = true) gaps
    /\ weave gaps chunks = ustr "aaa bbb"
    /\ visible (concat chunks) = visible (ustr "aaa bbb").
Proof.
  split; [lia|].
  apply (chunks_reassemble (ustr "aaa bbb") 4 ltac:(lia)).
  simpl. lia.
Defined.

(** ** Text substitution *)

Import Notion TextProcessor.

Lemma ueqb_eq (s t : ustring) : ueqb s t = true <-> s = t.
Proof.
  revert t. induction s as [|c s IH]; intros [|d t]; simpl; split;
    try congruence; try reflexivity.
  - intros H. apply andb_true_iff in H as [H1 H2].
    apply N.eqb_eq in H1. apply IH in H2. congruence.
  - intros H. injection H as -> ->. rewrite N.eqb_refl. now apply IH.
Qed.

Lemma special_backslash (c : N) : isSpecial c = false -> N.eqb c 92 = false.
Proof.
  intros H. destruct (N.eqb_spec c 92) as [->|]; [discriminate H | reflexivity].
Qed.

(** The escaped pattern matches exactly the search text. *)
Lemma matchPattern_escapeRegExp (p s : ustring) :
  matchPattern (escapeRegExp p) s
  = if startsWith p s then Some (skipn (List.length p) s) else None.
Proof.
  revert s. induction p as [|c p IH]; intros s; [reflexivity|].
  cbn [escapeRegExp]. destruct (isSpecial c) eqn:E.
  - cbn [matchPattern]. rewrite N.eqb_refl.
    destruct s as [|d s]; [reflexivity|]. cbn [startsWith List.length skipn].
    destruct (N.eqb c d); [apply IH | reflexivity].
  - cbn [matchPattern]. rewrite (special_backslash c E).
    destruct s as [|d s]; [reflexivity|]. cbn [startsWith List.length skipn].
    destruct (N.eqb c d); [apply IH | reflexivity].
Qed.

Lemma startsWith_length (p s : ustring) :
  startsWith p s = true -> (List.length p <= List.length s)%nat.
Proof.
  revert s. induction p as [|c p IH]; intros [|d s] H; simpl in *;
    try lia; try discriminate.
  apply andb_true_iff in H as [_ H]. apply IH in H. lia.
Qed.

Lemma getSubstitution_plain (matched before after r : ustring) :
  ~ In 36%N r -> getSubstitution matched before after r = r.
Proof.
  induction r as [|c r IH]; intros H; [reflexivity|].
  cbn [getSubstitution].
  destruct (N.eqb_spec c 36) as [->|_]; [exfalso; apply H; now left|].
  f_equal. apply IH. intros Hin. apply H. now right.
Qed.

(** Without a dollar sign in the replacement, and with a search text
    that is not empty, the code's replacement is the substitution the
    specification describes. *)
Lemma replaceFrom_substituteFrom (p r : ustring) :
  p <> [] -> ~ In 36%N r ->
  forall (s done : ustring) (skip : nat),
    replaceFrom (escapeRegExp p) r done skip s = substituteFrom p r skip s.
Proof.
  intros Hp Hr. induction s as [|c s IH]; intros done skip.
  - cbn [replaceFrom substituteFrom]. destruct skip; [|reflexivity].
    rewrite matchPattern_escapeRegExp.
    destruct p as [|c p]; [congruence | reflexivity].
  - cbn [replaceFrom substituteFrom]. destruct skip as [|k]; [|apply IH].
    rewrite matchPattern_escapeRegExp.
    destruct (startsWith p (c :: s)) eqn:E.
    + pose proof (startsWith_length _ _ E) as L.
      rewrite length_skipn, getSubstitution_plain by assumption.
      f_equal.
      destruct p as [|d p]; [congruence|].
      cbn [List.length] in *.
      replace (S (List.length s) - (S (List.length s) - S (List.length p)))%nat
        with (S (List.length p)) by lia.
      cbn [Nat.pred]. apply IH.
    + f_equal. apply IH.
Qed.

Lemma replaceAll_substituteAll (s p r : ustring) :
  p <> [] -> ~ In 36%N r -> replaceAll s p r = substituteAll s p r.
Proof. intros Hp Hr. now apply replaceFrom_substituteFrom. Qed.

Lemma substituteAll_nil (p r : ustring) : substituteAll [] p r = [].
Proof. reflexivity. Qed.

Lemma replaceInItem_substituteItem (p r : ustring) (item : RichText) :
  p <> [] -> ~ In 36%N r ->
  snd (replaceInItem p r item) = substituteItem p r item.
Proof.
  intros Hp Hr. unfold replaceInItem, substituteItem, contentOf, urlOf, hrefOf.
  rewrite !replaceAll_substituteAll by assumption.
  destruct item as [ty [[c l]|] h pt]; cbn [rt_type text href plain_text content link].
  - destruct (isText _) eqn:T; cbn [andb].
    + (* a text span *)
      assert (C : snd (if truthy c
                       then if negb (ueqb c (substituteAll c p r))
                            then (true, withContent (substituteAll c p r)
                                          {| rt_type := ty; text := Some {| content := c; link := l |};
                                             href := h; plain_text := pt |})
                            else (false, {| rt_type := ty; text := Some {| content := c; link := l |};
                                            href := h; plain_text := pt |})
                       else (false, {| rt_type := ty; text := Some {| content := c; link := l |};
                                       href := h; plain_text := pt |}))
                  = {| rt_type := ty;
                       text := Some {| content := substituteAll c p r; link := l |};
                       href := h; plain_text := pt |}).
      { destruct c as [|c0 c]; [reflexivity|]. cbn [truthy].
        destruct (ueqb (c0 :: c) _) eqn:U; cbn [negb snd].
        - apply ueqb_eq in U. now rewrite <- U.
        - reflexivity. }
      set (s1 := if truthy c then _ else _) in *.
      assert (U : snd (match l with
                       | Some l0 =>
                           if truthy (url l0)
                           then if negb (ueqb (url l0) (substituteAll (url l0) p r))
                                then (true, withUrl {| rt_type := ty; text := Some {| content := c; link := l |};
                                                       href := h; plain_text := pt |}
                                              (substituteAll (url l0) p r) (snd s1))
                                else s1
                           else s1
                       | None => s1
                       end)
                  = {| rt_type := ty;
                       text := Some {| content := substituteAll c p r;
                                       link := match l with
                                               | Some l0 => Some {| url := substituteAll (url l0) p r |}
                                               | None => None
                                               end |};
                       href := h; plain_text := pt |}).
      { destruct l as [[u]|]; cbn [url]; [|exact C].
        destruct u as [|u0 u]; [exact C|]. cbn [truthy].
        destruct (ueqb (u0 :: u) _) eqn:V; cbn [negb snd].
        - apply ueqb_eq in V. rewrite C. now rewrite <- V.
        - rewrite C. reflexivity. }
      destruct l as [[u]|]; cbn [url] in *.
      * set (s2 := if truthy u then _ else _) in *.
        destruct h as [[|h0 h]|]; cbn [truthy]; try exact U.
        destruct (ueqb (h0 :: h) _) eqn:V; cbn [negb snd].
        -- apply ueqb_eq in V. rewrite U. now rewrite <- V.
        -- rewrite U. reflexivity.
      * destruct h as [[|h0 h]|]; cbn [truthy]; try exact U.
        destruct (ueqb (h0 :: h) _) eqn:V; cbn [negb snd].
        -- apply ueqb_eq in V. rewrite U. now rewrite <- V.
        -- rewrite U. reflexivity.
    + (* another kind of span *)
      destruct h as [[|h0 h]|]; cbn [truthy snd]; try reflexivity.
      destruct (ueqb (h0 :: h) _) eqn:V; cbn [negb snd].
      * apply ueqb_eq in V. now rewrite <- V.
      * reflexivity.
  - rewrite !andb_false_r.
    destruct h as [[|h0 h]|]; cbn [truthy snd]; try reflexivity.
    destruct (ueqb (h0 :: h) _) eqn:V; cbn [negb snd].
    * apply ueqb_eq in V. now rewrite <- V.
    * reflexivity.
Qed.

Lemma searchAndReplace_length (l : list RichText) (p r : ustring) :
  List.length (updatedRichText (searchAndReplaceInRichText l p r)) = List.length l.
Proof. unfold searchAndReplaceInRichText. cbn. now rewrite !length_map. Qed.

(** What holds of the transform: for a search text that is not empty and
    a replacement without dollar sign, every span comes back, in place,
    with every occurrence substituted in its content, link target and
    [href]. *)
Lemma searchAndReplace_substitutes (l : list RichText) (p r : ustring) :
  p <> [] -> ~ In 36%N r ->
  updatedRichText (searchAndReplaceInRichText l p r) = map (substituteItem p r) l.
Proof.
  intros Hp Hr. unfold searchAndReplaceInRichText. cbn.
  rewrite map_map. apply map_ext. intros item.
  now apply replaceInItem_substituteItem.
Qed.

Example foo_is_foofoo :
  map contentOf
    (updatedRichText
       (searchAndReplaceInRichText [Sample.span "foo is foofoo"] (ustr "foo") (ustr "bar")))
  = [ustr "bar is barbar"].
Proof. reflexivity. Qed.

Example cat_in_category :
  replaceAll (ustr "a Cat, a cat, a category") (ustr "cat") (ustr "dog")
  = ustr "a Cat, a dog, a dogegory".
Proof. reflexivity. Qed.

(** C5. The code at the failing inputs. (1) Replacing ["foo"] by the
    two characters [$&] in ["foo is foofoo"]: the substitution the claim
    describes gives ["$& is $&$&"], while the code expands [$&] to the
    matched text, finds the content unchanged, reports no modification
    and sends no update. (2) A table row whose cell holds ["foo"],
    replaced by ["bar"]: the spans are found and rewritten, but no update
    is built for the row, so the block keeps ["foo"]. *)
Theorem substitution_misses_dollar_and_table_rows :
  let paragraph := {| data := Sample.block 2 "paragraph" ["foo is foofoo"%string];
                      has_children := false |} in
  let row := {| data := Sample.tableRow 3 ["foo"%string]; has_children := false |} in
  let w := Sample.workspace
             (Sib (Sample.block 1 "child_page" [])
                (Sample.leaf (data paragraph) (Sample.leaf (data row) Empty)) Empty)
             [1%nat] in
  substituteAll (ustr "foo is foofoo") (ustr "foo") (ustr "$&") = ustr "$& is $&$&"
  /\ searchAndReplaceInRichText (rich_text (data paragraph)) (ustr "foo") (ustr "$&")
     = {| modified := false; updatedRichText := rich_text (data paragraph) |}
  /\ processBlock paragraph (ustr "foo") (ustr "$&") w
     = Ok {| p_modified := false; p_blockId := None |} w
  /\ modified (searchAndReplaceInRichText (extractTextFromBlock row)
                 (ustr "foo") (ustr "bar")) = true
  /\ processBlock row (ustr "foo") (ustr "bar") w
     = Ok {| p_modified := false; p_blockId := None |} w.
Proof. cbv zeta. repeat split; vm_compute; reflexivity. Qed.

(** ** Content assembly *)

Import Extractor.

Lemma headIs_collapse_true (s : ustring) :
  headIs isWhiteSpace (collapseFrom true s) = false.
Proof.
  induction s as [|c s IH]; [reflexivity|]. cbn [collapseFrom].
  destruct (isWhiteSpace c) eqn:E; [exact IH|]. cbn. exact E.
Qed.

Lemma adjacent_cons (f g : N -> bool) (c : N) (s : ustring) :
  adjacent f g (c :: s) = (f c && headIs g s) || adjacent f g s.
Proof. destruct s; reflexivity. Qed.

(** After [replace(/\s+/g, ' ')] no two whitespace characters are
    adjacent, the only whitespace left is the space, and the visible
    text is unchanged. *)
Lemma collapse_no_runs (b : bool) (s : ustring) :
  adjacent isWhiteSpace isWhiteSpace (collapseFrom b s) = false.
Proof.
  revert b. induction s as [|c s IH]; intros b; [reflexivity|].
  cbn [collapseFrom]. destruct (isWhiteSpace c) eqn:E.
  - destruct b; [apply IH|].
    rewrite adjacent_cons, headIs_collapse_true, andb_false_r. apply IH.
  - rewrite adjacent_cons, E. apply IH.
Qed.

Lemma collapse_only_spaces (b : bool) (s : ustring) (c : N) :
  In c (collapseFrom b s) -> isWhiteSpace c = true -> c = 32%N.
Proof.
  revert b. induction s as [|d s IH]; intros b Hin Hc; [contradiction|].
  cbn [collapseFrom] in Hin. destruct (isWhiteSpace d) eqn:E.
  - destruct b; [now apply (IH true)|].
    destruct Hin as [<-|Hin]; [reflexivity | now apply (IH true)].
  - destruct Hin as [<-|Hin]; [congruence | now apply (IH false)].
Qed.

Lemma visible_cons_ws (c : N) (s : ustring) :
  isWhiteSpace c = true -> visible (c :: s) = visible s.
Proof. intros E. unfold visible. cbn. unfold notWhiteSpace at 1. now rewrite E. Qed.

Lemma visible_cons_nws (c : N) (s : ustring) :
  isWhiteSpace c = false -> visible (c :: s) = c :: visible s.
Proof. intros E. unfold visible. cbn. unfold notWhiteSpace at 1. now rewrite E. Qed.

Lemma collapse_visible (b : bool) (s : ustring) :
  visible (collapseFrom b s) = visible s.
Proof.
  revert b. induction s as [|c s IH]; intros b; [reflexivity|].
  cbn [collapseFrom]. destruct (isWhiteSpace c) eqn:E.
  - rewrite (visible_cons_ws c s E).
    destruct b; [apply IH|]. rewrite visible_cons_ws by reflexivity. apply IH.
  - rewrite !visible_cons_nws by assumption. f_equal. apply IH.
Qed.

(** Compare a bounded code unit with each constant it is tested against. *)
Ltac decide_codes c :=
  repeat match goal with
         | |- context [N.eqb c ?k] =>
             destruct (N.eqb_spec c k) as [?|_]; [lia|]
         end.

Lemma upper_not_whitespace (c : N) : isUpperAZ c = true -> isWhiteSpace c = false.
Proof.
  unfold isUpperAZ, isWhiteSpace. intros H.
  apply andb_true_iff in H as [H1 H2].
  apply N.leb_le in H1. apply N.leb_le in H2.
  cbn [existsb]. decide_codes c.
  cbn [orb]. destruct (N.leb_spec 8192 c); [lia | reflexivity].
Qed.

Lemma upper_not_sentencePunct (c : N) : isUpperAZ c = true -> isSentencePunct c = false.
Proof.
  unfold isUpperAZ, isSentencePunct. intros H.
  apply andb_true_iff in H as [H1 H2].
  apply N.leb_le in H1. apply N.leb_le in H2.
  cbn [existsb]. decide_codes c. reflexivity.
Qed.

Lemma punct_not_whitespace (c : N) : isPunct c = true -> isWhiteSpace c = false.
Proof.
  unfold isPunct. cbn [existsb]. intros H.
  repeat (apply orb_true_iff in H as [H|H];
          [apply N.eqb_eq in H; subst c; reflexivity|]).
  discriminate H.
Qed.

Lemma headIs_spaceAfterSentence (s : ustring) (f : N -> bool) :
  headIs f (spaceAfterSentenceFrom O s) = headIs f s.
Proof. destruct s as [|c s]; [reflexivity|]. cbn. destruct (_ && _); reflexivity. Qed.

Lemma headIs_dropWhile_upper (s : ustring) :
  headIs isUpperAZ s = true -> headIs isUpperAZ (dropWhile isWhiteSpace s) = true.
Proof.
  destruct s as [|c s]; [discriminate|]. cbn. intros H.
  now rewrite (upper_not_whitespace c H).
Qed.

Lemma nth_leading_dropWhile (s : ustring) :
  headIs isUpperAZ (dropWhile isWhiteSpace s) = true ->
  isUpperAZ (nth (leading isWhiteSpace s) s 0%N) = true.
Proof.
  induction s as [|c s IH]; [discriminate|]. cbn.
  destruct (isWhiteSpace c); [exact IH | cbn; trivial].
Qed.

(** After [replace(/([.!?])\s*([A-Z])/g, '$1 $2')] no sentence mark is
    immediately followed by an upper-case letter. *)
Lemma spaceAfterSentence_separates (k : nat) (s : ustring) :
  adjacent isSentencePunct isUpperAZ (spaceAfterSentenceFrom k s) = false.
Proof.
  revert k. induction s as [|c s IH]; intros k; [reflexivity|].
  cbn [spaceAfterSentenceFrom]. destruct k as [|k]; [|apply IH].
  destruct (isSentencePunct c && headIs isUpperAZ (dropWhile isWhiteSpace s)) eqn:E.
  - apply andb_true_iff in E as [E1 E2].
    pose proof (nth_leading_dropWhile s E2) as U.
    rewrite !adjacent_cons. cbn [headIs].
    rewrite (upper_not_sentencePunct _ U), IH.
    change (isUpperAZ 32) with false. change (isSentencePunct 32) with false.
    now rewrite !andb_false_r.
  - rewrite adjacent_cons, IH, orb_false_r, headIs_spaceAfterSentence.
    apply andb_false_iff in E as [E|E]; [now rewrite E|].
    destruct (headIs isUpperAZ s) eqn:H; [|apply andb_false_r].
    now rewrite (headIs_dropWhile_upper s H) in E.
Qed.

Lemma headIs_tighten (s : ustring) :
  headIs isPunct (dropWhile isWhiteSpace s) = false ->
  headIs isPunct (tightenPunctuation s) = false.
Proof.
  destruct s as [|d s]; [reflexivity|]. cbn [dropWhile tightenPunctuation].
  destruct (isWhiteSpace d) eqn:E; intros H.
  - rewrite H, andb_false_r. cbn [headIs].
    destruct (isPunct d) eqn:P; [|reflexivity].
    apply punct_not_whitespace in P. congruence.
  - cbn [andb headIs] in *. exact H.
Qed.

(** After [replace(/\s+([.,;:!?])/g, '$1')] no whitespace is immediately
    followed by a punctuation mark. *)
Lemma tightenPunctuation_closes (s : ustring) :
  adjacent isWhiteSpace isPunct (tightenPunctuation s) = false.
Proof.
  induction s as [|c s IH]; [reflexivity|]. cbn [tightenPunctuation].
  destruct (isWhiteSpace c && headIs isPunct (dropWhile isWhiteSpace s)) eqn:E;
    [exact IH|].
  rewrite adjacent_cons, IH, orb_false_r.
  apply andb_false_iff in E as [E|E]; [now rewrite E|].
  rewrite (headIs_tighten s E). apply andb_false_r.
Qed.

(** ** The chunked payload writer *)

Import Writer.

Section WriterProofs.
Local Open Scope nat_scope.

















End WriterProofs.

(** * Forests and the provider *)

Section ForestProofs.
Local Open Scope nat_scope.
Import Fetcher.

(** ** Forests *)

Lemma NoDup_app_l {A} (l1 l2 : list A) : NoDup (l1 ++ l2) -> NoDup l1.
Proof.
  induction l1 as [|a l1 IH]; intros H; [constructor|].
  inversion H as [|? ? Hn Hd]; subst. constructor.
  - intros Hin. apply Hn. apply in_or_app. now left.
  - now apply IH.
Qed.

Lemma NoDup_app_r {A} (l1 l2 : list A) : NoDup (l1 ++ l2) -> NoDup l2.
Proof.
  induction l1 as [|a l1 IH]; intros H; [exact H|].
  inversion H; subst. now apply IH.
Qed.

Lemma NoDup_app_disjoint {A} (l1 l2 : list A) (a : A) :
  NoDup (l1 ++ l2) -> In a l1 -> ~ In a l2.
Proof.
  induction l1 as [|b l1 IH]; intros H Hin; [contradiction|].
  inversion H as [|? ? Hn Hd]; subst. destruct Hin as [->|Hin].
  - intros H2. apply Hn. apply in_or_app. now right.
  - now apply IH.
Qed.

(** The parts of a well-numbered forest. *)
Lemma NoDup_Sib (b : BlockData) (kids rest : Forest) :
  NoDup (ids (Sib b kids rest)) ->
  ~ In (id b) (ids kids) /\ ~ In (id b) (ids rest)
  /\ NoDup (ids kids) /\ NoDup (ids rest)
  /\ (forall j, In j (ids kids) -> ~ In j (ids rest)).
Proof.
  cbn [ids]. intros H. inversion H as [|? ? Hn Hd]; subst.
  repeat split.
  - intros Hin. apply Hn, in_or_app. now left.
  - intros Hin. apply Hn, in_or_app. now right.
  - now apply NoDup_app_l in Hd.
  - now apply NoDup_app_r in Hd.
  - intros j. now apply NoDup_app_disjoint.
Qed.

Lemma findKids_none (i : nat) (f : Forest) :
  ~ In i (ids f) -> findKids i f = None.
Proof.
  induction f as [|b kids IHk rest IHr]; intros H; [reflexivity|].
  cbn [ids] in H. cbn [findKids].
  destruct (Nat.eqb_spec (id b) i) as [E|E]; [exfalso; apply H; now left|].
  rewrite IHk, IHr; [reflexivity| |]; intros Hin; apply H; right;
    apply in_or_app; auto.
Qed.

Lemma findKids_in (i : nat) (f ks : Forest) :
  findKids i f = Some ks -> In i (ids f) /\ incl (ids ks) (ids f).
Proof.
  induction f as [|b kids IHk rest IHr]; intros H; [discriminate|].
  cbn [findKids] in H. cbn [ids].
  destruct (Nat.eqb_spec (id b) i) as [E|E].
  - injection H as <-. split; [now left|].
    intros j Hj. right. apply in_or_app. now left.
  - destruct (findKids i kids) as [r|] eqn:K.
    + injection H as <-. destruct (IHk eq_refl) as [H1 H2]. split.
      * right. apply in_or_app. now left.
      * intros j Hj. right. apply in_or_app. left. now apply H2.
    + destruct (IHr H) as [H1 H2]. split.
      * right. apply in_or_app. now right.
      * intros j Hj. right. apply in_or_app. right. now apply H2.
Qed.

Lemma in_ids_findKids (i : nat) (f : Forest) :
  In i (ids f) -> exists ks, findKids i f = Some ks.
Proof.
  induction f as [|b kids IHk rest IHr]; intros H; [contradiction|].
  cbn [ids] in H. cbn [findKids].
  destruct (Nat.eqb_spec (id b) i) as [E|E]; [eauto|].
  destruct H as [H|H]; [congruence|].
  destruct (findKids i kids) as [r|] eqn:K; [eauto|].
  apply in_app_or in H as [H|H]; [|now apply IHr].
  destruct (IHk H) as [ks Hk]. congruence.
Qed.

(** Inside the children of the block [i], lookups do not see the rest of
    the forest. *)
Lemma findKids_inside (i j : nat) (f ks : Forest) :
  NoDup (ids f) -> findKids i f = Some ks -> In j (ids ks) ->
  findKids j f = findKids j ks.
Proof.
  induction f as [|b kids IHk rest IHr]; intros N H Hj; [discriminate|].
  destruct (NoDup_Sib _ _ _ N) as [Nk [Nr [Dk [Dr Dj]]]].
  cbn [findKids] in *.
  destruct (Nat.eqb_spec (id b) i) as [E|E].
  - injection H as <-.
    destruct (Nat.eqb_spec (id b) j) as [E'|E']; [congruence|].
    destruct (in_ids_findKids j kids Hj) as [r Hr]. now rewrite Hr.
  - destruct (findKids i kids) as [r|] eqn:K.
    + injection H as <-.
      destruct (findKids_in _ _ _ K) as [_ Hincl].
      destruct (Nat.eqb_spec (id b) j) as [E'|E'];
        [exfalso; apply Nk; rewrite E'; now apply Hincl|].
      rewrite (IHk Dk eq_refl Hj).
      destruct (in_ids_findKids j r Hj) as [r' Hr']. now rewrite Hr'.
    + destruct (findKids_in _ _ _ H) as [_ Hincl].
      destruct (Nat.eqb_spec (id b) j) as [E'|E'];
        [exfalso; apply Nr; rewrite E'; now apply Hincl|].
      rewrite (findKids_none j kids); [now apply IHr|].
      intros Hin. apply (Dj j Hin). now apply Hincl.
Qed.

Lemma siblings_ids (n : BlockData * Forest) (f : Forest) :
  In n (siblings f) -> In (id (fst n)) (ids f) /\ incl (ids (snd n)) (ids f).
Proof.
  induction f as [|b kids IHk rest IHr]; intros H; [contradiction|].
  cbn [siblings ids] in *. destruct H as [<-|H].
  - split; [now left|]. intros j Hj. right. apply in_or_app. now left.
  - destruct (IHr H) as [H1 H2]. split.
    + right. apply in_or_app. now right.
    + intros j Hj. right. apply in_or_app. right. now apply H2.
Qed.

Lemma findKids_sibling (n : BlockData * Forest) (f : Forest) :
  NoDup (ids f) -> In n (siblings f) -> findKids (id (fst n)) f = Some (snd n).
Proof.
  induction f as [|b kids IHk rest IHr]; intros N H; [contradiction|].
  destruct (NoDup_Sib _ _ _ N) as [Nk [Nr [Dk [Dr Dj]]]].
  cbn [siblings findKids] in *. destruct H as [<-|H].
  - cbn. now rewrite Nat.eqb_refl.
  - destruct (siblings_ids n rest H) as [H1 H2].
    destruct (Nat.eqb_spec (id b) (id (fst n))) as [E|E];
      [exfalso; apply Nr; now rewrite E|].
    rewrite (findKids_none _ kids); [now apply IHr|].
    intros Hin. now apply (Dj _ Hin).
Qed.

(** The children of a child of the block [i] are found under its own
    identifier. *)
Lemma findKids_child (i : nat) (f ks : Forest) (n : BlockData * Forest) :
  NoDup (ids f) -> findKids i f = Some ks -> In n (siblings ks) ->
  findKids (id (fst n)) f = Some (snd n).
Proof.
  intros N H Hn.
  destruct (siblings_ids n ks Hn) as [H1 _].
  rewrite (findKids_inside i _ f ks N H H1).
  apply findKids_sibling; [|exact Hn].
  clear -N H. revert H. induction f as [|b kids IHk rest IHr]; intros H; [discriminate|].
  destruct (NoDup_Sib _ _ _ N) as [Nk [Nr [Dk [Dr Dj]]]].
  cbn [findKids] in H. destruct (Nat.eqb (id b) i); [now injection H as <-|].
  destruct (findKids i kids) eqn:K; [injection H as <-; now apply IHk | now apply IHr].
Qed.

Lemma findKids_NoDup (i : nat) (f ks : Forest) :
  NoDup (ids f) -> findKids i f = Some ks -> NoDup (ids ks).
Proof.
  induction f as [|b kids IHk rest IHr]; intros N H; [discriminate|].
  destruct (NoDup_Sib _ _ _ N) as [Nk [Nr [Dk [Dr Dj]]]].
  cbn [findKids] in H. destruct (Nat.eqb (id b) i); [now injection H as <-|].
  destruct (findKids i kids) eqn:K; [injection H as <-; now apply IHk | now apply IHr].
Qed.

Lemma size_sibling (n : BlockData * Forest) (f : Forest) :
  In n (siblings f) -> size (snd n) < size f.
Proof.
  induction f as [|b kids IHk rest IHr]; intros H; [contradiction|].
  cbn [siblings size] in *. destruct H as [<-|H]; [cbn; lia|].
  specialize (IHr H). lia.
Qed.

Lemma length_siblings (f : Forest) : List.length (siblings f) <= size f.
Proof. induction f as [|b kids IHk rest IHr]; cbn; lia. Qed.

Lemma rootIds_NoDup (f : Forest) : NoDup (ids f) -> NoDup (rootIds f).
Proof.
  unfold rootIds. induction f as [|b kids IHk rest IHr]; intros N; [constructor|].
  destruct (NoDup_Sib _ _ _ N) as [Nk [Nr [Dk [Dr Dj]]]].
  cbn [siblings map fst]. constructor; [|now apply IHr].
  intros Hin. apply Nr. apply in_map_iff in Hin as [n [E Hn]].
  rewrite <- E. now apply siblings_ids.
Qed.

(** The cursor of a page finds the siblings from that block on. *)
Lemma fromCursor_skipn (l : list (BlockData * Forest)) (k : nat) (n : BlockData * Forest) :
  NoDup (map (fun n => id (fst n)) l) ->
  nth_error l k = Some n ->
  fromCursor (id (fst n)) l = Some (skipn k l).
Proof.
  revert k. induction l as [|m l IH]; intros k N H; [destruct k; discriminate|].
  cbn [map] in N. inversion N as [|? ? Hn Hd]; subst.
  destruct k as [|k]; cbn in H.
  - injection H as ->. cbn. now rewrite Nat.eqb_refl.
  - cbn [fromCursor skipn].
    destruct (Nat.eqb_spec (id (fst m)) (id (fst n))) as [E|E].
    + exfalso. apply Hn. rewrite E.
      apply (in_map (fun n => id (fst n))). eapply nth_error_In; eauto.
    + now apply IH.
Qed.

Lemma in_firstn_in {A} (n : nat) (l : list A) (x : A) : In x (firstn n l) -> In x l.
Proof. intros H. rewrite <- (firstn_skipn n l). apply in_or_app. now left. Qed.

Lemma in_skipn_in {A} (n : nat) (l : list A) (x : A) : In x (skipn n l) -> In x l.
Proof. intros H. rewrite <- (firstn_skipn n l). apply in_or_app. now right. Qed.

(** ** The fetcher on a reliable provider *)


Lemma preorder_siblings (f : Forest) : preorder f = flat_map expand (siblings f).
Proof.
  induction f as [|b kids IHk rest IHr]; [reflexivity|].
  cbn [preorder siblings flat_map]. unfold expand at 1. cbn [snd app].
  now rewrite IHr.
Qed.

Lemma list_reliable (c : nat) (ks : Forest) (k : nat) (cursor : option nat) (w : World) :
  NoDup (ids ks) -> faults w = [] ->
  findKids c (forest w) = Some ks ->
  cursorAt (siblings ks) k cursor ->
  attempt (blocks_children_list c cursor 100) w
  = Ok (inl (pageOf 100 (skipn k (siblings ks))))
       (withLog (log w ++ [CList c cursor 100]) w).
Proof.
  intros N Fl Fk [[-> ->]|[node [Hn ->]]];
    unfold attempt, tryCatch, bind, blocks_children_list, request, ret;
    cbn; rewrite Fl, Fk.
  - reflexivity.
  - rewrite (fromCursor_skipn (siblings ks) k node); [reflexivity| |exact Hn].
    apply (rootIds_NoDup ks N).
Qed.

Section FetchReliable.
Variable recur : nat -> M (list Block).
Variable F : Forest.

Lemma eachResult_reliable (l : list (BlockData * Forest)) :
  (forall n, In n l -> descends (view n) = true ->
     forall w, steady F w ->
       exists lg, recur (id (fst n)) w
                  = Ok (preorder (snd n)) (withLog (log w ++ lg) w)) ->
  forall blocks w, steady F w ->
    exists lg, eachResult recur (map view l) blocks w
               = Ok (blocks ++ flat_map expand l) (withLog (log w ++ lg) w).
Proof.
  induction l as [|n l IH]; intros Hrec blocks w Hw.
  - exists []. cbn. unfold ret. rewrite !app_nil_r. destruct w; reflexivity.
  - cbn [map eachResult flat_map]. unfold expand at 1.
    destruct (descends (view n)) eqn:D.
    + unfold bind at 1.
      destruct (Hrec n (or_introl eq_refl) D w Hw) as [lg1 E1].
      change (id (data (view n))) with (id (fst n)). rewrite E1.
      destruct (IH (fun m Hm => Hrec m (or_intror Hm))
                  ((blocks ++ [view n]) ++ preorder (snd n))
                  (withLog (log w ++ lg1) w) Hw) as [lg2 E2].
      exists (lg1 ++ lg2). rewrite E2. cbn. f_equal.
      * rewrite <- !app_assoc. reflexivity.
      * now rewrite app_assoc.
    + destruct (IH (fun m Hm => Hrec m (or_intror Hm))
                  (blocks ++ [view n]) w Hw) as [lg2 E2].
      exists lg2. rewrite E2. f_equal. rewrite <- !app_assoc. reflexivity.
Qed.

Lemma whileHasMore_reliable (c : nat) (ks : Forest) :
  NoDup (ids ks) -> findKids c F = Some ks ->
  (forall n, In n (siblings ks) -> descends (view n) = true ->
     forall w, steady F w ->
       exists lg, recur (id (fst n)) w
                  = Ok (preorder (snd n)) (withLog (log w ++ lg) w)) ->
  forall n k cursor blocks w,
    steady F w -> cursorAt (siblings ks) k cursor ->
    List.length (skipn k (siblings ks)) < n ->
    exists lg, whileHasMore recur n c cursor blocks w
               = Ok (blocks ++ flat_map expand (skipn k (siblings ks)))
                    (withLog (log w ++ lg) w).
Proof.
  intros N Fk Hrec. induction n as [|n IH]; intros k cursor blocks w Hw Hc Hn; [lia|].
  cbn [whileHasMore]. unfold bind at 1.
  destruct Hw as [HF Hf].
  rewrite (list_reliable c ks k cursor w N Hf ltac:(now rewrite HF) Hc).
  set (l := skipn k (siblings ks)) in *.
  set (w1 := withLog (log w ++ [CList c cursor 100]) w).
  assert (Hw1 : steady F w1) by (split; assumption).
  unfold bind at 1. unfold pageOf. cbn [results].
  destruct (eachResult_reliable (firstn 100 l)
              (fun m Hm => Hrec m (in_skipn_in k _ m (in_firstn_in 100 _ m Hm)))
              blocks w1 Hw1) as [lg1 E1].
  rewrite E1. cbn [has_more next_cursor].
  destruct (Nat.ltb_spec 100 (List.length l)) as [Lt|Ge].
  - destruct (nth_error l 100) as [node|] eqn:Hnode;
      [|apply nth_error_None in Hnode; lia].
    cbn [option_map].
    assert (Hk : nth_error (siblings ks) (100 + k) = Some node).
    { unfold l in Hnode. rewrite nth_error_skipn in Hnode.
      now rewrite (Nat.add_comm 100 k). }
    destruct (IH (100 + k) (Some (id (fst node))) (blocks ++ flat_map expand (firstn 100 l))
                (withLog (log w1 ++ lg1) w1) Hw1
                ltac:(right; exists node; auto)
                ltac:(rewrite <- skipn_skipn; fold l; rewrite length_skipn; lia))
      as [lg2 E2].
    rewrite E2. exists ([CList c cursor 100] ++ lg1 ++ lg2). unfold w1.
    cbn [withLog log forest searchable next_id schema props faults console]. f_equal.
    + rewrite <- app_assoc. f_equal.
      rewrite <- skipn_skipn. fold l. rewrite <- flat_map_app.
      now rewrite firstn_skipn.
    + rewrite <- !app_assoc. reflexivity.
  - exists ([CList c cursor 100] ++ lg1). unfold ret, w1.
    cbn [withLog log forest searchable next_id schema props faults console]. f_equal.
    + rewrite firstn_all2 by lia. reflexivity.
    + rewrite <- !app_assoc. reflexivity.
Qed.
End FetchReliable.

Lemma getAllBlocksFromPage_reliable (F : Forest) :
  NoDup (ids F) ->
  forall N ks, size ks < N ->
    forall c w fuel,
      steady F w -> findKids c F = Some ks -> size ks + 2 <= fuel ->
      exists lg, getAllBlocksFromPage fuel c w
                 = Ok (preorder ks) (withLog (log w ++ lg) w).
Proof.
  intros NF. induction N as [|N IH]; intros ks Hs c w fuel Hw Fk Hfuel; [lia|].
  destruct fuel as [|fuel]; [lia|]. cbn [getAllBlocksFromPage].
  pose proof (findKids_NoDup c F ks NF Fk) as Nk.
  destruct (whileHasMore_reliable (getAllBlocksFromPage fuel) F c ks Nk Fk) with
    (n := fuel) (k := 0) (cursor := @None nat) (blocks := @nil Block) (w := w)
    as [lg E].
  - intros n Hn D w' Hw'.
    apply (IH (snd n)).
    + pose proof (size_sibling n ks Hn). lia.
    + exact Hw'.
    + apply (findKids_child c F ks n NF Fk Hn).
    + pose proof (size_sibling n ks Hn). lia.
  - exact Hw.
  - left. auto.
  - cbn [skipn]. pose proof (length_siblings ks). lia.
  - exists lg. rewrite E. cbn [skipn app]. now rewrite <- preorder_siblings.
Qed.

(** ** The fetcher never throws *)

Lemma attempt_neverThrows {A} (m : M A) : neverThrows (attempt m).
Proof.
  intros w e w'. unfold attempt, tryCatch, bind, ret.
  destruct (m w); discriminate.
Qed.

Lemma bind_neverThrows {A B} (m : M A) (k : A -> M B) :
  neverThrows m -> (forall a, neverThrows (k a)) -> neverThrows (bind m k).
Proof.
  intros Hm Hk w e w'. unfold bind. destruct (m w) as [a w1|e1 w1|] eqn:E.
  - apply Hk.
  - exfalso. exact (Hm _ _ _ E).
  - discriminate.
Qed.

Lemma ret_neverThrows {A} (a : A) : neverThrows (ret a).
Proof. intros w e w'. discriminate. Qed.

Lemma say_neverThrows (r : Report) : neverThrows (say r).
Proof. intros w e w'. discriminate. Qed.

Lemma diverge_neverThrows {A} : neverThrows (@diverge A).
Proof. intros w e w'. discriminate. Qed.

Lemma eachResult_neverThrows (recur : nat -> M (list Block)) :
  (forall i, neverThrows (recur i)) ->
  forall rs blocks, neverThrows (eachResult recur rs blocks).
Proof.
  intros Hr. induction rs as [|block rs IH]; intros blocks; cbn [eachResult].
  - apply ret_neverThrows.
  - destruct (descends block); [|apply IH].
    apply bind_neverThrows; [apply Hr | intros a; apply IH].
Qed.

Lemma whileHasMore_neverThrows (recur : nat -> M (list Block)) :
  (forall i, neverThrows (recur i)) ->
  forall n pageId cursor blocks, neverThrows (whileHasMore recur n pageId cursor blocks).
Proof.
  intros Hr. induction n as [|n IH]; intros pageId cursor blocks; cbn [whileHasMore].
  - apply diverge_neverThrows.
  - apply bind_neverThrows; [apply attempt_neverThrows|].
    intros [response|error].
    + apply bind_neverThrows; [now apply eachResult_neverThrows|].
      intros blocks'. destruct (has_more response); [apply IH | apply ret_neverThrows].
    + apply bind_neverThrows; [apply say_neverThrows | intros _; apply ret_neverThrows].
Qed.

Lemma getAllBlocksFromPage_never_throws (fuel pageId : nat) :
  neverThrows (getAllBlocksFromPage fuel pageId).
Proof.
  revert pageId. induction fuel as [|fuel IH]; intros pageId; cbn [getAllBlocksFromPage].
  - apply diverge_neverThrows.
  - now apply whileHasMore_neverThrows.
Qed.

Lemma preorder_allBlocks (f : Forest) :
  noneOfType "child_page" f = true -> noneOfType "child_database" f = true ->
  preorder f = allBlocks f.
Proof.
  induction f as [|b kids IHk rest IHr]; intros H1 H2; [reflexivity|].
  cbn [noneOfType] in H1, H2.
  apply andb_true_iff in H1 as [H1 H1r]. apply andb_true_iff in H1 as [H1b H1k].
  apply andb_true_iff in H2 as [H2 H2r]. apply andb_true_iff in H2 as [H2b H2k].
  cbn [preorder allBlocks]. f_equal. rewrite (IHr H1r H2r). f_equal.
  unfold descends, isType, view. cbn [data has_children fst snd type].
  rewrite H1b, H2b, !andb_true_r.
  destruct kids; [reflexivity|]. cbn [nonEmpty]. now apply IHk.
Qed.

End ForestProofs.

(** ** C1: what the fetcher returns *)

Import Fetcher.

(** C1, counterexample. On the page 1 of the sample, whose descendants
    in pre-order are 2 5 3 4 6 7, a provider whose second call fails
    (the listing of the children of block 2) makes the fetcher return
    2 3 4 6 7: block 5 is missing, the sequence is not complete. *)
Lemma fetcher_truncates_on_failed_listing :
  exists blocks w',
    getAllBlocksFromPage 10 1 Sample.flakyPage = Ok blocks w'
    /\ map (fun b => id (data b)) blocks = [2; 3; 4; 6; 7]%nat
    /\ findKids 1 (forest Sample.flakyPage)
       = Some (match Sample.nestedForest with Sib _ kids _ => kids | Empty => Empty end)
    /\ map (fun b => id (data b))
         (preorder (match Sample.nestedForest with Sib _ kids _ => kids | Empty => Empty end))
       = [2; 5; 3; 4; 6; 7]%nat
    /\ blocks <> preorder (match Sample.nestedForest with Sib _ kids _ => kids | Empty => Empty end).
Proof.
  eexists. eexists. split; [vm_compute; reflexivity|].
  split; [reflexivity|]. split; [reflexivity|]. split; [reflexivity|].
  intros H. apply (f_equal (@List.length Block)) in H. vm_compute in H.
  discriminate H.
Qed.

(** C1, amended. On a provider whose identifiers are unique and whose
    listing calls all succeed, for every container of the workspace and
    with fuel above the size of its subtree, the fetcher returns exactly
    the pre-order sequence of the descendants: siblings in the provider's
    order, each block immediately followed by its expanded subtree,
    descending into every block that has children except sub-pages and
    linked databases, which are listed as leaves; it changes nothing but
    the log of calls. Where the subtree holds no sub-page and no linked
    database this is every descendant. On any provider the fetcher never
    throws. *)
Theorem fetcher_returns_preorder (w : World) (container : nat) (kids : Forest)
    (fuel : nat) :
  NoDup (ids (forest w)) ->
  faults w = [] ->
  findKids container (forest w) = Some kids ->
  (size kids + 2 <= fuel)%nat ->
  (exists calls,
      getAllBlocksFromPage fuel container w
      = Ok (preorder kids) (withLog (log w ++ calls) w))
  /\ (noneOfType "child_page" kids = true ->
      noneOfType "child_database" kids = true ->
      preorder kids = allBlocks kids)
  /\ (forall fuel' container', neverThrows (getAllBlocksFromPage fuel' container')).
Proof.
  intros N Hf Hk Hfuel. split; [|split].
  - apply (getAllBlocksFromPage_reliable (forest w) N (S (size kids)) kids
             ltac:(lia) container w fuel); [split; [reflexivity | exact Hf] | exact Hk | exact Hfuel].
  - apply preorder_allBlocks.
  - apply getAllBlocksFromPage_never_throws.
Qed.

(** C1, witness: the page 1 of the sample, with fuel 10. *)
Lemma fetcher_returns_preorder_witness :
  exists calls,
    getAllBlocksFromPage 10 1 Sample.nestedPage
    = Ok (preorder (match Sample.nestedForest with Sib _ kids _ => kids | Empty => Empty end))
         (withLog (log Sample.nestedPage ++ calls) Sample.nestedPage).
Proof.
  apply (fetcher_returns_preorder Sample.nestedPage 1 _ 10).
  - repeat constructor; cbn; intuition discriminate.
  - reflexivity.
  - reflexivity.
  - cbn. lia.
Defined.

(** ** The flat text is normalised *)

Section FlatText.
Local Open Scope nat_scope.

(** What is left after stripping a character from both ends is a part
    of the string, and neither starts nor ends with the character. *)
Lemma strip_factor (f : N -> bool) (s : ustring) :
  let t := rev (dropWhile f (rev (dropWhile f s))) in
  (exists a b, s = a ++ t ++ b)
  /\ headIs f t = false /\ headIs f (rev t) = false.
Proof.
  cbv zeta.
  destruct (dropWhile_suffix f s) as [a [Ea _]].
  set (u := dropWhile f s) in *.
  assert (Hu : headIs f u = false) by apply dropWhile_head.
  destruct (dropWhile_suffix f (rev u)) as [w [Ew _]].
  set (v := dropWhile f (rev u)) in *.
  assert (Eu : u = rev v ++ rev w).
  { rewrite <- (rev_involutive u), Ew. apply rev_app_distr. }
  split; [|split].
  - exists a, (rev w). now rewrite <- Eu.
  - destruct (rev v) as [|c t] eqn:E; [reflexivity|].
    rewrite Eu in Hu. exact Hu.
  - rewrite rev_involutive. apply dropWhile_head.
Qed.

Lemma adjacent_app_r (f g : N -> bool) (s b : ustring) :
  adjacent f g s = true -> adjacent f g (s ++ b) = true.
Proof.
  induction s as [|c s IH]; intros H; [discriminate|].
  change ((c :: s) ++ b) with (c :: (s ++ b)).
  rewrite adjacent_cons in *. apply orb_true_iff in H as [H|H].
  - apply andb_true_iff in H as [H1 H2]. rewrite H1.
    destruct s as [|d s]; [discriminate|]. cbn in *. now rewrite H2.
  - rewrite (IH H). apply orb_true_r.
Qed.

Lemma adjacent_app_l (f g : N -> bool) (a s : ustring) :
  adjacent f g s = true -> adjacent f g (a ++ s) = true.
Proof.
  intros H. induction a as [|c a IH]; [exact H|].
  change ((c :: a) ++ s) with (c :: (a ++ s)).
  rewrite adjacent_cons, IH. apply orb_true_r.
Qed.

Lemma adjacent_factor (f g : N -> bool) (a t b : ustring) :
  adjacent f g (a ++ t ++ b) = false -> adjacent f g t = false.
Proof.
  intros H. destruct (adjacent f g t) eqn:E; [|reflexivity].
  rewrite (adjacent_app_l f g a (t ++ b) (adjacent_app_r f g t b E)) in H.
  discriminate.
Qed.

Lemma sentencePunct_not_whitespace (c : N) :
  isSentencePunct c = true -> isWhiteSpace c = false.
Proof.
  unfold isSentencePunct. cbn [existsb]. intros H.
  repeat (apply orb_true_iff in H as [H|H];
          [apply N.eqb_eq in H; subst c; reflexivity|]).
  discriminate H.
Qed.

Lemma punct_not_upper (c : N) : isPunct c = true -> isUpperAZ c = false.
Proof.
  unfold isPunct. cbn [existsb]. intros H.
  repeat (apply orb_true_iff in H as [H|H];
          [apply N.eqb_eq in H; subst c; reflexivity|]).
  discriminate H.
Qed.

Lemma adjacent_tail (f g : N -> bool) (c : N) (s : ustring) :
  adjacent f g (c :: s) = false -> adjacent f g s = false.
Proof. rewrite adjacent_cons. intros H. now apply orb_false_iff in H as [_ H]. Qed.

(** *** The space after a sentence *)

Lemma spaceAfterSentence_no_runs (s : ustring) :
  forall k, adjacent isWhiteSpace isWhiteSpace s = false ->
    adjacent isWhiteSpace isWhiteSpace (spaceAfterSentenceFrom k s) = false.
Proof.
  induction s as [|c s IH]; intros k H; [reflexivity|].
  pose proof (adjacent_tail _ _ _ _ H) as Ht.
  cbn [spaceAfterSentenceFrom]. destruct k as [|k]; [|now apply IH].
  destruct (isSentencePunct c && headIs isUpperAZ (dropWhile isWhiteSpace s)) eqn:E.
  - apply andb_true_iff in E as [E1 E2].
    pose proof (nth_leading_dropWhile s E2) as U.
    rewrite !adjacent_cons. cbn [headIs].
    rewrite (sentencePunct_not_whitespace _ E1), (upper_not_whitespace _ U).
    rewrite (IH _ Ht). reflexivity.
  - rewrite adjacent_cons, (IH _ Ht), orb_false_r, headIs_spaceAfterSentence.
    rewrite adjacent_cons in H. now apply orb_false_iff in H as [H _].
Qed.

Lemma spaceAfterSentence_only_spaces (s : ustring) :
  (forall c, In c s -> isWhiteSpace c = true -> c = 32%N) ->
  forall k c, In c (spaceAfterSentenceFrom k s) -> isWhiteSpace c = true -> c = 32%N.
Proof.
  induction s as [|d s IH]; intros Hs k c Hin Hc; [contradiction|].
  assert (Hs' : forall c, In c s -> isWhiteSpace c = true -> c = 32%N)
    by (intros x Hx; apply Hs; now right).
  cbn [spaceAfterSentenceFrom] in Hin. destruct k as [|k]; [|now apply (IH Hs' k)].
  destruct (isSentencePunct d && headIs isUpperAZ (dropWhile isWhiteSpace s)) eqn:E.
  - apply andb_true_iff in E as [E1 E2].
    pose proof (nth_leading_dropWhile s E2) as U.
    destruct Hin as [<-|[<-|[<-|Hin]]].
    + apply Hs; [now left | exact Hc].
    + reflexivity.
    + rewrite (upper_not_whitespace _ U) in Hc. discriminate.
    + exact (IH Hs' _ c Hin Hc).
  - destruct Hin as [<-|Hin]; [apply Hs; [now left | exact Hc] | now apply (IH Hs' 0)].
Qed.

Lemma visible_leading_upper (s : ustring) :
  headIs isUpperAZ (dropWhile isWhiteSpace s) = true ->
  visible s
  = nth (leading isWhiteSpace s) s 0%N :: visible (skipn (S (leading isWhiteSpace s)) s).
Proof.
  induction s as [|c s IH]; [discriminate|]. cbn [dropWhile leading].
  destruct (isWhiteSpace c) eqn:E; intros H.
  - rewrite (visible_cons_ws c s E). cbn [nth]. rewrite (IH H). reflexivity.
  - cbn [nth skipn]. now rewrite visible_cons_nws.
Qed.

Lemma spaceAfterSentence_visible (s : ustring) :
  forall k, visible (spaceAfterSentenceFrom k s) = visible (skipn k s).
Proof.
  induction s as [|c s IH]; intros k; [now destruct k|].
  cbn [spaceAfterSentenceFrom]. destruct k as [|k]; [|apply IH].
  cbn [skipn].
  destruct (isSentencePunct c && headIs isUpperAZ (dropWhile isWhiteSpace s)) eqn:E.
  - apply andb_true_iff in E as [E1 E2].
    pose proof (nth_leading_dropWhile s E2) as U.
    pose proof (sentencePunct_not_whitespace _ E1) as Wc.
    pose proof (upper_not_whitespace _ U) as Wu.
    rewrite (visible_cons_nws c (32%N :: _) Wc).
    rewrite (visible_cons_ws 32 _ eq_refl).
    rewrite (visible_cons_nws _ _ Wu).
    rewrite (visible_cons_nws c s Wc).
    rewrite IH. f_equal. symmetry. now apply visible_leading_upper.
  - destruct (isWhiteSpace c) eqn:W.
    + rewrite !visible_cons_ws by exact W. apply (IH 0).
    + rewrite !visible_cons_nws by exact W. f_equal. apply (IH 0).
Qed.

(** *** The punctuation pulled back *)

Lemma tighten_head_punct (s : ustring) :
  headIs isPunct (dropWhile isWhiteSpace s) = true ->
  headIs isPunct (tightenPunctuation s) = true.
Proof.
  induction s as [|c s IH]; [discriminate|]. cbn [dropWhile tightenPunctuation].
  destruct (isWhiteSpace c) eqn:E; intros H.
  - rewrite H. cbn [andb]. now apply IH.
  - cbn [andb headIs] in *. exact H.
Qed.

Lemma headIs_tighten_other (g : N -> bool) (s : ustring) :
  (forall c, isPunct c = true -> g c = false) ->
  headIs g (tightenPunctuation s) = true -> headIs g s = true.
Proof.
  intros Hg. destruct s as [|c s]; [discriminate|]. cbn [tightenPunctuation].
  destruct (isWhiteSpace c && headIs isPunct (dropWhile isWhiteSpace s)) eqn:E;
    [|trivial].
  apply andb_true_iff in E as [_ E]. intros H. exfalso.
  pose proof (tighten_head_punct s E) as P.
  destruct (tightenPunctuation s) as [|d t]; [discriminate|]. cbn in *.
  rewrite (Hg d P) in H. discriminate.
Qed.

Lemma tighten_keeps_apart (f g : N -> bool) (s : ustring) :
  (forall c, isPunct c = true -> g c = false) ->
  adjacent f g s = false -> adjacent f g (tightenPunctuation s) = false.
Proof.
  intros Hg. induction s as [|c s IH]; intros H; [reflexivity|].
  pose proof (adjacent_tail _ _ _ _ H) as Ht.
  cbn [tightenPunctuation].
  destruct (isWhiteSpace c && headIs isPunct (dropWhile isWhiteSpace s));
    [now apply IH|].
  rewrite adjacent_cons, (IH Ht), orb_false_r.
  rewrite adjacent_cons in H. apply orb_false_iff in H as [H _].
  destruct (f c); [|reflexivity]. cbn [andb] in *.
  destruct (headIs g (tightenPunctuation s)) eqn:G; [|reflexivity].
  now rewrite (headIs_tighten_other g s Hg G) in H.
Qed.

Lemma tighten_incl (s : ustring) (c : N) : In c (tightenPunctuation s) -> In c s.
Proof.
  induction s as [|d s IH]; [trivial|]. cbn [tightenPunctuation].
  destruct (isWhiteSpace d && headIs isPunct (dropWhile isWhiteSpace s)).
  - intros H. right. now apply IH.
  - intros [<-|H]; [now left | right; now apply IH].
Qed.

Lemma tighten_visible (s : ustring) : visible (tightenPunctuation s) = visible s.
Proof.
  induction s as [|c s IH]; [reflexivity|]. cbn [tightenPunctuation].
  destruct (isWhiteSpace c) eqn:W; cbn [andb].
  - rewrite (visible_cons_ws c s W).
    destruct (headIs isPunct (dropWhile isWhiteSpace s)); [exact IH|].
    now rewrite visible_cons_ws.
  - rewrite !visible_cons_nws by exact W. now f_equal.
Qed.

(** *** The trimmed result *)

Lemma trim_factor (s : ustring) :
  (exists a b, s = a ++ trim s ++ b)
  /\ headIs isWhiteSpace (trim s) = false
  /\ headIs isWhiteSpace (rev (trim s)) = false.
Proof. exact (strip_factor isWhiteSpace s). Qed.

Lemma trim_keeps_apart (f g : N -> bool) (s : ustring) :
  adjacent f g s = false -> adjacent f g (trim s) = false.
Proof.
  intros H. destruct (trim_factor s) as [[a [b E]] _].
  apply (adjacent_factor f g a (trim s) b). now rewrite <- E.
Qed.

Lemma trim_incl (s : ustring) (c : N) : In c (trim s) -> In c s.
Proof.
  intros H. destruct (trim_factor s) as [[a [b E]] _]. rewrite E.
  apply in_or_app. right. apply in_or_app. now left.
Qed.

Lemma assemble_normalised (blocks : list Block) :
  let content := assemble blocks in
  adjacent isWhiteSpace isWhiteSpace content = false
  /\ (forall c, In c content -> isWhiteSpace c = true -> c = 32%N)
  /\ adjacent isSentencePunct isUpperAZ content = false
  /\ adjacent isWhiteSpace isPunct content = false
  /\ headIs isWhiteSpace content = false
  /\ headIs isWhiteSpace (rev content) = false
  /\ visible content = visible (join [32%N] (contentPartsOf blocks)).
Proof.
  cbv zeta. unfold assemble.
  set (joined := join [32%N] (contentPartsOf blocks)).
  unfold collapseWhitespace, spaceAfterSentence.
  destruct (trim_factor (tightenPunctuation
                           (spaceAfterSentenceFrom 0 (collapseFrom false joined))))
    as [_ [H1 H2]].
  split; [|split; [|split; [|split; [|split; [exact H1 | split; [exact H2|]]]]]].
  - apply trim_keeps_apart, tighten_keeps_apart; [apply punct_not_whitespace|].
    apply spaceAfterSentence_no_runs, collapse_no_runs.
  - intros c Hin. apply trim_incl, tighten_incl in Hin. revert c Hin.
    apply spaceAfterSentence_only_spaces. apply collapse_only_spaces.
  - apply trim_keeps_apart, tighten_keeps_apart; [apply punct_not_upper|].
    apply spaceAfterSentence_separates.
  - apply trim_keeps_apart, tightenPunctuation_closes.
  - rewrite visible_trim, tighten_visible, spaceAfterSentence_visible.
    cbn [skipn]. apply collapse_visible.
Qed.

End FlatText.

(** C8. The text extracted from the page made of the heading "Intro"
    and the paragraph "Hello world." is exactly "Intro Hello world.",
    with any fuel from 2 on, and on a page whose paragraph reads
    "Hello   world .Next!Last , end " the three normalisations act: the
    text is "Intro Hello world. Next! Last, end". On every page, what
    [extractPageContent] returns is normalised: no two whitespace
    characters are adjacent and the only whitespace is the space (runs
    were collapsed), no sentence mark is immediately followed by an
    upper-case letter (a space was inserted), no whitespace immediately
    precedes a punctuation mark (it was removed), the text neither
    starts nor ends with whitespace, and its other characters are those
    of the block texts, in order; it never throws and returns whenever
    the fetcher does. Each normalisation does its part on every
    string. *)
Theorem flat_text_of_intro_page :
  (forall fuel, (2 <= fuel)%nat ->
     exists w', extractPageContent fuel 1 Sample.introPage
                = Ok (ustr "Intro Hello world.") w')
  /\ (forall fuel, (2 <= fuel)%nat ->
     exists w', extractPageContent fuel 1 Sample.spacedPage
                = Ok (ustr "Intro Hello world. Next! Last, end") w')
  /\ (forall fuel pageId w,
        match extractPageContent fuel pageId w with
        | Ok content w' =>
            exists blocks,
              getAllBlocksFromPage fuel pageId w = Ok blocks w'
              /\ adjacent isWhiteSpace isWhiteSpace content = false
              /\ (forall c, In c content -> isWhiteSpace c = true -> c = 32%N)
              /\ adjacent isSentencePunct isUpperAZ content = false
              /\ adjacent isWhiteSpace isPunct content = false
              /\ headIs isWhiteSpace content = false
              /\ headIs isWhiteSpace (rev content) = false
              /\ visible content = visible (join [32%N] (contentPartsOf blocks))
        | Throw _ _ => False
        | Diverge => getAllBlocksFromPage fuel pageId w = Diverge
        end)
  /\ (forall s,
        adjacent isWhiteSpace isWhiteSpace (collapseWhitespace s) = false
        /\ (forall c, In c (collapseWhitespace s) -> isWhiteSpace c = true -> c = 32%N)
        /\ visible (collapseWhitespace s) = visible s)
  /\ (forall s, adjacent isSentencePunct isUpperAZ (spaceAfterSentence s) = false)
  /\ (forall s, adjacent isWhiteSpace isPunct (tightenPunctuation s) = false)
  /\ collapseWhitespace (ustr "Intro   Hello  world.") = ustr "Intro Hello world."
  /\ spaceAfterSentence (ustr "Hello world.Next!Last") = ustr "Hello world. Next! Last"
  /\ tightenPunctuation (ustr "Hello , world !") = ustr "Hello, world!".
Proof.
  split; [|split; [|split; [|split; [|split; [|split; [|repeat split]]]]]].
  - intros [|[|fuel]] H; try lia. eexists. vm_compute. reflexivity.
  - intros [|[|fuel]] H; try lia. eexists. vm_compute. reflexivity.
  - intros fuel pageId w. unfold extractPageContent, bind.
    pose proof (getAllBlocksFromPage_never_throws fuel pageId w) as NT.
    destruct (getAllBlocksFromPage fuel pageId w) as [blocks w1|e w1|];
      [|exact (NT e w1 eq_refl)|reflexivity].
    cbn [ret]. exists blocks. split; [reflexivity|].
    exact (assemble_normalised blocks).
  - intros s. split; [apply collapse_no_runs|].
    split; [apply collapse_only_spaces | apply collapse_visible].
  - intros s. apply spaceAfterSentence_separates.
  - intros s. apply tightenPunctuation_closes.
Qed.

(** * The converters *)

Import Converter Walk.

Section ConverterProofs.
Local Open Scope nat_scope.

(** ** Rewriting the children of a block *)

Lemma ids_fapp (f g : Forest) : ids (fapp f g) = ids f ++ ids g.
Proof.
  induction f as [|b kids IHk rest IHr]; [reflexivity|].
  cbn [fapp ids]. rewrite IHr. cbn. now rewrite app_assoc.
Qed.

Lemma fapp_assoc (f g h : Forest) : fapp (fapp f g) h = fapp f (fapp g h).
Proof. induction f as [|b kids IHk rest IHr]; [reflexivity|]. cbn. now rewrite IHr. Qed.

Lemma fapp_Empty (f : Forest) : fapp f Empty = f.
Proof. induction f as [|b kids IHk rest IHr]; [reflexivity|]. cbn. now rewrite IHr. Qed.

Lemma substKids_absent (i : nat) (new f : Forest) :
  ~ In i (ids f) -> substKids i new f = f.
Proof.
  induction f as [|b kids IHk rest IHr]; intros H; [reflexivity|].
  cbn [ids] in H. cbn [substKids].
  destruct (Nat.eqb_spec (id b) i) as [E|E]; [exfalso; apply H; now left|].
  rewrite IHk, IHr; [reflexivity| |]; intros Hin; apply H; right;
    apply in_or_app; auto.
Qed.

Lemma remove_absent (i : nat) (f : Forest) :
  ~ In i (ids f) -> remove i f = f.
Proof.
  induction f as [|b kids IHk rest IHr]; intros H; [reflexivity|].
  cbn [ids] in H. cbn [remove].
  destruct (Nat.eqb_spec (id b) i) as [E|E]; [exfalso; apply H; now left|].
  rewrite IHk, IHr; [reflexivity| |]; intros Hin; apply H; right;
    apply in_or_app; auto.
Qed.

Lemma substKids_substKids (i : nat) (k1 k2 f : Forest) :
  substKids i k2 (substKids i k1 f) = substKids i k2 f.
Proof.
  induction f as [|b kids IHk rest IHr]; [reflexivity|].
  cbn [substKids]. destruct (Nat.eqb (id b) i) eqn:E; cbn [substKids]; rewrite E.
  - reflexivity.
  - now rewrite IHk, IHr.
Qed.

Lemma findKids_substKids (i : nat) (new f : Forest) :
  In i (ids f) -> findKids i (substKids i new f) = Some new.
Proof.
  induction f as [|b kids IHk rest IHr]; intros H; [contradiction|].
  cbn [ids] in H. cbn [substKids].
  destruct (Nat.eqb (id b) i) eqn:E; cbn [findKids]; rewrite E; [reflexivity|].
  apply Nat.eqb_neq in E. destruct H as [H|H]; [congruence|].
  destruct (in_dec Nat.eq_dec i (ids kids)) as [Hk|Hk].
  - now rewrite (IHk Hk).
  - rewrite (substKids_absent i new kids Hk), (findKids_none i kids Hk).
    apply in_app_or in H as [H|H]; [contradiction | now apply IHr].
Qed.

Lemma substKids_same (i : nat) (f ks : Forest) :
  NoDup (ids f) -> findKids i f = Some ks -> substKids i ks f = f.
Proof.
  induction f as [|b kids IHk rest IHr]; intros N H; [reflexivity|].
  destruct (NoDup_Sib _ _ _ N) as [Nk [Nr [Dk [Dr Dj]]]].
  cbn [findKids] in H. cbn [substKids].
  destruct (Nat.eqb_spec (id b) i) as [E|E]; [now injection H as <-|].
  destruct (findKids i kids) as [r|] eqn:K.
  - injection H as <-. rewrite (IHk Dk eq_refl).
    rewrite substKids_absent; [reflexivity|].
    intros Hin. destruct (findKids_in _ _ _ K) as [Hi _]. exact (Dj i Hi Hin).
  - rewrite (IHr Dr H). rewrite substKids_absent; [reflexivity|].
    intros Hin. destruct (in_ids_findKids i kids Hin) as [x Hx]. congruence.
Qed.

(** An update of the children of [i] through the provider is a
    substitution. *)
Lemma updateKids_substKids (i : nat) (g : Forest -> option Forest) (f ks ks' : Forest) :
  NoDup (ids f) -> findKids i f = Some ks -> g ks = Some ks' ->
  updateKids i g f = Some (substKids i ks' f).
Proof.
  induction f as [|b kids IHk rest IHr]; intros N H G; [discriminate|].
  destruct (NoDup_Sib _ _ _ N) as [Nk [Nr [Dk [Dr Dj]]]].
  cbn [findKids] in H. cbn [updateKids substKids].
  destruct (Nat.eqb_spec (id b) i) as [E|E].
  - injection H as <-. now rewrite G.
  - destruct (findKids i kids) as [r|] eqn:K.
    + injection H as <-. rewrite (IHk Dk eq_refl G).
      rewrite (substKids_absent i ks' rest); [reflexivity|].
      intros Hin. destruct (findKids_in _ _ _ K) as [Hi _]. exact (Dj i Hi Hin).
    + assert (Hk : ~ In i (ids kids)).
      { intros Hin. destruct (in_ids_findKids i kids Hin) as [x Hx]. congruence. }
      assert (U : updateKids i g kids = None).
      { clear -Hk. induction kids as [|b0 k0 IH0 r0 IH1]; [reflexivity|].
        cbn [ids] in Hk. cbn [updateKids].
        destruct (Nat.eqb_spec (id b0) i) as [E|E]; [exfalso; apply Hk; now left|].
        rewrite IH0, IH1; [reflexivity| |]; intros Hin; apply Hk; right;
          apply in_or_app; auto. }
      rewrite U, (IHr Dr H G), (substKids_absent i ks' kids Hk). reflexivity.
Qed.

(** Operations on a block that lies below [i] commute with the
    substitution of the children of [i]. *)
Lemma remove_inside (i j : nat) (f ks ks1 : Forest) :
  NoDup (ids f) -> findKids i f = Some ks -> In j (ids ks) ->
  remove j (substKids i ks1 f) = substKids i (remove j ks1) f.
Proof.
  induction f as [|b kids IHk rest IHr]; intros N H Hj; [discriminate|].
  destruct (NoDup_Sib _ _ _ N) as [Nk [Nr [Dk [Dr Dj]]]].
  cbn [findKids] in H. cbn [substKids].
  destruct (Nat.eqb_spec (id b) i) as [E|E].
  - injection H as <-. cbn [remove].
    destruct (Nat.eqb_spec (id b) j) as [E'|E']; [congruence|].
    rewrite (remove_absent j rest); [reflexivity|]. now apply Dj.
  - destruct (findKids i kids) as [r|] eqn:K.
    + injection H as <-. destruct (findKids_in _ _ _ K) as [Hi Hincl].
      cbn [remove].
      destruct (Nat.eqb_spec (id b) j) as [E'|E'];
        [exfalso; apply Nk; rewrite E'; now apply Hincl|].
      rewrite (IHk Dk eq_refl Hj).
      rewrite !(substKids_absent i _ rest) by (intros Hin; exact (Dj i Hi Hin)).
      rewrite (remove_absent j rest); [reflexivity|].
      apply Dj. now apply Hincl.
    + destruct (findKids_in _ _ _ H) as [Hi Hincl].
      assert (Hk : ~ In i (ids kids)).
      { intros Hin. destruct (in_ids_findKids i kids Hin) as [x Hx]. congruence. }
      cbn [remove].
      destruct (Nat.eqb_spec (id b) j) as [E'|E'];
        [exfalso; apply Nr; rewrite E'; now apply Hincl|].
      rewrite (IHr Dr H Hj).
      rewrite !(substKids_absent i _ kids) by assumption.
      rewrite (remove_absent j kids); [reflexivity|].
      intros Hin. apply (Dj j Hin). now apply Hincl.
Qed.

Lemma substKids_inside (i j : nat) (f ks new : Forest) :
  NoDup (ids f) -> findKids i f = Some ks -> In j (ids ks) ->
  substKids j new f = substKids i (substKids j new ks) f.
Proof.
  induction f as [|b kids IHk rest IHr]; intros N H Hj; [discriminate|].
  destruct (NoDup_Sib _ _ _ N) as [Nk [Nr [Dk [Dr Dj]]]].
  cbn [findKids] in H. cbn [substKids].
  destruct (Nat.eqb_spec (id b) i) as [E|E].
  - injection H as <-.
    destruct (Nat.eqb_spec (id b) j) as [E'|E']; [congruence|].
    rewrite (substKids_absent j new rest); [reflexivity|]. now apply Dj.
  - destruct (findKids i kids) as [r|] eqn:K.
    + injection H as <-. destruct (findKids_in _ _ _ K) as [Hi Hincl].
      destruct (Nat.eqb_spec (id b) j) as [E'|E'];
        [exfalso; apply Nk; rewrite E'; now apply Hincl|].
      rewrite <- (IHk Dk eq_refl Hj).
      rewrite (substKids_absent i _ rest) by (intros Hin; exact (Dj i Hi Hin)).
      rewrite (substKids_absent j new rest); [reflexivity|].
      apply Dj. now apply Hincl.
    + destruct (findKids_in _ _ _ H) as [Hi Hincl].
      assert (Hk : ~ In i (ids kids)).
      { intros Hin. destruct (in_ids_findKids i kids Hin) as [x Hx]. congruence. }
      destruct (Nat.eqb_spec (id b) j) as [E'|E'];
        [exfalso; apply Nr; rewrite E'; now apply Hincl|].
      rewrite <- (IHr Dr H Hj).
      rewrite (substKids_absent i _ kids) by assumption.
      rewrite (substKids_absent j new kids); [reflexivity|].
      intros Hin. apply (Dj j Hin). now apply Hincl.
Qed.

(** The identifiers of a forest after a substitution: those outside the
    old children, and those of the new ones. *)
Lemma ids_substKids_in (i x : nat) (f new : Forest) :
  In x (ids (substKids i new f)) -> In x (ids f) \/ In x (ids new).
Proof.
  induction f as [|b kids IHk rest IHr]; intros H; [contradiction|].
  cbn [substKids] in H. destruct (Nat.eqb (id b) i); cbn [ids] in *.
  - destruct H as [H|H]; [left; now left|].
    apply in_app_or in H as [H|H]; [now right|].
    left. right. apply in_or_app. now right.
  - destruct H as [H|H]; [left; now left|].
    apply in_app_or in H as [H|H].
    + destruct (IHk H); [left; right; apply in_or_app|]; auto.
    + destruct (IHr H); [left; right; apply in_or_app|]; auto.
Qed.

Lemma ids_substKids_outside (i x : nat) (f ks new : Forest) :
  NoDup (ids f) -> findKids i f = Some ks ->
  In x (ids (substKids i new f)) -> In x (ids new) \/ (In x (ids f) /\ ~ In x (ids ks)).
Proof.
  induction f as [|b kids IHk rest IHr]; intros N H Hx; [discriminate|].
  destruct (NoDup_Sib _ _ _ N) as [Nk [Nr [Dk [Dr Dj]]]].
  cbn [findKids] in H. cbn [substKids] in Hx.
  destruct (Nat.eqb_spec (id b) i) as [E|E].
  - injection H as <-. cbn [ids] in *. destruct Hx as [Hx|Hx].
    + right. split; [now left|]. now rewrite <- Hx.
    + apply in_app_or in Hx as [Hx|Hx]; [now left|].
      right. split; [right; apply in_or_app; now right|].
      intros Hk. exact (Dj x Hk Hx).
  - destruct (findKids i kids) as [r|] eqn:K.
    + injection H as <-. destruct (findKids_in _ _ _ K) as [Hi Hincl].
      rewrite (substKids_absent i new rest) in Hx
        by (intros Hin; exact (Dj i Hi Hin)).
      cbn [ids] in *. destruct Hx as [Hx|Hx].
      * right. split; [now left|]. intros Hk. apply Nk. rewrite Hx. now apply Hincl.
      * apply in_app_or in Hx as [Hx|Hx].
        -- destruct (IHk Dk eq_refl Hx) as [H1|[H1 H2]]; [now left|].
           right. split; [right; apply in_or_app; now left | exact H2].
        -- right. split; [right; apply in_or_app; now right|].
           intros Hk. apply (Dj x (Hincl x Hk) Hx).
    + destruct (findKids_in _ _ _ H) as [Hi Hincl].
      assert (Hk : ~ In i (ids kids)).
      { intros Hin. destruct (in_ids_findKids i kids Hin) as [y Hy]. congruence. }
      rewrite (substKids_absent i new kids Hk) in Hx.
      cbn [ids] in *. destruct Hx as [Hx|Hx].
      * right. split; [now left|]. intros Hk'. apply Nr. rewrite Hx. now apply Hincl.
      * apply in_app_or in Hx as [Hx|Hx].
        -- right. split; [right; apply in_or_app; now left|].
           intros Hk'. apply (Dj x Hx). now apply Hincl.
        -- destruct (IHr Dr H Hx) as [H1|[H1 H2]]; [now left|].
           right. split; [right; apply in_or_app; now right | exact H2].
Qed.

Lemma NoDup_app_intro {A} (l1 l2 : list A) :
  NoDup l1 -> NoDup l2 -> (forall x, In x l1 -> ~ In x l2) -> NoDup (l1 ++ l2).
Proof.
  induction l1 as [|a l1 IH]; intros N1 N2 D; [exact N2|].
  inversion N1 as [|? ? Hn Hd]; subst. cbn. constructor.
  - intros Hin. apply in_app_or in Hin as [Hin|Hin]; [contradiction|].
    apply (D a); [now left | exact Hin].
  - apply IH; auto. intros x Hx. apply D. now right.
Qed.

Lemma NoDup_substKids (i : nat) (f ks new : Forest) :
  NoDup (ids f) -> findKids i f = Some ks ->
  NoDup (ids new) ->
  (forall x, In x (ids new) -> In x (ids ks) \/ ~ In x (ids f)) ->
  NoDup (ids (substKids i new f)).
Proof.
  induction f as [|b kids IHk rest IHr]; intros N H Nn Hn; [discriminate|].
  destruct (NoDup_Sib _ _ _ N) as [Nk [Nr [Dk [Dr Dj]]]].
  cbn [findKids] in H. cbn [substKids].
  destruct (Nat.eqb_spec (id b) i) as [E|E].
  - injection H as <-. cbn [ids]. constructor.
    + intros Hin. apply in_app_or in Hin as [Hin|Hin]; [|contradiction].
      destruct (Hn _ Hin) as [H1|H1]; [contradiction|]. apply H1. now left.
    + apply NoDup_app_intro; auto. intros x Hx Hr.
      destruct (Hn _ Hx) as [H1|H1]; [exact (Dj x H1 Hr)|].
      apply H1. cbn [ids]. right. apply in_or_app. now right.
  - destruct (findKids i kids) as [r|] eqn:K.
    + injection H as ->. destruct (findKids_in _ _ _ K) as [Hi Hincl].
      rewrite (substKids_absent i new rest) by (intros Hin; exact (Dj i Hi Hin)).
      assert (Hn' : forall x, In x (ids new) -> In x (ids ks) \/ ~ In x (ids kids)).
      { intros x Hx. destruct (Hn x Hx) as [H1|H1]; [now left|].
        right. intros Hk. apply H1. cbn [ids]. right. apply in_or_app. now left. }
      cbn [ids]. constructor.
      * intros Hin. apply in_app_or in Hin as [Hin|Hin]; [|contradiction].
        apply ids_substKids_in in Hin as [Hin|Hin]; [contradiction|].
        destruct (Hn _ Hin) as [H1|H1]; [apply Nk; now apply Hincl|].
        apply H1. now left.
      * apply NoDup_app_intro; auto. intros x Hx Hr.
        apply ids_substKids_in in Hx as [Hx|Hx]; [exact (Dj x Hx Hr)|].
        destruct (Hn _ Hx) as [H1|H1]; [exact (Dj x (Hincl x H1) Hr)|].
        apply H1. cbn [ids]. right. apply in_or_app. now right.
    + destruct (findKids_in _ _ _ H) as [Hi Hincl].
      assert (Hk : ~ In i (ids kids)).
      { intros Hin. destruct (in_ids_findKids i kids Hin) as [y Hy]. congruence. }
      rewrite (substKids_absent i new kids Hk).
      assert (Hn' : forall x, In x (ids new) -> In x (ids ks) \/ ~ In x (ids rest)).
      { intros x Hx. destruct (Hn x Hx) as [H1|H1]; [now left|].
        right. intros Hr. apply H1. cbn [ids]. right. apply in_or_app. now right. }
      cbn [ids]. constructor.
      * intros Hin. apply in_app_or in Hin as [Hin|Hin]; [contradiction|].
        apply ids_substKids_in in Hin as [Hin|Hin]; [contradiction|].
        destruct (Hn _ Hin) as [H1|H1]; [apply Nr; now apply Hincl|].
        apply H1. now left.
      * apply NoDup_app_intro; auto. intros x Hx Hr.
        apply ids_substKids_in in Hr as [Hr|Hr]; [exact (Dj x Hx Hr)|].
        destruct (Hn _ Hr) as [H1|H1]; [exact (Dj x Hx (Hincl x H1))|].
        apply H1. cbn [ids]. right. apply in_or_app. now left.
Qed.

(** ** One conversion: append the replacement, delete the original *)


Lemma insertAfter_fapp (new b : BlockData) (done kb rest : Forest) :
  ~ In (id b) (ids done) ->
  insertAfter (id b) new (fapp done (Sib b kb rest))
  = Some (fapp done (Sib b kb (Sib new Empty rest))).
Proof.
  induction done as [|b0 k0 IH0 r0 IH1]; intros H; cbn [fapp insertAfter].
  - now rewrite Nat.eqb_refl.
  - cbn [ids] in H.
    destruct (Nat.eqb_spec (id b0) (id b)) as [E|E]; [exfalso; apply H; now left|].
    rewrite IH1; [reflexivity|]. intros Hin. apply H. right. apply in_or_app. now right.
Qed.

Lemma remove_fapp (b : BlockData) (done kb rest : Forest) :
  ~ In (id b) (ids done) ->
  remove (id b) (fapp done (Sib b kb rest)) = fapp done rest.
Proof.
  induction done as [|b0 k0 IH0 r0 IH1]; intros H; cbn [fapp remove].
  - now rewrite Nat.eqb_refl.
  - cbn [ids] in H.
    destruct (Nat.eqb_spec (id b0) (id b)) as [E|E]; [exfalso; apply H; now left|].
    rewrite IH1 by (intros Hin; apply H; right; apply in_or_app; now right).
    rewrite remove_absent; [reflexivity|].
    intros Hin. apply H. right. apply in_or_app. now left.
Qed.

Lemma substKids_fapp (b : BlockData) (done kb new rest : Forest) :
  ~ In (id b) (ids done) ->
  substKids (id b) new (fapp done (Sib b kb rest)) = fapp done (Sib b new rest).
Proof.
  induction done as [|b0 k0 IH0 r0 IH1]; intros H; cbn [fapp substKids].
  - now rewrite Nat.eqb_refl.
  - cbn [ids] in H.
    destruct (Nat.eqb_spec (id b0) (id b)) as [E|E]; [exfalso; apply H; now left|].
    rewrite IH1 by (intros Hin; apply H; right; apply in_or_app; now right).
    rewrite substKids_absent; [reflexivity|].
    intros Hin. apply H. right. apply in_or_app. now left.
Qed.

Lemma findBlock_none (i : nat) (f : Forest) :
  ~ In i (ids f) -> findBlock i f = None.
Proof.
  induction f as [|b kids IHk rest IHr]; intros H; [reflexivity|].
  cbn [ids] in H. cbn [findBlock].
  destruct (Nat.eqb_spec (id b) i) as [E|E]; [exfalso; apply H; now left|].
  rewrite IHk, IHr; [reflexivity| |]; intros Hin; apply H; right;
    apply in_or_app; auto.
Qed.

Lemma findBlock_some (i : nat) (f : Forest) :
  In i (ids f) -> exists b, findBlock i f = Some b.
Proof.
  induction f as [|b kids IHk rest IHr]; intros H; [contradiction|].
  cbn [ids] in H. cbn [findBlock].
  destruct (Nat.eqb_spec (id b) i) as [E|E]; [eauto|].
  destruct H as [H|H]; [congruence|].
  destruct (findBlock i kids) as [r|] eqn:K; [eauto|].
  apply in_app_or in H as [H|H]; [|now apply IHr].
  destruct (IHk H) as [x Hx]. congruence.
Qed.

Lemma NoDup_middle (done rest kb : Forest) (b : BlockData) :
  NoDup (ids (fapp done (Sib b kb rest))) ->
  ~ In (id b) (ids done) /\ ~ In (id b) (ids rest) /\ ~ In (id b) (ids kb)
  /\ NoDup (ids done ++ ids rest)
  /\ NoDup (ids kb)
  /\ (forall x, In x (ids kb) -> ~ In x (ids done) /\ ~ In x (ids rest)).
Proof.
  rewrite ids_fapp. cbn [ids]. intros N.
  pose proof (NoDup_remove_1 _ _ _ N) as N1.
  pose proof (NoDup_remove_2 _ _ _ N) as N2.
  assert (N3 : NoDup (ids done ++ ids rest) /\ NoDup (ids kb)
               /\ (forall x, In x (ids kb) -> ~ In x (ids done) /\ ~ In x (ids rest))).
  { clear N N2. induction (ids done) as [|a l IH]; cbn in *.
    - split; [now apply NoDup_app_r in N1|]. split; [now apply NoDup_app_l in N1|].
      intros x Hx. split; [tauto|]. now apply (NoDup_app_disjoint _ _ x N1).
    - inversion N1 as [|? ? Hn Hd]; subst. destruct (IH Hd) as [I1 [I2 I3]].
      split; [|split; [exact I2|]].
      + constructor; [|exact I1]. intros Hin. apply Hn.
        apply in_app_or in Hin as [Hin|Hin]; apply in_or_app; [now left|].
        right. apply in_or_app. now right.
      + intros x Hx. destruct (I3 x Hx) as [J1 J2]. split; [|exact J2].
        intros [->|Hin]; [|contradiction]. apply Hn. apply in_or_app. right.
        apply in_or_app. now left. }
  destruct N3 as [N3 [N4 N5]]. repeat split; auto.
  - intros Hin. apply N2. apply in_or_app. now left.
  - intros Hin. apply N2. apply in_or_app. right. apply in_or_app. now right.
  - intros Hin. apply N2. apply in_or_app. right. apply in_or_app. now left.
  - now apply N5.
  - now apply N5.
Qed.

Lemma replaceBlock_live (cv : Conversion) (p : nat) (w : World)
    (done : Forest) (b : BlockData) (kb rest : Forest) :
  Focus w p (fapp done (Sib b kb rest)) ->
  let new := createBlock (next_id w) (replacement cv b) in
  exists w',
    replaceBlock cv p (view (b, kb)) w = Ok tt w'
    /\ forest w' = substKids p (fapp done (Sib new Empty rest)) (forest w)
    /\ Focus w' p (fapp done (Sib new Empty rest))
    /\ next_id w' = S (next_id w)
    /\ console w' = console w
    /\ log w' = log w ++ [CAppend p (replacement cv b) (id b); CDelete (id b)]
    /\ (forall j, In j (id b :: ids kb) -> ~ In j (ids (forest w'))).
Proof.
  intros [[N B] [Hf Hk]] new.
  pose proof (findKids_NoDup p _ _ N Hk) as Nks.
  destruct (NoDup_middle done rest kb b Nks) as [M1 [M2 [M3 [M4 [M5 M6]]]]].
  destruct (findKids_in _ _ _ Hk) as [Hp Hincl].
  assert (Hfresh : ~ In (next_id w) (ids (forest w))).
  { intros Hin. rewrite Forall_forall in B. specialize (B _ Hin). lia. }
  set (ks1 := fapp done (Sib b kb (Sib new Empty rest))).
  set (ks2 := fapp done (Sib new Empty rest)).
  set (F1 := substKids p ks1 (forest w)).
  assert (Hb1 : In (id b) (ids F1)).
  { assert (K1 : findKids p F1 = Some ks1) by (now apply findKids_substKids).
    destruct (findKids_in _ _ _ K1) as [_ I1]. apply I1.
    unfold ks1. rewrite ids_fapp. apply in_or_app. right. now left. }
  destruct (findBlock_some _ _ Hb1) as [b1 Hb1'].
  assert (R : remove (id b) F1 = substKids p ks2 (forest w)).
  { unfold F1. rewrite (remove_inside p (id b) (forest w) _ ks1 N Hk).
    - unfold ks1, ks2. now rewrite remove_fapp.
    - rewrite ids_fapp. apply in_or_app. right. now left. }
  assert (Iks2 : forall x, In x (ids ks2) ->
                   x = next_id w \/ In x (ids done) \/ In x (ids rest)).
  { unfold ks2. intros x. rewrite ids_fapp. cbn [ids app]. intros Hx.
    apply in_app_or in Hx as [Hx|[Hx|Hx]]; auto. }
  exists (withForest (substKids p ks2 (forest w))
            (withLog ((log w ++ [CAppend p (replacement cv b) (id b)]) ++ [CDelete (id b)])
               (withNextId (S (next_id w)) w))).
  split.
  { unfold replaceBlock, bind, blocks_children_append, request.
    cbn [withLog faults forest next_id log]. rewrite Hf.
    cbn [withLog faults forest next_id log view data fst snd]. fold new.
    rewrite (updateKids_substKids p _ (forest w) _ ks1 N Hk
               (insertAfter_fapp new b done kb rest M1)).
    unfold blocks_delete, request.
    cbn [withLog withForest withNextId faults forest next_id log searchable schema props console].
    rewrite Hf. fold F1. rewrite Hb1', R.
    cbn [withLog withForest withNextId faults forest next_id log searchable schema props console].
    reflexivity. }
  assert (N2 : NoDup (ids (substKids p ks2 (forest w)))).
  { apply (NoDup_substKids p (forest w) _ ks2 N Hk).
    - unfold ks2. rewrite ids_fapp. cbn [ids app].
      apply NoDup_app_intro.
      + now apply NoDup_app_l in M4.
      + constructor; [|now apply NoDup_app_r in M4].
        intros Hin. apply Hfresh, Hincl. rewrite ids_fapp. apply in_or_app. right.
        right. apply in_or_app. now right.
      + intros x Hx [<-|Hr].
        * apply Hfresh, Hincl. rewrite ids_fapp. apply in_or_app. now left.
        * exact (NoDup_app_disjoint _ _ x M4 Hx Hr).
    - intros x Hx. destruct (Iks2 x Hx) as [->|[Hd|Hr]]; [now right| |]; left;
        rewrite ids_fapp; apply in_or_app; [now left|].
      right. right. apply in_or_app. now right. }
  split; [reflexivity|]. split.
  { split; [|split].
    - split; [exact N2|]. cbn. apply Forall_forall. intros x Hx.
      apply ids_substKids_in in Hx as [Hx|Hx].
      + rewrite Forall_forall in B. specialize (B _ Hx). lia.
      + destruct (Iks2 x Hx) as [->|[Hd|Hr]]; [lia| |];
          rewrite Forall_forall in B.
        * assert (In x (ids (forest w))) by
            (apply Hincl; rewrite ids_fapp; apply in_or_app; now left).
          specialize (B _ H). lia.
        * assert (In x (ids (forest w))) by
            (apply Hincl; rewrite ids_fapp; apply in_or_app; right; right;
             apply in_or_app; now right).
          specialize (B _ H). lia.
    - exact Hf.
    - cbn. now apply findKids_substKids. }
  split; [reflexivity|]. split; [reflexivity|].
  split; [cbn [log withForest withLog]; rewrite <- app_assoc; reflexivity|].
  intros j Hj Hin. cbn [forest withForest] in Hin.
  assert (Hjks : In j (ids (fapp done (Sib b kb rest)))).
  { rewrite ids_fapp. apply in_or_app. right. cbn [ids].
    destruct Hj as [<-|Hj]; [now left | right; apply in_or_app; now left]. }
  destruct (ids_substKids_outside p j (forest w) _ ks2 N Hk Hin) as [H1|[_ H1]];
    [|contradiction].
  destruct (Iks2 j H1) as [->|[Hd|Hr]].
  - apply Hfresh. now apply Hincl.
  - destruct Hj as [<-|Hj]; [contradiction|]. destruct (M6 j Hj); contradiction.
  - destruct Hj as [<-|Hj]; [contradiction|]. destruct (M6 j Hj); contradiction.
Qed.

(** ** The nested walk of a live run on a reliable provider *)

Lemma ftake_fdrop (n : nat) (f : Forest) : fapp (ftake n f) (fdrop n f) = f.
Proof.
  revert f. induction n as [|n IH]; intros [|b kids rest]; cbn; try reflexivity.
  now rewrite IH.
Qed.

Lemma siblings_ftake (n : nat) (f : Forest) : siblings (ftake n f) = firstn n (siblings f).
Proof.
  revert f. induction n as [|n IH]; intros [|b kids rest]; cbn; try reflexivity.
  now rewrite IH.
Qed.

Lemma siblings_fdrop (n : nat) (f : Forest) : siblings (fdrop n f) = skipn n (siblings f).
Proof.
  revert f. induction n as [|n IH]; intros [|b kids rest]; cbn; try reflexivity.
  apply IH.
Qed.

Lemma siblings_fapp (f g : Forest) : siblings (fapp f g) = siblings f ++ siblings g.
Proof. induction f as [|b kids IHk rest IHr]; cbn; [reflexivity | now rewrite IHr]. Qed.

Lemma size_fapp (f g : Forest) : size (fapp f g) = size f + size g.
Proof. induction f as [|b kids IHk rest IHr]; cbn; [reflexivity | rewrite IHr; lia]. Qed.

Lemma clean_fapp (cv : Conversion) (f g : Forest) :
  clean cv (fapp f g) <-> clean cv f /\ clean cv g.
Proof.
  unfold clean. induction f as [|b kids IHk rest IHr]; cbn [fapp noneOfType].
  - tauto.
  - rewrite !andb_true_iff, IHr. tauto.
Qed.

Lemma siblings_empty (f : Forest) : siblings f = [] -> f = Empty.
Proof. destruct f; [reflexivity | discriminate]. Qed.

Lemma processChildBlocks_missing (cv : Conversion) (fuel i parent : nat)
    (dryRun : bool) (w : World) :
  faults w = [] -> findKids i (forest w) = None -> 2 <= fuel ->
  processChildBlocks cv fuel i parent dryRun w
  = Ok tt (withConsole (console w ++ [ErrorProcessingChildBlocks (ustr "object_not_found")])
             (withLog (log w ++ [CList i None 100]) w)).
Proof.
  intros Hf Hk Hfuel. destruct fuel as [|[|fuel]]; try lia.
  cbn [processChildBlocks childPages].
  unfold tryCatch, bind, attempt, tryCatch, bind, blocks_children_list, request.
  cbn [withLog faults forest log]. rewrite Hf, Hk. reflexivity.
Qed.

Lemma fromCursor_fapp (done rest : Forest) (b : BlockData) (kb : Forest) :
  ~ In (id b) (ids done) ->
  fromCursor (id b) (siblings (fapp done (Sib b kb rest)))
  = Some (siblings (Sib b kb rest)).
Proof.
  induction done as [|b0 k0 IH0 r0 IH1]; intros H; cbn [fapp siblings fromCursor fst].
  - now rewrite Nat.eqb_refl.
  - cbn [ids] in H.
    destruct (Nat.eqb_spec (id b0) (id b)) as [E|E]; [exfalso; apply H; now left|].
    apply IH1. intros Hin. apply H. right. apply in_or_app. now right.
Qed.

Lemma Focus_NoDup (w : World) (p : nat) (ks : Forest) : Focus w p ks -> NoDup (ids ks).
Proof. intros [[N _] [_ Hk]]. exact (findKids_NoDup _ _ _ N Hk). Qed.

Lemma list_focus (w : World) (p : nat) (done rest : Forest) (cursor : option nat) :
  Focus w p (fapp done rest) -> cursorFor done rest cursor ->
  attempt (blocks_children_list p cursor 100) w
  = Ok (inl (pageOf 100 (siblings rest)))
       (withLog (log w ++ [CList p cursor 100]) w).
Proof.
  intros Hfoc Hc. pose proof (Focus_NoDup _ _ _ Hfoc) as Nk.
  destruct Hfoc as [W [Hf Hk]].
  unfold attempt, tryCatch, bind, blocks_children_list, request, ret.
  cbn [withLog faults forest log]. rewrite Hf, Hk.
  destruct Hc as [[-> ->]|[b [kb [rest' [-> ->]]]]]; [reflexivity|].
  rewrite fromCursor_fapp; [reflexivity|].
  now destruct (NoDup_middle done rest' kb b Nk).
Qed.

Lemma Focus_withLog (w : World) (p : nat) (ks : Forest) (l : list Call) :
  Focus w p ks -> Focus (withLog l w) p ks.
Proof. intros H. exact H. Qed.

Section NestedLive.
Variable cv : Conversion.
Hypothesis Hcv : Converts cv.
Variable recur : nat -> M unit.
Variable p : nat.

Lemma eachChild_live (mid : Forest) :
  (forall n, In n (siblings mid) ->
     (forall w, Focus w (id (fst n)) (snd n) -> walked cv (recur (id (fst n))) (id (fst n)) (snd n) w)
     /\ (forall w, faults w = [] -> findKids (id (fst n)) (forest w) = None ->
           skipped (recur (id (fst n))) w)) ->
  forall done tail w,
    Focus w p (fapp done (fapp mid tail)) -> clean cv done ->
    exists done' w',
      eachChild cv recur p false (map view (siblings mid)) w = Ok tt w'
      /\ forest w' = substKids p (fapp done' tail) (forest w)
      /\ Focus w' p (fapp done' tail)
      /\ clean cv done'
      /\ size done' <= size done + size mid.
Proof.
  induction mid as [|b kb _ mid IH]; intros Hrec done tail w Hfoc Hcl.
  - exists done, w. cbn. split; [reflexivity|]. split.
    + destruct Hfoc as [[N _] [_ Hk]]. symmetry. now apply substKids_same.
    + split; [exact Hfoc|]. split; [exact Hcl | lia].
  - cbn [siblings map eachChild]. cbn [fapp] in Hfoc.
    assert (Hrec' : forall n, In n (siblings mid) ->
              (forall w, Focus w (id (fst n)) (snd n) ->
                 walked cv (recur (id (fst n))) (id (fst n)) (snd n) w)
              /\ (forall w, faults w = [] -> findKids (id (fst n)) (forest w) = None ->
                    skipped (recur (id (fst n))) w))
      by (intros n Hn; apply Hrec; now right).
    destruct (Hrec (b, kb) (or_introl eq_refl)) as [Hw Hs]. cbn [fst snd] in Hw, Hs.
    unfold isSource. cbn [view data has_children fst snd negb andb].
    rewrite andb_true_r.
    destruct (String.eqb (type b) (source_type cv)) eqn:Src.
    + (* a block of the source type: replace it *)
      destruct (replaceBlock_live cv p w done b kb (fapp mid tail) Hfoc)
        as [w1 [E1 [F1 [Foc1 [Nx1 [C1 [L1 Gone]]]]]]].
      unfold bind at 1, tryCatch. rewrite E1.
      set (new := createBlock (next_id w) (replacement cv b)) in *.
      assert (Hcl1 : clean cv (fapp done (Sib new Empty Empty))).
      { apply clean_fapp. split; [exact Hcl|]. unfold clean. cbn.
        rewrite (Hcv b). reflexivity. }
      assert (Hstep : exists w2,
                 (if nonEmpty kb then recur (id b) else ret tt) w1 = Ok tt w2
                 /\ forest w2 = forest w1
                 /\ Focus w2 p (fapp (fapp done (Sib new Empty Empty)) (fapp mid tail))).
      { rewrite fapp_assoc. cbn [fapp].
        destruct (nonEmpty kb).
        - destruct Foc1 as [[N1 B1] [Hf1 Hk1]].
          destruct (Hs w1 Hf1) as [w2 [E2 [F2 [Nx2 Hf2]]]].
          { apply findKids_none. apply Gone. now left. }
          exists w2. split; [exact E2|]. split; [exact F2|].
          split; [|split]; [|exact Hf2|now rewrite F2].
          split; rewrite F2; [exact N1 | now rewrite Nx2].
        - exists w1. split; [reflexivity|]. split; [reflexivity | exact Foc1]. }
      destruct Hstep as [w2 [E2 [F2 Foc2]]].
      unfold bind at 1. rewrite E2.
      destruct (IH Hrec' (fapp done (Sib new Empty Empty)) tail w2 Foc2 Hcl1)
        as [done' [w' [E' [F' [Foc' [Cl' Sz']]]]]].
      exists done', w'. split; [exact E'|]. split.
      { rewrite F', F2, F1. apply substKids_substKids. }
      split; [exact Foc'|]. split; [exact Cl'|].
      rewrite size_fapp in Sz'. cbn [size] in *. lia.
    + (* another block: walk its children if it has any *)
      unfold bind at 1. cbn [ret].
      destruct kb as [|b1 k1 r1] eqn:Ekb; cbn [nonEmpty].
      * unfold bind at 1. cbn [ret].
        assert (Hcl1 : clean cv (fapp done (Sib b Empty Empty))).
        { apply clean_fapp. split; [exact Hcl|]. unfold clean. cbn.
          rewrite Src. reflexivity. }
        destruct (IH Hrec' (fapp done (Sib b Empty Empty)) tail w
                    ltac:(rewrite fapp_assoc; exact Hfoc) Hcl1)
          as [done' [w' [E' [F' [Foc' [Cl' Sz']]]]]].
        exists done', w'. split; [exact E'|]. split; [exact F'|].
        split; [exact Foc'|]. split; [exact Cl'|].
        rewrite size_fapp in Sz'. cbn [size] in *. lia.
      * rewrite <- Ekb in *. clear Ekb.
        pose proof Hfoc as [[N B] [Hf Hk]].
        pose proof (findKids_NoDup _ _ _ N Hk) as Nks.
        destruct (NoDup_middle done (fapp mid tail) kb b Nks) as [M1 _].
        assert (Hfb : Focus w (id b) kb).
        { split; [split; assumption|]. split; [exact Hf|].
          apply (findKids_child p (forest w) _ (b, kb) N Hk).
          rewrite siblings_fapp. apply in_or_app. right. now left. }
        destruct (Hw w Hfb) as [kb' [w1 [E1 [F1 [Foc1 [Cl1 Sz1]]]]]].
        unfold bind at 1. rewrite E1.
        assert (F1' : forest w1
                      = substKids p (fapp done (Sib b kb' (fapp mid tail))) (forest w)).
        { rewrite F1.
          rewrite (substKids_inside p (id b) (forest w) _ kb' N Hk).
          - now rewrite substKids_fapp.
          - rewrite ids_fapp. apply in_or_app. right. now left. }
        assert (Foc1' : Focus w1 p (fapp (fapp done (Sib b kb' Empty)) (fapp mid tail))).
        { rewrite fapp_assoc. cbn [fapp].
          destruct Foc1 as [W1 [Hf1 _]]. split; [exact W1|]. split; [exact Hf1|].
          rewrite F1'. apply findKids_substKids.
          now destruct (findKids_in _ _ _ Hk). }
        assert (Hcl1 : clean cv (fapp done (Sib b kb' Empty))).
        { apply clean_fapp. split; [exact Hcl|]. unfold clean in *. cbn.
          rewrite Src, Cl1. reflexivity. }
        destruct (IH Hrec' (fapp done (Sib b kb' Empty)) tail w1 Foc1' Hcl1)
          as [done' [w' [E' [F' [Foc' [Cl' Sz']]]]]].
        exists done', w'. split; [exact E'|]. split.
        { rewrite F', F1'. apply substKids_substKids. }
        split; [exact Foc'|]. split; [exact Cl'|].
        rewrite size_fapp in Sz'. cbn [size] in *. lia.
Qed.

Lemma head_fdrop (n : nat) (f : Forest) (node : BlockData * Forest) :
  nth_error (siblings f) n = Some node ->
  exists rest', fdrop n f = Sib (fst node) (snd node) rest'.
Proof.
  revert f. induction n as [|n IH]; intros [|b kids rest] H; cbn in *; try discriminate.
  - injection H as <-. eauto.
  - now apply IH.
Qed.

Lemma childPages_live :
  forall n done rest cursor w,
    (forall m, In m (siblings rest) ->
       (forall w, Focus w (id (fst m)) (snd m) ->
          walked cv (recur (id (fst m))) (id (fst m)) (snd m) w)
       /\ (forall w, faults w = [] -> findKids (id (fst m)) (forest w) = None ->
             skipped (recur (id (fst m))) w)) ->
    Focus w p (fapp done rest) -> clean cv done ->
    cursorFor done rest cursor ->
    List.length (siblings rest) < n ->
    exists done' w',
      childPages cv recur p false n cursor w = Ok tt w'
      /\ forest w' = substKids p done' (forest w)
      /\ Focus w' p done'
      /\ clean cv done'
      /\ size done' <= size done + size rest.
Proof.
  induction n as [|n IH]; intros done rest cursor w Hrec Hfoc Hcl Hc Hn; [lia|].
  cbn [childPages]. unfold bind at 1.
  rewrite (list_focus w p done rest cursor Hfoc Hc).
  set (w0 := withLog (log w ++ [CList p cursor 100]) w).
  unfold pageOf. cbn [results has_more next_cursor].
  rewrite <- siblings_ftake.
  assert (Hfoc0 : Focus w0 p (fapp done (fapp (ftake 100 rest) (fdrop 100 rest))))
    by (rewrite ftake_fdrop; exact Hfoc).
  destruct (eachChild_live (ftake 100 rest)
              ltac:(intros m Hm; apply Hrec; rewrite siblings_ftake in Hm;
                    exact (in_firstn_in _ _ _ Hm))
              done (fdrop 100 rest) w0 Hfoc0 Hcl)
    as [done1 [w1 [E1 [F1 [Foc1 [Cl1 Sz1]]]]]].
  unfold bind at 1. rewrite E1.
  assert (Hsz : size (ftake 100 rest) + size (fdrop 100 rest) = size rest)
    by (rewrite <- size_fapp, ftake_fdrop; reflexivity).
  destruct (Nat.ltb_spec 100 (List.length (siblings rest))) as [Lt|Ge].
  - destruct (nth_error (siblings rest) 100) as [node|] eqn:Hnode;
      [|apply nth_error_None in Hnode; lia].
    destruct (head_fdrop 100 rest node Hnode) as [rest' Hd].
    cbn [option_map].
    destruct (IH done1 (fdrop 100 rest) (Some (id (fst node))) w1) as
      [done' [w' [E' [F' [Foc' [Cl' Sz']]]]]].
    + intros m Hm. apply Hrec. rewrite siblings_fdrop in Hm.
      exact (in_skipn_in _ _ _ Hm).
    + exact Foc1.
    + exact Cl1.
    + right. exists (fst node), (snd node), rest'. auto.
    + rewrite siblings_fdrop, length_skipn. lia.
    + exists done', w'. split; [exact E'|]. split.
      { rewrite F', F1. apply substKids_substKids. }
      split; [exact Foc'|]. split; [exact Cl'|]. lia.
  - assert (Hd : fdrop 100 rest = Empty).
    { apply siblings_empty. rewrite siblings_fdrop. apply skipn_all2. lia. }
    rewrite Hd, fapp_Empty in *. cbn [size] in *.
    exists done1, w1. split; [reflexivity|]. split; [exact F1|].
    split; [exact Foc1|]. split; [exact Cl1|]. lia.
Qed.

End NestedLive.

Lemma processChildBlocks_live (cv : Conversion) :
  Converts cv ->
  forall N ks, size ks < N ->
    forall p parent w fuel,
      Focus w p ks -> size ks + 2 <= fuel ->
      walked cv (processChildBlocks cv fuel p parent false) p ks w.
Proof.
  intros Hcv. induction N as [|N IH]; intros ks Hs p parent w fuel Hfoc Hfuel; [lia|].
  destruct fuel as [|fuel]; [lia|]. cbn [processChildBlocks].
  destruct (childPages_live cv Hcv
              (fun b => processChildBlocks cv fuel b p false) p
              fuel Empty ks None w) as [ks' [w' [E [F [Foc [Cl Sz]]]]]].
  - intros m Hm. pose proof (size_sibling m ks Hm) as Hsm. split.
    + intros w1 Hw1. apply (IH (snd m)); [lia | exact Hw1 | lia].
    + intros w1 Hf1 Hk1. eexists. split; [|split; [|split]].
      * apply processChildBlocks_missing; [exact Hf1 | exact Hk1 | lia].
      * reflexivity.
      * reflexivity.
      * exact Hf1.
  - exact Hfoc.
  - reflexivity.
  - left. auto.
  - pose proof (length_siblings ks). lia.
  - exists ks', w'. unfold tryCatch. rewrite E. cbn [size] in Sz. auto.
Qed.

(** ** The walk of a page in a live run on a reliable provider *)

Lemma counted_0 (t : Tally) : counted 0 t = t.
Proof. destruct t. unfold counted. cbn. now rewrite !Nat.add_0_r. Qed.

Lemma counted_success_found (k : nat) (t : Tally) :
  counted k (success (found t)) = counted (S k) t.
Proof. unfold counted, success, found. cbn. f_equal; lia. Qed.

Lemma counted_counted (a b : nat) (t : Tally) :
  counted b (counted a t) = counted (a + b) t.
Proof. unfold counted. cbn. f_equal; lia. Qed.

Lemma countTop_fapp (s : string) (f g : Forest) :
  countTop s (fapp f g) = countTop s f + countTop s g.
Proof.
  induction f as [|b kids IHk rest IHr]; [reflexivity|]. cbn [fapp countTop].
  destruct (String.eqb (type b) s); rewrite IHr; reflexivity.
Qed.

Section PageLive.
Variable cv : Conversion.
Hypothesis Hcv : Converts cv.
Variable fuel : nat.
Variable page : Page.

Lemma eachBlock_live (mid : Forest) :
  (forall n, In n (siblings mid) -> size (snd n) + 2 <= fuel) ->
  forall done tail t w,
    Focus w (page_id page) (fapp done (fapp mid tail)) -> clean cv done ->
    exists done' w',
      eachBlock cv fuel page false (map view (siblings mid)) t w
      = Ok (counted (countTop (source_type cv) mid) t) w'
      /\ forest w' = substKids (page_id page) (fapp done' tail) (forest w)
      /\ Focus w' (page_id page) (fapp done' tail)
      /\ clean cv done'
      /\ size done' <= size done + size mid.
Proof.
  induction mid as [|b kb _ mid IH]; intros Hsz done tail t w Hfoc Hcl.
  - exists done, w. cbn. rewrite counted_0. split; [reflexivity|]. split.
    + destruct Hfoc as [[N _] [_ Hk]]. symmetry. now apply substKids_same.
    + split; [exact Hfoc|]. split; [exact Hcl | lia].
  - cbn [siblings map eachBlock countTop]. cbn [fapp] in Hfoc.
    assert (Hsz' : forall n, In n (siblings mid) -> size (snd n) + 2 <= fuel)
      by (intros n Hn; apply Hsz; now right).
    unfold isSource. cbn [view data has_children fst snd negb].
    destruct (String.eqb (type b) (source_type cv)) eqn:Src.
    + destruct (replaceBlock_live cv (page_id page) w done b kb (fapp mid tail) Hfoc)
        as [w1 [E1 [F1 [Foc1 [Nx1 [C1 [L1 Gone]]]]]]].
      unfold bind at 1, attempt, tryCatch, bind. rewrite E1. cbn [ret].
      set (new := createBlock (next_id w) (replacement cv b)) in *.
      assert (Hcl1 : clean cv (fapp done (Sib new Empty Empty))).
      { apply clean_fapp. split; [exact Hcl|]. unfold clean. cbn.
        rewrite (Hcv b). reflexivity. }
      destruct (IH Hsz' (fapp done (Sib new Empty Empty)) tail (success (found t)) w1
                  ltac:(rewrite fapp_assoc; exact Foc1) Hcl1)
        as [done' [w' [E' [F' [Foc' [Cl' Sz']]]]]].
      exists done', w'. split; [rewrite E', counted_success_found; reflexivity|].
      split; [rewrite F', F1; apply substKids_substKids|].
      split; [exact Foc'|]. split; [exact Cl'|].
      rewrite size_fapp in Sz'. cbn [size] in *. lia.
    + destruct kb as [|b1 k1 r1] eqn:Ekb; cbn [nonEmpty].
      * assert (Hcl1 : clean cv (fapp done (Sib b Empty Empty))).
        { apply clean_fapp. split; [exact Hcl|]. unfold clean. cbn.
          rewrite Src. reflexivity. }
        destruct (IH Hsz' (fapp done (Sib b Empty Empty)) tail t w
                    ltac:(rewrite fapp_assoc; exact Hfoc) Hcl1)
          as [done' [w' [E' [F' [Foc' [Cl' Sz']]]]]].
        exists done', w'. split; [exact E'|]. split; [exact F'|].
        split; [exact Foc'|]. split; [exact Cl'|].
        rewrite size_fapp in Sz'. cbn [size] in *. lia.
      * rewrite <- Ekb in *. clear Ekb.
        pose proof Hfoc as [[N B] [Hf Hk]].
        pose proof (findKids_NoDup _ _ _ N Hk) as Nks.
        destruct (NoDup_middle done (fapp mid tail) kb b Nks) as [M1 _].
        assert (Hfb : Focus w (id b) kb).
        { split; [split; assumption|]. split; [exact Hf|].
          apply (findKids_child (page_id page) (forest w) _ (b, kb) N Hk).
          rewrite siblings_fapp. apply in_or_app. right. now left. }
        destruct (processChildBlocks_live cv Hcv (S (size kb)) kb ltac:(lia)
                    (id b) (page_id page) w fuel Hfb
                    (Hsz (b, kb) (or_introl eq_refl)))
          as [kb' [w1 [E1 [F1 [Foc1 [Cl1 Sz1]]]]]].
        unfold bind at 1. rewrite E1.
        assert (F1' : forest w1
                      = substKids (page_id page)
                          (fapp done (Sib b kb' (fapp mid tail))) (forest w)).
        { rewrite F1.
          rewrite (substKids_inside (page_id page) (id b) (forest w) _ kb' N Hk).
          - now rewrite substKids_fapp.
          - rewrite ids_fapp. apply in_or_app. right. now left. }
        assert (Foc1' : Focus w1 (page_id page)
                          (fapp (fapp done (Sib b kb' Empty)) (fapp mid tail))).
        { rewrite fapp_assoc. cbn [fapp].
          destruct Foc1 as [W1 [Hf1 _]]. split; [exact W1|]. split; [exact Hf1|].
          rewrite F1'. apply findKids_substKids.
          now destruct (findKids_in _ _ _ Hk). }
        assert (Hcl1 : clean cv (fapp done (Sib b kb' Empty))).
        { apply clean_fapp. split; [exact Hcl|]. unfold clean in *. cbn.
          rewrite Src, Cl1. reflexivity. }
        destruct (IH Hsz' (fapp done (Sib b kb' Empty)) tail t w1 Foc1' Hcl1)
          as [done' [w' [E' [F' [Foc' [Cl' Sz']]]]]].
        exists done', w'. split; [exact E'|]. split.
        { rewrite F', F1'. apply substKids_substKids. }
        split; [exact Foc'|]. split; [exact Cl'|].
        rewrite size_fapp in Sz'. cbn [size] in *. lia.
Qed.

Lemma pageBlocks_live :
  forall n done rest cursor t w,
    (forall m, In m (siblings rest) -> size (snd m) + 2 <= fuel) ->
    Focus w (page_id page) (fapp done rest) -> clean cv done ->
    cursorFor done rest cursor ->
    List.length (siblings rest) < n ->
    exists done' w',
      pageBlocks cv fuel page false n cursor t w
      = Ok (counted (countTop (source_type cv) rest) t, None) w'
      /\ forest w' = substKids (page_id page) done' (forest w)
      /\ Focus w' (page_id page) done'
      /\ clean cv done'
      /\ size done' <= size done + size rest.
Proof.
  induction n as [|n IH]; intros done rest cursor t w Hsz Hfoc Hcl Hc Hn; [lia|].
  cbn [pageBlocks]. unfold bind at 1.
  rewrite (list_focus w (page_id page) done rest cursor Hfoc Hc).
  set (w0 := withLog (log w ++ [CList (page_id page) cursor 100]) w).
  unfold pageOf. cbn [results has_more next_cursor].
  rewrite <- siblings_ftake.
  assert (Hfoc0 : Focus w0 (page_id page)
                    (fapp done (fapp (ftake 100 rest) (fdrop 100 rest))))
    by (rewrite ftake_fdrop; exact Hfoc).
  destruct (eachBlock_live (ftake 100 rest)
              ltac:(intros m Hm; apply Hsz; rewrite siblings_ftake in Hm;
                    exact (in_firstn_in _ _ _ Hm))
              done (fdrop 100 rest) t w0 Hfoc0 Hcl)
    as [done1 [w1 [E1 [F1 [Foc1 [Cl1 Sz1]]]]]].
  unfold bind at 1. rewrite E1.
  assert (Hsize : size (ftake 100 rest) + size (fdrop 100 rest) = size rest)
    by (rewrite <- size_fapp, ftake_fdrop; reflexivity).
  assert (Hcount : countTop (source_type cv) (ftake 100 rest)
                   + countTop (source_type cv) (fdrop 100 rest)
                   = countTop (source_type cv) rest)
    by (rewrite <- countTop_fapp, ftake_fdrop; reflexivity).
  destruct (Nat.ltb_spec 100 (List.length (siblings rest))) as [Lt|Ge].
  - destruct (nth_error (siblings rest) 100) as [node|] eqn:Hnode;
      [|apply nth_error_None in Hnode; lia].
    destruct (head_fdrop 100 rest node Hnode) as [rest' Hd].
    cbn [option_map].
    destruct (IH done1 (fdrop 100 rest) (Some (id (fst node)))
                (counted (countTop (source_type cv) (ftake 100 rest)) t) w1) as
      [done' [w' [E' [F' [Foc' [Cl' Sz']]]]]].
    + intros m Hm. apply Hsz. rewrite siblings_fdrop in Hm.
      exact (in_skipn_in _ _ _ Hm).
    + exact Foc1.
    + exact Cl1.
    + right. exists (fst node), (snd node), rest'. auto.
    + rewrite siblings_fdrop, length_skipn. lia.
    + exists done', w'. split; [rewrite E', counted_counted, Hcount; reflexivity|].
      split; [rewrite F', F1; apply substKids_substKids|].
      split; [exact Foc'|]. split; [exact Cl'|]. lia.
  - assert (Hd : fdrop 100 rest = Empty).
    { apply siblings_empty. rewrite siblings_fdrop. apply skipn_all2. lia. }
    rewrite Hd, fapp_Empty in *. cbn [size countTop] in *.
    rewrite Nat.add_0_r in Hcount. rewrite Hcount.
    exists done1, w1. split; [reflexivity|]. split; [exact F1|].
    split; [exact Foc1|]. split; [exact Cl1|]. lia.
Qed.

End PageLive.

Lemma pageBlocks_found_live (cv : Conversion) (fuel : nat) (page : Page)
    (ks : Forest) (t : Tally) (w : World) :
  Converts cv ->
  Focus w (page_id page) ks -> size ks + 2 <= fuel ->
  exists ks' w',
    pageBlocks cv fuel page false fuel None t w
    = Ok (counted (countTop (source_type cv) ks) t, None) w'
    /\ forest w' = substKids (page_id page) ks' (forest w)
    /\ Focus w' (page_id page) ks'
    /\ clean cv ks'
    /\ size ks' <= size ks.
Proof.
  intros Hcv Hfoc Hfuel.
  destruct (pageBlocks_live cv Hcv fuel page fuel Empty ks None t w)
    as [ks' [w' H]].
  - intros m Hm. pose proof (size_sibling m ks Hm). lia.
  - exact Hfoc.
  - reflexivity.
  - left. auto.
  - pose proof (length_siblings ks). lia.
  - exists ks', w'. exact H.
Qed.

Lemma pageBlocks_missing (cv : Conversion) (fuel : nat) (page : Page)
    (dryRun : bool) (t : Tally) (w : World) :
  faults w = [] -> findKids (page_id page) (forest w) = None -> 1 <= fuel ->
  pageBlocks cv fuel page dryRun fuel None t w
  = Ok (t, Some (ustr "object_not_found"))
       (withLog (log w ++ [CList (page_id page) None 100]) w).
Proof.
  intros Hf Hk Hfuel. destruct fuel as [|fuel]; [lia|].
  cbn [pageBlocks].
  unfold bind, attempt, tryCatch, bind, blocks_children_list, request.
  cbn [withLog faults forest log]. rewrite Hf, Hk. reflexivity.
Qed.

(** ** Runs that change nothing: dry runs, and live runs that meet no
       block of the source type *)

Lemma mutations_app (l1 l2 : list Call) :
  mutations (l1 ++ l2) = mutations l1 ++ mutations l2.
Proof. apply filter_app. Qed.

Lemma clean_sibling (cv : Conversion) (f : Forest) (n : BlockData * Forest) :
  clean cv f -> In n (siblings f) ->
  String.eqb (type (fst n)) (source_type cv) = false /\ clean cv (snd n).
Proof.
  unfold clean. induction f as [|b kids IHk rest IHr]; intros H Hn; [contradiction|].
  cbn [noneOfType siblings] in *.
  apply andb_true_iff in H as [H Hr]. apply andb_true_iff in H as [Hb Hk].
  destruct Hn as [<-|Hn]; [|now apply IHr].
  cbn [fst snd]. split; [|exact Hk]. now apply negb_true_iff in Hb.
Qed.

Lemma reads_ret {A} (a : A) (w : World) : reads (ret a) a w.
Proof.
  exists []. split; [|reflexivity]. unfold ret. rewrite app_nil_r.
  destruct w; reflexivity.
Qed.

Lemma reads_bind {A B} (m : M A) (k : A -> M B) (a : A) (b : B) (w : World) :
  reads m a w ->
  (forall lg, mutations lg = [] -> reads (k a) b (withLog (log w ++ lg) w)) ->
  reads (bind m k) b w.
Proof.
  intros [lg1 [E1 M1]] Hk. destruct (Hk lg1 M1) as [lg2 [E2 M2]].
  exists (lg1 ++ lg2). unfold bind. rewrite E1, E2.
  cbn [withLog log forest searchable next_id schema props faults console].
  split; [now rewrite app_assoc|]. now rewrite mutations_app, M1, M2.
Qed.

Lemma countTop_siblings (s : string) (f : Forest) :
  countTop s f = countNodes s (siblings f).
Proof.
  unfold countNodes. induction f as [|b kids IHk rest IHr]; [reflexivity|].
  cbn [countTop siblings filter fst]. destruct (String.eqb (type b) s); cbn; now rewrite IHr.
Qed.

Lemma countNodes_app (s : string) (l1 l2 : list (BlockData * Forest)) :
  countNodes s (l1 ++ l2) = countNodes s l1 + countNodes s l2.
Proof. unfold countNodes. now rewrite filter_app, length_app. Qed.

Section Inert.
Variable cv : Conversion.
Variable dryRun : bool.
Variable F : Forest.
Hypothesis NF : NoDup (ids F).

Lemma inert_sibling (ks : Forest) (n : BlockData * Forest) :
  inert cv dryRun ks -> In n (siblings ks) ->
  (String.eqb (type (fst n)) (source_type cv) && negb dryRun = false)
  /\ inert cv dryRun (snd n).
Proof.
  intros [->|H] Hn.
  - split; [apply andb_false_r | now left].
  - destruct (clean_sibling cv ks n H Hn) as [H1 H2].
    split; [now rewrite H1 | now right].
Qed.

Lemma eachChild_inert (recur : nat -> M unit) (p : nat) (l : list (BlockData * Forest)) :
  (forall n, In n l ->
     String.eqb (type (fst n)) (source_type cv) && negb dryRun = false) ->
  (forall n, In n l -> nonEmpty (snd n) = true ->
     forall w, steady F w -> reads (recur (id (fst n))) tt w) ->
  forall w, steady F w -> reads (eachChild cv recur p dryRun (map view l)) tt w.
Proof.
  induction l as [|n l IH]; intros Hin Hrec w Hw; [apply reads_ret|].
  cbn [map eachChild]. unfold isSource. cbn [view data has_children fst snd].
  rewrite (Hin n (or_introl eq_refl)).
  apply (reads_bind _ _ tt); [apply reads_ret|]. intros lg1 M1.
  apply (reads_bind _ _ tt).
  - destruct (nonEmpty (snd n)) eqn:E; [|apply reads_ret].
    apply (Hrec n (or_introl eq_refl) E). exact Hw.
  - intros lg2 M2. apply IH.
    + intros m Hm. apply Hin. now right.
    + intros m Hm. apply Hrec. now right.
    + exact Hw.
Qed.

Lemma list_steady (c : nat) (ks : Forest) (k : nat) (cursor : option nat) (w : World) :
  steady F w -> findKids c F = Some ks -> cursorAt (siblings ks) k cursor ->
  reads (attempt (blocks_children_list c cursor 100))
    (inl (pageOf 100 (skipn k (siblings ks)))) w.
Proof.
  intros [HF Hf] Hk Hc. exists [CList c cursor 100]. split; [|reflexivity].
  apply list_reliable; auto.
  - exact (findKids_NoDup c F ks NF Hk).
  - now rewrite HF.
Qed.

Lemma childPages_inert (recur : nat -> M unit) (p : nat) (ks : Forest) :
  findKids p F = Some ks -> inert cv dryRun ks ->
  (forall n, In n (siblings ks) -> nonEmpty (snd n) = true ->
     forall w, steady F w -> reads (recur (id (fst n))) tt w) ->
  forall n k cursor w,
    steady F w -> cursorAt (siblings ks) k cursor ->
    List.length (skipn k (siblings ks)) < n ->
    reads (childPages cv recur p dryRun n cursor) tt w.
Proof.
  intros Hk Hin Hrec. induction n as [|n IH]; intros k cursor w Hw Hc Hn; [lia|].
  cbn [childPages].
  apply (reads_bind _ _ (inl (pageOf 100 (skipn k (siblings ks)))));
    [now apply list_steady|].
  intros lg1 M1. set (l := skipn k (siblings ks)) in *.
  unfold pageOf. cbn [results has_more next_cursor].
  apply (reads_bind _ _ tt).
  - apply eachChild_inert.
    + intros m Hm. apply (inert_sibling ks m Hin).
      exact (in_skipn_in k _ m (in_firstn_in 100 _ m Hm)).
    + intros m Hm. apply Hrec.
      exact (in_skipn_in k _ m (in_firstn_in 100 _ m Hm)).
    + exact Hw.
  - intros lg2 M2.
    destruct (Nat.ltb_spec 100 (List.length l)) as [Lt|Ge]; [|apply reads_ret].
    destruct (nth_error l 100) as [node|] eqn:Hnode;
      [|apply nth_error_None in Hnode; lia].
    cbn [option_map].
    apply (IH (100 + k)).
    + exact Hw.
    + right. exists node. split; [|reflexivity].
      unfold l in Hnode. rewrite nth_error_skipn in Hnode.
      now rewrite (Nat.add_comm 100 k).
    + rewrite <- skipn_skipn. fold l. rewrite length_skipn. lia.
Qed.

Lemma processChildBlocks_inert :
  forall N ks, size ks < N ->
    forall p parent w fuel,
      steady F w -> findKids p F = Some ks -> inert cv dryRun ks -> size ks + 2 <= fuel ->
      reads (processChildBlocks cv fuel p parent dryRun) tt w.
Proof.
  induction N as [|N IH]; intros ks Hs p parent w fuel Hw Hk Hin Hfuel; [lia|].
  destruct fuel as [|fuel]; [lia|]. cbn [processChildBlocks].
  destruct (childPages_inert (fun b => processChildBlocks cv fuel b p dryRun) p ks Hk Hin)
    with (n := fuel) (k := 0) (cursor := @None nat) (w := w) as [lg [E M]].
  - intros n Hn _ w' Hw'. pose proof (size_sibling n ks Hn) as Hsz.
    apply (IH (snd n)); [lia | exact Hw' | | | lia].
    + exact (findKids_child p F ks n NF Hk Hn).
    + destruct Hin as [Hd|Hc]; [now left | right].
      exact (proj2 (clean_sibling cv ks n Hc Hn)).
  - exact Hw.
  - left. auto.
  - cbn [skipn]. pose proof (length_siblings ks). lia.
  - exists lg. unfold tryCatch. rewrite E. auto.
Qed.

(** *** At the top of a page *)

Variable fuel : nat.
Variable page : Page.

Lemma eachBlock_inert (ks : Forest) (l : list (BlockData * Forest)) :
  findKids (page_id page) F = Some ks -> inert cv dryRun ks ->
  (forall n, In n l -> In n (siblings ks)) ->
  size ks + 2 <= fuel ->
  forall t w, steady F w ->
    reads (eachBlock cv fuel page dryRun (map view l) t)
      (counted (countNodes (source_type cv) l) t) w.
Proof.
  intros Hk Hin Hl Hfuel. induction l as [|n l IH]; intros t w Hw.
  - cbn. rewrite counted_0. apply reads_ret.
  - cbn [map eachBlock]. unfold isSource. cbn [view data has_children fst snd].
    assert (Hn : In n (siblings ks)) by (apply Hl; now left).
    assert (Hl' : forall m, In m l -> In m (siblings ks))
      by (intros m Hm; apply Hl; now right).
    destruct (inert_sibling ks n Hin Hn) as [H1 H2].
    unfold countNodes. cbn [filter].
    destruct (String.eqb (type (fst n)) (source_type cv)) eqn:Src.
    + cbn [andb] in H1. rewrite H1. cbn [List.length].
      fold (countNodes (source_type cv) l).
      rewrite <- counted_success_found. now apply IH.
    + fold (countNodes (source_type cv) l).
      destruct (nonEmpty (snd n)) eqn:E; [|now apply IH].
      apply (reads_bind _ _ tt).
      * pose proof (size_sibling n ks Hn) as Hsz.
        apply (processChildBlocks_inert (S (size (snd n))) (snd n));
          [lia | exact Hw | | exact H2 | lia].
        exact (findKids_child (page_id page) F ks n NF Hk Hn).
      * intros lg M. now apply IH.
Qed.

Lemma pageBlocks_inert (ks : Forest) :
  findKids (page_id page) F = Some ks -> inert cv dryRun ks ->
  size ks + 2 <= fuel ->
  forall n k cursor t w,
    steady F w -> cursorAt (siblings ks) k cursor ->
    List.length (skipn k (siblings ks)) < n ->
    reads (pageBlocks cv fuel page dryRun n cursor t)
      (counted (countNodes (source_type cv) (skipn k (siblings ks))) t, None) w.
Proof.
  intros Hk Hin Hfuel. induction n as [|n IH]; intros k cursor t w Hw Hc Hn; [lia|].
  cbn [pageBlocks].
  apply (reads_bind _ _ (inl (pageOf 100 (skipn k (siblings ks)))));
    [now apply list_steady|].
  intros lg1 M1. set (l := skipn k (siblings ks)) in *.
  unfold pageOf. cbn [results has_more next_cursor].
  apply (reads_bind _ _ (counted (countNodes (source_type cv) (firstn 100 l)) t)).
  - apply (eachBlock_inert ks); auto.
    intros m Hm. exact (in_skipn_in k _ m (in_firstn_in 100 _ m Hm)).
  - intros lg2 M2.
    assert (Hcount : countNodes (source_type cv) (firstn 100 l)
                     + countNodes (source_type cv) (skipn 100 l)
                     = countNodes (source_type cv) l)
      by (rewrite <- countNodes_app, firstn_skipn; reflexivity).
    destruct (Nat.ltb_spec 100 (List.length l)) as [Lt|Ge].
    + destruct (nth_error l 100) as [node|] eqn:Hnode;
        [|apply nth_error_None in Hnode; lia].
      cbn [option_map].
      replace (counted (countNodes (source_type cv) l) t)
        with (counted (countNodes (source_type cv) (skipn (100 + k) (siblings ks)))
                (counted (countNodes (source_type cv) (firstn 100 l)) t)).
      2:{ rewrite counted_counted, <- Hcount. unfold l. now rewrite skipn_skipn. }
      apply (IH (100 + k)).
      * exact Hw.
      * right. exists node. split; [|reflexivity].
        unfold l in Hnode. rewrite nth_error_skipn in Hnode.
        now rewrite (Nat.add_comm 100 k).
      * rewrite <- skipn_skipn. fold l. rewrite length_skipn. lia.
    + rewrite firstn_all2 by lia. apply reads_ret.
Qed.

End Inert.

(** ** The pages of a run *)

Lemma getAllPagesFrom_reads (S : list Page) :
  forall n from cursor pages w,
    faults w = [] -> searchable w = S ->
    (from = 0 /\ cursor = None \/ cursor = Some from) ->
    List.length (skipn from S) < n ->
    reads (getAllPagesFrom n cursor pages) (pages ++ skipn from S) w.
Proof.
  induction n as [|n IH]; intros from cursor pages w Hf HS Hc Hn; [lia|].
  cbn [getAllPagesFrom].
  assert (Hfrom : match cursor with Some c => c | None => 0 end = from)
    by (destruct Hc as [[-> ->]| ->]; reflexivity).
  apply (reads_bind _ _
           {| s_results := firstn 100 (skipn from S);
              s_has_more := Nat.ltb 100 (List.length (skipn from S));
              s_next_cursor := if Nat.ltb 100 (List.length (skipn from S))
                               then Some (from + 100) else None |}).
  - exists [CSearch cursor 100]. split; [|reflexivity].
    unfold search, request. cbn [withLog faults forest log searchable].
    rewrite Hf, HS, Hfrom. reflexivity.
  - intros lg M. cbn [s_results s_has_more s_next_cursor].
    destruct (Nat.ltb_spec 100 (List.length (skipn from S))) as [Lt|Ge].
    + replace (pages ++ skipn from S)
        with ((pages ++ firstn 100 (skipn from S)) ++ skipn (from + 100) S).
      2:{ rewrite <- app_assoc. f_equal. rewrite (Nat.add_comm from 100).
          rewrite <- skipn_skipn. apply firstn_skipn. }
      apply IH; auto.
      rewrite (Nat.add_comm from 100), <- skipn_skipn, length_skipn. lia.
    + rewrite firstn_all2 by lia. apply reads_ret.
Qed.

Lemma getAllPages_reads (fuel : nat) (w : World) :
  faults w = [] -> List.length (searchable w) < fuel ->
  reads (getAllPages fuel) (searchable w) w.
Proof.
  intros Hf Hn. unfold getAllPages.
  apply (getAllPagesFrom_reads (searchable w) fuel 0 None [] w); auto.
Qed.

Lemma size_findKids (i : nat) (f ks : Forest) : findKids i f = Some ks -> size ks < size f.
Proof.
  induction f as [|b kids IHk rest IHr]; intros H; [discriminate|].
  cbn [findKids size] in *. destruct (Nat.eqb (id b) i); [injection H as <-; lia|].
  destruct (findKids i kids) eqn:K; [injection H as <-; specialize (IHk eq_refl); lia|].
  specialize (IHr H). lia.
Qed.

Lemma summaryOf_counts (cv : Conversion) (F : Forest) (pages : list Page) :
  forall processed pw t,
    totalPages (summaryOf cv F pages processed pw t) = processed + List.length pages
    /\ totalMatches (summaryOf cv F pages processed pw t)
       = total t + topMatches cv F pages
    /\ convertedMatches (summaryOf cv F pages processed pw t)
       = converted t + topMatches cv F pages.
Proof.
  induction pages as [|pg pages IH]; intros processed pw t.
  - cbn. repeat split; lia.
  - cbn [summaryOf topMatches List.length]. unfold kidsOf.
    destruct (findKids (page_id pg) F) as [ks|].
    + destruct (IH (S processed)
                  (if Nat.ltb 0 (pageCount (counted (countTop (source_type cv) ks) (newPage t)))
                   then S pw else pw)
                  (counted (countTop (source_type cv) ks) (newPage t))) as [H1 [H2 H3]].
      rewrite H1, H2, H3. cbn. repeat split; lia.
    + destruct (IH (S processed) pw
                  (failure {| e_pageId := page_id pg; e_pageTitle := page_title pg;
                              e_blockId := None; e_error := ustr "object_not_found" |}
                     (newPage t))) as [H1 [H2 H3]].
      rewrite H1, H2, H3. cbn. repeat split; lia.
Qed.

Section PagesInert.
Variable cv : Conversion.
Variable dryRun : bool.
Variable F : Forest.
Hypothesis NF : NoDup (ids F).
Variable fuel : nat.
Hypothesis Hfuel : size F + 2 <= fuel.

Lemma eachPage_inert :
  forall pages processed pw t w,
    steady F w ->
    (forall pg, In pg pages -> inert cv dryRun (kidsOf F (page_id pg))) ->
    reads (eachPage cv fuel dryRun pages processed pw t)
      (summaryOf cv F pages processed pw t) w.
Proof.
  induction pages as [|pg pages IH]; intros processed pw t w Hw Hin.
  - apply reads_ret.
  - cbn [eachPage summaryOf].
    assert (Hin' : forall q, In q pages -> inert cv dryRun (kidsOf F (page_id q)))
      by (intros q Hq; apply Hin; now right).
    destruct (findKids (page_id pg) F) as [ks|] eqn:Hk.
    + assert (Hi : inert cv dryRun ks).
      { specialize (Hin pg (or_introl eq_refl)). unfold kidsOf in Hin.
        now rewrite Hk in Hin. }
      pose proof (size_findKids _ _ _ Hk) as Hsz.
      apply (reads_bind _ _ (counted (countTop (source_type cv) ks) (newPage t), None)).
      * rewrite countTop_siblings.
        apply (pageBlocks_inert cv dryRun F NF fuel pg ks Hk Hi ltac:(lia)
                 fuel 0 None (newPage t) w Hw).
        -- left. auto.
        -- cbn [skipn]. pose proof (length_siblings ks). lia.
      * intros lg M. cbv zeta. apply IH; [exact Hw | exact Hin'].
    + apply (reads_bind _ _ (newPage t, Some (ustr "object_not_found"))).
      * exists [CList (page_id pg) None 100]. split; [|reflexivity].
        destruct Hw as [HF Hf].
        apply pageBlocks_missing; [exact Hf | now rewrite HF | lia].
      * intros lg M. apply IH; [exact Hw | exact Hin'].
Qed.

End PagesInert.

(** ** Live runs over the pages *)

Lemma size_substKids (i : nat) (f ks new : Forest) :
  NoDup (ids f) -> findKids i f = Some ks ->
  size (substKids i new f) + size ks = size f + size new.
Proof.
  induction f as [|b kids IHk rest IHr]; intros N H; [discriminate|].
  destruct (NoDup_Sib _ _ _ N) as [Nk [Nr [Dk [Dr Dj]]]].
  cbn [findKids] in H. cbn [substKids].
  destruct (Nat.eqb_spec (id b) i) as [E|E].
  - injection H as <-. cbn [size]. lia.
  - destruct (findKids i kids) as [r|] eqn:K.
    + injection H as ->. destruct (findKids_in _ _ _ K) as [Hi _].
      rewrite (substKids_absent i new rest) by (intros Hin; exact (Dj i Hi Hin)).
      cbn [size]. specialize (IHk Dk eq_refl). lia.
    + assert (Hk : ~ In i (ids kids)).
      { intros Hin. destruct (in_ids_findKids i kids Hin) as [y Hy]. congruence. }
      rewrite (substKids_absent i new kids Hk).
      cbn [size]. specialize (IHr Dr H). lia.
Qed.

Lemma clean_findKids (cv : Conversion) (q : nat) (f k : Forest) :
  clean cv f -> findKids q f = Some k -> clean cv k.
Proof.
  unfold clean. induction f as [|b kids IHk rest IHr]; intros H Hq; [discriminate|].
  cbn [noneOfType findKids] in *.
  apply andb_true_iff in H as [H Hr]. apply andb_true_iff in H as [Hb Hk].
  destruct (Nat.eqb (id b) q); [now injection Hq as <-|].
  destruct (findKids q kids) eqn:K; [injection Hq as <-; now apply IHk | now apply IHr].
Qed.

Lemma clean_substKids (cv : Conversion) (p : nat) (f new : Forest) :
  clean cv f -> clean cv new -> clean cv (substKids p new f).
Proof.
  unfold clean. induction f as [|b kids IHk rest IHr]; intros H Hn; [reflexivity|].
  cbn [noneOfType substKids] in *.
  apply andb_true_iff in H as [H Hr]. apply andb_true_iff in H as [Hb Hk].
  destruct (Nat.eqb (id b) p); cbn [noneOfType].
  - now rewrite Hb, Hn, Hr.
  - now rewrite Hb, (IHk Hk Hn), (IHr Hr Hn).
Qed.

(** Where a lookup lands after a substitution. *)
Lemma findKids_substKids_cases (p q : nat) (f ks new k : Forest) :
  NoDup (ids f) -> findKids p f = Some ks ->
  findKids q (substKids p new f) = Some k ->
  (q = p /\ k = new)
  \/ findKids q new = Some k
  \/ (exists k0, findKids q f = Some k0 /\ k = substKids p new k0).
Proof.
  revert k. induction f as [|b kids IHk rest IHr]; intros k N H Hq; [discriminate|].
  destruct (NoDup_Sib _ _ _ N) as [Nk [Nr [Dk [Dr Dj]]]].
  cbn [findKids] in H. cbn [substKids] in Hq.
  destruct (Nat.eqb_spec (id b) p) as [E|E].
  - injection H as <-. cbn [findKids] in *.
    destruct (Nat.eqb_spec (id b) q) as [E'|E'].
    + injection Hq as <-. left. split; congruence.
    + destruct (findKids q new) as [r|] eqn:Kn; [injection Hq as <-; now right; left|].
      right. right. exists k.
      destruct (findKids_in _ _ _ Hq) as [Hqr Hincl].
      rewrite (findKids_none q kids) by (intros Hin; exact (Dj q Hin Hqr)).
      split; [exact Hq|]. symmetry. apply substKids_absent.
      intros Hin. apply Nr. rewrite E. now apply Hincl.
  - cbn [findKids] in *.
    destruct (findKids p kids) as [r|] eqn:K.
    + injection H as ->. destruct (findKids_in _ _ _ K) as [Hp _].
      rewrite (substKids_absent p new rest) in Hq by (intros Hin; exact (Dj p Hp Hin)).
      destruct (Nat.eqb_spec (id b) q) as [E'|E'].
      * injection Hq as <-. right. right. now exists kids.
      * destruct (findKids q (substKids p new kids)) as [r|] eqn:Kq.
        -- injection Hq as <-.
           destruct (IHk r Dk eq_refl eq_refl) as [H1|[H1|[k0 [H1 H2]]]]; auto.
           right. right. exists k0. now rewrite H1.
        -- right. right. exists k.
           destruct (findKids_in _ _ _ Hq) as [Hqr Hincl].
           rewrite (findKids_none q kids) by (intros Hin; exact (Dj q Hin Hqr)).
           split; [exact Hq|]. symmetry. apply substKids_absent.
           intros Hin. apply (Dj p Hp). now apply Hincl.
    + assert (Hk : ~ In p (ids kids)).
      { intros Hin. destruct (in_ids_findKids p kids Hin) as [y Hy]. congruence. }
      rewrite (substKids_absent p new kids Hk) in Hq.
      destruct (Nat.eqb_spec (id b) q) as [E'|E'].
      * injection Hq as <-. right. right. exists kids. split; [reflexivity|].
        symmetry. now apply substKids_absent.
      * destruct (findKids q kids) as [r|] eqn:Kq.
        -- injection Hq as <-. right. right. exists r. split; [reflexivity|].
           symmetry. apply substKids_absent. intros Hin. apply Hk.
           destruct (findKids_in _ _ _ Kq) as [_ Hincl]. now apply Hincl.
        -- destruct (IHr k Dr H Hq) as [H1|[H1|H1]]; auto.
Qed.

Lemma clean_kidsOf_substKids (cv : Conversion) (p q : nat) (f ks new : Forest) :
  NoDup (ids f) -> findKids p f = Some ks -> clean cv new ->
  clean cv (kidsOf f q) -> clean cv (kidsOf (substKids p new f) q).
Proof.
  intros N H Hn Hq. unfold kidsOf at 1.
  destruct (findKids q (substKids p new f)) as [k|] eqn:K; [|reflexivity].
  destruct (findKids_substKids_cases p q f ks new k N H K) as [[_ ->]|[H1|[k0 [H1 ->]]]].
  - exact Hn.
  - exact (clean_findKids cv q new k Hn H1).
  - unfold kidsOf in Hq. rewrite H1 in Hq. now apply clean_substKids.
Qed.

Lemma rootIds_substKids (p : nat) (new f : Forest) :
  rootIds (substKids p new f) = rootIds f.
Proof.
  unfold rootIds. induction f as [|b kids IHk rest IHr]; [reflexivity|].
  cbn [substKids]. destruct (Nat.eqb (id b) p); cbn [siblings map fst]; [reflexivity|].
  now rewrite IHr.
Qed.

Lemma rootIds_ids (q : nat) (f : Forest) : In q (rootIds f) -> In q (ids f).
Proof.
  unfold rootIds. intros H. apply in_map_iff in H as [n [<- Hn]].
  now apply siblings_ids.
Qed.

Lemma root_not_under (p q : nat) (f ks : Forest) :
  NoDup (ids f) -> In p (rootIds f) -> In q (rootIds f) -> p <> q ->
  findKids p f = Some ks -> ~ In q (ids ks).
Proof.
  induction f as [|b kids IHk rest IHr]; intros N Hp Hq Hpq H; [discriminate|].
  destruct (NoDup_Sib _ _ _ N) as [Nk [Nr [Dk [Dr Dj]]]].
  unfold rootIds in Hp, Hq. cbn [siblings map fst] in Hp, Hq. cbn [findKids] in H.
  destruct (Nat.eqb_spec (id b) p) as [E|E].
  - injection H as <-. destruct Hq as [Hq|Hq]; [congruence|].
    intros Hin. exact (Dj q Hin (rootIds_ids q rest Hq)).
  - destruct Hp as [Hp|Hp]; [congruence|].
    rewrite (findKids_none p kids) in H
      by (intros Hin; exact (Dj p Hin (rootIds_ids p rest Hp))).
    destruct Hq as [Hq|Hq].
    + intros Hin. apply Nr. rewrite Hq.
      destruct (findKids_in _ _ _ H) as [_ Hincl]. now apply Hincl.
    + now apply IHr.
Qed.

(** The children of a root are untouched by a substitution under
    another root. *)
Lemma findKids_substKids_root (p q : nat) (f new : Forest) :
  NoDup (ids f) -> In p (rootIds f) -> In q (rootIds f) -> p <> q ->
  ~ In q (ids new) ->
  findKids q (substKids p new f) = findKids q f.
Proof.
  induction f as [|b kids IHk rest IHr]; intros N Hp Hq Hpq Hn; [reflexivity|].
  destruct (NoDup_Sib _ _ _ N) as [Nk [Nr [Dk [Dr Dj]]]].
  unfold rootIds in Hp, Hq. cbn [siblings map fst] in Hp, Hq. cbn [substKids].
  destruct (Nat.eqb_spec (id b) p) as [E|E].
  - destruct Hq as [Hq|Hq]; [congruence|].
    cbn [findKids]. destruct (Nat.eqb_spec (id b) q) as [E'|E']; [congruence|].
    rewrite (findKids_none q new Hn).
    rewrite (findKids_none q kids); [reflexivity|].
    intros Hin. exact (Dj q Hin (rootIds_ids q rest Hq)).
  - destruct Hp as [Hp|Hp]; [congruence|].
    rewrite (substKids_absent p new kids)
      by (intros Hin; exact (Dj p Hin (rootIds_ids p rest Hp))).
    cbn [findKids]. destruct (Nat.eqb_spec (id b) q) as [E'|E']; [reflexivity|].
    destruct Hq as [Hq|Hq]; [congruence|].
    rewrite (findKids_none q kids)
      by (intros Hin; exact (Dj q Hin (rootIds_ids q rest Hq))).
    now apply IHr.
Qed.

Lemma summaryOf_ext (cv : Conversion) (F1 F2 : Forest) (pages : list Page) :
  (forall pg, In pg pages -> findKids (page_id pg) F1 = findKids (page_id pg) F2) ->
  forall processed pw t,
    summaryOf cv F1 pages processed pw t = summaryOf cv F2 pages processed pw t.
Proof.
  induction pages as [|pg pages IH]; intros H processed pw t; [reflexivity|].
  cbn [summaryOf]. rewrite (H pg (or_introl eq_refl)).
  destruct (findKids (page_id pg) F2); apply IH; intros q Hq; apply H; now right.
Qed.

Section PagesLive.
Variable cv : Conversion.
Hypothesis Hcv : Converts cv.
Variable fuel : nat.

Lemma eachPage_live :
  forall pages processed pw t w,
    WellFormed w -> faults w = [] -> size (forest w) + 2 <= fuel ->
    exists s w',
      eachPage cv fuel false pages processed pw t w = Ok s w'
      /\ WellFormed w' /\ faults w' = []
      /\ size (forest w') <= size (forest w)
      /\ (forall q, clean cv (kidsOf (forest w) q) -> clean cv (kidsOf (forest w') q))
      /\ (forall pg, In pg pages -> clean cv (kidsOf (forest w') (page_id pg)))
      /\ (distinctRoots (forest w) pages ->
          s = summaryOf cv (forest w) pages processed pw t)
      /\ (total t = converted t -> totalMatches s = convertedMatches s)
      /\ (Forall (fun e => e_blockId e = None) (errors t) ->
          Forall (fun e => e_blockId e = None) (runErrors s)).
Proof.
  induction pages as [|pg pages IH]; intros processed pw t w W Hf Hfuel.
  - eexists. exists w. split; [reflexivity|]. split; [exact W|]. split; [exact Hf|].
    split; [lia|]. split; [auto|]. split; [intros pg []|]. split; [intros _; reflexivity|]. split; auto.
  - cbn [eachPage]. unfold bind at 1.
    destruct (findKids (page_id pg) (forest w)) as [ks|] eqn:Hk.
    + pose proof (size_findKids _ _ _ Hk) as Hsz.
      destruct (pageBlocks_found_live cv fuel pg ks (newPage t) w Hcv
                  ltac:(split; [exact W | split; assumption]) ltac:(lia))
        as [ks' [w1 [E1 [F1 [[W1 [Hf1 Hk1]] [Cl1 Sz1]]]]]].
      rewrite E1.
      pose proof (size_substKids (page_id pg) (forest w) ks ks' (proj1 W) Hk) as Hs1.
      rewrite <- F1 in Hs1.
      destruct (IH (S processed)
                  (if Nat.ltb 0 (pageCount (counted (countTop (source_type cv) ks) (newPage t)))
                   then S pw else pw)
                  (counted (countTop (source_type cv) ks) (newPage t)) w1 W1 Hf1
                  ltac:(lia))
        as [s [w' [E' [W' [Hf' [Sz' [P' [C' [R' [T' X']]]]]]]]]].
      exists s, w'. split; [exact E'|]. split; [exact W'|]. split; [exact Hf'|].
      split; [lia|]. split; [|split; [|split; [|split]]].
      * intros q Hq. apply P'. rewrite F1.
        now apply (clean_kidsOf_substKids cv _ q (forest w) ks ks' (proj1 W) Hk).
      * intros q [<-|Hq]; [|now apply C'].
        apply P'. unfold kidsOf. now rewrite Hk1.
      * intros [ND Hroots]. cbn [summaryOf]. rewrite Hk. cbv zeta.
        cbn [map] in ND. inversion ND as [|? ? Hnin ND']; subst.
        assert (Hp : In (page_id pg) (rootIds (forest w)))
          by (apply Hroots; now left).
        assert (Hext : forall q, In q pages ->
                  findKids (page_id q) (forest w1) = findKids (page_id q) (forest w)).
        { intros q Hq.
          assert (Hqr : In (page_id q) (rootIds (forest w)))
            by (apply Hroots; now right).
          assert (Hne : page_id pg <> page_id q).
          { intros Heq. apply Hnin. rewrite Heq. now apply in_map. }
          rewrite F1. apply findKids_substKids_root; auto; [exact (proj1 W)|].
          apply (root_not_under (page_id pg) (page_id q) (forest w1) ks' (proj1 W1));
            auto; rewrite F1, rootIds_substKids; assumption. }
        rewrite R'.
        -- now apply summaryOf_ext.
        -- split; [exact ND'|]. intros q Hq. rewrite F1, rootIds_substKids.
           apply Hroots. now right.
      * intros Ht. apply T'. cbn. lia.
      * intros He. apply X'. exact He.
    + rewrite (pageBlocks_missing cv fuel pg false (newPage t) w Hf Hk ltac:(lia)).
      destruct (IH (S processed) pw
                  (failure {| e_pageId := page_id pg; e_pageTitle := page_title pg;
                              e_blockId := None; e_error := ustr "object_not_found" |}
                     (newPage t))
                  (withLog (log w ++ [CList (page_id pg) None 100]) w) W Hf Hfuel)
        as [s [w' [E' [W' [Hf' [Sz' [P' [C' [R' [T' X']]]]]]]]]].
      exists s, w'. split; [exact E'|]. split; [exact W'|]. split; [exact Hf'|].
      split; [exact Sz'|]. split; [exact P'|]. split; [|split; [|split]].
      * intros q [<-|Hq]; [|now apply C'].
        apply P'. cbn [forest withLog]. unfold kidsOf. now rewrite Hk.
      * intros [ND Hroots]. cbn [summaryOf]. rewrite Hk.
        apply R'. cbn [map] in ND. inversion ND; subst.
        split; [assumption|]. intros q Hq. apply Hroots. now right.
      * intros Ht. apply T'. exact Ht.
      * intros He. apply X'. cbn [errors failure newPage].
        apply Forall_app. split; [exact He|]. constructor; [reflexivity|constructor].
Qed.

End PagesLive.

(** ** What every run leaves alone *)

Section Frame.
Variable R : World -> World -> Prop.
Hypothesis Rrefl : forall w, R w w.
Hypothesis Rtrans : forall w1 w2 w3, R w1 w2 -> R w2 w3 -> R w1 w3.

Lemma respects_ret {A} (a : A) : respects R (ret a).
Proof. intros w. apply Rrefl. Qed.

Lemma respects_throw {A} (e : ustring) : respects R (@throw A e).
Proof. intros w. apply Rrefl. Qed.

Lemma respects_diverge {A} : respects R (@diverge A).
Proof. intros w. exact I. Qed.

Lemma respects_bind {A B} (m : M A) (k : A -> M B) :
  respects R m -> (forall a, respects R (k a)) -> respects R (bind m k).
Proof.
  intros Hm Hk w. unfold bind. specialize (Hm w).
  destruct (m w) as [a w1|e w1|]; [|exact Hm|exact I].
  specialize (Hk a w1). destruct (k a w1); eauto.
Qed.

Lemma respects_tryCatch {A} (m : M A) (h : ustring -> M A) :
  respects R m -> (forall e, respects R (h e)) -> respects R (tryCatch m h).
Proof.
  intros Hm Hh w. unfold tryCatch. specialize (Hm w).
  destruct (m w) as [a w1|e w1|]; [exact Hm| |exact I].
  specialize (Hh e w1). destruct (h e w1); eauto.
Qed.

Lemma respects_attempt {A} (m : M A) : respects R m -> respects R (attempt m).
Proof.
  intros Hm. unfold attempt. apply respects_tryCatch.
  - apply respects_bind; [exact Hm | intros a; apply respects_ret].
  - intros e. apply respects_ret.
Qed.

Variable cv : Conversion.
Variable dryRun : bool.
Hypothesis Rlist : forall i c n, respects R (blocks_children_list i c n).
Hypothesis Rsearch : forall c n, respects R (search c n).
Hypothesis Rsay : forall r, respects R (say r).
Hypothesis Rreplace : dryRun = false -> forall p b, respects R (replaceBlock cv p b).

Lemma eachChild_respects (recur : nat -> M unit) (p : nat) :
  (forall i, respects R (recur i)) ->
  forall rs, respects R (eachChild cv recur p dryRun rs).
Proof.
  intros Hr. induction rs as [|block rs IH]; cbn [eachChild]; [apply respects_ret|].
  apply respects_bind.
  - destruct (isSource cv block && negb dryRun) eqn:E; [|apply respects_ret].
    apply andb_true_iff in E as [_ E]. apply negb_true_iff in E.
    apply respects_tryCatch; [now apply Rreplace | intros e; apply Rsay].
  - intros _. apply respects_bind; [|intros _; exact IH].
    destruct (has_children block); [apply Hr | apply respects_ret].
Qed.

Lemma childPages_respects (recur : nat -> M unit) (p : nat) :
  (forall i, respects R (recur i)) ->
  forall n cursor, respects R (childPages cv recur p dryRun n cursor).
Proof.
  intros Hr. induction n as [|n IH]; intros cursor; cbn [childPages];
    [apply respects_diverge|].
  apply respects_bind; [apply respects_attempt, Rlist|].
  intros [response|error].
  - apply respects_bind; [now apply eachChild_respects|].
    intros _. destruct (has_more response); [apply IH | apply respects_ret].
  - destruct (unsupported error); [apply respects_ret | apply respects_throw].
Qed.

Lemma processChildBlocks_respects (fuel : nat) :
  forall p parent, respects R (processChildBlocks cv fuel p parent dryRun).
Proof.
  induction fuel as [|fuel IH]; intros p parent; cbn [processChildBlocks];
    [apply respects_diverge|].
  apply respects_tryCatch.
  - apply childPages_respects. intros i. apply IH.
  - intros e. destruct (unsupported e); [apply respects_ret | apply Rsay].
Qed.

Lemma eachBlock_respects (fuel : nat) (page : Page) :
  forall rs t, respects R (eachBlock cv fuel page dryRun rs t).
Proof.
  induction rs as [|block rs IH]; intros t; cbn [eachBlock]; [apply respects_ret|].
  destruct (isSource cv block).
  - destruct dryRun eqn:D; cbn [negb]; [apply IH|].
    apply respects_bind; [apply respects_attempt; now apply Rreplace|].
    intros [u|e]; [apply IH|].
    apply respects_bind; [apply Rsay | intros _; apply IH].
  - destruct (has_children block); [|apply IH].
    apply respects_bind; [apply processChildBlocks_respects | intros _; apply IH].
Qed.

Lemma pageBlocks_respects (fuel : nat) (page : Page) :
  forall n cursor t, respects R (pageBlocks cv fuel page dryRun n cursor t).
Proof.
  induction n as [|n IH]; intros cursor t; cbn [pageBlocks]; [apply respects_diverge|].
  apply respects_bind; [apply respects_attempt, Rlist|].
  intros [response|error]; [|apply respects_ret].
  apply respects_bind; [apply eachBlock_respects|].
  intros t'. destruct (has_more response); [apply IH | apply respects_ret].
Qed.

Lemma eachPage_respects (fuel : nat) :
  forall pages processed pw t, respects R (eachPage cv fuel dryRun pages processed pw t).
Proof.
  induction pages as [|pg pages IH]; intros processed pw t; cbn [eachPage];
    [apply respects_ret|].
  apply respects_bind; [apply pageBlocks_respects|].
  intros [t' [error|]]; apply IH.
Qed.

Lemma getAllPagesFrom_respects :
  forall n cursor pages, respects R (getAllPagesFrom n cursor pages).
Proof.
  induction n as [|n IH]; intros cursor pages; cbn [getAllPagesFrom];
    [apply respects_diverge|].
  apply respects_bind; [apply Rsearch|].
  intros response. destruct (s_has_more response); [apply IH | apply respects_ret].
Qed.

Lemma convertBlocks_respects (fuel : nat) : respects R (convertBlocks cv fuel dryRun).
Proof.
  unfold convertBlocks, getAllPages.
  apply respects_bind; [apply getAllPagesFrom_respects|].
  intros pages. apply eachPage_respects.
Qed.

End Frame.

Lemma onlyReads_refl (w : World) : onlyReads w w.
Proof. repeat split. exists []. split; [now rewrite app_nil_r | reflexivity]. Qed.

Lemma onlyReads_trans (w1 w2 w3 : World) :
  onlyReads w1 w2 -> onlyReads w2 w3 -> onlyReads w1 w3.
Proof.
  intros [F1 [N1 [P1 [l1 [L1 M1]]]]] [F2 [N2 [P2 [l2 [L2 M2]]]]].
  repeat split; try congruence.
  exists (l1 ++ l2). split; [rewrite L2, L1; now rewrite app_assoc|].
  now rewrite mutations_app, M1, M2.
Qed.

Lemma request_onlyReads {A} (c : Call) (serve : M A) :
  isMutation c = false -> respects onlyReads serve ->
  respects onlyReads (request c serve).
Proof.
  intros Hc Hs w. unfold request. cbn [withLog faults].
  assert (H0 : forall fs, onlyReads w (withFaults fs (withLog (log w ++ [c]) w))).
  { intros fs. repeat split. exists [c]. split; [reflexivity|].
    unfold mutations. cbn. now rewrite Hc. }
  assert (H1 : onlyReads w (withLog (log w ++ [c]) w)).
  { repeat split. exists [c]. split; [reflexivity|].
    unfold mutations. cbn. now rewrite Hc. }
  destruct (faults w) as [|[e|] later].
  - specialize (Hs (withLog (log w ++ [c]) w)).
    destruct (serve _); eauto using onlyReads_trans.
  - apply H0.
  - specialize (Hs (withFaults later (withLog (log w ++ [c]) w))).
    destruct (serve _); eauto using onlyReads_trans.
Qed.

Lemma list_onlyReads (i : nat) (c : option nat) (n : nat) :
  respects onlyReads (blocks_children_list i c n).
Proof.
  apply request_onlyReads; [reflexivity|].
  intros w. destruct (findKids i (forest w)); [|apply onlyReads_refl].
  destruct c as [c|]; [|apply onlyReads_refl].
  destruct (fromCursor c _); apply onlyReads_refl.
Qed.

Lemma search_onlyReads (c : option nat) (n : nat) : respects onlyReads (search c n).
Proof.
  apply request_onlyReads; [reflexivity|].
  intros w. apply onlyReads_refl.
Qed.

Lemma say_onlyReads (r : Report) : respects onlyReads (say r).
Proof.
  intros w. cbn. repeat split. exists []. split; [now rewrite app_nil_r | reflexivity].
Qed.

(** A dry run writes nothing, on any provider. *)
Lemma dry_run_onlyReads (cv : Conversion) (fuel : nat) :
  respects onlyReads (convertBlocks cv fuel true).
Proof.
  apply convertBlocks_respects.
  - apply onlyReads_refl.
  - apply onlyReads_trans.
  - apply list_onlyReads.
  - apply search_onlyReads.
  - apply say_onlyReads.
  - discriminate.
Qed.

Lemma request_sameSearch {A} (c : Call) (serve : M A) :
  respects sameSearch serve -> respects sameSearch (request c serve).
Proof.
  intros Hs w. unfold request. cbn [withLog faults].
  destruct (faults w) as [|[e|] later].
  - specialize (Hs (withLog (log w ++ [c]) w)). destruct (serve _); exact Hs.
  - reflexivity.
  - specialize (Hs (withFaults later (withLog (log w ++ [c]) w))).
    destruct (serve _); exact Hs.
Qed.

Lemma run_sameSearch (cv : Conversion) (fuel : nat) (dryRun : bool) :
  respects sameSearch (convertBlocks cv fuel dryRun).
Proof.
  apply convertBlocks_respects.
  - reflexivity.
  - intros w1 w2 w3 H1 H2. unfold sameSearch in *. congruence.
  - intros i c n. apply request_sameSearch. intros w.
    destruct (findKids i (forest w)); [|reflexivity].
    destruct c as [c|]; [|reflexivity]. destruct (fromCursor c _); reflexivity.
  - intros c n. apply request_sameSearch. intros w. reflexivity.
  - intros r w. reflexivity.
  - intros _ p b. unfold replaceBlock. apply respects_bind.
    + intros w1 w2 w3 H1 H2. unfold sameSearch in *. congruence.
    + apply request_sameSearch. intros w.
      destruct (updateKids _ _ _); reflexivity.
    + intros _. apply request_sameSearch. intros w.
      destruct (findBlock _ _); reflexivity.
Qed.

(** ** A run that finds nothing to convert, on any provider *)

Section Idle.
Variable cv : Conversion.
Variable dryRun : bool.
Variable F : Forest.
Variable P : list Page.
Hypothesis NF : NoDup (ids F).

Lemma idle_ret {A} (a : A) (Q : A -> Prop) : Q a -> idle F P (ret a) Q.
Proof. intros H w HF HP. cbn. split; [apply onlyReads_refl | now split]. Qed.

Lemma idle_throw {A} (e : ustring) (Q : A -> Prop) : idle F P (@throw A e) Q.
Proof. intros w HF HP. cbn. split; [apply onlyReads_refl | exact HP]. Qed.

Lemma idle_diverge {A} (Q : A -> Prop) : idle F P (@diverge A) Q.
Proof. intros w HF HP. exact I. Qed.

Lemma idle_weaken {A} (m : M A) (Q Q' : A -> Prop) :
  (forall a, Q a -> Q' a) -> idle F P m Q -> idle F P m Q'.
Proof.
  intros H Hm w HF HP. specialize (Hm w HF HP).
  destruct (m w) as [a w1|e w1|]; auto. destruct Hm as [R1 [P1 Qa]]. auto.
Qed.

Lemma idle_bind {A B} (m : M A) (k : A -> M B) (Q : A -> Prop) (Q' : B -> Prop) :
  idle F P m Q -> (forall a, Q a -> idle F P (k a) Q') -> idle F P (bind m k) Q'.
Proof.
  intros Hm Hk w HF HP. unfold bind. specialize (Hm w HF HP).
  destruct (m w) as [a w1|e w1|]; [|exact Hm|exact I].
  destruct Hm as [R1 [P1 Qa]].
  assert (F1 : forest w1 = F) by (destruct R1 as [E _]; congruence).
  specialize (Hk a Qa w1 F1 P1).
  destruct (k a w1) as [b w2|e w2|]; [| |exact I].
  - destruct Hk as [R2 [P2 Qb]]. split; [exact (onlyReads_trans _ _ _ R1 R2) | now split].
  - destruct Hk as [R2 P2]. split; [exact (onlyReads_trans _ _ _ R1 R2) | exact P2].
Qed.

Lemma idle_tryCatch {A} (m : M A) (h : ustring -> M A) (Q : A -> Prop) :
  idle F P m Q -> (forall e, idle F P (h e) Q) -> idle F P (tryCatch m h) Q.
Proof.
  intros Hm Hh w HF HP. unfold tryCatch. specialize (Hm w HF HP).
  destruct (m w) as [a w1|e w1|]; [exact Hm| |exact I].
  destruct Hm as [R1 P1].
  assert (F1 : forest w1 = F) by (destruct R1 as [E _]; congruence).
  specialize (Hh e w1 F1 P1).
  destruct (h e w1) as [b w2|e2 w2|]; [| |exact I].
  - destruct Hh as [R2 [P2 Qb]]. split; [exact (onlyReads_trans _ _ _ R1 R2) | now split].
  - destruct Hh as [R2 P2]. split; [exact (onlyReads_trans _ _ _ R1 R2) | exact P2].
Qed.

Lemma idle_attempt {A} (m : M A) (Q : A -> Prop) :
  idle F P m Q ->
  idle F P (attempt m) (fun r => match r with inl a => Q a | inr _ => True end).
Proof.
  intros Hm. unfold attempt. apply idle_tryCatch.
  - apply (idle_bind _ _ Q); [exact Hm|]. intros a Qa. now apply idle_ret.
  - intros e. now apply idle_ret.
Qed.

Lemma idle_say (r : Report) : idle F P (say r) (fun _ => True).
Proof.
  intros w HF HP. cbn. split; [|now split].
  exact (say_onlyReads r w).
Qed.

(** A call that writes nothing, served from the forest and the search
    results alone. *)
Lemma idle_request {A} (c : Call) (serve : M A) (Q : A -> Prop) :
  isMutation c = false ->
  (forall w, forest w = F -> searchable w = P ->
     match serve w with
     | Ok a w' => w' = w /\ Q a
     | Throw _ w' => w' = w
     | Diverge => False
     end) ->
  idle F P (request c serve) Q.
Proof.
  intros Hc Hs w HF HP. unfold request. cbn [withLog faults].
  assert (H0 : forall fs, onlyReads w (withFaults fs (withLog (log w ++ [c]) w))).
  { intros fs. repeat split. exists [c]. split; [reflexivity|].
    unfold mutations. cbn. now rewrite Hc. }
  assert (H1 : onlyReads w (withLog (log w ++ [c]) w)).
  { repeat split. exists [c]. split; [reflexivity|].
    unfold mutations. cbn. now rewrite Hc. }
  destruct (faults w) as [|[e|] later].
  - specialize (Hs (withLog (log w ++ [c]) w) HF HP).
    destruct (serve _) as [a w'|e w'|]; [| |contradiction].
    + destruct Hs as [-> Qa]. split; [exact H1 | now split].
    + subst w'. split; [exact H1 | exact HP].
  - split; [apply H0 | exact HP].
  - specialize (Hs (withFaults later (withLog (log w ++ [c]) w)) HF HP).
    destruct (serve _) as [a w'|e w'|]; [| |contradiction].
    + destruct Hs as [-> Qa]. split; [apply H0 | now split].
    + subst w'. split; [apply H0 | exact HP].
Qed.

Lemma fromCursor_incl (c : nat) (l l' : list (BlockData * Forest)) :
  fromCursor c l = Some l' -> forall x, In x l' -> In x l.
Proof.
  induction l as [|n l IH]; intros H x Hx; [discriminate|].
  cbn [fromCursor] in H. destruct (Nat.eqb (id (fst n)) c).
  - now injection H as <-.
  - right. now apply IH.
Qed.

(** A listing returns children of the container, as the forest has them. *)
Lemma idle_list (i : nat) (c : option nat) (n : nat) :
  idle F P (blocks_children_list i c n) (fun r => plain F i (results r)).
Proof.
  apply idle_request; [reflexivity|].
  intros w HF HP. unfold plain, kidsOf. rewrite HF.
  destruct (findKids i F) as [kids|]; [|reflexivity].
  destruct c as [c|].
  - destruct (fromCursor c (siblings kids)) as [l|] eqn:E; [|reflexivity].
    split; [reflexivity|]. intros b Hb. unfold pageOf in Hb. cbn [results] in Hb.
    apply in_map_iff in Hb as [x [<- Hx]]. exists x. split; [|reflexivity].
    apply (fromCursor_incl c _ l E). now apply in_firstn_in in Hx.
  - split; [reflexivity|]. intros b Hb. unfold pageOf in Hb. cbn [results] in Hb.
    apply in_map_iff in Hb as [x [<- Hx]]. exists x. split; [|reflexivity].
    now apply in_firstn_in in Hx.
Qed.

Lemma idle_search (c : option nat) (n : nat) :
  idle F P (search c n) (fun r => forall pg, In pg (s_results r) -> In pg P).
Proof.
  apply idle_request; [reflexivity|].
  intros w HF HP. split; [reflexivity|]. cbn [s_results]. rewrite HP.
  intros pg Hpg. apply in_firstn_in in Hpg. now apply in_skipn_in in Hpg.
Qed.

Lemma plain_block (i : nat) (b : Block) (rs : list Block) :
  clean cv (kidsOf F i) -> plain F i (b :: rs) ->
  isSource cv b = false /\ clean cv (kidsOf F (id (data b))) /\ plain F i rs.
Proof.
  intros Hc Hp. destruct (Hp b (or_introl eq_refl)) as [x [Hx ->]].
  destruct (clean_sibling cv _ x Hc Hx) as [Ht Hk].
  split; [exact Ht|]. split; [|intros b Hb; apply Hp; now right].
  cbn [view data]. unfold kidsOf in Hx |- *.
  destruct (findKids i F) as [ks|] eqn:E; [|contradiction].
  now rewrite (findKids_child i F ks x NF E Hx).
Qed.

Lemma eachChild_idle (recur : nat -> M unit) (p : nat) :
  (forall i, clean cv (kidsOf F i) -> idle F P (recur i) (fun _ => True)) ->
  clean cv (kidsOf F p) ->
  forall rs, plain F p rs -> idle F P (eachChild cv recur p dryRun rs) (fun _ => True).
Proof.
  intros Hr Hc. induction rs as [|block rs IH]; intros Hp; cbn [eachChild];
    [now apply idle_ret|].
  destruct (plain_block p block rs Hc Hp) as [Hs [Hk Hp']].
  rewrite Hs. cbn [andb].
  apply (idle_bind _ _ (fun _ => True)); [now apply idle_ret|]. intros _ _.
  apply (idle_bind _ _ (fun _ => True)); [|intros _ _; now apply IH].
  destruct (has_children block); [now apply Hr | now apply idle_ret].
Qed.

Lemma childPages_idle (recur : nat -> M unit) (p : nat) :
  (forall i, clean cv (kidsOf F i) -> idle F P (recur i) (fun _ => True)) ->
  clean cv (kidsOf F p) ->
  forall n cursor, idle F P (childPages cv recur p dryRun n cursor) (fun _ => True).
Proof.
  intros Hr Hc. induction n as [|n IH]; intros cursor; cbn [childPages];
    [apply idle_diverge|].
  eapply idle_bind; [apply idle_attempt, idle_list|].
  intros [response|error] Hq.
  - apply (idle_bind _ _ (fun _ => True)); [now apply eachChild_idle|].
    intros _ _. destruct (has_more response); [apply IH | now apply idle_ret].
  - destruct (unsupported error); [now apply idle_ret | apply idle_throw].
Qed.

Lemma processChildBlocks_idle (fuel : nat) :
  forall p parent, clean cv (kidsOf F p) ->
    idle F P (processChildBlocks cv fuel p parent dryRun) (fun _ => True).
Proof.
  induction fuel as [|fuel IH]; intros p parent Hc; cbn [processChildBlocks];
    [apply idle_diverge|].
  apply idle_tryCatch.
  - apply childPages_idle; [|exact Hc]. intros i Hi. now apply IH.
  - intros e. destruct (unsupported e); [now apply idle_ret | apply idle_say].
Qed.

Lemma eachBlock_idle (fuel : nat) (page : Page) :
  clean cv (kidsOf F (page_id page)) ->
  forall rs t, plain F (page_id page) rs ->
    idle F P (eachBlock cv fuel page dryRun rs t) (fun t' => t' = t).
Proof.
  intros Hc. induction rs as [|block rs IH]; intros t Hp; cbn [eachBlock];
    [now apply idle_ret|].
  destruct (plain_block _ block rs Hc Hp) as [Hs [Hk Hp']].
  rewrite Hs. destruct (has_children block); [|now apply IH].
  apply (idle_bind _ _ (fun _ => True)); [now apply processChildBlocks_idle|].
  intros _ _. now apply IH.
Qed.

Lemma pageBlocks_idle (fuel : nat) (page : Page) :
  clean cv (kidsOf F (page_id page)) ->
  forall n cursor t,
    idle F P (pageBlocks cv fuel page dryRun n cursor t) (fun r => fst r = t).
Proof.
  intros Hc. induction n as [|n IH]; intros cursor t; cbn [pageBlocks];
    [apply idle_diverge|].
  eapply idle_bind; [apply idle_attempt, idle_list|].
  intros [response|error] Hq; [|now apply idle_ret].
  apply (idle_bind _ _ (fun t' => t' = t)); [now apply eachBlock_idle|].
  intros t' ->. destruct (has_more response); [apply IH | now apply idle_ret].
Qed.

Lemma eachPage_idle (fuel : nat) :
  forall pages processed pw t,
    (forall pg, In pg pages -> clean cv (kidsOf F (page_id pg))) ->
    idle F P (eachPage cv fuel dryRun pages processed pw t)
      (fun s => totalMatches s = total t /\ convertedMatches s = converted t).
Proof.
  induction pages as [|pg pages IH]; intros processed pw t Hc; cbn [eachPage];
    [now apply idle_ret|].
  apply (idle_bind _ _ (fun r => fst r = newPage t)).
  - apply pageBlocks_idle. apply Hc. now left.
  - intros [t' [error|]] Ht; cbn [fst] in Ht; subst t';
      (eapply idle_weaken;
       [|apply IH; intros q Hq; apply Hc; now right]);
      intros s Hs; exact Hs.
Qed.

Lemma getAllPagesFrom_idle :
  forall n cursor pages,
    (forall pg, In pg pages -> In pg P) ->
    idle F P (getAllPagesFrom n cursor pages) (fun l => forall pg, In pg l -> In pg P).
Proof.
  induction n as [|n IH]; intros cursor pages Hp; cbn [getAllPagesFrom];
    [apply idle_diverge|].
  eapply idle_bind; [apply idle_search|].
  intros response Hr.
  assert (H : forall pg, In pg (pages ++ s_results response) -> In pg P).
  { intros pg Hpg. apply in_app_or in Hpg as [Hpg|Hpg]; auto. }
  destruct (s_has_more response); [now apply IH | now apply idle_ret].
Qed.

Lemma convertBlocks_idle (fuel : nat) :
  (forall pg, In pg P -> clean cv (kidsOf F (page_id pg))) ->
  idle F P (convertBlocks cv fuel dryRun)
    (fun s => totalMatches s = 0 /\ convertedMatches s = 0).
Proof.
  intros Hc. unfold convertBlocks, getAllPages.
  eapply idle_bind; [apply getAllPagesFrom_idle; intros pg []|].
  intros pages Hp. apply (eachPage_idle fuel pages 0 0 noTally).
  intros pg Hpg. apply Hc, Hp, Hpg.
Qed.

End Idle.

(** ** Whole runs of the converters *)

Lemma checkboxToBullet_converts : Converts checkboxToBullet.
Proof. intros b. reflexivity. Qed.

Lemma quoteToText_converts : Converts quoteToText.
Proof. intros b. reflexivity. Qed.

Lemma scripts_convert (cv : Conversion) :
  In cv [checkboxToBullet; quoteToText] -> Converts cv.
Proof.
  intros [<-|[<-|[]]]; [apply checkboxToBullet_converts | apply quoteToText_converts].
Qed.

Lemma convertBlocks_live (cv : Conversion) (fuel : nat) (w : World) :
  Converts cv ->
  WellFormed w -> faults w = [] ->
  size (forest w) + 2 <= fuel -> List.length (searchable w) < fuel ->
  exists s w',
    convertBlocks cv fuel false w = Ok s w'
    /\ WellFormed w' /\ faults w' = []
    /\ size (forest w') <= size (forest w)
    /\ searchable w' = searchable w
    /\ (forall pg, In pg (searchable w) -> clean cv (kidsOf (forest w') (page_id pg)))
    /\ (distinctRoots (forest w) (searchable w) ->
        s = summaryOf cv (forest w) (searchable w) 0 0 noTally)
    /\ totalMatches s = convertedMatches s
    /\ Forall (fun e => e_blockId e = None) (runErrors s).
Proof.
  intros Hcv W Hf Hfuel Hpages.
  pose proof (run_sameSearch cv fuel false w) as Hsame.
  unfold convertBlocks in *. unfold bind in *.
  destruct (getAllPages_reads fuel w Hf Hpages) as [lg [E M]].
  rewrite E in *.
  destruct (eachPage_live cv Hcv fuel (searchable w) 0 0 noTally
              (withLog (log w ++ lg) w) W Hf Hfuel)
    as [s [w' [E' [W' [Hf' [Sz' [P' [C' [R' [T' X']]]]]]]]]].
  rewrite E' in *.
  exists s, w'. repeat split; auto; apply W'.
Qed.

Lemma convertBlocks_inert (cv : Conversion) (fuel : nat) (dryRun : bool) (w : World) :
  NoDup (ids (forest w)) -> faults w = [] ->
  size (forest w) + 2 <= fuel -> List.length (searchable w) < fuel ->
  (forall pg, In pg (searchable w) ->
     inert cv dryRun (kidsOf (forest w) (page_id pg))) ->
  reads (convertBlocks cv fuel dryRun)
    (summaryOf cv (forest w) (searchable w) 0 0 noTally) w.
Proof.
  intros N Hf Hfuel Hpages Hin. unfold convertBlocks.
  apply (reads_bind _ _ (searchable w)); [now apply getAllPages_reads|].
  intros lg M.
  apply (eachPage_inert cv dryRun (forest w) N fuel Hfuel); [split; auto | exact Hin].
Qed.

Lemma topMatches_clean (cv : Conversion) (F : Forest) (pages : list Page) :
  (forall pg, In pg pages -> clean cv (kidsOf F (page_id pg))) ->
  topMatches cv F pages = 0.
Proof.
  induction pages as [|pg pages IH]; intros H; [reflexivity|].
  cbn [topMatches]. rewrite IH by (intros q Hq; apply H; now right).
  specialize (H pg (or_introl eq_refl)). unfold clean in H.
  rewrite Nat.add_0_r.
  induction (kidsOf F (page_id pg)) as [|b kids IHk rest IHr]; [reflexivity|].
  cbn [noneOfType countTop] in *.
  apply andb_true_iff in H as [H Hr]. apply andb_true_iff in H as [Hb Hk].
  apply negb_true_iff in Hb. rewrite Hb. now apply IHr.
Qed.

(** ** The conversion of one block *)

(** C4. On a reliable provider, where the to-do [todo] with children
    [kids] stands among the children of [parent] between the blocks
    [before] and [after], the conversion appends then deletes, and
    returns. Afterwards the children of [parent] are [before], the new
    block, [after]: the new block stands where the to-do stood. It is a
    [bulleted_list_item], its spans are the spans of the to-do (the same
    list, so the same content in the same order), its colour is the
    colour of the to-do (['default'] where the to-do had none), and the
    identifier of the to-do resolves no more, neither as a block nor as a
    container. *)
Theorem todo_becomes_bullet (w : World) (parent : nat)
    (before after kids : Forest) (todo : BlockData) :
  WellFormed w ->
  faults w = [] ->
  findKids parent (forest w) = Some (fapp before (Sib todo kids after)) ->
  exists bullet w',
    replaceBlock checkboxToBullet parent (view (todo, kids)) w = Ok tt w'
    /\ log w' = log w ++ [CAppend parent (replacement checkboxToBullet todo) (id todo);
                          CDelete (id todo)]
    /\ findKids parent (forest w') = Some (fapp before (Sib bullet Empty after))
    /\ type bullet = "bulleted_list_item"%string
    /\ rich_text bullet = rich_text todo
    /\ color bullet = Some (colorOrDefault (color todo))
    /\ (forall c, color todo = Some c -> c <> ""%string -> color bullet = color todo)
    /\ findBlock (id todo) (forest w') = None
    /\ findKids (id todo) (forest w') = None.
Proof.
  intros W Hf Hk.
  destruct (replaceBlock_live checkboxToBullet parent w before todo kids after
              ltac:(split; [exact W | split; assumption]))
    as [w' [E [F [[W' [Hf' Hk']] [Hn [Hc [Hl Hgone]]]]]]].
  exists (createBlock (next_id w) (replacement checkboxToBullet todo)), w'.
  assert (Hid : ~ In (id todo) (ids (forest w'))) by (apply Hgone; now left).
  repeat split; auto.
  - intros c Hc' Hne. cbn. rewrite Hc'. cbn.
    destruct (String.eqb_spec c ""); [contradiction | reflexivity].
  - now apply findBlock_none.
  - now apply findKids_none.
Qed.

(** C4, witness: the to-do "Buy milk" of the sample page, between two
    paragraphs; the new block holds the one span "Buy milk". *)
Lemma todo_becomes_bullet_witness :
  exists bullet w',
    replaceBlock checkboxToBullet 1
      (view (Sample.todo 3 true ["Buy milk"%string],
             Sample.leaf (Sample.block 5 "paragraph" ["semi-skimmed"%string]) Empty))
      Sample.milkPage = Ok tt w'
    /\ findKids 1 (forest w')
       = Some (Sample.leaf (Sample.block 2 "paragraph" ["Shopping"%string])
                 (Sib bullet Empty
                    (Sample.leaf (Sample.block 4 "paragraph" ["Done"%string]) Empty)))
    /\ type bullet = "bulleted_list_item"%string
    /\ rich_text bullet = [Sample.span "Buy milk"]
    /\ color bullet = Some "blue"%string
    /\ findBlock 3 (forest w') = None.
Proof.
  destruct (todo_becomes_bullet Sample.milkPage 1
              (Sample.leaf (Sample.block 2 "paragraph" ["Shopping"%string]) Empty)
              (Sample.leaf (Sample.block 4 "paragraph" ["Done"%string]) Empty)
              (Sample.leaf (Sample.block 5 "paragraph" ["semi-skimmed"%string]) Empty)
              (Sample.todo 3 true ["Buy milk"%string]))
    as [bullet [w' [E [_ [K [T [R [C [_ [G _]]]]]]]]]].
  - split.
    + repeat constructor; cbn; intuition discriminate.
    + repeat constructor; cbn; lia.
  - reflexivity.
  - reflexivity.
  - exists bullet, w'. repeat split; assumption.
Defined.

(** The whole script on the same page: one match found, one converted,
    the bullet "Buy milk" between the two paragraphs. *)
Example buy_milk_run :
  exists s w',
    convertCheckboxesToBullets 10 false Sample.milkPage = Ok s w'
    /\ totalMatches s = 1 /\ convertedMatches s = 1 /\ runErrors s = []
    /\ map (fun n => (id (fst n), type (fst n), rich_text (fst n)))
         (siblings (kidsOf (forest w') 1))
       = [(2, "paragraph"%string, [Sample.span "Shopping"]);
          (1000, "bulleted_list_item"%string, [Sample.span "Buy milk"]);
          (4, "paragraph"%string, [Sample.span "Done"])]
    /\ findBlock 3 (forest w') = None.
Proof.
  eexists. eexists. split; [vm_compute; reflexivity|]. repeat split.
Qed.

(** ** What a conversion drops *)

Lemma replacement_has_no_checked_state (cv : Conversion) (i : nat) (b : BlockData) :
  checked (createBlock i (replacement cv b)) = None.
Proof. reflexivity. Qed.

Lemma children_of_a_converted_block_are_dropped (cv : Conversion) (w : World)
    (parent : nat) (before after kids : Forest) (b : BlockData) :
  WellFormed w -> faults w = [] ->
  findKids parent (forest w) = Some (fapp before (Sib b kids after)) ->
  exists w',
    replaceBlock cv parent (view (b, kids)) w = Ok tt w'
    /\ findKids (next_id w) (forest w') = Some Empty
    /\ (forall j, In j (ids kids) -> findBlock j (forest w') = None).
Proof.
  intros W Hf Hk.
  destruct (replaceBlock_live cv parent w before b kids after
              ltac:(split; [exact W | split; assumption]))
    as [w' [E [F [[W' [Hf' Hk']] [Hn [Hc [Hl Hgone]]]]]]].
  exists w'. split; [exact E|]. split.
  - apply (findKids_child parent (forest w') _
             (createBlock (next_id w) (replacement cv b), Empty) (proj1 W') Hk').
    rewrite siblings_fapp. apply in_or_app. right. now left.
  - intros j Hj. apply findBlock_none. apply Hgone. now right.
Qed.

Lemma request_listsNothing {A} (c : Call) (serve : M A) :
  listed [c] = [] ->
  (forall w, match serve w with
             | Ok _ w' | Throw _ w' => log w' = log w
             | Diverge => True
             end) ->
  respects listsNothing (request c serve).
Proof.
  intros Hc Hs w. unfold request. cbn [faults withLog].
  destruct (faults w) as [|[m|] later].
  - specialize (Hs (withLog (log w ++ [c]) w)).
    destruct (serve _) as [a w'|e w'|]; auto; exists [c]; split; auto.
  - exists [c]. split; auto.
  - specialize (Hs (withFaults later (withLog (log w ++ [c]) w))).
    destruct (serve _) as [a w'|e w'|]; auto; exists [c]; split; auto.
Qed.

Lemma listsNothing_trans (w1 w2 w3 : World) :
  listsNothing w1 w2 -> listsNothing w2 w3 -> listsNothing w1 w3.
Proof.
  intros [c1 [E1 L1]] [c2 [E2 L2]]. exists (c1 ++ c2). split.
  - now rewrite E2, E1, app_assoc.
  - clear -L1 L2. induction c1 as [|c c1 IH]; [exact L2|].
    cbn [app listed] in *. destruct c; try discriminate; auto.
Qed.

Lemma replaceBlock_listsNothing (cv : Conversion) (p : nat) (block : Block) :
  respects listsNothing (replaceBlock cv p block).
Proof.
  intros w. unfold replaceBlock, bind.
  pose proof (request_listsNothing
                (CAppend p (replacement cv (data block)) (id (data block)))
                (fun w =>
                   match updateKids p
                           (insertAfter (id (data block))
                              (createBlock (next_id w) (replacement cv (data block))))
                           (forest w) with
                   | None => Throw (ustr "validation_error: append") w
                   | Some f => Ok tt (withNextId (S (next_id w)) (withForest f w))
                   end) eq_refl) as H1.
  unfold blocks_children_append at 1.
  match type of H1 with ?P -> _ => assert (HP : P) end.
  { intros v. destruct (updateKids _ _ _); reflexivity. }
  specialize (H1 HP w).
  destruct (request _ _ w) as [[] w1|e w1|]; auto.
  pose proof (request_listsNothing (CDelete (id (data block)))
                (fun w =>
                   match findBlock (id (data block)) (forest w) with
                   | None => Throw (ustr "object_not_found") w
                   | Some _ => Ok tt (withForest (remove (id (data block)) (forest w)) w)
                   end) eq_refl) as H2.
  match type of H2 with ?P -> _ => assert (HQ : P) end.
  { intros v. destruct (findBlock _ _); reflexivity. }
  specialize (H2 HQ w1). unfold blocks_delete.
  destruct (request _ _ w1) as [[] w2|e w2|]; auto;
    now apply (listsNothing_trans w w1 w2).
Qed.

(** At the top of a page the children of a matching block are not
    listed, whatever the provider answers. *)
Lemma eachBlock_match_lists_nothing (cv : Conversion) (fuel : nat) (page : Page)
    (dryRun : bool) (block : Block) (t : Tally) :
  isSource cv block = true ->
  respects listsNothing (eachBlock cv fuel page dryRun [block] t).
Proof.
  intros Hs w. cbn [eachBlock]. rewrite Hs.
  destruct dryRun; cbn [negb].
  - exists []. split; [now rewrite app_nil_r | reflexivity].
  - unfold bind at 1. unfold attempt, tryCatch. unfold bind at 1.
    pose proof (replaceBlock_listsNothing cv (page_id page) block w) as H.
    destruct (replaceBlock _ _ _ w) as [[] w1|e w1|]; auto.
Qed.

(** C9. The code at the failing input: the page 1 holding a toggle 2
    that holds the to-do 3 with a child paragraph 4. The
    live run replaces the to-do by a bullet with no checked state and no
    children, and the paragraph 4 is gone; but after deleting the to-do
    the nested walk lists its children (the call [CList 3] after
    [CDelete 3]), which fails and is reported as an error processing
    child blocks. The dry run lists the children of the to-do as well. At
    the top of a page (the to-do 3 of the other sample page, with its
    child 5) the children of the to-do are deleted with it and never
    listed. *)
Theorem nested_match_has_its_children_listed :
  exists s w' sd wd st wt,
    convertCheckboxesToBullets 10 false Sample.nestedTodoPage = Ok s w'
    /\ findKids 2 (forest w')
       = Some (Sib {| id := 1000; type := "bulleted_list_item";
                      rich_text := [Sample.span "call back"];
                      color := Some "blue"%string; checked := None;
                      language := None; cells := [] |} Empty Empty)
    /\ findBlock 4 (forest w') = None
    /\ log w'
       = [CSearch None 100; CList 1 None 100; CList 2 None 100;
          CAppend 2 (replacement checkboxToBullet (Sample.todo 3 false ["call back"%string])) 3;
          CDelete 3; CList 3 None 100]
    /\ console w' = [ErrorProcessingChildBlocks (ustr "object_not_found")]
    /\ convertCheckboxesToBullets 10 true Sample.nestedTodoPage = Ok sd wd
    /\ listed (log wd) = [1; 2; 3]
    /\ convertCheckboxesToBullets 10 false Sample.milkPage = Ok st wt
    /\ log wt
       = [CSearch None 100; CList 1 None 100;
          CAppend 1 (replacement checkboxToBullet (Sample.todo 3 true ["Buy milk"%string])) 3;
          CDelete 3]
    /\ findBlock 5 (forest wt) = None.
Proof.
  eexists. eexists. eexists. eexists. eexists. eexists.
  split; [vm_compute; reflexivity|].
  split; [reflexivity|]. split; [reflexivity|]. split; [reflexivity|].
  split; [reflexivity|].
  split; [vm_compute; reflexivity|]. split; [reflexivity|].
  split; [vm_compute; reflexivity|]. split; reflexivity.
Qed.


(** ** Running twice *)

(** C3, counterexample. On the two pages of the sample, with a provider
    whose fifth call fails (the listing of the children of the toggle 4),
    the first run of the checkbox converter completes with every
    conversion it attempted successful: two matches, two conversions, no
    error in its summary, the failed listing being only printed. The
    to-do 5 under the toggle is still there, and the second run, on a
    provider that answers every call, converts it: it appends a bullet
    and deletes the to-do. *)
Lemma second_run_converts_after_failed_listing :
  exists first w1 second w2,
    convertCheckboxesToBullets 10 false
      (withFaults [None; None; None; None; Some (ustr "timeout")] Sample.twoPages)
    = Ok first w1
    /\ totalMatches first = 2 /\ convertedMatches first = 2 /\ runErrors first = []
    /\ findBlock 5 (forest w1) = Some (Sample.todo 5 true ["four"%string])
    /\ faults w1 = []
    /\ convertCheckboxesToBullets 10 false w1 = Ok second w2
    /\ mutations (skipn (List.length (log w1)) (log w2))
       = [CAppend 4 (replacement checkboxToBullet (Sample.todo 5 true ["four"%string])) 5;
          CDelete 5]
    /\ findBlock 5 (forest w2) = None
    /\ forest w2 <> forest w1.
Proof.
  eexists. eexists. eexists. eexists.
  split; [vm_compute; reflexivity|].
  split; [reflexivity|]. split; [reflexivity|]. split; [reflexivity|].
  split; [reflexivity|]. split; [reflexivity|].
  split; [vm_compute; reflexivity|].
  split; [reflexivity|]. split; [reflexivity|].
  intros H. apply (f_equal (findBlock 5)) in H. vm_compute in H. discriminate H.
Qed.

(** C3, amended. For either converter, on a well-formed workspace and a
    provider that answers every call of the first run, with enough fuel:
    the first live run returns, every match it counted was converted and
    no conversion is among its errors, and afterwards no block of the
    source type remains at any depth under any page of the search; the
    second live run, started in the state the first one left, returns
    too, issues no append, update or delete call, leaves the workspace as
    it found it and reports zero matches and zero conversions. From that
    workspace a run writes nothing and counts nothing whatever the
    provider answers. *)
Theorem second_run_converts_nothing (cv : Conversion) (w : World) (fuel : nat) :
  In cv [checkboxToBullet; quoteToText] ->
  WellFormed w ->
  faults w = [] ->
  size (forest w) + 2 <= fuel ->
  List.length (searchable w) < fuel ->
  exists first w1 second calls,
    convertBlocks cv fuel false w = Ok first w1
    /\ convertedMatches first = totalMatches first
    /\ Forall (fun e => e_blockId e = None) (runErrors first)
    /\ (forall pg, In pg (searchable w) ->
          noneOfType (source_type cv) (kidsOf (forest w1) (page_id pg)) = true)
    /\ convertBlocks cv fuel false w1 = Ok second (withLog (log w1 ++ calls) w1)
    /\ mutations calls = []
    /\ totalMatches second = 0
    /\ convertedMatches second = 0
    /\ (forall fuel',
          idle (forest w1) (searchable w1) (convertBlocks cv fuel' false)
            (fun s => totalMatches s = 0 /\ convertedMatches s = 0)).
Proof.
  intros Hin W Hf Hfuel Hpages.
  pose proof (scripts_convert cv Hin) as Hcv.
  destruct (convertBlocks_live cv fuel w Hcv W Hf Hfuel Hpages)
    as [s1 [w1 [E1 [W1 [Hf1 [Sz1 [S1 [C1 [_ [T1 X1]]]]]]]]]].
  assert (C2 : forall pg, In pg (searchable w1) ->
            clean cv (kidsOf (forest w1) (page_id pg))).
  { intros pg Hpg. apply C1. now rewrite <- S1. }
  destruct (convertBlocks_inert cv fuel false w1 (proj1 W1) Hf1
              ltac:(lia) ltac:(rewrite S1; exact Hpages)
              ltac:(intros pg Hpg; right; now apply C2)) as [calls [E2 M2]].
  exists s1, w1, (summaryOf cv (forest w1) (searchable w1) 0 0 noTally), calls.
  destruct (summaryOf_counts cv (forest w1) (searchable w1) 0 0 noTally)
    as [_ [Ht Hc]].
  rewrite Ht, Hc, (topMatches_clean cv _ _ C2).
  repeat split; auto.
  intros fuel'. now apply convertBlocks_idle; [apply W1|].
Qed.

(** C3, witness: the checkbox converter on the two pages of the sample,
    which hold to-dos at the top and under a toggle. *)
Lemma second_run_converts_nothing_witness :
  exists first w1 second calls,
    convertCheckboxesToBullets 20 false Sample.twoPages = Ok first w1
    /\ convertedMatches first = totalMatches first
    /\ (forall pg, In pg (searchable Sample.twoPages) ->
          noneOfType "to_do" (kidsOf (forest w1) (page_id pg)) = true)
    /\ convertCheckboxesToBullets 20 false w1 = Ok second (withLog (log w1 ++ calls) w1)
    /\ mutations calls = []
    /\ totalMatches second = 0
    /\ convertedMatches second = 0.
Proof.
  destruct (second_run_converts_nothing checkboxToBullet Sample.twoPages 20)
    as [first [w1 [second [calls [E1 [T1 [_ [C1 [E2 [M2 [T2 [V2 _]]]]]]]]]]]].
  - left. reflexivity.
  - split.
    + repeat constructor; cbn; intuition discriminate.
    + repeat constructor; cbn; lia.
  - reflexivity.
  - cbn. lia.
  - cbn. lia.
  - exists first, w1, second, calls. repeat split; assumption.
Defined.

(** ** Dry runs *)

(** C6. A dry run of either converter issues no append, update or
    delete call and leaves the workspace as it was, whatever the provider
    answers; but its count does not preview the live run. The page 1
    holds the sub-page 2, which holds the to-do 3 with descendants 4 and
    5, and the search returns both pages. The dry run reports one match
    and one conversion to come, counted at the top of page 2; the live
    run that follows converts the to-do (it appends the bullet and
    deletes the to-do 3) while it walks the children of page 1, in
    [processChildBlocks], which counts nothing; it then finds page 2
    without a to-do and reports zero matches and zero conversions. The
    traversals differ as well: the dry run lists the children of block
    4, the live run does not, the listing of the deleted to-do having
    failed. *)
Theorem dry_run_overcounts_sub_pages :
  (forall cv fuel, respects onlyReads (convertBlocks cv fuel true))
  /\ exists dry wd live wl,
    convertCheckboxesToBullets 10 true Sample.subPageWorld = Ok dry wd
    /\ forest wd = forest Sample.subPageWorld
    /\ mutations (log wd) = []
    /\ convertCheckboxesToBullets 10 false wd = Ok live wl
    /\ totalMatches dry = 1 /\ convertedMatches dry = 1
    /\ totalMatches live = 0 /\ convertedMatches live = 0 /\ runErrors live = []
    /\ mutations (skipn (List.length (log wd)) (log wl))
       = [CAppend 2 (replacement checkboxToBullet
                       (Sample.todo 3 false ["renew passport"%string])) 3;
          CDelete 3]
    /\ findBlock 3 (forest wl) = None
    /\ listed (log wd) = [1; 2; 3; 4; 2]
    /\ listed (skipn (List.length (log wd)) (log wl)) = [1; 2; 3; 2].
Proof.
  split; [intros cv fuel; apply dry_run_onlyReads|].
  eexists. eexists. eexists. eexists.
  split; [vm_compute; reflexivity|].
  split; [reflexivity|]. split; [reflexivity|].
  split; [vm_compute; reflexivity|].
  repeat split.
Qed.

(** Where the count is kept: for either converter, on a well-formed
    workspace and a reliable provider, when the pages of the search are
    distinct top-level containers (none lies inside another), with
    enough fuel, the dry run returns, the live run that follows returns,
    and the two summaries are equal; both count the blocks of the source
    type at the top of the pages only. *)
Lemma dry_run_previews_live_run (cv : Conversion) (w : World) (fuel : nat) :
  In cv [checkboxToBullet; quoteToText] ->
  WellFormed w ->
  faults w = [] ->
  distinctRoots (forest w) (searchable w) ->
  size (forest w) + 2 <= fuel ->
  List.length (searchable w) < fuel ->
  respects onlyReads (convertBlocks cv fuel true)
  /\ exists dry calls live w',
       convertBlocks cv fuel true w = Ok dry (withLog (log w ++ calls) w)
       /\ mutations calls = []
       /\ convertBlocks cv fuel false (withLog (log w ++ calls) w) = Ok live w'
       /\ dry = live
       /\ totalMatches dry = convertedMatches live
       /\ convertedMatches dry = convertedMatches live
       /\ convertedMatches live = topMatches cv (forest w) (searchable w).
Proof.
  intros Hin W Hf Hroots Hfuel Hpages.
  split; [apply dry_run_onlyReads|].
  pose proof (scripts_convert cv Hin) as Hcv.
  destruct (convertBlocks_inert cv fuel true w (proj1 W) Hf Hfuel Hpages
              ltac:(intros pg _; now left)) as [calls [Ed Md]].
  destruct (convertBlocks_live cv fuel (withLog (log w ++ calls) w) Hcv W Hf Hfuel Hpages)
    as [live [w' [El [_ [_ [_ [_ [_ [Rl [Tl _]]]]]]]]]].
  specialize (Rl Hroots). cbn [forest searchable withLog] in Rl.
  exists (summaryOf cv (forest w) (searchable w) 0 0 noTally), calls, live, w'.
  destruct (summaryOf_counts cv (forest w) (searchable w) 0 0 noTally)
    as [_ [Ht Hc]].
  rewrite <- Rl in *.
  repeat split; auto; cbn in *; lia.
Qed.

(** The checkbox converter on the two pages of the sample: both runs
    report two conversions. *)
Lemma dry_run_previews_live_run_witness :
  exists dry calls live w',
    convertCheckboxesToBullets 20 true Sample.twoPages
    = Ok dry (withLog (log Sample.twoPages ++ calls) Sample.twoPages)
    /\ mutations calls = []
    /\ convertCheckboxesToBullets 20 false
         (withLog (log Sample.twoPages ++ calls) Sample.twoPages) = Ok live w'
    /\ dry = live
    /\ convertedMatches live = 2.
Proof.
  destruct (dry_run_previews_live_run checkboxToBullet Sample.twoPages 20)
    as [_ [dry [calls [live [w' [Ed [Md [El [Eq [_ [_ Ec]]]]]]]]]]].
  - left. reflexivity.
  - split.
    + repeat constructor; cbn; intuition discriminate.
    + repeat constructor; cbn; lia.
  - reflexivity.
  - split.
    + repeat constructor; cbn; intuition discriminate.
    + intros pg [<-|[<-|[]]]; cbn; auto.
  - cbn. lia.
  - cbn. lia.
  - exists dry, calls, live, w'. repeat split; assumption.
Defined.

End ConverterProofs.

(* ================================================================== *)
(** * Part III. Further properties                                    *)
(* ================================================================== *)

Import Triple Counters Shape.

(** ** Steps that keep a property of the state *)

Section Triples.
Local Open Scope nat_scope.
Variable I : World -> Prop.

Lemma hoare_ret {A} (a : A) (Q : A -> Prop) : Q a -> hoare I (ret a) Q.
Proof. intros H w Hw. cbn. now split. Qed.

Lemma hoare_throw {A} (e : ustring) (Q : A -> Prop) : hoare I (@throw A e) Q.
Proof. intros w Hw. exact Hw. Qed.

Lemma hoare_diverge {A} (Q : A -> Prop) : hoare I (@diverge A) Q.
Proof. intros w Hw. exact Logic.I. Qed.

Lemma hoare_weaken {A} (m : M A) (Q Q' : A -> Prop) :
  (forall a, Q a -> Q' a) -> hoare I m Q -> hoare I m Q'.
Proof.
  intros H Hm w Hw. specialize (Hm w Hw).
  destruct (m w) as [a w1|e w1|]; auto. destruct Hm; auto.
Qed.

Lemma hoare_bind {A B} (m : M A) (k : A -> M B) (Q : A -> Prop) (Q' : B -> Prop) :
  hoare I m Q -> (forall a, Q a -> hoare I (k a) Q') -> hoare I (bind m k) Q'.
Proof.
  intros Hm Hk w Hw. unfold bind. specialize (Hm w Hw).
  destruct (m w) as [a w1|e w1|]; [|exact Hm|exact Logic.I].
  destruct Hm as [I1 Qa]. exact (Hk a Qa w1 I1).
Qed.

Lemma hoare_tryCatch {A} (m : M A) (h : ustring -> M A) (Q : A -> Prop) :
  hoare I m Q -> (forall e, hoare I (h e) Q) -> hoare I (tryCatch m h) Q.
Proof.
  intros Hm Hh w Hw. unfold tryCatch. specialize (Hm w Hw).
  destruct (m w) as [a w1|e w1|]; [exact Hm| |exact Logic.I].
  exact (Hh e w1 Hm).
Qed.

Lemma hoare_attempt {A} (m : M A) (Q : A -> Prop) :
  hoare I m Q ->
  hoare I (attempt m) (fun r => match r with inl a => Q a | inr _ => True end).
Proof.
  intros Hm. unfold attempt. apply hoare_tryCatch.
  - apply (hoare_bind _ _ Q); [exact Hm|]. intros a Qa. now apply hoare_ret.
  - intros e. now apply hoare_ret.
Qed.

Hypothesis Idurable : durable I.

Lemma durable_log (w : World) (l : list Call) : I w -> I (withLog l w).
Proof.
  intros H. specialize (Idurable w l (faults w) (console w) H).
  destruct w; exact Idurable.
Qed.

Lemma durable_faults (w : World) (fs : list (option ustring)) : I w -> I (withFaults fs w).
Proof.
  intros H. specialize (Idurable w (log w) fs (console w) H).
  destruct w; exact Idurable.
Qed.

Lemma hoare_say (r : Report) : hoare I (say r) (fun _ => True).
Proof.
  intros w Hw. cbn. split; [|exact Logic.I].
  specialize (Idurable w (log w) (faults w) (console w ++ [r]) Hw).
  destruct w; exact Idurable.
Qed.

Lemma hoare_pause (ms : Z) : hoare I (pause ms) (fun _ => True).
Proof. intros w Hw. cbn. split; [now apply durable_log | exact Logic.I]. Qed.

(** A request is served from a state that satisfies [I]. *)
Lemma hoare_request {A} (c : Call) (serve : M A) (Q : A -> Prop) :
  hoare I serve Q -> hoare I (request c serve) Q.
Proof.
  intros Hs w Hw. unfold request. cbn [withLog faults].
  destruct (faults w) as [|[e|] later].
  - apply Hs. now apply durable_log.
  - now apply durable_faults, durable_log.
  - apply Hs. now apply durable_faults, durable_log.
Qed.

End Triples.

Lemma anyState_durable : durable anyState.
Proof. intros w l fs c _. exact I. Qed.

Lemma hoare_any {A} (m : M A) : hoare anyState m (fun _ => True).
Proof. intros w _. destruct (m w); repeat split. Qed.

(** ** Chunks fit the limit *)

Section ChunkLimits.
Import JS Chunking Notion.

Lemma dropWhile_fix (f : N -> bool) (s : ustring) :
  Extractor.headIs f s = false -> dropWhile f s = s.
Proof. destruct s as [|c s]; cbn; [reflexivity|]. now intros ->. Qed.

Lemma len_dropWhile (f : N -> bool) (s : ustring) : len (dropWhile f s) <= len s.
Proof.
  destruct (dropWhile_suffix f s) as [w [E _]].
  rewrite E at 2. rewrite len_app. pose proof (len_nonneg w). lia.
Qed.

Lemma len_rev (s : ustring) : len (rev s) = len s.
Proof. unfold len. now rewrite length_rev. Qed.

Lemma len_trim (s : ustring) : len (trim s) <= len s.
Proof.
  unfold trim, trimEnd, trimStart. rewrite len_rev.
  pose proof (len_dropWhile isWhiteSpace (rev (dropWhile isWhiteSpace s))).
  pose proof (len_dropWhile isWhiteSpace s).
  rewrite len_rev in H. lia.
Qed.

(** Trimming what is already trimmed changes nothing. *)
Lemma trim_trim (s : ustring) : trim (trim s) = trim s.
Proof.
  unfold trim, trimEnd, trimStart.
  set (t := dropWhile isWhiteSpace s).
  assert (Ht : Extractor.headIs isWhiteSpace t = false) by apply dropWhile_head.
  destruct (dropWhile_suffix isWhiteSpace (rev t)) as [w [E F]].
  set (v := dropWhile isWhiteSpace (rev t)) in *.
  assert (Hv : Extractor.headIs isWhiteSpace (rev v) = false).
  { assert (Et : t = rev v ++ rev w).
    { rewrite <- (rev_involutive t), E. apply rev_app_distr. }
    destruct (rev v) as [|c u]; [reflexivity|].
    rewrite Et in Ht. exact Ht. }
  rewrite (dropWhile_fix isWhiteSpace (rev v) Hv).
  rewrite rev_involutive.
  rewrite (dropWhile_fix isWhiteSpace v); [reflexivity|].
  apply dropWhile_head.
Qed.

Lemma len_substring (s : ustring) (a b : Z) :
  0 <= a <= b -> b <= len s -> len (substring s a b) = b - a.
Proof.
  intros Ha Hb. rewrite substring_ordered by assumption.
  unfold len in *. rewrite length_firstn, length_skipn. lia.
Qed.

Lemma chooseChunkEnd_upper (text : ustring) (maxLength pos : Z) :
  1 <= maxLength -> 0 <= pos < len text ->
  chooseChunkEnd text maxLength pos <= pos + maxLength.
Proof.
  intros Hm Hp. unfold chooseChunkEnd.
  set (e0 := Z.min (pos + maxLength) (len text)).
  assert (He0 : pos < e0 <= pos + maxLength) by (unfold e0; lia).
  destruct (e0 <? len text); [|lia].
  set (s1 := Z.max pos (e0 - 1000)).
  pose proof (findSentenceEnd_range sentenceFollowers (scanCount e0 s1)
                text (e0 - 1) (-1)) as R1.
  cbv zeta in R1.
  set (b1 := findSentenceEnd sentenceFollowers (scanCount e0 s1) text (e0 - 1) (-1)) in *.
  destruct (Z.gtb_spec b1 pos) as [G1|G1]; [lia|].
  set (s2 := Z.max pos (e0 - 2000)).
  pose proof (findSentenceEnd_range sentenceFollowers (scanCount e0 s2)
                text (e0 - 1) b1) as R2.
  cbv zeta in R2.
  set (b2 := findSentenceEnd sentenceFollowers (scanCount e0 s2) text (e0 - 1) b1) in *.
  destruct (Z.gtb_spec b2 pos) as [G2|G2]; [lia|].
  pose proof (lastIndexOf_le text [32%N] e0 ltac:(lia)).
  destruct (Z.gtb_spec (lastIndexOf text [32%N] e0) pos); lia.
Qed.

Lemma workflowChunkEnd_upper (text : ustring) (maxLength pos : Z) :
  1 <= maxLength -> 0 <= pos < len text ->
  workflowChunkEnd text maxLength pos <= pos + maxLength.
Proof.
  intros Hm Hp. unfold workflowChunkEnd.
  set (e0 := Z.min (pos + maxLength) (len text)).
  assert (He0 : pos < e0 <= pos + maxLength) by (unfold e0; lia).
  destruct (e0 <? len text); [|lia].
  set (s1 := Z.max pos (e0 - 1000)).
  pose proof (findSentenceEnd_range workflowFollowers (scanCount e0 s1)
                text (e0 - 1) (-1)) as R1.
  cbv zeta in R1.
  set (b1 := findSentenceEnd workflowFollowers (scanCount e0 s1) text (e0 - 1) (-1)) in *.
  destruct (Z.gtb_spec b1 pos) as [G1|G1]; [lia|].
  pose proof (lastIndexOf_le text [10%N; 10%N] e0 ltac:(lia)).
  destruct (Z.gtb_spec (lastIndexOf text [10%N; 10%N] e0) pos); [lia|].
  pose proof (lastIndexOf_le text [32%N] e0 ltac:(lia)).
  destruct (Z.gtb_spec (lastIndexOf text [32%N] e0) pos); lia.
Qed.

Lemma pushChunk_fits (maxLength : Z) (chunks : list ustring) (text : ustring) (pos e : Z) :
  Forall (fits maxLength) chunks ->
  0 <= pos -> pos < e <= len text -> e <= pos + maxLength ->
  Forall (fits maxLength) (pushChunk chunks (trim (substring text pos e))).
Proof.
  intros Hc Hp He Hu. unfold pushChunk.
  destruct (trim (substring text pos e)) as [|c u] eqn:E; [exact Hc|].
  cbn [truthy]. apply Forall_app. split; [exact Hc|].
  constructor; [|constructor]. rewrite <- E. split; [|split].
  - rewrite E. discriminate.
  - apply trim_trim.
  - pose proof (len_trim (substring text pos e)).
    rewrite len_substring in H by lia. lia.
Qed.

Lemma splitLoop_fits (text : ustring) (maxLength : Z) :
  1 <= maxLength ->
  forall (fuel : nat) (pos : Z) (chunks out : list ustring),
    0 <= pos <= len text ->
    Forall (fits maxLength) chunks ->
    splitLoop fuel text maxLength pos chunks = Some out ->
    Forall (fits maxLength) out.
Proof.
  intros Hm. induction fuel as [|fuel IH]; intros pos chunks out Hp Hc; simpl.
  - destruct (pos <? len text); [discriminate | now intros [= <-]].
  - destruct (Z.ltb_spec pos (len text)) as [L|L]; [|now intros [= <-]].
    pose proof (chooseChunkEnd_range text maxLength pos Hm ltac:(lia)) as He.
    pose proof (chooseChunkEnd_upper text maxLength pos Hm ltac:(lia)) as Hu.
    destruct (skipSeparators_spec sentenceFollowers text
                (chooseChunkEnd text maxLength pos) eq_refl ltac:(lia)) as [Hr _].
    apply IH; [lia|]. apply pushChunk_fits; auto; lia.
Qed.

Lemma workflowLoop_fits (text : ustring) (maxLength : Z) :
  1 <= maxLength ->
  forall (fuel : nat) (pos : Z) (chunks out : list ustring),
    0 <= pos <= len text ->
    Forall (fits maxLength) chunks ->
    workflowLoop fuel text maxLength pos chunks = Some out ->
    Forall (fits maxLength) out.
Proof.
  intros Hm. induction fuel as [|fuel IH]; intros pos chunks out Hp Hc; simpl.
  - destruct (pos <? len text); [discriminate | now intros [= <-]].
  - destruct (Z.ltb_spec pos (len text)) as [L|L]; [|now intros [= <-]].
    pose proof (workflowChunkEnd_range text maxLength pos Hm ltac:(lia)) as He.
    pose proof (workflowChunkEnd_upper text maxLength pos Hm ltac:(lia)) as Hu.
    destruct (skipSeparators_spec workflowFollowers text
                (workflowChunkEnd text maxLength pos) eq_refl ltac:(lia)) as [Hr _].
    apply IH; [lia|]. apply pushChunk_fits; auto; lia.
Qed.

(** X1. For every text and every maximum length of at least one, both
    sentence-boundary splitters return, and no chunk is longer than the
    maximum; when the text is longer than the maximum every chunk is
    non-empty and trimmed. *)
Theorem chunks_fit_the_limit (text : ustring) (maxLength : Z) (fuel : nat) :
  1 <= maxLength ->
  (List.length text <= fuel)%nat ->
  exists chunks workflowChunks,
    splitTextIntoChunks fuel text maxLength = Some chunks
    /\ workflowSplitTextIntoChunks fuel text maxLength = Some workflowChunks
    /\ Forall (fun chunk => len chunk <= maxLength) (chunks ++ workflowChunks)
    /\ (maxLength < len text ->
        Forall (fun chunk => chunk <> [] /\ trim chunk = chunk)
          (chunks ++ workflowChunks)).
Proof.
  intros Hm Hf.
  unfold splitTextIntoChunks, workflowSplitTextIntoChunks.
  destruct (Z.leb_spec (len text) maxLength) as [L|L].
  - exists [text], [text]. split; [reflexivity|]. split; [reflexivity|].
    split; [|lia]. repeat constructor; exact L.
  - destruct (splitLoop_visible text maxLength Hm fuel 0 []
                ltac:(lia) ltac:(unfold len; lia)) as [chunks [E1 _]].
    destruct (workflowLoop_visible text maxLength Hm fuel 0 []
                ltac:(lia) ltac:(unfold len; lia)) as [wchunks [E2 _]].
    exists chunks, wchunks. split; [exact E1|]. split; [exact E2|].
    pose proof (splitLoop_fits text maxLength Hm fuel 0 [] chunks
                  ltac:(pose proof (len_nonneg text); lia) ltac:(constructor) E1) as F1.
    pose proof (workflowLoop_fits text maxLength Hm fuel 0 [] wchunks
                  ltac:(pose proof (len_nonneg text); lia) ltac:(constructor) E2) as F2.
    pose proof (proj2 (Forall_app _ _ _) (conj F1 F2)) as F.
    split; [|intros _]; eapply Forall_impl; [|exact F| |exact F];
      intros c [A [B C]]; auto.
Qed.

(** X1, witness: the text ["aaa bbb"] with a maximum of 4. *)
Lemma chunks_fit_the_limit_witness :
  exists chunks workflowChunks,
    splitTextIntoChunks 7 (ustr "aaa bbb") 4 = Some chunks
    /\ workflowSplitTextIntoChunks 7 (ustr "aaa bbb") 4 = Some workflowChunks
    /\ Forall (fun chunk => len chunk <= 4) (chunks ++ workflowChunks)
    /\ (4 < len (ustr "aaa bbb") ->
        Forall (fun chunk => chunk <> [] /\ trim chunk = chunk)
          (chunks ++ workflowChunks)).
Proof.
  apply (chunks_fit_the_limit (ustr "aaa bbb") 4 7); [lia | simpl; lia].
Defined.

End ChunkLimits.

(** ** The writers of a page property *)

Section FieldWriters.
Import JS Chunking Notion Writer TextProcessor ContentWriter.

Lemma sliceLoop_pieces (s : ustring) (size : Z) :
  1 <= size ->
  forall (fuel : nat) (i : Z) (acc out : list ustring),
    0 <= i ->
    Forall (fun piece => 0 < len piece <= size) acc ->
    sliceLoop fuel s size i acc = Some out ->
    Forall (fun piece => 0 < len piece <= size) out.
Proof.
  intros Hs. induction fuel as [|fuel IH]; intros i acc out Hi Ha; simpl.
  - destruct (i <? len s); [discriminate | now intros [= <-]].
  - destruct (Z.ltb_spec i (len s)) as [L|L]; [|now intros [= <-]].
    apply IH; [lia|]. apply Forall_app. split; [exact Ha|].
    constructor; [|constructor].
    rewrite len_substring by lia. lia.
Qed.

Lemma slices_pieces (s : ustring) (size : Z) :
  1 <= size -> Forall (fun piece => 0 < len piece <= size) (slices s size).
Proof.
  intros Hs. unfold slices.
  destruct (sliceLoop (List.length s) s size 0 []) as [out|] eqn:E; [|constructor].
  apply (sliceLoop_pieces s size Hs _ 0 [] out ltac:(lia) ltac:(constructor) E).
Qed.


Lemma textChunks_content (s : ustring) (maxLength : Z) :
  1 <= maxLength ->
  concat (map contentOf (textChunks s maxLength)) = s
  /\ Forall (fun span => 0 < len (contentOf span) <= maxLength)
       (textChunks s maxLength).
Proof.
  intros H. unfold textChunks. split.
  - rewrite contentOf_textSpan. now apply sliceLoop_total.
  - apply Forall_map. cbn [contentOf textSpan text content]. now apply slices_pieces.
Qed.

Lemma updateField_spec (field : string) (pageId : nat) (content : ustring) (w : World) :
  exists (stored : bool) (w' : World),
    updateField field pageId content w = Ok stored w'
    /\ log w' = log w ++ [CPageUpdate pageId field (textChunks content 2000)]
    /\ forest w' = forest w
    /\ (if stored
        then props w' = (pageId, field, textChunks content 2000) :: props w
             /\ console w' = console w
        else props w' = props w
             /\ exists e, console w' = console w ++ [ErrorUpdatingPage e]).
Proof.
  unfold updateField, tryCatch, bind, pages_update, request, say, ret.
  cbn [withLog faults schema].
  destruct (faults w) as [|[e|] later]; cbn [withLog withFaults schema].
  - destruct (existsb _ (schema w)).
    + exists true. eexists. split; [reflexivity|]. repeat split.
    + exists false. eexists. split; [reflexivity|]. repeat split. eexists. reflexivity.
  - exists false. eexists. split; [reflexivity|]. repeat split. eexists. reflexivity.
  - destruct (existsb _ (schema w)).
    + exists true. eexists. split; [reflexivity|]. repeat split.
    + exists false. eexists. split; [reflexivity|]. repeat split. eexists. reflexivity.
Qed.

(** X2. The two single-field writers cut the content into spans of
    1 to 2000 characters that concatenate back to it exactly (none for
    an empty content), send them in one page update and return: [true]
    with the property stored, [false] with the page left as it was when
    the update fails. Neither throws. *)
Theorem single_field_writers_store_everything (pageId : nat) (content : ustring)
    (w : World) :
  exists (spans : list RichText),
    concat (map contentOf spans) = content
    /\ Forall (fun span => 0 < len (contentOf span) <= 2000) spans
    /\ (content = [] <-> spans = [])
    /\ (exists (stored : bool) (w' : World),
          updateBlogWithContent pageId content w = Ok stored w'
          /\ log w' = log w ++ [CPageUpdate pageId "Content" spans]
          /\ (if stored
              then props w' = (pageId, "Content"%string, spans) :: props w
              else props w' = props w))
    /\ (exists (stored : bool) (w' : World),
          ContentWriter.updatePageWithAudio pageId content w = Ok stored w'
          /\ log w' = log w ++ [CPageUpdate pageId "Content64" spans]
          /\ (if stored
              then props w' = (pageId, "Content64"%string, spans) :: props w
              else props w' = props w)).
Proof.
  exists (textChunks content 2000).
  destruct (textChunks_content content 2000 ltac:(lia)) as [C B].
  split; [exact C|]. split; [exact B|]. split; [|split].
  - split; [now intros -> | intros E; rewrite E in C; now symmetry].
  - destruct (updateField_spec "Content" pageId content w) as [s [w' [E [L [_ P]]]]].
    exists s, w'. split; [exact E|]. split; [exact L|]. destruct s; tauto.
  - destruct (updateField_spec "Content64" pageId content w) as [s [w' [E [L [_ P]]]]].
    exists s, w'. split; [exact E|]. split; [exact L|]. destruct s; tauto.
Qed.

Lemma firstn_min_length {A} (n : nat) (l : list A) :
  firstn (Nat.min (List.length l) n) l = firstn n l.
Proof.
  destruct (Nat.le_gt_cases n (List.length l)) as [H|H].
  - now rewrite Nat.min_r.
  - rewrite Nat.min_l by lia. rewrite firstn_all. symmetry. apply firstn_all2. lia.
Qed.

Lemma dataToStore_late (fieldIndex : nat) (audioBase64 : ustring) :
  (12 <= fieldIndex)%nat ->
  dataToStoreOf fieldIndex audioBase64 = firstn (Z.to_nat 50000) audioBase64.
Proof.
  intros H. unfold dataToStoreOf.
  destruct (Nat.leb_spec 12 fieldIndex); [|lia].
  pose proof (len_nonneg audioBase64).
  rewrite substring_ordered by lia.
  cbn [skipn Z.to_nat]. rewrite Z.sub_0_r.
  replace (Z.to_nat (Z.min (len audioBase64) 50000))
    with (Nat.min (List.length audioBase64) (Z.to_nat 50000)) by (unfold len; lia).
  apply firstn_min_length.
Qed.

(** X3. From the thirteenth field on (index 12 and above) the
    multi-field writer stores the first 50000 characters of the chunk
    only, in spans of 1 to 1000 characters: what is stored is a prefix
    of the chunk, and differs from it when the chunk is longer. *)
Theorem late_fields_store_a_prefix (fieldIndex : nat) (audioBase64 : ustring) :
  (12 <= fieldIndex)%nat ->
  concat (map contentOf (textChunksOf fieldIndex audioBase64))
  = firstn (Z.to_nat 50000) audioBase64
  /\ Forall (fun span => 0 < len (contentOf span) <= 1000)
       (textChunksOf fieldIndex audioBase64)
  /\ (50000 < len audioBase64 ->
      concat (map contentOf (textChunksOf fieldIndex audioBase64)) <> audioBase64).
Proof.
  intros H.
  assert (E : concat (map contentOf (textChunksOf fieldIndex audioBase64))
              = firstn (Z.to_nat 50000) audioBase64).
  { unfold textChunksOf. rewrite contentOf_textSpan, dataToStore_late by exact H.
    unfold maxChunkSizeOf. destruct (Nat.leb_spec 12 fieldIndex); [|lia].
    apply sliceLoop_total. lia. }
  split; [exact E|]. split.
  - unfold textChunksOf, maxChunkSizeOf. destruct (Nat.leb_spec 12 fieldIndex); [|lia].
    apply Forall_map. cbn [contentOf textSpan text content].
    apply slices_pieces. lia.
  - intros L. rewrite E. intros Heq.
    apply (f_equal (@List.length N)) in Heq. rewrite length_firstn in Heq.
    unfold len in L. lia.
Qed.

(** X3, witness: a chunk of 100000 characters at index 12. *)
Lemma late_fields_store_a_prefix_witness :
  concat (map contentOf (textChunksOf 12 (repeat 65%N (Z.to_nat 100000))))
  = firstn (Z.to_nat 50000) (repeat 65%N (Z.to_nat 100000)).
Proof.
  apply (late_fields_store_a_prefix 12 (repeat 65%N (Z.to_nat 100000))). lia.
Defined.

(** ** Field names *)

Lemma numberOf_decimal (n : nat) : numberOf (decimal n) = n.
Proof.
  unfold numberOf, decimal.
  destruct (Nat.to_uint n) eqn:E;
    [cbn; rewrite <- (Unsigned.of_to n), E; reflexivity
    |rewrite NilZero.usu by discriminate; rewrite <- E; apply Unsigned.of_to ..].
Qed.

Lemma decimal_inj (n m : nat) : decimal n = decimal m -> n = m.
Proof.
  intros H. rewrite <- (numberOf_decimal n), <- (numberOf_decimal m). now rewrite H.
Qed.

Lemma append_inj_r (p s t : string) : (p ++ s = p ++ t)%string -> s = t.
Proof. induction p as [|c p IH]; cbn; [auto|]. intros [= H]. auto. Qed.

Lemma fieldName_inj (i j : nat) : fieldName i = fieldName j -> i = j.
Proof.
  unfold fieldName.
  destruct (Nat.eqb_spec i 0) as [->|Hi], (Nat.eqb_spec j 0) as [->|Hj].
  - reflexivity.
  - discriminate.
  - discriminate.
  - intros H. apply append_inj_r, decimal_inj in H. lia.
Qed.

(** X4. The multi-field writer stores different chunks in different
    fields: the names it computes for two different chunk indexes
    differ, so no chunk overwrites another. *)
Theorem field_names_are_distinct (i j : nat) :
  i <> j -> fieldName i <> fieldName j.
Proof. intros H E. exact (H (fieldName_inj i j E)). Qed.

(** X4, witness: the first two fields. *)
Lemma field_names_are_distinct_witness : fieldName 0 <> fieldName 1.
Proof. apply (field_names_are_distinct 0 1). discriminate. Defined.

Lemma fieldsToCheck_fieldName :
  Cleanup.fieldsToCheck = map fieldName (seq 0 15).
Proof. reflexivity. Qed.

(** X5. The fields the cleanup script checks and clears are exactly
    those the multi-field writer uses for its first fifteen chunks: the
    field of a sixteenth or later chunk is never cleared. *)
Theorem cleanup_covers_fifteen_fields (i : nat) :
  In (fieldName i) Cleanup.fieldsToCheck <-> (i < 15)%nat.
Proof.
  rewrite fieldsToCheck_fieldName. split.
  - intros H. apply in_map_iff in H as [j [E Hj]].
    apply fieldName_inj in E. subst j. apply in_seq in Hj. lia.
  - intros H. apply in_map. apply in_seq. lia.
Qed.

End FieldWriters.

(** ** Fetching the pages and the blocks of a page *)

Section PageFetching.
Local Open Scope nat_scope.
Import JS Notion Converter Walk PageFetcher.

(** ** The page fetcher: all or nothing *)

Lemma onlyReads_call (c : Call) (w : World) :
  isMutation c = false ->
  onlyReads w (withLog (log w ++ [c]) w)
  /\ forall fs, onlyReads w (withFaults fs (withLog (log w ++ [c]) w)).
Proof.
  intros Hc. split; [|intros fs]; repeat split; exists [c];
    (split; [reflexivity | unfold mutations; cbn; now rewrite Hc]).
Qed.

Lemma search_outcome (cursor : option nat) (from : nat) (w : World) :
  (from = 0 /\ cursor = None \/ cursor = Some from) ->
  (exists w1,
     search cursor 100 w
     = Ok {| s_results := firstn 100 (skipn from (searchable w));
             s_has_more := Nat.ltb 100 (List.length (skipn from (searchable w)));
             s_next_cursor := if Nat.ltb 100 (List.length (skipn from (searchable w)))
                              then Some (from + 100) else None |} w1
     /\ onlyReads w w1 /\ searchable w1 = searchable w
     /\ (faults w = [] -> faults w1 = []))
  \/ (exists e w1, search cursor 100 w = Throw e w1
        /\ onlyReads w w1 /\ faults w <> []).
Proof.
  intros Hc.
  assert (Hfrom : match cursor with Some c => c | None => 0 end = from)
    by (destruct Hc as [[-> ->]| ->]; reflexivity).
  destruct (onlyReads_call (CSearch cursor 100) w eq_refl) as [R1 R2].
  unfold search, request. cbn [withLog faults searchable].
  destruct (faults w) as [|[e|] later] eqn:Hf.
  - left. eexists. rewrite Hfrom. split; [reflexivity|]. split; [exact R1|].
    split; [reflexivity|]. intros _. exact Hf.
  - right. eexists. eexists. split; [reflexivity|]. split; [apply R2 | discriminate].
  - left. eexists. rewrite Hfrom. split; [reflexivity|]. split; [apply R2|].
    split; [reflexivity|]. discriminate.
Qed.

Lemma getAllPagesFrom_outcome (P : list Page) :
  forall n from cursor pages w,
    searchable w = P ->
    (from = 0 /\ cursor = None \/ cursor = Some from) ->
    List.length (skipn from P) < n ->
    match getAllPagesFrom n cursor pages w with
    | Ok l w' => l = pages ++ skipn from P /\ onlyReads w w'
    | Throw _ w' => onlyReads w w' /\ faults w <> []
    | Diverge => False
    end.
Proof.
  induction n as [|n IH]; intros from cursor pages w HP Hc Hn; [lia|].
  cbn [getAllPagesFrom]. unfold bind.
  destruct (search_outcome cursor from w Hc)
    as [[w1 [E [R [S1 F1]]]]|[e [w1 [E [R F1]]]]]; rewrite E; [|now split].
  rewrite HP in *. cbn [s_results s_has_more s_next_cursor].
  destruct (Nat.ltb_spec 100 (List.length (skipn from P))) as [Lt|Ge].
  - specialize (IH (from + 100) (Some (from + 100)) (pages ++ firstn 100 (skipn from P))
                  w1 S1 ltac:(now right)
                  ltac:(rewrite (Nat.add_comm from 100), <- skipn_skipn, length_skipn; lia)).
    destruct (getAllPagesFrom n _ _ w1) as [l w'|e w'|]; [| |exact IH].
    + destruct IH as [-> R']. split; [|exact (onlyReads_trans _ _ _ R R')].
      rewrite <- app_assoc. f_equal. rewrite (Nat.add_comm from 100).
      rewrite <- skipn_skipn. apply firstn_skipn.
    + destruct IH as [R' F']. split; [exact (onlyReads_trans _ _ _ R R')|].
      intros H. apply F', F1, H.
  - unfold ret. split; [|exact R]. now rewrite firstn_all2 by lia.
Qed.

(** X6. With fuel above the number of pages of the workspace,
    [getAllPages] ends: it returns every page of the search, in the
    provider's order, or throws because a search call failed; there is
    no partial result. It only reads. *)
Theorem getAllPages_all_or_nothing (w : World) (fuel : nat) :
  List.length (searchable w) < fuel ->
  match getAllPages fuel w with
  | Ok pages w' => pages = searchable w /\ onlyReads w w'
  | Throw _ w' => onlyReads w w' /\ faults w <> []
  | Diverge => False
  end.
Proof.
  intros Hn. unfold getAllPages.
  pose proof (getAllPagesFrom_outcome (searchable w) fuel 0 None [] w eq_refl
                ltac:(now left) Hn) as H.
  destruct (getAllPagesFrom fuel None [] w); auto.
Qed.

(** X6, witness: the two pages of the sample. *)
Lemma getAllPages_all_or_nothing_witness :
  match getAllPages 5 Sample.twoPages with
  | Ok pages w' => pages = searchable Sample.twoPages /\ onlyReads Sample.twoPages w'
  | Throw _ w' => onlyReads Sample.twoPages w' /\ faults Sample.twoPages <> []
  | Diverge => False
  end.
Proof. apply (getAllPages_all_or_nothing Sample.twoPages 5). cbn. lia. Defined.

Lemma list_outcome (F : Forest) (c : nat) (ks : Forest) (k : nat)
    (cursor : option nat) (w : World) :
  NoDup (ids ks) -> forest w = F -> findKids c F = Some ks ->
  cursorAt (siblings ks) k cursor ->
  (exists w1,
     blocks_children_list c cursor 100 w
     = Ok (pageOf 100 (skipn k (siblings ks))) w1
     /\ onlyReads w w1 /\ (faults w = [] -> faults w1 = []))
  \/ (exists e w1, blocks_children_list c cursor 100 w = Throw e w1
        /\ onlyReads w w1 /\ faults w <> []).
Proof.
  intros N HF Fk Hc.
  destruct (onlyReads_call (CList c cursor 100) w eq_refl) as [R1 R2].
  assert (S : forall v, forest v = F ->
            match findKids c (forest v) with
            | None => Throw (ustr "object_not_found") v
            | Some kids =>
                match cursor with
                | None => Ok (pageOf 100 (siblings kids)) v
                | Some c0 =>
                    match fromCursor c0 (siblings kids) with
                    | None => Throw (ustr "validation_error: start_cursor") v
                    | Some l => Ok (pageOf 100 l) v
                    end
                end
            end = Ok (pageOf 100 (skipn k (siblings ks))) v).
  { intros v Hv. rewrite Hv, Fk. destruct Hc as [[-> ->]|[node [Hn ->]]]; [reflexivity|].
    rewrite (fromCursor_skipn (siblings ks) k node); [reflexivity| |exact Hn].
    apply (rootIds_NoDup ks N). }
  unfold blocks_children_list, request. cbn [withLog faults].
  destruct (faults w) as [|[e|] later] eqn:Hf.
  - left. eexists. split; [apply S; exact HF|]. split; [exact R1|]. intros _. exact Hf.
  - right. eexists. eexists. split; [reflexivity|]. split; [apply R2 | discriminate].
  - left. eexists. split; [apply S; exact HF|]. split; [apply R2|]. discriminate.
Qed.

Lemma list_missing (c : nat) (cursor : option nat) (w : World) :
  findKids c (forest w) = None ->
  exists e w1, blocks_children_list c cursor 100 w = Throw e w1 /\ onlyReads w w1.
Proof.
  intros Fk. destruct (onlyReads_call (CList c cursor 100) w eq_refl) as [R1 R2].
  unfold blocks_children_list, request. cbn [withLog faults].
  destruct (faults w) as [|[e|] later];
    cbn [withLog withFaults forest]; try rewrite Fk; eexists; eexists;
    (split; [reflexivity | first [exact R1 | apply R2]]).
Qed.


Lemma getPageContentFrom_outcome (F : Forest) (p : nat) (ks : Forest) :
  NoDup (ids ks) -> findKids p F = Some ks ->
  forall n k cursor blocks w,
    forest w = F -> cursorAt (siblings ks) k cursor ->
    List.length (skipn k (siblings ks)) < n ->
    match getPageContentFrom n p cursor blocks w with
    | Ok bs w' => bs = blocks ++ map view (skipn k (siblings ks)) /\ onlyReads w w'
    | Throw _ w' => onlyReads w w' /\ faults w <> []
    | Diverge => False
    end.
Proof.
  intros N Fk. induction n as [|n IH]; intros k cursor blocks w HF Hc Hn; [lia|].
  cbn [getPageContentFrom]. unfold bind.
  destruct (list_outcome F p ks k cursor w N HF Fk Hc)
    as [[w1 [E [R F1]]]|[e [w1 [E [R F1]]]]]; rewrite E; [|now split].
  set (l := skipn k (siblings ks)) in *.
  unfold pageOf. cbn [results has_more next_cursor].
  assert (HF1 : forest w1 = F) by (destruct R as [H _]; congruence).
  destruct (Nat.ltb_spec 100 (List.length l)) as [Lt|Ge].
  - destruct (nth_error l 100) as [node|] eqn:Hnode;
      [|apply nth_error_None in Hnode; lia].
    cbn [option_map].
    assert (Hk : nth_error (siblings ks) (100 + k) = Some node).
    { unfold l in Hnode. rewrite nth_error_skipn in Hnode.
      now rewrite (Nat.add_comm 100 k). }
    specialize (IH (100 + k) (Some (id (fst node)))
                  (blocks ++ map view (firstn 100 l)) w1 HF1
                  ltac:(right; exists node; auto)
                  ltac:(rewrite <- skipn_skipn; fold l; rewrite length_skipn; lia)).
    destruct (getPageContentFrom n p _ _ w1) as [bs w'|e w'|]; [| |exact IH].
    + destruct IH as [-> R']. split; [|exact (onlyReads_trans _ _ _ R R')].
      rewrite <- app_assoc. f_equal. rewrite <- skipn_skipn. fold l.
      rewrite <- map_app. now rewrite firstn_skipn.
    + destruct IH as [R' F']. split; [exact (onlyReads_trans _ _ _ R R')|].
      intros H. apply F', F1, H.
  - unfold ret. split; [|exact R]. now rewrite firstn_all2 by lia.
Qed.

(** X7. [getPageContent] of the find-and-replace tool, on a page of
    a workspace with unique identifiers and with fuel above the number
    of its children, ends: it returns the blocks at the top level of
    the page, in order, and none of their descendants, or throws
    because a listing failed. It only reads. *)
Theorem getPageContent_top_level (w : World) (pageId fuel : nat) (kids : Forest) :
  NoDup (ids (forest w)) ->
  findKids pageId (forest w) = Some kids ->
  List.length (siblings kids) < fuel ->
  match getPageContent fuel pageId w with
  | Ok blocks w' => blocks = map view (siblings kids) /\ onlyReads w w'
  | Throw _ w' => onlyReads w w' /\ faults w <> []
  | Diverge => False
  end.
Proof.
  intros N Fk Hn. unfold getPageContent.
  exact (getPageContentFrom_outcome (forest w) pageId kids
           (findKids_NoDup _ _ _ N Fk) Fk fuel 0 None [] w eq_refl
           ltac:(now left) Hn).
Qed.

(** X7, witness: the page 1 of the sample, whose top level holds the
    blocks 2, 3 and 7. *)
Lemma getPageContent_top_level_witness :
  match getPageContent 5 1 Sample.nestedPage with
  | Ok blocks w' =>
      blocks = map view (siblings (match Sample.nestedForest with
                                   | Sib _ kids _ => kids | Empty => Empty end))
      /\ onlyReads Sample.nestedPage w'
  | Throw _ w' => onlyReads Sample.nestedPage w' /\ faults Sample.nestedPage <> []
  | Diverge => False
  end.
Proof.
  apply (getPageContent_top_level Sample.nestedPage 1 5).
  - repeat constructor; cbn; intuition discriminate.
  - reflexivity.
  - cbn. lia.
Defined.

Lemma getPageContent_missing (w : World) (pageId fuel : nat) :
  findKids pageId (forest w) = None -> 1 <= fuel ->
  exists e w', getPageContent fuel pageId w = Throw e w' /\ onlyReads w w'.
Proof.
  intros Fk Hf. destruct fuel as [|fuel]; [lia|].
  unfold getPageContent. cbn [getPageContentFrom]. unfold bind.
  destruct (list_missing pageId None w Fk) as [e [w1 [E R]]].
  rewrite E. eauto.
Qed.

End PageFetching.

(** ** The counters of the converters add up *)

Section ConverterCounters.
Local Open Scope nat_scope.
Import JS Notion Converter Walk.

Lemma conversionErrors_app (l1 l2 : list ErrorEntry) :
  conversionErrors (l1 ++ l2) = conversionErrors l1 + conversionErrors l2.
Proof. unfold conversionErrors. now rewrite filter_app, length_app. Qed.

Lemma pageErrors_app (l1 l2 : list ErrorEntry) :
  pageErrors (l1 ++ l2) = pageErrors l1 + pageErrors l2.
Proof. unfold pageErrors. now rewrite filter_app, length_app. Qed.

Lemma kept_refl (dryRun : bool) (t : Tally) : balanced t -> kept dryRun t t.
Proof. intros H. repeat split; auto. Qed.

Lemma kept_converted (dryRun : bool) (t0 t : Tally) :
  kept dryRun t0 t -> kept dryRun t0 (success (found t)).
Proof.
  intros [B [Pe De]]. unfold kept, balanced in *.
  cbn [total converted errors pageCount success found].
  split; [lia|]. split; [exact Pe | exact De].
Qed.

Lemma kept_failed (t0 t : Tally) (page : Page) (i : nat) (message : ustring) :
  kept false t0 t ->
  kept false t0 (failure {| e_pageId := page_id page; e_pageTitle := page_title page;
                            e_blockId := Some i; e_error := message |} (found t)).
Proof.
  intros [B [Pe De]]. unfold kept, balanced in *.
  cbn [total converted errors pageCount failure found].
  rewrite conversionErrors_app, pageErrors_app.
  change (conversionErrors [_]) with 1. change (pageErrors [_]) with 0.
  split; [lia|]. split; [lia|]. discriminate.
Qed.

Section CounterLoops.
Variable cv : Conversion.
Variable fuel : nat.
Variable dryRun : bool.

Lemma eachBlock_counters (page : Page) :
  forall rs t0 t, kept dryRun t0 t ->
    hoare anyState (eachBlock cv fuel page dryRun rs t) (kept dryRun t0).
Proof.
  induction rs as [|block rs IH]; intros t0 t Ht; cbn [eachBlock];
    [now apply hoare_ret|].
  destruct (isSource cv block).
  - destruct dryRun eqn:D; cbn [negb].
    + apply IH. now apply kept_converted.
    + eapply hoare_bind; [apply hoare_any|]. intros [u|e] _.
      * apply IH. now apply kept_converted.
      * eapply hoare_bind; [apply hoare_any|]. intros _ _.
        apply IH. now apply kept_failed.
  - destruct (has_children block); [|now apply IH].
    eapply hoare_bind; [apply hoare_any|]. intros _ _. now apply IH.
Qed.

Lemma pageBlocks_counters (page : Page) :
  forall n cursor t0 t, kept dryRun t0 t ->
    hoare anyState (pageBlocks cv fuel page dryRun n cursor t)
      (fun r => kept dryRun t0 (fst r)).
Proof.
  induction n as [|n IH]; intros cursor t0 t Ht; cbn [pageBlocks];
    [apply hoare_diverge|].
  eapply hoare_bind; [apply hoare_any|].
  intros [response|error] _; [|apply hoare_ret; exact Ht].
  eapply hoare_bind; [apply (eachBlock_counters page _ t0 t Ht)|].
  intros t' Ht'. destruct (has_more response); [now apply IH | apply hoare_ret; exact Ht'].
Qed.

Lemma pageFailure_counters (t : Tally) (page : Page) (message : ustring) :
  let t' := failure {| e_pageId := page_id page; e_pageTitle := page_title page;
                       e_blockId := None; e_error := message |} t in
  total t' = total t /\ converted t' = converted t
  /\ conversionErrors (errors t') = conversionErrors (errors t)
  /\ pageErrors (errors t') = S (pageErrors (errors t)).
Proof.
  cbn [total converted errors failure].
  rewrite conversionErrors_app, pageErrors_app.
  change (conversionErrors [_]) with 0. change (pageErrors [_]) with 1.
  repeat split; lia.
Qed.

Lemma eachPage_counters :
  forall pages processed pw t,
    balanced t -> (dryRun = true -> conversionErrors (errors t) = 0) ->
    pw + pageErrors (errors t) <= processed ->
    hoare anyState (eachPage cv fuel dryRun pages processed pw t)
      (fun s =>
         totalMatches s = convertedMatches s + conversionErrors (runErrors s)
         /\ (dryRun = true -> conversionErrors (runErrors s) = 0)
         /\ pagesWithMatches s + pageErrors (runErrors s) <= totalPages s
         /\ totalPages s = processed + List.length pages).
Proof.
  induction pages as [|pg pages IH]; intros processed pw t B D L; cbn [eachPage].
  - apply hoare_ret.
    cbn [totalMatches convertedMatches runErrors pagesWithMatches totalPages List.length].
    split; [exact B|]. split; [exact D|]. split; lia.
  - eapply hoare_bind.
    + apply (pageBlocks_counters pg fuel None (newPage t) (newPage t)).
      apply kept_refl. exact B.
    + intros [t' [message|]] [B' [P' D']]; cbn [fst] in *;
        change (errors (newPage t)) with (errors t) in *.
      * destruct (pageFailure_counters t' pg message) as [F1 [F2 [F3 F4]]].
        eapply hoare_weaken; [|apply IH].
        -- intros s [H1 [H2 [H3 H4]]]. split; [exact H1|]. split; [exact H2|].
           split; [exact H3|]. cbn [List.length]. lia.
        -- unfold balanced in *. lia.
        -- intros Hd. rewrite F3, (D' Hd). exact (D Hd).
        -- lia.
      * eapply hoare_weaken; [|apply IH].
        -- intros s [H1 [H2 [H3 H4]]]. split; [exact H1|]. split; [exact H2|].
           split; [exact H3|]. cbn [List.length]. lia.
        -- exact B'.
        -- intros Hd. rewrite (D' Hd). exact (D Hd).
        -- destruct (0 <? pageCount t'); lia.
Qed.

End CounterLoops.

(** X8. Whenever a run of either converter returns, its counters
    add up: every match counted was converted or is recorded among the
    errors with its block (in a dry run every match counts as
    converted), and the pages with matches together with the pages whose
    listing failed are at most the pages of the search. *)
Theorem converter_counters_add_up (cv : Conversion) (fuel : nat) (dryRun : bool)
    (w : World) :
  match convertBlocks cv fuel dryRun w with
  | Ok s _ =>
      totalMatches s = convertedMatches s + conversionErrors (runErrors s)
      /\ (dryRun = true -> totalMatches s = convertedMatches s)
      /\ pagesWithMatches s + pageErrors (runErrors s) <= totalPages s
  | _ => True
  end.
Proof.
  assert (H : hoare anyState (convertBlocks cv fuel dryRun)
                (fun s =>
                   totalMatches s = convertedMatches s + conversionErrors (runErrors s)
                   /\ (dryRun = true -> totalMatches s = convertedMatches s)
                   /\ pagesWithMatches s + pageErrors (runErrors s) <= totalPages s)).
  { unfold convertBlocks. eapply hoare_bind; [apply hoare_any|].
    intros pages _. eapply hoare_weaken; [|apply (eachPage_counters cv fuel dryRun)].
    - intros s [H1 [H2 [H3 H4]]]. repeat split; auto.
      intros Hd. rewrite H1, (H2 Hd). lia.
    - reflexivity.
    - reflexivity.
    - cbn. lia. }
  specialize (H w I). destruct (convertBlocks cv fuel dryRun w); tauto.
Qed.

(** ** A failure inside a page never aborts the run *)

Lemma tryCatch_neverThrows {A} (m : M A) (h : ustring -> M A) :
  (forall e, neverThrows (h e)) -> neverThrows (tryCatch m h).
Proof.
  intros Hh w e w'. unfold tryCatch. destruct (m w) as [a w1|e1 w1|].
  - discriminate.
  - apply Hh.
  - discriminate.
Qed.

Lemma processChildBlocks_neverThrows (cv : Conversion) (fuel p parent : nat)
    (dryRun : bool) :
  neverThrows (processChildBlocks cv fuel p parent dryRun).
Proof.
  destruct fuel as [|fuel]; cbn [processChildBlocks]; [apply diverge_neverThrows|].
  apply tryCatch_neverThrows. intros e.
  destruct (unsupported e); [apply ret_neverThrows | apply say_neverThrows].
Qed.

Lemma eachBlock_neverThrows (cv : Conversion) (fuel : nat) (page : Page) (dryRun : bool) :
  forall rs t, neverThrows (eachBlock cv fuel page dryRun rs t).
Proof.
  induction rs as [|block rs IH]; intros t; cbn [eachBlock]; [apply ret_neverThrows|].
  destruct (isSource cv block).
  - destruct dryRun; cbn [negb]; [apply IH|].
    apply bind_neverThrows; [apply attempt_neverThrows|].
    intros [u|e]; [apply IH|].
    apply bind_neverThrows; [apply say_neverThrows | intros _; apply IH].
  - destruct (has_children block); [|apply IH].
    apply bind_neverThrows; [apply processChildBlocks_neverThrows | intros _; apply IH].
Qed.

Lemma pageBlocks_neverThrows (cv : Conversion) (fuel : nat) (page : Page) (dryRun : bool) :
  forall n cursor t, neverThrows (pageBlocks cv fuel page dryRun n cursor t).
Proof.
  induction n as [|n IH]; intros cursor t; cbn [pageBlocks]; [apply diverge_neverThrows|].
  apply bind_neverThrows; [apply attempt_neverThrows|].
  intros [response|error]; [|apply ret_neverThrows].
  apply bind_neverThrows; [apply eachBlock_neverThrows|].
  intros t'. destruct (has_more response); [apply IH | apply ret_neverThrows].
Qed.

Lemma eachPage_neverThrows (cv : Conversion) (fuel : nat) (dryRun : bool) :
  forall pages processed pw t, neverThrows (eachPage cv fuel dryRun pages processed pw t).
Proof.
  induction pages as [|pg pages IH]; intros processed pw t; cbn [eachPage];
    [apply ret_neverThrows|].
  apply bind_neverThrows; [apply pageBlocks_neverThrows|].
  intros [t' [error|]]; apply IH.
Qed.

(** X9. A failure inside a page never aborts a run of a converter:
    the rewriting of the children of a block and the loop over the
    pages never throw, whatever the provider answers, and the run
    throws only the error of a failed search for the pages. *)
Theorem converter_run_survives_failures (cv : Conversion) (fuel : nat) (dryRun : bool) :
  (forall p parent, neverThrows (processChildBlocks cv fuel p parent dryRun))
  /\ (forall pages processed pw t,
        neverThrows (eachPage cv fuel dryRun pages processed pw t))
  /\ (forall w e w',
        convertBlocks cv fuel dryRun w = Throw e w' ->
        getAllPages fuel w = Throw e w').
Proof.
  split; [intros; apply processChildBlocks_neverThrows|].
  split; [apply eachPage_neverThrows|].
  intros w e w'. unfold convertBlocks, bind.
  destruct (getAllPages fuel w) as [pages w1|e1 w1|].
  - intros H. exfalso.
    exact (eachPage_neverThrows cv fuel dryRun pages 0 0 noTally _ _ _ H).
  - intros H. injection H as -> ->. reflexivity.
  - discriminate.
Qed.

End ConverterCounters.

(** ** The quote converter, and a conversion that fails half-way *)

Section ConversionSteps.
Local Open Scope nat_scope.
Import JS Notion Converter Walk.

(** X10. The conversion step of the quote converter, on a quote
    standing anywhere among the children of its parent on a provider
    whose calls succeed: a paragraph takes the place of the quote, with
    the spans of the quote between two double-quote marks (so its text
    is the text of the quote in double quotes) and the colour of the
    quote; the quote and its children are gone. *)
Theorem quote_becomes_quoted_paragraph (w : World) (parent : nat)
    (before after kids : Forest) (quote : BlockData) :
  WellFormed w ->
  faults w = [] ->
  findKids parent (forest w) = Some (fapp before (Sib quote kids after)) ->
  exists paragraph w',
    replaceBlock quoteToText parent (view (quote, kids)) w = Ok tt w'
    /\ findKids parent (forest w') = Some (fapp before (Sib paragraph Empty after))
    /\ type paragraph = "paragraph"%string
    /\ rich_text paragraph = [quoteMark] ++ rich_text quote ++ [quoteMark]
    /\ Extractor.extractTextFromRichText (rich_text paragraph)
       = [34%N] ++ Extractor.extractTextFromRichText (rich_text quote) ++ [34%N]
    /\ color paragraph = Some (colorOrDefault (color quote))
    /\ findBlock (id quote) (forest w') = None.
Proof.
  intros W Hf Hk.
  destruct (replaceBlock_live quoteToText parent w before quote kids after
              ltac:(split; [exact W | split; assumption]))
    as [w' [E [F [[W' [Hf' Hk']] [Hn [Hc [Hl Hgone]]]]]]].
  exists (createBlock (next_id w) (replacement quoteToText quote)), w'.
  split; [exact E|]. split; [exact Hk'|]. split; [reflexivity|].
  split; [reflexivity|]. split.
  - cbn [createBlock rich_text replacement quoteToText nb_rich_text].
    unfold Extractor.extractTextFromRichText, join0.
    rewrite !map_app, !concat_app. cbn. rewrite ?app_nil_r. reflexivity.
  - split; [reflexivity|]. apply findBlock_none, Hgone. now left.
Qed.

(** X10, witness: the quote 3 of the two-page sample. *)
Lemma quote_becomes_quoted_paragraph_witness :
  exists paragraph w',
    replaceBlock quoteToText 1
      (view (Sample.block 3 "quote" ["two"%string], Empty)) Sample.twoPages = Ok tt w'
    /\ Extractor.extractTextFromRichText (rich_text paragraph)
       = [34%N] ++ ustr "two" ++ [34%N]
    /\ findBlock 3 (forest w') = None.
Proof.
  destruct (quote_becomes_quoted_paragraph Sample.twoPages 1
              (Sample.leaf (Sample.todo 2 false ["one"%string]) Empty)
              (Sib (Sample.block 4 "toggle" ["three"%string])
                 (Sample.leaf (Sample.todo 5 true ["four"%string]) Empty) Empty)
              Empty (Sample.block 3 "quote" ["two"%string]))
    as [paragraph [w' [E [_ [_ [_ [X [_ G]]]]]]]].
  - split.
    + repeat constructor; cbn; intuition discriminate.
    + repeat constructor; cbn; lia.
  - reflexivity.
  - reflexivity.
  - exists paragraph, w'. repeat split; assumption.
Defined.

(** ** A conversion is two calls *)

Lemma append_served (cv : Conversion) (p : nat) (w : World)
    (done : Forest) (b : BlockData) (kb rest : Forest) :
  NoDup (ids (forest w)) ->
  findKids p (forest w) = Some (fapp done (Sib b kb rest)) ->
  let new := createBlock (next_id w) (replacement cv b) in
  let F1 := substKids p (fapp done (Sib b kb (Sib new Empty rest))) (forest w) in
  updateKids p (insertAfter (id b) new) (forest w) = Some F1
  /\ findKids p F1 = Some (fapp done (Sib b kb (Sib new Empty rest)))
  /\ exists b1, findBlock (id b) F1 = Some b1.
Proof.
  intros N Hk new F1.
  pose proof (findKids_NoDup p _ _ N Hk) as Nks.
  destruct (NoDup_middle done rest kb b Nks) as [M1 _].
  destruct (findKids_in _ _ _ Hk) as [Hp Hincl].
  assert (K1 : findKids p F1 = Some (fapp done (Sib b kb (Sib new Empty rest))))
    by (now apply findKids_substKids).
  split; [|split; [exact K1|]].
  - apply (updateKids_substKids p _ (forest w) _ _ N Hk).
    now apply insertAfter_fapp.
  - apply findBlock_some. destruct (findKids_in _ _ _ K1) as [_ I1]. apply I1.
    rewrite ids_fapp. apply in_or_app. right. now left.
Qed.

(** X11. A conversion is an append followed by a delete, with no
    rollback: when the append succeeds and the delete fails, the source
    block stays, followed by its replacement, and the run records one
    match, no conversion and one error naming the block. *)
Theorem failed_delete_leaves_both_blocks (cv : Conversion) (w : World)
    (page : Page) (fuel : nat) (before after kids : Forest) (b : BlockData)
    (message : ustring) (later : list (option ustring)) (t : Tally) :
  NoDup (ids (forest w)) ->
  faults w = None :: Some message :: later ->
  findKids (page_id page) (forest w) = Some (fapp before (Sib b kids after)) ->
  isSource cv (view (b, kids)) = true ->
  exists w',
    eachBlock cv fuel page false [view (b, kids)] t w
    = Ok (failure {| e_pageId := page_id page; e_pageTitle := page_title page;
                     e_blockId := Some (id b); e_error := message |} (found t)) w'
    /\ findKids (page_id page) (forest w')
       = Some (fapp before
                 (Sib b kids
                    (Sib (createBlock (next_id w) (replacement cv b)) Empty after)))
    /\ log w' = log w ++ [CAppend (page_id page) (replacement cv b) (id b);
                          CDelete (id b)]
    /\ console w' = console w ++ [FailedToConvert (id b) message]
    /\ faults w' = later.
Proof.
  intros N Hf Hk Hs.
  destruct (append_served cv (page_id page) w before b kids after N Hk)
    as [U [K1 [b1 B1]]].
  eexists. split.
  - cbn [eachBlock]. rewrite Hs. cbn [negb].
    unfold bind at 1. unfold attempt, tryCatch. unfold bind at 1.
    unfold replaceBlock, bind, blocks_children_append, request.
    cbn [withLog faults forest next_id log view data fst snd]. rewrite Hf.
    cbn [withLog withFaults faults forest next_id log]. rewrite U.
    unfold blocks_delete, request.
    cbn [withLog withForest withNextId withFaults faults forest next_id log
         searchable schema props console].
    unfold ret, say, bind.
    cbn [withLog withForest withNextId withFaults withConsole faults forest next_id log
         searchable schema props console].
    reflexivity.
  - cbn [withLog withForest withNextId withFaults withConsole faults forest next_id log
         searchable schema props console].
    split; [exact K1|]. split; [now rewrite <- app_assoc|]. split; reflexivity.
Qed.

(** X11, witness: the to-do 3 of the sample page, on a provider whose
    second call fails. *)
Lemma failed_delete_leaves_both_blocks_witness :
  exists w',
    eachBlock checkboxToBullet 5 (Sample.page 1) false
      [view (Sample.todo 3 true ["Buy milk"%string],
             Sample.leaf (Sample.block 5 "paragraph" ["semi-skimmed"%string]) Empty)]
      noTally (withFaults [None; Some (ustr "conflict")] Sample.milkPage)
    = Ok (failure {| e_pageId := 1; e_pageTitle := ustr "Page";
                     e_blockId := Some 3; e_error := ustr "conflict" |}
            (found noTally)) w'
    /\ faults w' = [].
Proof.
  destruct (failed_delete_leaves_both_blocks checkboxToBullet
              (withFaults [None; Some (ustr "conflict")] Sample.milkPage)
              (Sample.page 1) 5
              (Sample.leaf (Sample.block 2 "paragraph" ["Shopping"%string]) Empty)
              (Sample.leaf (Sample.block 4 "paragraph" ["Done"%string]) Empty)
              (Sample.leaf (Sample.block 5 "paragraph" ["semi-skimmed"%string]) Empty)
              (Sample.todo 3 true ["Buy milk"%string])
              (ustr "conflict") [] noTally)
    as [w' [E [_ [_ [_ F]]]]].
  - repeat constructor; cbn; intuition discriminate.
  - reflexivity.
  - reflexivity.
  - reflexivity.
  - exists w'. split; [exact E | exact F].
Defined.

End ConversionSteps.

(** ** The substitution of the find-and-replace tool *)

Section Substitution.
Local Open Scope nat_scope.
Import JS Notion Converter Walk TextProcessor.

(** ** The modification flag of the substitution *)

Lemma ueqb_refl (s : ustring) : ueqb s s = true.
Proof. now apply ueqb_eq. Qed.

Lemma ueqb_false (s t : ustring) : ueqb s t = false -> s <> t.
Proof. intros H E. apply ueqb_eq in E. congruence. Qed.

(** The item comes back unchanged exactly when the flag is down. *)
Lemma replaceInItem_flag (p r : ustring) (item : RichText) :
  (fst (replaceInItem p r item) = false -> snd (replaceInItem p r item) = item)
  /\ (fst (replaceInItem p r item) = true -> snd (replaceInItem p r item) <> item)
  /\ rt_type (snd (replaceInItem p r item)) = rt_type item
  /\ plain_text (snd (replaceInItem p r item)) = plain_text item.
Proof.
  unfold replaceInItem, contentOf, urlOf, hrefOf, isText.
  destruct item as [ty [[c l]|] h pt]; cbn [rt_type text href plain_text content link].
  - destruct (String.eqb ty "text"); cbn [andb].
    + destruct l as [[u]|]; cbn [url].
      * destruct (truthy c), (truthy u), h as [h|]; cbn [truthy];
          try destruct (truthy h);
          repeat match goal with
                 | |- context [ueqb ?a ?b] =>
                     let E := fresh "E" in
                     destruct (ueqb a b) eqn:E;
                     [apply ueqb_eq in E | apply ueqb_false in E]
                 end;
          cbn; repeat split; try discriminate; try reflexivity;
          intros _ H; injection H; intros; congruence.
      * destruct (truthy c), h as [h|]; cbn [truthy];
          try destruct (truthy h);
          repeat match goal with
                 | |- context [ueqb ?a ?b] =>
                     let E := fresh "E" in
                     destruct (ueqb a b) eqn:E;
                     [apply ueqb_eq in E | apply ueqb_false in E]
                 end;
          cbn; repeat split; try discriminate; try reflexivity;
          intros _ H; injection H; intros; congruence.
    + destruct h as [h|]; cbn [truthy];
        try destruct (truthy h);
        repeat match goal with
               | |- context [ueqb ?a ?b] =>
                   let E := fresh "E" in
                   destruct (ueqb a b) eqn:E;
                   [apply ueqb_eq in E | apply ueqb_false in E]
               end;
        cbn; repeat split; try discriminate; try reflexivity;
        intros _ H; injection H; intros; congruence.
  - rewrite !andb_false_r.
    destruct h as [h|]; cbn [truthy];
      try destruct (truthy h);
      repeat match goal with
             | |- context [ueqb ?a ?b] =>
                 let E := fresh "E" in
                 destruct (ueqb a b) eqn:E;
                 [apply ueqb_eq in E | apply ueqb_false in E]
             end;
      cbn; repeat split; try discriminate; try reflexivity;
      intros _ H; injection H; intros; congruence.
Qed.

(** X12. The [modified] flag of [searchAndReplaceInRichText] is
    exact: it is false exactly when the returned span list is the one
    passed in. The returned list has the same length, the same span
    types and the same [plain_text] fields as the input, whatever the
    texts. *)
Theorem modified_flag_is_exact (richTextArray : list RichText)
    (searchText replaceText : ustring) :
  let r := searchAndReplaceInRichText richTextArray searchText replaceText in
  (modified r = false <-> updatedRichText r = richTextArray)
  /\ List.length (updatedRichText r) = List.length richTextArray
  /\ map rt_type (updatedRichText r) = map rt_type richTextArray
  /\ map plain_text (updatedRichText r) = map plain_text richTextArray.
Proof.
  unfold searchAndReplaceInRichText. cbn [modified updatedRichText].
  induction richTextArray as [|item l [IH1 [IH2 [IH3 IH4]]]].
  - repeat split; reflexivity.
  - destruct (replaceInItem_flag searchText replaceText item) as [F0 [F1 [T P]]].
    cbn [map existsb List.length]. split; [split|].
    + intros H. apply orb_false_iff in H as [Hi Hl].
      rewrite (F0 Hi). f_equal. now apply IH1.
    + intros H. injection H as Hi Hl. apply orb_false_iff. split.
      * destruct (fst (replaceInItem searchText replaceText item)) eqn:E; [|reflexivity].
        exfalso. exact (F1 eq_refl Hi).
      * now apply IH1.
    + split; [now rewrite IH2|]. split; [now rewrite T, IH3 | now rewrite P, IH4].
Qed.

(** ** What the update of a block changes *)

Lemma findBlock_updateBlock (i : nat) (g : BlockData -> BlockData) (f : Forest) :
  (forall b, id (g b) = id b) ->
  findBlock i (updateBlock i g f) = option_map g (findBlock i f).
Proof.
  intros Hg. induction f as [|b kids IHk rest IHr]; [reflexivity|].
  cbn [updateBlock findBlock].
  destruct (Nat.eqb (id b) i) eqn:E; cbn [findBlock].
  - now rewrite Hg, E.
  - rewrite E, IHk. destruct (findBlock i kids); [reflexivity | exact IHr].
Qed.

Lemma updateDataFor_type (block : Block) (spans : list RichText) (patch : BlockPatch) :
  updateDataFor block spans = Some patch ->
  bp_type patch = type (data block) /\ bp_rich_text patch = spans
  /\ (match bp_checked patch with Some c => c = checked (data block) | None => True end)
  /\ (match bp_language patch with Some l => l = language (data block) | None => True end).
Proof.
  unfold updateDataFor.
  destruct (existsb _ spanTypes); [intros [= <-]; now repeat split|].
  destruct (String.eqb _ "to_do"); [intros [= <-]; now repeat split|].
  destruct (String.eqb _ "code"); [intros [= <-]; now repeat split|].
  discriminate.
Qed.

(** X13. [processBlock] on a block of the workspace ends. When it
    reports no modification the provider was not called and nothing
    changed; when it reports a modification it sent one update, for
    that block, after which the block holds the substituted spans and
    keeps its identifier, type, colour, checked state, language and
    cells; when it throws, the workspace content is unchanged. *)
Theorem processBlock_changes_spans_only (block : Block)
    (searchText replaceText : ustring) (w : World) :
  findBlock (id (data block)) (forest w) = Some (data block) ->
  let r := searchAndReplaceInRichText (extractTextFromBlock block)
             searchText replaceText in
  match processBlock block searchText replaceText w with
  | Ok result w' =>
      (p_modified result = false -> w' = w)
      /\ (p_modified result = true ->
          modified r = true
          /\ p_blockId result = Some (id (data block))
          /\ exists patch stored,
               log w' = log w ++ [CUpdate (id (data block)) patch]
               /\ bp_rich_text patch = updatedRichText r
               /\ findBlock (id (data block)) (forest w') = Some stored
               /\ rich_text stored = updatedRichText r
               /\ id stored = id (data block)
               /\ type stored = type (data block)
               /\ color stored = color (data block)
               /\ checked stored = checked (data block)
               /\ language stored = language (data block)
               /\ cells stored = cells (data block))
  | Throw _ w' => forest w' = forest w
  | Diverge => False
  end.
Proof.
  intros Hb r. unfold processBlock. subst r.
  destruct (extractTextFromBlock block) as [|item items] eqn:Ex.
  - cbn. split; [reflexivity | discriminate].
  - set (r := searchAndReplaceInRichText (item :: items) searchText replaceText).
    destruct (modified r) eqn:Hm; cbn [negb].
    2:{ cbn. split; [reflexivity | discriminate]. }
    destruct (updateDataFor block (updatedRichText r)) as [patch|] eqn:Hu.
    2:{ cbn. split; [reflexivity | discriminate]. }
    destruct (updateDataFor_type block _ patch Hu) as [Ty [Rt [Ch La]]].
    unfold bind, blocks_update, request, ret. cbn [withLog faults forest].
    assert (Fin : forall v,
              forest v = updateBlock (id (data block)) (applyPatch patch) (forest w) ->
              log v = log w ++ [CUpdate (id (data block)) patch] ->
              (true = false -> v = w)
              /\ (true = true ->
                  true = true
                  /\ Some (id (data block)) = Some (id (data block))
                  /\ exists patch0 stored,
                       log v = log w ++ [CUpdate (id (data block)) patch0]
                       /\ bp_rich_text patch0 = updatedRichText r
                       /\ findBlock (id (data block)) (forest v) = Some stored
                       /\ rich_text stored = updatedRichText r
                       /\ id stored = id (data block)
                       /\ type stored = type (data block)
                       /\ color stored = color (data block)
                       /\ checked stored = checked (data block)
                       /\ language stored = language (data block)
                       /\ cells stored = cells (data block))).
    { intros v Hv Hl. split; [discriminate|]. intros _.
      split; [reflexivity|]. split; [reflexivity|].
      exists patch, (applyPatch patch (data block)).
      split; [exact Hl|]. split; [exact Rt|]. split.
      - rewrite Hv, findBlock_updateBlock by reflexivity. now rewrite Hb.
      - unfold applyPatch. cbn. rewrite Rt.
        destruct (bp_checked patch), (bp_language patch); subst; repeat split. }
    destruct (faults w) as [|[e|] later]; cbn [withLog withFaults faults forest].
    + rewrite Hb, Ty, String.eqb_refl. apply Fin; reflexivity.
    + reflexivity.
    + rewrite Hb, Ty, String.eqb_refl. apply Fin; reflexivity.
Qed.

(** X13, witness: the paragraph 2 of the sample page. *)
Lemma processBlock_changes_spans_only_witness :
  match processBlock (view (Sample.block 2 "paragraph" ["Shopping"%string], Empty))
          (ustr "Shop") (ustr "Chopp") Sample.milkPage with
  | Ok result w' => p_modified result = false -> w' = Sample.milkPage
  | Throw _ w' => forest w' = forest Sample.milkPage
  | Diverge => False
  end.
Proof.
  pose proof (processBlock_changes_spans_only
                (view (Sample.block 2 "paragraph" ["Shopping"%string], Empty))
                (ustr "Shop") (ustr "Chopp") Sample.milkPage eq_refl) as H.
  cbv zeta in H.
  destruct (processBlock _ _ _ Sample.milkPage); [exact (proj1 H) | exact H | exact H].
Defined.

(** ** The search text is taken literally *)

Lemma startsWith_app (p s : ustring) :
  startsWith p s = true <-> exists rest, s = p ++ rest.
Proof.
  revert s. induction p as [|c p IH]; intros s; cbn [startsWith].
  - split; [intros _; now exists s | reflexivity].
  - destruct s as [|d s]; [split; [discriminate | intros [rest E]; discriminate E]|].
    split.
    + intros H. apply andb_true_iff in H as [H1 H2]. apply N.eqb_eq in H1.
      apply IH in H2 as [rest ->]. exists rest. now subst.
    + intros [rest E]. cbn in E. injection E as -> ->.
      rewrite N.eqb_refl. cbn. apply IH. now exists rest.
Qed.

(** X14. The search text is taken literally, whatever characters it
    holds: the pattern built from it matches at a position exactly when
    the text there starts with the search text. For a non-empty search
    text and a replacement without dollar sign, every span is returned
    with each occurrence, found from left to right without overlap,
    replaced. *)
Theorem search_text_is_taken_literally (searchText replaceText : ustring)
    (richTextArray : list RichText) :
  searchText <> [] ->
  ~ In 36%N replaceText ->
  (forall s rest,
     matchPattern (escapeRegExp searchText) s = Some rest <-> s = searchText ++ rest)
  /\ updatedRichText (searchAndReplaceInRichText richTextArray searchText replaceText)
     = map (substituteItem searchText replaceText) richTextArray.
Proof.
  intros Hp Hr. split; [|now apply searchAndReplace_substitutes].
  intros s rest. rewrite matchPattern_escapeRegExp.
  destruct (startsWith searchText s) eqn:E.
  - apply startsWith_app in E as [rest' ->].
    rewrite skipn_app, skipn_all, Nat.sub_diag. cbn [skipn app].
    split; [intros [= <-]; reflexivity | intros H; apply app_inv_head in H; now subst].
  - split; [discriminate|]. intros ->.
    assert (startsWith searchText (searchText ++ rest) = true)
      by (apply startsWith_app; now exists rest).
    congruence.
Qed.

(** X14, witness: the search text ["a.b"], whose dot is no wildcard. *)
Lemma search_text_is_taken_literally_witness :
  updatedRichText
    (searchAndReplaceInRichText [Sample.span "a.b axb"] (ustr "a.b") (ustr "c"))
  = map (substituteItem (ustr "a.b") (ustr "c")) [Sample.span "a.b axb"].
Proof.
  apply (search_text_is_taken_literally (ustr "a.b") (ustr "c") [Sample.span "a.b axb"]).
  - discriminate.
  - cbn. intuition discriminate.
Defined.

(** ** An empty search text *)

Lemma replaceFrom_empty (r : ustring) :
  ~ In 36%N r ->
  forall s done, replaceFrom [] r done 0 s = r ++ flat_map (fun c => c :: r) s.
Proof.
  intros Hr. induction s as [|c s IH]; intros done.
  - cbn. rewrite getSubstitution_plain by exact Hr. now rewrite app_nil_r.
  - cbn [replaceFrom matchPattern]. rewrite Nat.sub_diag.
    rewrite getSubstitution_plain by exact Hr.
    cbn [flat_map]. rewrite IH. reflexivity.
Qed.

Lemma length_flat_map_cons (r s : ustring) :
  List.length (flat_map (fun c => c :: r) s) = List.length s * S (List.length r).
Proof.
  induction s as [|c s IH]; [reflexivity|].
  cbn [flat_map]. rewrite length_app, IH. cbn [List.length]. lia.
Qed.

(** X15. An empty search text is not rejected by the library: the
    replacement (without dollar sign) is inserted before every
    character and at the end, so with a non-empty replacement every
    text is changed. *)
Theorem empty_search_text_inserts_everywhere (s replaceText : ustring) :
  ~ In 36%N replaceText ->
  replaceAll s [] replaceText
  = replaceText ++ flat_map (fun c => c :: replaceText) s
  /\ (replaceText <> [] -> replaceAll s [] replaceText <> s).
Proof.
  intros Hr.
  assert (E : replaceAll s [] replaceText
              = replaceText ++ flat_map (fun c => c :: replaceText) s).
  { unfold replaceAll. cbn [escapeRegExp]. now apply replaceFrom_empty. }
  split; [exact E|]. intros Hn H. rewrite E in H.
  apply (f_equal (@List.length N)) in H.
  rewrite length_app, length_flat_map_cons in H.
  destruct replaceText as [|c r]; [congruence|]. cbn [List.length] in H. lia.
Qed.

(** X15, witness: a dash inserted into ["ab"]. *)
Lemma empty_search_text_inserts_everywhere_witness :
  replaceAll (ustr "ab") [] (ustr "-") = ustr "-a-b-".
Proof.
  apply (empty_search_text_inserts_everywhere (ustr "ab") (ustr "-")).
  cbn. intuition discriminate.
Defined.

(** ** Counting before replacing *)

Import FindReplace.

Lemma countFrom_none (pattern r : ustring) :
  forall s done,
    countFrom pattern 0 s = 0 -> replaceFrom pattern r done 0 s = s.
Proof.
  induction s as [|c s IH]; intros done H.
  - cbn in *. destruct (matchPattern pattern []); [discriminate | reflexivity].
  - cbn [countFrom replaceFrom] in *.
    destruct (matchPattern pattern (c :: s)); [discriminate|].
    f_equal. now apply IH.
Qed.

Lemma countFrom_lengths (p r : ustring) :
  p <> [] -> ~ In 36%N r ->
  forall s skip, skip <= List.length s ->
    List.length (substituteFrom p r skip s)
    + countFrom (escapeRegExp p) skip s * List.length p + skip
    = List.length s + countFrom (escapeRegExp p) skip s * List.length r.
Proof.
  intros Hp Hr. induction s as [|c s IH]; intros skip Hs.
  - cbn [List.length] in Hs. assert (skip = 0) by lia. subst skip.
    cbn [substituteFrom countFrom]. rewrite matchPattern_escapeRegExp.
    destruct p as [|d p]; [congruence|]. cbn. reflexivity.
  - cbn [substituteFrom countFrom]. destruct skip as [|k].
    + rewrite matchPattern_escapeRegExp.
      destruct (startsWith p (c :: s)) eqn:E.
      * pose proof (startsWith_length _ _ E) as L.
        rewrite length_skipn.
        destruct p as [|d p]; [congruence|].
        cbn [List.length] in *.
        replace (S (List.length s) - (S (List.length s) - S (List.length p)))
          with (S (List.length p)) by lia.
        cbn [Nat.pred]. specialize (IH (List.length p) ltac:(lia)).
        rewrite length_app. lia.
      * specialize (IH 0 ltac:(lia)). cbn [List.length]. lia.
    + cbn [List.length] in *. specialize (IH k ltac:(lia)). lia.
Qed.

(** X16. The count of the dry-run command predicts the
    substitution: for a non-empty search text, a text with no
    occurrence counted is left unchanged by the replacement, and for a
    replacement without dollar sign each counted occurrence changes the
    length by the difference of the two lengths. *)
Theorem dry_run_count_predicts_replacement (s searchText replaceText : ustring) :
  searchText <> [] ->
  (countMatches s searchText = 0 -> replaceAll s searchText replaceText = s)
  /\ (~ In 36%N replaceText ->
      List.length (replaceAll s searchText replaceText)
      + countMatches s searchText * List.length searchText
      = List.length s + countMatches s searchText * List.length replaceText).
Proof.
  intros Hp. split.
  - intros H. now apply countFrom_none.
  - intros Hr. rewrite replaceAll_substituteAll by assumption.
    pose proof (countFrom_lengths searchText replaceText Hp Hr s 0 ltac:(lia)) as H.
    unfold countMatches, substituteAll. lia.
Qed.

(** X16, witness: the three occurrences of ["foo"] in ["foo is foofoo"]. *)
Lemma dry_run_count_predicts_replacement_witness :
  List.length (replaceAll (ustr "foo is foofoo") (ustr "foo") (ustr "ab"))
  + countMatches (ustr "foo is foofoo") (ustr "foo") * List.length (ustr "foo")
  = List.length (ustr "foo is foofoo")
    + countMatches (ustr "foo is foofoo") (ustr "foo") * List.length (ustr "ab").
Proof.
  apply (dry_run_count_predicts_replacement (ustr "foo is foofoo") (ustr "foo") (ustr "ab")).
  - discriminate.
  - cbn. intuition discriminate.
Defined.

End Substitution.

(** ** The text and the slugs of the speech workflow *)

Section WorkflowText.
Local Open Scope nat_scope.
Import JS Notion Converter Walk Extractor Workflow.

Lemma squeezeNewlines_shortRuns (s : ustring) :
  forall run, run <= 2 -> shortRuns run (squeezeNewlinesFrom run s) = true.
Proof.
  induction s as [|c s IH]; intros run Hr; [reflexivity|].
  cbn [squeezeNewlinesFrom]. destruct (N.eqb c 10) eqn:E.
  - destruct (Nat.ltb_spec run 2) as [L|L].
    + cbn [shortRuns]. rewrite E. destruct (Nat.ltb_spec run 2); [|lia].
      cbn [andb]. apply IH. lia.
    + apply IH. lia.
  - cbn [shortRuns]. rewrite E. apply IH. lia.
Qed.

Lemma squeezeSpaces_shortRuns (s : ustring) :
  forall run inRun, (inRun = true -> run = 0) ->
    shortRuns run s = true -> shortRuns run (squeezeSpacesFrom inRun s) = true.
Proof.
  induction s as [|c s IH]; intros run inRun Hb H; [reflexivity|].
  cbn [squeezeSpacesFrom shortRuns] in *.
  destruct (N.eqb_spec c 32) as [->|Hc].
  - cbn in H. destruct inRun.
    + rewrite (Hb eq_refl). apply IH; auto.
    + cbn [shortRuns]. cbn. apply IH; auto.
  - cbn [shortRuns]. destruct (N.eqb c 10).
    + apply andb_true_iff in H as [H1 H2]. rewrite H1. cbn [andb].
      apply IH; [discriminate | exact H2].
    + apply IH; [discriminate | exact H].
Qed.

Lemma shortRuns_no_pair (s : ustring) (run : nat) :
  shortRuns (S run) s = true -> startsWith [10%N; 10%N] s = false.
Proof.
  destruct s as [|c [|d s]]; cbn [startsWith shortRuns];
    rewrite ?(N.eqb_sym 10 c), ?(N.eqb_sym 10 d).
  - reflexivity.
  - intros _. apply andb_false_r.
  - destruct (N.eqb c 10), (N.eqb d 10); cbn [andb]; try reflexivity.
    intros H. apply andb_true_iff in H as [_ H]. apply andb_true_iff in H as [H _].
    apply Nat.ltb_lt in H. lia.
Qed.

Lemma shortRuns_includes (s : ustring) :
  forall run, shortRuns run s = true -> includes s [10%N; 10%N; 10%N] = false.
Proof.
  induction s as [|c s IH]; intros run H; [reflexivity|].
  cbn [includes]. cbn [shortRuns] in H.
  change (startsWith [10%N; 10%N; 10%N] (c :: s))
    with (N.eqb 10 c && startsWith [10%N; 10%N] s).
  rewrite (N.eqb_sym 10 c).
  destruct (N.eqb c 10).
  - apply andb_true_iff in H as [_ H].
    now rewrite (IH _ H), (shortRuns_no_pair s run H).
  - now rewrite (IH _ H).
Qed.

Lemma headIs_squeezeSpaces_true (s : ustring) :
  headIs isSpace (squeezeSpacesFrom true s) = false.
Proof.
  induction s as [|c s IH]; [reflexivity|]. cbn [squeezeSpacesFrom].
  destruct (N.eqb c 32) eqn:E; [exact IH | cbn; exact E].
Qed.

Lemma squeezeSpaces_no_runs (b : bool) (s : ustring) :
  adjacent isSpace isSpace (squeezeSpacesFrom b s) = false.
Proof.
  revert b. induction s as [|c s IH]; intros b; [reflexivity|].
  cbn [squeezeSpacesFrom]. destruct (N.eqb c 32) eqn:E.
  - destruct b; [apply IH|].
    rewrite adjacent_cons, headIs_squeezeSpaces_true, andb_false_r. apply IH.
  - rewrite adjacent_cons. unfold isSpace at 1. rewrite E. apply IH.
Qed.

Lemma squeezeNewlines_visible (run : nat) (s : ustring) :
  visible (squeezeNewlinesFrom run s) = visible s.
Proof.
  revert run. induction s as [|c s IH]; intros run; [reflexivity|].
  cbn [squeezeNewlinesFrom]. destruct (N.eqb_spec c 10) as [->|Hc].
  - destruct (Nat.ltb run 2).
    + rewrite !visible_cons_ws by reflexivity. apply IH.
    + rewrite visible_cons_ws by reflexivity. apply IH.
  - destruct (isWhiteSpace c) eqn:W.
    + rewrite !visible_cons_ws by exact W. apply IH.
    + rewrite !visible_cons_nws by exact W. f_equal. apply IH.
Qed.

Lemma squeezeSpaces_visible (b : bool) (s : ustring) :
  visible (squeezeSpacesFrom b s) = visible s.
Proof.
  revert b. induction s as [|c s IH]; intros b; [reflexivity|].
  cbn [squeezeSpacesFrom]. destruct (N.eqb_spec c 32) as [->|Hc].
  - destruct b.
    + rewrite visible_cons_ws by reflexivity. apply IH.
    + rewrite !visible_cons_ws by reflexivity. apply IH.
  - destruct (isWhiteSpace c) eqn:W.
    + rewrite !visible_cons_ws by exact W. apply IH.
    + rewrite !visible_cons_nws by exact W. f_equal. apply IH.
Qed.

(** X17. The text the speech workflow assembles from the blocks of
    a page never holds three line feeds in a row nor two spaces in a
    row, and the clean-up deletes white space only: the other
    characters of the collected parts are all kept, in order. *)
Theorem workflow_text_is_squeezed (blocks : list Block) :
  includes (assemble blocks) [10%N; 10%N; 10%N] = false
  /\ adjacent isSpace isSpace (assemble blocks) = false
  /\ visible (assemble blocks) = visible (join0 (contentPartsOf blocks)).
Proof.
  unfold assemble, squeezeSpaces, squeezeNewlines. split; [|split].
  - apply (shortRuns_includes _ 0). apply squeezeSpaces_shortRuns; [discriminate|].
    apply squeezeNewlines_shortRuns. lia.
  - apply squeezeSpaces_no_runs.
  - now rewrite squeezeSpaces_visible, squeezeNewlines_visible, visible_trim.
Qed.

(** ** Slugs *)

Lemma headIs_hyphenate_true (s : ustring) :
  headIs isHyphen (hyphenateFrom true s) = false.
Proof.
  induction s as [|c s IH]; [reflexivity|]. cbn [hyphenateFrom].
  destruct (isSlugChar c) eqn:E; [|exact IH].
  cbn. unfold isHyphen. destruct (N.eqb_spec c 45) as [->|]; [discriminate E | reflexivity].
Qed.

Lemma hyphenate_no_runs (b : bool) (s : ustring) :
  adjacent isHyphen isHyphen (hyphenateFrom b s) = false.
Proof.
  revert b. induction s as [|c s IH]; intros b; [reflexivity|].
  cbn [hyphenateFrom]. destruct (isSlugChar c) eqn:E.
  - rewrite adjacent_cons.
    replace (isHyphen c) with false; [apply IH|].
    unfold isHyphen. destruct (N.eqb_spec c 45) as [->|]; [discriminate E | reflexivity].
  - destruct b; [apply IH|].
    rewrite adjacent_cons, headIs_hyphenate_true, andb_false_r. apply IH.
Qed.

Lemma hyphenate_safe (b : bool) (s : ustring) :
  forallb slugSafe (hyphenateFrom b s) = true.
Proof.
  revert b. induction s as [|c s IH]; intros b; [reflexivity|].
  cbn [hyphenateFrom]. destruct (isSlugChar c) eqn:E.
  - cbn [forallb]. unfold slugSafe at 1. rewrite E. apply IH.
  - destruct b; [apply IH|]. cbn [forallb]. rewrite IH. reflexivity.
Qed.

Lemma forallb_factor (f : N -> bool) (a t b : ustring) :
  forallb f (a ++ t ++ b) = true -> forallb f t = true.
Proof.
  rewrite !forallb_app. intros H.
  apply andb_true_iff in H as [_ H]. now apply andb_true_iff in H as [H _].
Qed.

(** X18. The slug computed from a title, given the title in lower
    case, is made of lower-case letters, digits and hyphens only, has
    no two hyphens in a row and neither starts nor ends with a hyphen;
    the slug of a file name has the same characters and at most 50 of
    them. *)
Theorem slug_is_url_safe (lowered : ustring) :
  let slug := slugOfLowered lowered in
  forallb slugSafe slug = true
  /\ adjacent isHyphen isHyphen slug = false
  /\ headIs isHyphen slug = false
  /\ headIs isHyphen (rev slug) = false
  /\ forallb slugSafe (fileSlugOfLowered lowered) = true
  /\ List.length (fileSlugOfLowered lowered) <= 50.
Proof.
  cbv zeta. unfold slugOfLowered, stripHyphens.
  destruct (strip_factor isHyphen (hyphenateFrom false lowered))
    as [[a [b E]] [H1 H2]].
  set (slug := rev (dropWhile isHyphen (rev (dropWhile isHyphen (hyphenateFrom false lowered))))) in *.
  assert (S : forallb slugSafe slug = true).
  { apply (forallb_factor slugSafe a slug b). rewrite <- E. apply hyphenate_safe. }
  split; [exact S|]. split.
  { apply (adjacent_factor _ _ a slug b). rewrite <- E. apply hyphenate_no_runs. }
  split; [exact H1|]. split; [exact H2|].
  unfold fileSlugOfLowered, slugOfLowered, stripHyphens. fold slug.
  unfold substring, clamp.
  split.
  - rewrite <- (firstn_skipn (Z.to_nat (Z.min (Z.max 0 (Z.min 0 (len slug)))
                                            (Z.max 0 (Z.min 50 (len slug))))) slug) in S.
    rewrite forallb_app in S. apply andb_true_iff in S as [_ S].
    set (t := skipn _ slug) in *.
    rewrite <- (firstn_skipn (Z.to_nat (Z.max (Z.max 0 (Z.min 0 (len slug)))
                                      (Z.max 0 (Z.min 50 (len slug)))
                                    - Z.min (Z.max 0 (Z.min 0 (len slug)))
                                        (Z.max 0 (Z.min 50 (len slug))))) t) in S.
    rewrite forallb_app in S. now apply andb_true_iff in S as [S _].
  - rewrite length_firstn. pose proof (len_nonneg slug). lia.
Qed.

End WorkflowText.

(** ** The books of a find-and-replace run *)

Section FindReplaceBooks.
Local Open Scope nat_scope.
Import JS Notion Converter Walk FindReplace.

Lemma eachBlock_books (searchText replaceText : ustring) :
  forall blocks pageModified pageReplacements,
    (pageModified = true -> 1 <= pageReplacements) ->
    hoare anyState (eachBlock searchText replaceText blocks pageModified pageReplacements)
      (fun r => fst r = true -> 1 <= snd r).
Proof.
  induction blocks as [|block blocks IH]; intros pm pr H; cbn [eachBlock].
  - now apply hoare_ret.
  - eapply hoare_bind; [apply hoare_any|]. intros [result|e] _.
    + destruct (TextProcessor.p_modified result); apply IH; [lia | exact H].
    + now apply IH.
Qed.

Lemma eachPage_books (fuel : nat) (searchText replaceText : ustring) :
  forall pages results seen,
    booked seen results ->
    hoare anyState (eachPage fuel searchText replaceText pages results)
      (fun r => booked (seen + List.length pages) r
                /\ totalPages r = totalPages results).
Proof.
  induction pages as [|page pages IH]; intros results seen B; cbn [eachPage].
  - apply hoare_ret. rewrite Nat.add_0_r. now split.
  - eapply hoare_bind.
    + apply hoare_attempt. eapply hoare_bind; [apply hoare_any|]. intros blocks _.
      apply (eachBlock_books searchText replaceText blocks false 0). discriminate.
    + intros [[pageModified pageReplacements]|pageError] Q.
      * cbn [fst snd] in Q. destruct B as [B1 [B2 B3]].
        eapply hoare_weaken; [|apply (IH _ (S seen))].
        -- cbn [List.length]. intros r [Hr Ht]. rewrite Nat.add_succ_r. split; [exact Hr|].
           rewrite Ht. now destruct pageModified.
        -- destruct pageModified; [|repeat split; auto; lia].
           unfold booked. cbn [totalReplacements modifiedPages FindReplace.errors].
           rewrite map_app, list_sum_app, length_app. cbn [map List.length replacements].
           change (list_sum [pageReplacements]) with (pageReplacements + 0).
           split; [lia|]. split; [|lia].
           apply Forall_app. split; [exact B2|]. constructor; [|constructor]. cbn. auto.
      * destruct B as [B1 [B2 B3]].
        eapply hoare_weaken; [|apply (IH _ (S seen))].
        -- cbn [List.length]. intros r [Hr Ht]. rewrite Nat.add_succ_r. split; [exact Hr|].
           exact Ht.
        -- unfold booked. cbn [totalReplacements modifiedPages FindReplace.errors].
           rewrite length_app. cbn [List.length]. split; [exact B1|]. split; [exact B2|]. lia.
Qed.

Lemma findReplace_eachBlock_neverThrows (searchText replaceText : ustring) :
  forall blocks pageModified pageReplacements,
    neverThrows (eachBlock searchText replaceText blocks pageModified pageReplacements).
Proof.
  induction blocks as [|block blocks IH]; intros pm pr; cbn [eachBlock];
    [apply ret_neverThrows|].
  apply bind_neverThrows; [apply attempt_neverThrows|].
  intros [result|e]; [destruct (TextProcessor.p_modified result)|]; apply IH.
Qed.

Lemma findReplace_eachPage_neverThrows (fuel : nat) (searchText replaceText : ustring) :
  forall pages results, neverThrows (eachPage fuel searchText replaceText pages results).
Proof.
  induction pages as [|page pages IH]; intros results; cbn [eachPage];
    [apply ret_neverThrows|].
  apply bind_neverThrows; [apply attempt_neverThrows|].
  intros [[pageModified pageReplacements]|e]; apply IH.
Qed.

(** X19. Whenever [findAndReplaceInWorkspace] returns, its books
    add up: [totalPages] is the number of pages the search returned,
    [totalReplacements] is the sum of the replacements of the modified
    pages, each of which has at least one, and the modified pages and
    the failed pages together are at most the pages. It throws only the
    error of a failed search for the pages: a failure inside a page or
    a block never aborts the run. *)
Theorem find_replace_books_add_up (fuel : nat) (searchText replaceText : ustring) (w : World) :
  match findAndReplaceInWorkspace fuel searchText replaceText w with
  | Ok r _ =>
      totalReplacements r = list_sum (map replacements (modifiedPages r))
      /\ Forall (fun m => 1 <= replacements m) (modifiedPages r)
      /\ List.length (modifiedPages r) + List.length (FindReplace.errors r) <= totalPages r
      /\ exists pages w1,
           getAllPages fuel w = Ok pages w1 /\ totalPages r = List.length pages
  | Throw error w' => getAllPages fuel w = Throw error w'
  | Diverge => True
  end.
Proof.
  unfold findAndReplaceInWorkspace, tryCatch, bind.
  destruct (getAllPages fuel w) as [pages w1|e w1|] eqn:G; [|reflexivity|exact Logic.I].
  pose proof (eachPage_books fuel searchText replaceText pages
                {| totalPages := List.length pages; modifiedPages := []; errors := [];
                   totalReplacements := 0 |} 0) as H.
  specialize (H ltac:(repeat split; auto) w1 Logic.I).
  pose proof (findReplace_eachPage_neverThrows fuel searchText replaceText pages
                {| totalPages := List.length pages; modifiedPages := []; errors := [];
                   totalReplacements := 0 |} w1) as NT.
  destruct (eachPage _ _ _ _ _ w1) as [r w2|e w2|] eqn:E.
  - destruct H as [_ [[B1 [B2 B3]] Ht]]. cbn in Ht, B3.
    repeat split; auto; try lia.
    exists pages, w1. now split.
  - exfalso. exact (NT e w2 eq_refl).
  - exact Logic.I.
Qed.

End FindReplaceBooks.

(** ** The block search *)

Section BlockSearchProofs.
Local Open Scope nat_scope.
Import JS Notion Fetcher Converter Walk BlockSearch.

Lemma list_served (c : nat) (ks : Forest) (k : nat) (cursor : option nat) (w : World) :
  NoDup (ids ks) -> faults w = [] ->
  findKids c (forest w) = Some ks ->
  cursorAt (siblings ks) k cursor ->
  blocks_children_list c cursor 100 w
  = Ok (pageOf 100 (skipn k (siblings ks)))
       (withLog (log w ++ [CList c cursor 100]) w).
Proof.
  intros N Fl Fk [[-> ->]|[node [Hn ->]]];
    unfold blocks_children_list, request, ret;
    cbn; rewrite Fl, Fk.
  - reflexivity.
  - rewrite (fromCursor_skipn (siblings ks) k node); [reflexivity| |exact Hn].
    apply (rootIds_NoDup ks N).
Qed.

Lemma below_siblings (blockType : string) (recursive : bool) (f : Forest) :
  below blockType recursive f = flat_map (foundAt blockType recursive) (siblings f).
Proof.
  unfold below, foundAt. induction f as [|b kids IHk rest IHr]; [now destruct recursive|].
  destruct recursive; cbn [allBlocks siblings map flat_map filter snd].
  - rewrite filter_app, IHr. unfold below.
    destruct (isType blockType (view (b, kids))); reflexivity.
  - rewrite IHr. destruct (isType blockType (view (b, kids))); cbn; now rewrite ?app_nil_r.
Qed.

Section SearchReliable.
Variable blockType : string.
Variable recursive : bool.
Variable recur : nat -> list Block -> M (list Block).
Variable F : Forest.

Lemma eachFound_reliable (l : list (BlockData * Forest)) :
  (forall n, In n l -> recursive = true -> snd n <> Empty ->
     forall blocks w, steady F w ->
       exists lg, recur (id (fst n)) blocks w
                  = Ok (blocks ++ below blockType recursive (snd n)) (withLog (log w ++ lg) w)) ->
  forall blocks w, steady F w ->
    exists lg, eachFound blockType recursive recur (map view l) blocks w
               = Ok (blocks ++ flat_map (foundAt blockType recursive) l) (withLog (log w ++ lg) w).
Proof.
  induction l as [|n l IH]; intros Hrec blocks w Hw.
  - exists []. cbn. unfold ret. rewrite !app_nil_r. destruct w; reflexivity.
  - cbn [map eachFound flat_map].
    set (blocks1 := if isType blockType (view n) then blocks ++ [view n] else blocks).
    assert (B1 : blocks1 = blocks ++ filter (isType blockType) [view n]).
    { unfold blocks1. cbn [filter]. destruct (isType blockType (view n));
        [reflexivity | now rewrite app_nil_r]. }
    destruct (recursive && has_children (view n)) eqn:D.
    + apply andb_true_iff in D as [R Hc].
      assert (Hk : snd n <> Empty).
      { intros E. unfold view in Hc. cbn in Hc. rewrite E in Hc. discriminate. }
      unfold bind at 1.
      destruct (Hrec n (or_introl eq_refl) R Hk blocks1 w Hw) as [lg1 E1].
      change (id (data (view n))) with (id (fst n)). rewrite E1.
      destruct (IH (fun m Hm => Hrec m (or_intror Hm))
                  (blocks1 ++ below blockType recursive (snd n))
                  (withLog (log w ++ lg1) w) Hw) as [lg2 E2].
      exists (lg1 ++ lg2). rewrite E2. cbn. f_equal.
      * unfold foundAt at 2. rewrite R, B1, <- !app_assoc. reflexivity.
      * now rewrite app_assoc.
    + destruct (IH (fun m Hm => Hrec m (or_intror Hm)) blocks1 w Hw) as [lg2 E2].
      exists lg2. rewrite E2. f_equal. rewrite B1, <- !app_assoc. do 2 f_equal.
      unfold foundAt. f_equal.
      destruct recursive; [|now rewrite app_nil_r].
      cbn in D. unfold view in D. cbn in D.
      destruct (snd n); [now rewrite app_nil_r | discriminate].
Qed.

Lemma searchPages_reliable (c : nat) (ks : Forest) :
  NoDup (ids ks) -> findKids c F = Some ks ->
  (forall n, In n (siblings ks) -> recursive = true -> snd n <> Empty ->
     forall blocks w, steady F w ->
       exists lg, recur (id (fst n)) blocks w
                  = Ok (blocks ++ below blockType recursive (snd n)) (withLog (log w ++ lg) w)) ->
  forall n k cursor blocks w,
    steady F w -> cursorAt (siblings ks) k cursor ->
    List.length (skipn k (siblings ks)) < n ->
    exists lg, searchPages blockType recursive recur n c cursor blocks w
               = Ok (blocks ++ flat_map (foundAt blockType recursive) (skipn k (siblings ks)))
                    (withLog (log w ++ lg) w).
Proof.
  intros N Fk Hrec. induction n as [|n IH]; intros k cursor blocks w Hw Hc Hn; [lia|].
  cbn [searchPages]. unfold bind at 1.
  destruct Hw as [HF Hf].
  rewrite (list_served c ks k cursor w N Hf ltac:(now rewrite HF) Hc).
  set (l := skipn k (siblings ks)) in *.
  set (w1 := withLog (log w ++ [CList c cursor 100]) w).
  assert (Hw1 : steady F w1) by (split; assumption).
  unfold bind at 1. unfold pageOf. cbn [results].
  destruct (eachFound_reliable (firstn 100 l)
              (fun m Hm => Hrec m (in_skipn_in k _ m (in_firstn_in 100 _ m Hm)))
              blocks w1 Hw1) as [lg1 E1].
  rewrite E1. cbn [has_more next_cursor].
  destruct (Nat.ltb_spec 100 (List.length l)) as [Lt|Ge].
  - destruct (nth_error l 100) as [node|] eqn:Hnode;
      [|apply nth_error_None in Hnode; lia].
    cbn [option_map].
    assert (Hk : nth_error (siblings ks) (100 + k) = Some node).
    { unfold l in Hnode. rewrite nth_error_skipn in Hnode.
      now rewrite (Nat.add_comm 100 k). }
    destruct (IH (100 + k) (Some (id (fst node))) (blocks ++ flat_map (foundAt blockType recursive) (firstn 100 l))
                (withLog (log w1 ++ lg1) w1) Hw1
                ltac:(right; exists node; auto)
                ltac:(rewrite <- skipn_skipn; fold l; rewrite length_skipn; lia))
      as [lg2 E2].
    rewrite E2. exists ([CList c cursor 100] ++ lg1 ++ lg2). unfold w1.
    cbn [withLog log forest searchable next_id schema props faults console]. f_equal.
    + rewrite <- app_assoc. f_equal.
      rewrite <- skipn_skipn. fold l. rewrite <- flat_map_app.
      now rewrite firstn_skipn.
    + rewrite <- !app_assoc. reflexivity.
  - exists ([CList c cursor 100] ++ lg1). unfold ret, w1.
    cbn [withLog log forest searchable next_id schema props faults console]. f_equal.
    + rewrite firstn_all2 by lia. reflexivity.
    + rewrite <- !app_assoc. reflexivity.
Qed.
End SearchReliable.

Lemma searchBlocks_reliable (blockType : string) (recursive : bool) (F : Forest) :
  NoDup (ids F) ->
  forall N ks, size ks < N ->
    forall c blocks w fuel,
      steady F w -> findKids c F = Some ks -> size ks + 2 <= fuel ->
      exists lg, searchBlocks fuel blockType recursive c blocks w
                 = Ok (blocks ++ below blockType recursive ks) (withLog (log w ++ lg) w).
Proof.
  intros NF. induction N as [|N IH]; intros ks Hs c blocks w fuel Hw Fk Hfuel; [lia|].
  destruct fuel as [|fuel]; [lia|]. cbn [searchBlocks].
  pose proof (findKids_NoDup c F ks NF Fk) as Nk.
  destruct (searchPages_reliable blockType recursive (searchBlocks fuel blockType recursive)
              F c ks Nk Fk) with
    (n := fuel) (k := 0) (cursor := @None nat) (blocks := blocks) (w := w)
    as [lg E].
  - intros n Hn R Hk blocks' w' Hw'.
    apply (IH (snd n)).
    + pose proof (size_sibling n ks Hn). lia.
    + exact Hw'.
    + apply (findKids_child c F ks n NF Fk Hn).
    + pose proof (size_sibling n ks Hn). lia.
  - exact Hw.
  - left. auto.
  - cbn [skipn]. pose proof (length_siblings ks). lia.
  - exists lg. rewrite E. cbn [skipn]. now rewrite <- below_siblings.
Qed.

(** A failed listing is not caught. *)
Lemma findBlocksOfType_first_failure (fuel pageId : nat) (blockType : string)
    (recursive : bool) (w : World) (message : ustring) (later : list (option ustring)) :
  faults w = Some message :: later ->
  findBlocksOfType (S (S fuel)) pageId blockType recursive w
  = Throw message (withFaults later (withLog (log w ++ [CList pageId None 100]) w)).
Proof.
  intros Hf. unfold findBlocksOfType. cbn [searchBlocks searchPages].
  unfold bind, blocks_children_list, request. cbn. rewrite Hf. reflexivity.
Qed.

(** X20. On a provider whose calls succeed, for a container of a
    workspace with unique identifiers and with fuel above the size of
    its subtree, [findBlocksOfType] returns the blocks of the type in
    pre-order: every such block at any depth when recursive (it
    descends into sub-pages too), those at the top level only when not.
    It changes nothing but the log of calls. A failed listing is not
    caught: the search throws. *)
Theorem findBlocksOfType_finds_every_block (w : World) (pageId : nat) (kids : Forest)
    (blockType : string) (fuel : nat) :
  NoDup (ids (forest w)) ->
  faults w = [] ->
  findKids pageId (forest w) = Some kids ->
  size kids + 2 <= fuel ->
  (exists calls,
      findBlocksOfType fuel pageId blockType true w
      = Ok (filter (isType blockType) (allBlocks kids)) (withLog (log w ++ calls) w))
  /\ (exists calls,
      findBlocksOfType fuel pageId blockType false w
      = Ok (filter (isType blockType) (map view (siblings kids)))
           (withLog (log w ++ calls) w))
  /\ (forall message recursive,
        findBlocksOfType fuel pageId blockType recursive (withFaults [Some message] w)
        = Throw message (withFaults [] (withLog (log w ++ [CList pageId None 100]) w))).
Proof.
  intros N Hf Hk Hfuel. split; [|split].
  - apply (searchBlocks_reliable blockType true (forest w) N (S (size kids)) kids
             ltac:(lia) pageId [] w fuel); [split; [reflexivity | exact Hf] | exact Hk | exact Hfuel].
  - apply (searchBlocks_reliable blockType false (forest w) N (S (size kids)) kids
             ltac:(lia) pageId [] w fuel); [split; [reflexivity | exact Hf] | exact Hk | exact Hfuel].
  - intros message recursive. destruct fuel as [|[|fuel]]; [lia|lia|].
    rewrite (findBlocksOfType_first_failure fuel pageId blockType recursive
               (withFaults [Some message] w) message []); [|reflexivity].
    destruct w; reflexivity.
Qed.

(** X20, witness: the to-do inside the sub-page of the sample. *)
Lemma findBlocksOfType_finds_every_block_witness :
  exists calls,
    findBlocksOfType 10 1 "to_do" true Sample.subPageWorld
    = Ok (filter (isType "to_do")
            (allBlocks (match forest Sample.subPageWorld with Sib _ kids _ => kids | Empty => Empty end)))
         (withLog (log Sample.subPageWorld ++ calls) Sample.subPageWorld).
Proof.
  apply (findBlocksOfType_finds_every_block Sample.subPageWorld 1 _ "to_do" 10).
  - repeat constructor; cbn; intuition discriminate.
  - reflexivity.
  - reflexivity.
  - cbn. lia.
Defined.

End BlockSearchProofs.
